(** * Link resolution over a content-delivery response (src/index.js)

    A shallow embedding of the resolver: JavaScript values live in an explicit
    heap, so that the in-place mutation of records, the sharing of resolved
    records by reference and the cycles this creates are all visible.
    Functions that can throw return a [result]; recursion that follows the
    heap carries a fuel that bounds the depth of the call stack. *)

From Stdlib Require Import ZArith Ascii Lia Bool.
From Stdlib Require String.
From stdpp Require Import base option list gmap strings pretty.

Set Warnings "-register-all,-clear-no-such-hyp,-deprecated".

(** ** Values and the heap *)

Abbreviation loc := nat.

(** Primitive values. Numbers are the integer-valued ones, [PNum z] being the
    Number the integer literal [z] denotes; strings are sequences of code
    units below 256. *)
Inductive prim :=
  | PUndef
  | PNull
  | PBool (b : bool)
  | PNum (z : Z)
  | PStr (s : string).

Inductive value :=
  | VPrim (p : prim)
  | VRef (l : loc).

(** A heap object is a plain object (own enumerable properties, in
    enumeration order) or an array without holes. *)
Inductive obj :=
  | OObj (props : list (string * value))
  | OArr (elems : list value).

Abbreviation heap := (list obj).

(** The immutable trees a response is made of before it is cloned. The
    properties of an object are listed in the order the program enumerates
    them. *)
Inductive json :=
  | JPrim (p : prim)
  | JArr (elems : list json)
  | JObj (props : list (string * json)).

#[global] Instance prim_eq_dec : EqDecision prim.
Proof. solve_decision. Defined.
#[global] Instance value_eq_dec : EqDecision value.
Proof. solve_decision. Defined.
#[global] Instance obj_eq_dec : EqDecision obj.
Proof. solve_decision. Defined.

(** [const UNRESOLVED_LINK = {}]: the module allocates one empty object when
    it is loaded; it is the first object of every heap. *)
Definition UNRESOLVED_LINK : loc := 0.
Definition initial_heap : heap := [OObj []].

(** ** Results: normal completion, a thrown exception, or stack exhaustion *)

Inductive exn :=
  | TypeError (msg : string)
  | Error (msg : string).

Inductive result (A : Type) :=
  | Ok (a : A)
  | Throw (e : exn)
  | OutOfFuel.
Arguments Ok {A} a.
Arguments Throw {A} e.
Arguments OutOfFuel {A}.

#[global] Instance result_ret : MRet result := fun A a => Ok a.
#[global] Instance result_bind : MBind result := fun A B f m =>
  match m with
  | Ok a => f a
  | Throw e => Throw e
  | OutOfFuel => OutOfFuel
  end.

(** Monadic map and left fold, in evaluation order. *)
Fixpoint mapR {A B} (f : A → result B) (xs : list A) : result (list B) :=
  match xs with
  | [] => Ok []
  | x :: xs' => y ← f x; ys ← mapR f xs'; Ok (y :: ys)
  end.

Fixpoint foldR {A S} (f : S → A → result S) (s : S) (xs : list A) : result S :=
  match xs with
  | [] => Ok s
  | x :: xs' => s' ← f s x; foldR f s' xs'
  end.

(** ** Numbers

    [PNum z] is the Number the integer literal [z] denotes: [z] itself up to
    2^53 in magnitude, beyond that the nearest double, ties going to the even
    mantissa, and an infinity from 2^1024 on. *)
Definition to_double (n : Z) : Z :=
  if (n <? 2 ^ 53)%Z then n
  else
    let e := (Z.log2 n - 52)%Z in
    let m := Z.shiftr n e in
    let r := (n - Z.shiftl m e)%Z in
    let half := Z.shiftl 1 (e - 1) in
    let m' := if (half <? r)%Z || ((r =? half)%Z && Z.odd m) then (m + 1)%Z else m in
    Z.shiftl m' e.

(** The decimal [c] reads back as the double [v], which is at least 2^53:
    it lies between the midpoints to the neighbours of [v], the midpoints
    included when the mantissa of [v] is even. *)
Definition reads_as (v c : Z) : bool :=
  let e := (Z.log2 v - 52)%Z in
  let m := Z.shiftr v e in
  let below := (if (m =? 2 ^ 52)%Z then 2 ^ e else 2 ^ (e + 1))%Z in
  let above := (2 ^ (e + 1))%Z in
  if Z.even m
  then ((4 * v - below <=? 4 * c) && (4 * c <=? 4 * v + above))%Z
  else ((4 * v - below <? 4 * c) && (4 * c <? 4 * v + above))%Z.

Definition decimal_length (n : Z) : Z := Z.of_nat (String.length (pretty n)).

(** The decimal with the fewest significant digits that reads back as [v],
    the nearest to [v] when there are two, tried from [k] significant digits
    on. *)
Fixpoint shortest_from (fuel : nat) (v k : Z) : Z :=
  match fuel with
  | 0 => v
  | S fuel' =>
      let p := (10 ^ (decimal_length v - k))%Z in
      let lower := (v / p * p)%Z in
      let upper := (lower + p)%Z in
      match reads_as v lower, reads_as v upper with
      | true, true =>
          if (v - lower <? upper - v)%Z then lower
          else if (upper - v <? v - lower)%Z then upper
          else if Z.even (v / p) then lower else upper
      | true, false => lower
      | false, true => upper
      | false, false => shortest_from fuel' v (k + 1)%Z
      end
  end.

Definition shortest (v : Z) : Z :=
  if (v <? 2 ^ 53)%Z then v else shortest_from (Z.to_nat (decimal_length v)) v 1.

Fixpoint strip_zeros (fuel : nat) (n : Z) : Z :=
  match fuel with
  | 0 => n
  | S fuel' => if (n mod 10 =? 0)%Z then strip_zeros fuel' (n / 10)%Z else n
  end.

(** [Number::toString] of a non-negative integer-valued Number: the digits,
    and from 10^21 on the exponent form. *)
Definition magnitude_to_string (v : Z) : string :=
  if (2 ^ 1024 <=? v)%Z then "Infinity"
  else
    let c := shortest v in
    let n := decimal_length c in
    if (n <=? 21)%Z then pretty c
    else
      match pretty (strip_zeros (Z.to_nat n) c) with
      | String d EmptyString => String d ("e+" +:+ pretty (n - 1)%Z)
      | String d ds => String d ("." +:+ ds +:+ "e+" +:+ pretty (n - 1)%Z)
      | EmptyString => ""
      end.

Definition number_to_string (z : Z) : string :=
  if (z <? 0)%Z then "-" +:+ magnitude_to_string (to_double (- z))
  else magnitude_to_string (to_double z).

(** ** Strings *)

Definition prim_to_string (p : prim) : string :=
  match p with
  | PUndef => "undefined"
  | PNull => "null"
  | PBool true => "true"
  | PBool false => "false"
  | PNum z => number_to_string z
  | PStr s => s
  end.

Definition prim_truthy (p : prim) : bool :=
  match p with
  | PUndef | PNull => false
  | PBool b => b
  | PNum z => negb (z =? 0)%Z
  | PStr s => negb (String.eqb s "")
  end.

Fixpoint join (sep : string) (parts : list string) : string :=
  match parts with
  | [] => ""
  | [x] => x
  | x :: rest => x +:+ sep +:+ join sep rest
  end.

(** [s.split(c)] for a one-character separator. *)
Fixpoint split_on (c : ascii) (s : string) : list string :=
  match s with
  | EmptyString => [""]
  | String a s' =>
      if Ascii.eqb a c then "" :: split_on c s'
      else match split_on c s' with
           | x :: xs => String a x :: xs
           | [] => [String a ""]
           end
  end.

(** The characters of a string as one-character strings. *)
Fixpoint chars (s : string) : list string :=
  match s with
  | EmptyString => []
  | String a s' => String a "" :: chars s'
  end.

Fixpoint assoc {A} (k : string) (kvs : list (string * A)) : option A :=
  match kvs with
  | [] => None
  | (k', v) :: rest => if String.eqb k k' then Some v else assoc k rest
  end.

(** ** Regular expressions

    The fragment the URN pattern is written in: literals, greedy repetition of
    a character class, an optional non-capturing group, capture groups. The
    matcher backtracks in the order ECMAScript prescribes: a greedy
    quantifier tries the longer match first. *)

Inductive cls :=
  | CDot                (* [.]: any character but a line terminator *)
  | CNot (c : ascii).   (* [[^c]] *)

Inductive re :=
  | RLit (s : string)
  | RStar (c : cls)
  | RPlus (c : cls)
  | ROpt (r : re)
  | RCap (i : nat) (r : re)
  | RSeq (r1 r2 : re).

Definition line_terminator (a : ascii) : bool :=
  Ascii.eqb a "010"%char || Ascii.eqb a "013"%char.

Definition cls_ok (c : cls) (a : ascii) : bool :=
  match c with
  | CDot => negb (line_terminator a)
  | CNot b => negb (Ascii.eqb a b)
  end.

Abbreviation captures := (list (option string)).

Fixpoint strip_prefix (p s : string) : option string :=
  match p, s with
  | EmptyString, _ => Some s
  | String a p', String b s' => if Ascii.eqb a b then strip_prefix p' s' else None
  | String _ _, EmptyString => None
  end.

Fixpoint star (c : cls) (s : string) (k : string → option captures) : option captures :=
  match s with
  | String a s' =>
      if cls_ok c a then
        match star c s' k with
        | Some r => Some r
        | None => k s
        end
      else k s
  | EmptyString => k s
  end.

Definition consumed (s s' : string) : string :=
  String.substring 0 (String.length s - String.length s') s.

(** [rmatch r s caps k]: match [r] at the start of [s], then continue with
    [k] on the rest of the input. *)
Fixpoint rmatch (r : re) (s : string) (caps : captures)
    (k : string → captures → option captures) : option captures :=
  match r with
  | RLit p =>
      match strip_prefix p s with
      | Some s' => k s' caps
      | None => None
      end
  | RStar c => star c s (fun s' => k s' caps)
  | RPlus c =>
      match s with
      | String a s' => if cls_ok c a then star c s' (fun s'' => k s'' caps) else None
      | EmptyString => None
      end
  | ROpt r' =>
      match rmatch r' s caps k with
      | Some res => Some res
      | None => k s caps
      end
  | RCap i r' => rmatch r' s caps (fun s' caps' => k s' (<[i := Some (consumed s s')]> caps'))
  | RSeq r1 r2 => rmatch r1 s caps (fun s' caps' => rmatch r2 s' caps' k)
  end.

(** [s.match(/^r$/)] for a pattern with [groups] capture groups: [^] pins the
    match to the start of the input and [$] to its end. Entry 0 of the result
    is the whole match. *)
Definition match_anchored (groups : nat) (r : re) (s : string) : option captures :=
  rmatch r s (Some s :: replicate groups None)
    (fun s' caps => match s' with EmptyString => Some caps | _ => None end).

(** The pattern of [getIdsFromUrn], piece by piece (the anchors are in
    [match_anchored]):
      ( .* )                           group 1
      :spaces\/
      ( [^/]+ )                        group 2
      (?: \/environments\/ ( [^/]+ ) )?  optional, group 3
      \/entries\/
      ( [^/]+ )                        group 4 *)
Definition regExp : re :=
  RSeq (RCap 1 (RStar CDot))
  (RSeq (RLit ":spaces/")
  (RSeq (RCap 2 (RPlus (CNot "/"%char)))
  (RSeq (ROpt (RSeq (RLit "/environments/") (RCap 3 (RPlus (CNot "/"%char)))))
  (RSeq (RLit "/entries/")
        (RCap 4 (RPlus (CNot "/"%char))))))).

(** ** Reading values

    The functions that only read are written once, over any representation of
    values that can be viewed as a primitive, an object or an array: values in
    a heap, and the trees of a response that has not been cloned yet. *)

Inductive view (N : Type) :=
  | VwPrim (p : prim)
  | VwObj (props : list (string * N))
  | VwArr (elems : list N).
Arguments VwPrim {N} p.
Arguments VwObj {N} props.
Arguments VwArr {N} elems.

Record Reader (N : Type) := {
  rview : N → view N;
  rprim : prim → N;
  rview_rprim : ∀ p, rview (rprim p) = VwPrim p
}.
Arguments rview {N} _ _.
Arguments rprim {N} _ _.
Arguments rview_rprim {N} _ _.

Definition heap_reader (h : heap) : Reader value := {|
  rview v :=
    match v with
    | VPrim p => VwPrim p
    | VRef l =>
        match h !! l with
        | Some (OObj props) => VwObj props
        | Some (OArr elems) => VwArr elems
        | None => VwPrim PUndef
        end
    end;
  rprim := VPrim;
  rview_rprim := fun _ => eq_refl
|}.

Definition json_reader : Reader json := {|
  rview t :=
    match t with
    | JPrim p => VwPrim p
    | JObj props => VwObj props
    | JArr elems => VwArr elems
    end;
  rprim := JPrim;
  rview_rprim := fun _ => eq_refl
|}.

Record ids := {
  ids_spaceId : string;
  ids_environmentId : string;
  ids_entryId : string
}.

Record linkData (N : Type) := {
  entryId : N;
  linkType : N;
  spaceId : N;
  environmentId : N
}.
Arguments entryId {N} _.
Arguments linkType {N} _.
Arguments spaceId {N} _.
Arguments environmentId {N} _.

Section Reading.
Context {N : Type} (R : Reader N).

Definition undef : N := rprim R PUndef.

Definition nullish (n : N) : bool :=
  match rview R n with
  | VwPrim PUndef | VwPrim PNull => true
  | _ => false
  end.

Definition truthy (n : N) : bool :=
  match rview R n with
  | VwPrim p => prim_truthy p
  | _ => true
  end.

(** The value of property [k] on a receiver that is not nullish. The names
    the program reads this way (sys, type, id, space, environment, linkType,
    urn, items, includes) are inherited by no object, array or primitive, so
    only own properties of plain objects can answer. *)
Definition prop (n : N) (k : string) : N :=
  match rview R n with
  | VwObj props => default undef (assoc k props)
  | _ => undef
  end.

(** [n.k] *)
Definition get (n : N) (k : string) : result N :=
  if nullish n then Throw (TypeError ("Cannot read properties of undefined (reading '" +:+ k +:+ "')"))
  else Ok (prop n k).

(** [n?.k] *)
Definition get_opt (n : N) (k : string) : N :=
  if nullish n then undef else prop n k.

(** [n === s] for a string literal [s] *)
Definition is_str (n : N) (s : string) : bool :=
  match rview R n with
  | VwPrim (PStr s') => String.eqb s' s
  | _ => false
  end.

(** Conversion to a string, as a template literal does it. A plain object
    prints through [Object.prototype.toString] unless an own [toString]
    property (data, hence not callable) shadows it; an array joins its
    elements. *)
Fixpoint to_str (fuel : nat) (n : N) : result string :=
  match fuel with
  | 0 => OutOfFuel
  | S fuel' =>
      match rview R n with
      | VwPrim p => Ok (prim_to_string p)
      | VwObj props =>
          match assoc "toString" props with
          | Some _ => Throw (TypeError "Cannot convert object to primitive value")
          | None => Ok "[object Object]"
          end
      | VwArr elems =>
          parts ← mapR (fun e => if nullish e then Ok "" else to_str fuel' e) elems;
          Ok (join "," parts)
      end
  end.

(** [const isLink = (object) => object?.sys?.type === 'Link'] *)
Definition isLink (object : N) : bool :=
  is_str (get_opt (get_opt object "sys") "type") "Link".

(** [const isResourceLink = (object) => object?.sys?.type === 'ResourceLink'] *)
Definition isResourceLink (object : N) : bool :=
  is_str (get_opt (get_opt object "sys") "type") "ResourceLink".

(** [makeEntityMapKeys]. Once [sys.space] has been read, [sys] is known not
    to be nullish, and the later reads on it cannot throw; the same holds for
    [sys.space.sys] and [sys.environment.sys] once they are known truthy. The
    second template literal converts [sys.type] and [sys.id] again, with the
    same outcome as the first. *)
Definition makeEntityMapKeys (fuel : nat) (sys : N) : result (list string) :=
  space ← get sys "space";
  let space_sys := get_opt space "sys" in
  let environment_sys := get_opt (prop sys "environment") "sys" in
  type_s ← to_str fuel (prop sys "type");
  id_s ← to_str fuel (prop sys "id");
  if truthy space_sys && truthy environment_sys then
    space_s ← to_str fuel (prop space_sys "id");
    environment_s ← to_str fuel (prop environment_sys "id");
    Ok [type_s +:+ "!" +:+ id_s;
        space_s +:+ "!" +:+ environment_s +:+ "!" +:+ type_s +:+ "!" +:+ id_s]
  else
    Ok [type_s +:+ "!" +:+ id_s].

(** [lookupInEntityMap] *)
Definition lookupInEntityMap (fuel : nat) (entityMap : gmap string value)
    (d : linkData N) : result value :=
  if truthy (spaceId d) && truthy (environmentId d) then
    space_s ← to_str fuel (spaceId d);
    environment_s ← to_str fuel (environmentId d);
    type_s ← to_str fuel (linkType d);
    id_s ← to_str fuel (entryId d);
    Ok (default (VPrim PUndef)
          (entityMap !! (space_s +:+ "!" +:+ environment_s +:+ "!" +:+ type_s +:+ "!" +:+ id_s)))
  else
    type_s ← to_str fuel (linkType d);
    id_s ← to_str fuel (entryId d);
    Ok (default (VPrim PUndef) (entityMap !! (type_s +:+ "!" +:+ id_s))).

(** [urn.match(regExp)]: only a string has a [match] method. *)
Definition str_match (urn : N) : result (option captures) :=
  match rview R urn with
  | VwPrim (PStr s) => Ok (match_anchored 4 regExp s)
  | VwPrim PUndef | VwPrim PNull =>
      Throw (TypeError "Cannot read properties of undefined (reading 'match')")
  | _ => Throw (TypeError "urn.match is not a function")
  end.

Definition str_truthy (s : option string) : bool :=
  match s with
  | Some s' => negb (String.eqb s' "")
  | None => false
  end.

(** The body of the [try] block of [getIdsFromUrn]. *)
Definition getIdsFromUrn_try (urn : N) : result ids :=
  m ← str_match urn;
  (* const [, , spaceId, environmentId = 'master', entryId] = m || [] *)
  let arr := default [] m in
  let spaceId := mjoin (arr !! 2) in
  let environmentId := default "master" (mjoin (arr !! 3)) in
  let entryId := mjoin (arr !! 4) in
  if negb (str_truthy spaceId) || negb (str_truthy entryId) then
    Throw (Error "Invalid URN format")
  else
    Ok {| ids_spaceId := default "" spaceId;
          ids_environmentId := environmentId;
          ids_entryId := default "" entryId |}.

(** [getIdsFromUrn]: whatever the body throws is caught (and logged), and
    [undefined] is returned. *)
Definition getIdsFromUrn (urn : N) : option ids :=
  match getIdsFromUrn_try urn with
  | Ok r => Some r
  | Throw _ => None
  | OutOfFuel => None
  end.

(** [linkType.split(':')[1]]: only a string has a [split] method. *)
Definition split_second (linkType : N) : result N :=
  match rview R linkType with
  | VwPrim (PStr s) =>
      Ok (match split_on ":"%char s !! 1 with
          | Some seg => rprim R (PStr seg)
          | None => undef
          end)
  | VwPrim PUndef | VwPrim PNull =>
      Throw (TypeError "Cannot read properties of undefined (reading 'split')")
  | _ => Throw (TypeError "linkType.split is not a function")
  end.

Definition or_unresolved (v : value) : value :=
  match v with
  | VPrim p => if prim_truthy p then v else VRef UNRESOLVED_LINK
  | VRef _ => v
  end.

(** [getResolvedLink] *)
Definition getResolvedLink (fuel : nat) (entityMap : gmap string value)
    (link : N) : result value :=
  sys ← get link "sys";
  type ← get sys "type";
  let linkType := prop sys "linkType" in
  if is_str type "ResourceLink" then
    let urn := prop sys "urn" in
    match getIdsFromUrn urn with
    | None => Ok (VRef UNRESOLVED_LINK)
    | Some ids =>
        extractedLinkType ← split_second linkType;
        r ← lookupInEntityMap fuel entityMap
              {| linkType := extractedLinkType;
                 entryId := rprim R (PStr (ids_entryId ids));
                 spaceId := rprim R (PStr (ids_spaceId ids));
                 environmentId := rprim R (PStr (ids_environmentId ids)) |};
        Ok (or_unresolved r)
    end
  else
    let entryId := prop sys "id" in
    r ← lookupInEntityMap fuel entityMap
          {| linkType := linkType; entryId := entryId;
             spaceId := undef; environmentId := undef |};
    Ok (or_unresolved r).
End Reading.

(** ** Objects in the heap *)

(** A property key of an object, or an index of an array. *)
Inductive key :=
  | KName (s : string)
  | KIdx (i : nat).

(** The keys a [for ... in] loop enumerates. *)
Definition own_keys (h : heap) (l : loc) : list key :=
  match h !! l with
  | Some (OObj props) => KName <$> props.*1
  | Some (OArr elems) => KIdx <$> seq 0 (length elems)
  | None => []
  end.

(** [Object.prototype.hasOwnProperty.call(input, key)] *)
Definition has_own (h : heap) (l : loc) (k : key) : bool :=
  match h !! l, k with
  | Some (OObj props), KName s => bool_decide (is_Some (assoc s props))
  | Some (OArr elems), KIdx i => bool_decide (i < length elems)
  | _, _ => false
  end.

(** [input[key]] *)
Definition get_own (h : heap) (l : loc) (k : key) : value :=
  match h !! l, k with
  | Some (OObj props), KName s => default (VPrim PUndef) (assoc s props)
  | Some (OArr elems), KIdx i => default (VPrim PUndef) (elems !! i)
  | _, _ => VPrim PUndef
  end.

(** An array index: the decimal form, without sign or leading zero, of an
    integer below 2^32 - 1. *)
Fixpoint digits_value (acc : N) (s : string) : option N :=
  match s with
  | EmptyString => Some acc
  | String a s' =>
      let c := N_of_ascii a in
      if ((48 <=? c) && (c <=? 57))%N then digits_value (10 * acc + (c - 48))%N s'
      else None
  end.

Definition array_index (k : string) : option N :=
  match digits_value 0 k with
  | Some n => if (n <? 4294967295)%N && String.eqb (pretty n) k then Some n else None
  | None => None
  end.

(** The own keys of an object are enumerated with the array indices first,
    in ascending order, then the other names in the order they were
    created. *)
Definition enumerated_before (k k' : string) : bool :=
  match array_index k, array_index k' with
  | Some i, Some j => (i <? j)%N
  | Some _, None => true
  | None, _ => false
  end.

Fixpoint replace_prop {A} (k : string) (a : A) (ps : list (string * A))
    : list (string * A) :=
  match ps with
  | [] => []
  | (k', a') :: rest =>
      if String.eqb k k' then (k, a) :: rest else (k', a') :: replace_prop k a rest
  end.

Fixpoint create_prop {A} (k : string) (a : A) (ps : list (string * A))
    : list (string * A) :=
  match ps with
  | [] => [(k, a)]
  | (k', a') :: rest =>
      if enumerated_before k k' then (k, a) :: ps else (k', a') :: create_prop k a rest
  end.

(** [o[k] = a] on the properties of an object: an own property keeps its
    place, a new one takes the place its name has in the enumeration. *)
Definition set_assoc {A} (k : string) (a : A) (ps : list (string * A))
    : list (string * A) :=
  match assoc k ps with
  | Some _ => replace_prop k a ps
  | None => create_prop k a ps
  end.

Definition set_prop (k : string) (v : value) (props : list (string * value))
    : list (string * value) :=
  set_assoc k v props.

(** Assignment to an index: past the end the array grows (the gap reads as
    undefined). *)
Definition set_idx (i : nat) (v : value) (elems : list value) : list value :=
  if bool_decide (i < length elems) then <[i := v]> elems
  else elems ++ replicate (i - length elems) (VPrim PUndef) ++ [v].

(** [input[key] = v] *)
Definition set_own (h : heap) (l : loc) (k : key) (v : value) : heap :=
  match h !! l, k with
  | Some (OObj props), KName s => <[l := OObj (set_prop s v props)]> h
  | Some (OArr elems), KIdx i => <[l := OArr (set_idx i v elems)]> h
  | _, _ => h
  end.

Definition indexed (vs : list value) : list (string * value) :=
  imap (fun i v => (pretty i, v)) vs.

(** The own enumerable string-keyed properties of a value, as [Object.values]
    and [Object.assign] see them. *)
Definition own_entries (h : heap) (v : value) : list (string * value) :=
  match v with
  | VRef l =>
      match h !! l with
      | Some (OObj props) => props
      | Some (OArr elems) => indexed elems
      | None => []
      end
  | VPrim (PStr s) => indexed (VPrim ∘ PStr <$> chars s)
  | VPrim _ => []
  end.

(** [[...x]]: arrays and strings are iterable. *)
Definition spread (h : heap) (v : value) : result (list value) :=
  match v with
  | VRef l =>
      match h !! l with
      | Some (OArr elems) => Ok elems
      | _ => Throw (TypeError "object is not iterable")
      end
  | VPrim (PStr s) => Ok (VPrim ∘ PStr <$> chars s)
  | VPrim _ => Throw (TypeError "value is not iterable")
  end.

(** [xs.flat()] *)
Definition flat (h : heap) (xs : list value) : list value :=
  concat ((fun x =>
    match x with
    | VRef l =>
        match h !! l with
        | Some (OArr elems) => elems
        | _ => [x]
        end
    | VPrim _ => [x]
    end) <$> xs).

(** [Object.assign(target, source)] *)
Definition Object_assign (h : heap) (target : loc) (source : value) : heap :=
  foldl (fun h' kv => set_own h' target (KName kv.1) kv.2) h (own_entries h source).

(** ** Cloning

    [copy] is the deep-clone collaborator: it builds a fresh, independent
    object graph. A response arrives as a tree; the objects of a subtree are
    allocated before the object that holds them. *)
Fixpoint copy_elems (copy : json → heap → value * heap) (ts : list json) (h : heap)
    : list value * heap :=
  match ts with
  | [] => ([], h)
  | t :: ts' =>
      let '(v, h1) := copy t h in
      let '(vs, h2) := copy_elems copy ts' h1 in
      (v :: vs, h2)
  end.

Fixpoint copy_props (copy : json → heap → value * heap) (ps : list (string * json))
    (h : heap) : list (string * value) * heap :=
  match ps with
  | [] => ([], h)
  | (k, t) :: ps' =>
      let '(v, h1) := copy t h in
      let '(kvs, h2) := copy_props copy ps' h1 in
      ((k, v) :: kvs, h2)
  end.

Fixpoint copy (t : json) (h : heap) : value * heap :=
  match t with
  | JPrim p => (VPrim p, h)
  | JArr elems =>
      let '(vs, h') := copy_elems copy elems h in
      (VRef (length h'), h' ++ [OArr vs])
  | JObj props =>
      let '(kvs, h') := copy_props copy props h in
      (VRef (length h'), h' ++ [OObj kvs])
  end.

(** ** The walker *)

Definition is_marker (v : value) : bool := bool_decide (v = VRef UNRESOLVED_LINK).

(** [cleanUpLinks]: an array is filtered into a new array; an object loses,
    in place, the properties that hold the marker. *)
Definition cleanUpLinks (h : heap) (input : value) : value * heap :=
  match input with
  | VRef l =>
      match h !! l with
      | Some (OArr elems) =>
          (VRef (length h), h ++ [OArr (filter (fun val => negb (is_marker val)) elems)])
      | Some (OObj props) =>
          (input, <[l := OObj (filter (fun kv => negb (is_marker kv.2)) props)]> h)
      | None => (input, h)
      end
  | VPrim _ => (input, h)
  end.

(** [walkMutate]. The fuel bounds the depth of the recursion. *)
Fixpoint walkMutate (fuel : nat) (predicate : heap → value → bool)
    (mutator : heap → value → result value) (removeUnresolved : bool)
    (h : heap) (input : value) : result (value * heap) :=
  match fuel with
  | 0 => OutOfFuel
  | S fuel' =>
      if predicate h input then
        r ← mutator h input; Ok (r, h)
      else
        match input with
        | VRef l =>
            h1 ← foldR (fun h' key =>
                    if has_own h' l key then
                      '(r, h'') ← walkMutate fuel' predicate mutator removeUnresolved
                                    h' (get_own h' l key);
                      Ok (set_own h'' l key r)
                    else Ok h') h (own_keys h l);
            if removeUnresolved then Ok (cleanUpLinks h1 input) else Ok (input, h1)
        | VPrim _ => Ok (input, h)
        end
  end.

(** [normalizeLink] *)
Definition normalizeLink (fuel : nat) (entityMap : gmap string value) (h : heap)
    (link : value) (removeUnresolved : bool) : result value :=
  resolvedLink ← getResolvedLink (heap_reader h) fuel entityMap link;
  if is_marker resolvedLink then
    Ok (if removeUnresolved then resolvedLink else link)
  else Ok resolvedLink.

(** [makeEntryObject] *)
Definition makeEntryObject (h : heap) (item : loc) (itemEntryPoints : option (list string))
    : value * heap :=
  match itemEntryPoints with
  | None => (VRef item, h)
  | Some names =>
      let entryObj := length h in
      (VRef entryObj,
       foldl (fun h' entryPoint =>
                if has_own h' item (KName entryPoint) then
                  set_own h' entryObj (KName entryPoint) (get_own h' item (KName entryPoint))
                else h')
             (h ++ [OObj []]) names)
  end.

(** ** The entry point *)

Record options := {
  removeUnresolved : bool;
  itemEntryPoints : option (list string)
}.

Definition the_predicate (h : heap) (x : value) : bool :=
  isLink (heap_reader h) x || isResourceLink (heap_reader h) x.

(** The first-wins [list_to_map] is not what [new Map(pairs)] does: a later
    pair replaces an earlier one with the same key. *)
Definition new_Map (pairs : list (string * value)) : gmap string value :=
  foldl (fun m kv => <[kv.1 := kv.2]> m) ∅ pairs.

Fixpoint filterR {A} (f : A → result bool) (xs : list A) : result (list A) :=
  match xs with
  | [] => Ok []
  | x :: xs' => b ← f x; ys ← filterR f xs'; Ok (if (b : bool) then x :: ys else ys)
  end.

(** [allEntries]: the items, then the included records of every kind, without
    those that have no [sys]. *)
Definition allEntries_of (h : heap) (responseClone : value) : result (list value) :=
  let R := heap_reader h in
  let includes := prop R responseClone "includes" in
  (* Object.values(responseClone.includes || []).flat() *)
  let allIncludes := flat h (if truthy R includes then (own_entries h includes).*2 else []) in
  items ← spread h (prop R responseClone "items");
  filterR (fun entity => sys ← get R entity "sys"; Ok (truthy R sys)) (items ++ allIncludes).

(** [entityMap] *)
Definition entityMap_of (fuel : nat) (h : heap) (allEntries : list value)
    : result (gmap string value) :=
  pairs ← mapR (fun entity =>
             keys ← makeEntityMapKeys (heap_reader h) fuel (prop (heap_reader h) entity "sys");
             Ok (map (fun key : string => (key, entity)) keys)) allEntries;
  Ok (new_Map (concat pairs)).

(** The body of [allEntries.forEach]. An entry has a truthy [sys], so it is an
    object. *)
Definition resolve_item (fuel : nat) (entityMap : gmap string value) (o : options)
    (h : heap) (item : value) : result heap :=
  match item with
  | VRef l =>
      let '(entryObject, h1) := makeEntryObject h l (itemEntryPoints o) in
      '(walked, h2) ← walkMutate fuel the_predicate
          (fun h link => normalizeLink fuel entityMap h link (removeUnresolved o))
          (removeUnresolved o) h1 entryObject;
      Ok (Object_assign h2 l walked)
  | VPrim _ => Ok h
  end.

(** Everything in [resolveResponse] after the clone has been made. *)
Definition resolveCloned (fuel : nat) (h : heap) (responseClone : value) (o : options)
    : result (value * heap) :=
  allEntries ← allEntries_of h responseClone;
  entityMap ← entityMap_of fuel h allEntries;
  h' ← foldR (resolve_item fuel entityMap o) h allEntries;
  Ok (prop (heap_reader h') responseClone "items", h').

(** [resolveResponse]. The module's heap holds the marker object; the clone
    and everything the run allocates come after it. *)
Definition resolveResponse (fuel : nat) (response : json) (o : options)
    : result (value * heap) :=
  items ← get json_reader response "items";
  if negb (truthy json_reader items) then
    Ok (VRef (length initial_heap), initial_heap ++ [OArr []])
  else
    let '(responseClone, h) := copy response initial_heap in
    resolveCloned fuel h responseClone o.


(** * Specification vocabulary *)

(** ** Strings and URNs *)

Fixpoint all_chars (P : ascii → bool) (s : string) : bool :=
  match s with
  | EmptyString => true
  | String a s' => P a && all_chars P s'
  end.

Definition segment (s : string) : Prop :=
  s ≠ "" ∧ all_chars (cls_ok (CNot "/"%char)) s = true.

(** The matches of a pattern, declaratively: [matches r s caps s' caps'] when
    [r] can consume the part of [s] before [s'], turning the captures [caps]
    into [caps']. *)
Inductive matches : re → string → captures → string → captures → Prop :=
  | m_lit p s caps : matches (RLit p) (p +:+ s) caps s caps
  | m_star c p s caps :
      all_chars (cls_ok c) p = true → matches (RStar c) (p +:+ s) caps s caps
  | m_plus c p s caps :
      p ≠ "" → all_chars (cls_ok c) p = true → matches (RPlus c) (p +:+ s) caps s caps
  | m_opt_some r s caps s' caps' :
      matches r s caps s' caps' → matches (ROpt r) s caps s' caps'
  | m_opt_none r s caps : matches (ROpt r) s caps s caps
  | m_cap i r s caps s' caps' :
      matches r s caps s' caps' →
      matches (RCap i r) s caps s' (<[i := Some (consumed s s')]> caps')
  | m_seq r1 r2 s caps s1 caps1 s2 caps2 :
      matches r1 s caps s1 caps1 → matches r2 s1 caps1 s2 caps2 →
      matches (RSeq r1 r2) s caps s2 caps2.

Definition caps0 (s : string) : captures := Some s :: replicate 4 None.

Ltac inv_matches :=
  repeat match goal with
  | H : matches (RSeq _ _) _ _ _ _ |- _ => inversion H; subst; clear H
  | H : matches (RCap _ _) _ _ _ _ |- _ => inversion H; subst; clear H
  | H : matches (RLit _) _ _ _ _ |- _ => inversion H; subst; clear H
  | H : matches (RStar _) _ _ _ _ |- _ => inversion H; subst; clear H
  | H : matches (RPlus _) _ _ _ _ |- _ => inversion H; subst; clear H
  | H : matches (ROpt _) _ _ _ _ |- _ => inversion H; subst; clear H
  end.

Definition shape_str (p sid : string) (env : option string) (eid : string) : string :=
  match env with
  | None => p +:+ ":spaces/" +:+ sid +:+ "/entries/" +:+ eid
  | Some e => p +:+ ":spaces/" +:+ sid +:+ "/environments/" +:+ e +:+ "/entries/" +:+ eid
  end.

Definition seg_opt (env : option string) : Prop :=
  match env with Some e => segment e | None => True end.

Definition urn_shape (s : string) (i : ids) : Prop :=
  ∃ p env,
    all_chars (cls_ok CDot) p = true ∧
    segment (ids_spaceId i) ∧ seg_opt env ∧ segment (ids_entryId i) ∧
    ids_environmentId i = default "master" env ∧
    s = shape_str p (ids_spaceId i) env (ids_entryId i).

(** ** Keys and the index *)

(** Every value of the index is a reference to a record. *)
Definition holds_records (em : gmap string value) : Prop :=
  ∀ k v, em !! k = Some v → ∃ l, v = VRef l.

(** The key a cross-scope link is looked up by. *)
Definition scoped_key (i : ids) (kind : string) : string :=
  ids_spaceId i +:+ "!" +:+ ids_environmentId i +:+ "!" +:+ kind +:+ "!" +:+ ids_entryId i.

(** The second segment of the compound kind descriptor, as it prints inside
    the key. *)
Definition effective_kind (descriptor : string) : string :=
  default "undefined" (split_on ":"%char descriptor !! 1).

Definition keys_of (fuel : nat) (h : heap) (entity : value) : result (list string) :=
  makeEntityMapKeys (heap_reader h) fuel (prop (heap_reader h) entity "sys").

(** No entry after position [i] is registered under [k]. *)
Definition no_later_key (fuel : nat) (h : heap) (entries : list value) (i : nat) (k : string)
    : Prop :=
  ∀ j e ks, i < j → entries !! j = Some e → keys_of fuel h e = Ok ks → k ∉ ks.

(** The pairs [new Map] receives, from the entries and their keys. *)
Definition pairs_of (eks : list (value * list string)) : list (string * value) :=
  concat (map (fun ek => map (fun key : string => (key, ek.1)) ek.2) eks).

Definition is_ref (v : value) : bool :=
  match v with VRef _ => true | VPrim _ => false end.

(** [sys.space?.sys && sys.environment?.sys]: the identity block carries a
    space and an environment. *)
Definition carries_scope {N} (R : Reader N) (sys : N) : bool :=
  truthy R (get_opt R (prop R sys "space") "sys")
  && truthy R (get_opt R (prop R sys "environment") "sys").

Definition global_key (kind id : string) : string := kind +:+ "!" +:+ id.

Definition record_scoped_key (space environment kind id : string) : string :=
  space +:+ "!" +:+ environment +:+ "!" +:+ kind +:+ "!" +:+ id.

(** ** Sample responses *)

Definition jstr (s : string) : json := JPrim (PStr s).

Definition jlink (kind id : string) : json :=
  JObj [("sys", JObj [("type", jstr "Link"); ("linkType", jstr kind); ("id", jstr id)])].

Definition jsys (kind id : string) : json :=
  JObj [("type", jstr kind); ("id", jstr id)].

Definition jscoped_sys (kind id space environment : string) : json :=
  JObj [("type", jstr kind); ("id", jstr id);
        ("space", jlink "Space" space); ("environment", jlink "Environment" environment)].

Definition default_options : options :=
  {| removeUnresolved := false; itemEntryPoints := None |}.

(** The same kind and id in two spaces. *)
Definition two_spaces : json :=
  JObj [("items", JArr [JObj [("sys", jscoped_sys "Entry" "1" "S1" "master")];
                        JObj [("sys", jscoped_sys "Entry" "1" "S2" "master")]])].

(** The same kind and id in two environments of one space, one record among
    the items and one among the included records. *)
Definition two_environments : json :=
  JObj [("items", JArr [JObj [("sys", jscoped_sys "Entry" "1" "S1" "master")]]);
        ("includes",
         JObj [("Entry", JArr [JObj [("sys", jscoped_sys "Entry" "1" "S1" "staging")]])])].

(** Two records with distinct ids in one space. *)
Definition two_records : json :=
  JObj [("items", JArr [JObj [("sys", jscoped_sys "Entry" "1" "S1" "master")];
                        JObj [("sys", jscoped_sys "Entry" "2" "S1" "master")]])].

(** A cross-scope link with a well-formed URN and no kind descriptor. *)
Definition bare_resource_link : json :=
  JObj [("items", JArr [JObj [("sys", jsys "Entry" "a");
     ("fields", JObj [("ref", JObj [("sys", JObj [("type", jstr "ResourceLink");
            ("urn", jstr "crn:contentful:::content:spaces/S/entries/E")])])])]])].

(** A record whose top-level field [ref] is a link to a record that is not in
    the response. *)
Definition top_level_link : json :=
  JObj [("items", JArr [JObj [("sys", jsys "Entry" "a"); ("ref", jlink "Entry" "missing")]])].

(** * Clones, walks and runs: the vocabulary of the proofs *)

(** ** Trees and their clones *)

(** The values a node holds, in the order of its keys. *)
Definition jchildren (t : json) : list json :=
  match t with
  | JPrim _ => []
  | JArr elems => elems
  | JObj props => props.*2
  end.

(** Objects and arrays are cloned into an object of the heap. *)
Definition is_node (t : json) : bool :=
  match t with JPrim _ => false | _ => true end.

(** The number of heap objects a tree is cloned into. *)
Fixpoint nodes (t : json) : nat :=
  match t with
  | JPrim _ => 0
  | JArr elems => S (sum_list_with nodes elems)
  | JObj props => S (sum_list_with (fun kv => nodes kv.2) props)
  end.

(** The same, for a list of trees. *)
Definition nodesl (ts : list json) : nat := sum_list_with nodes ts.
Arguments nodesl : simpl never.

(** The nesting depth: the stack a walk of the tree needs. *)
Fixpoint depth (t : json) : nat :=
  match t with
  | JPrim _ => 0
  | JArr elems => S (max_list_with depth elems)
  | JObj props => S (max_list_with (fun kv => depth kv.2) props)
  end.

(** No object has two properties of the same name. *)
Fixpoint wf (t : json) : bool :=
  match t with
  | JPrim _ => true
  | JArr elems => forallb wf elems
  | JObj props => bool_decide (NoDup props.*1) && forallb (fun kv => wf kv.2) props
  end.

(** The object a node is cloned into, given the values of its children. *)
Definition mk_obj (t : json) (vs : list value) : obj :=
  match t with
  | JPrim _ => OObj []
  | JArr _ => OArr vs
  | JObj props => OObj (zip props.*1 vs)
  end.

(** Where the [i]-th child of a node is laid out, when the first is at [lo]. *)
Definition child_pos (lo : nat) (ts : list json) (i : nat) : nat :=
  lo + nodesl (take i ts).
Arguments child_pos : simpl never.

(** [rep h lo t v]: in [h], the value [v] is the clone of [t], laid out from
    location [lo] on. *)
Inductive rep (h : heap) : nat → json → value → Prop :=
  | rep_prim lo p : rep h lo (JPrim p) (VPrim p)
  | rep_node lo t vs :
      is_node t = true →
      length vs = length (jchildren t) →
      (∀ i c v, jchildren t !! i = Some c → vs !! i = Some v →
                rep h (child_pos lo (jchildren t) i) c v) →
      h !! (lo + nodesl (jchildren t)) = Some (mk_obj t vs) →
      rep h lo t (VRef (lo + nodesl (jchildren t))).

(** ** Two representations of the same data

    [view_rel rel x y]: the views [x] and [y] show the same primitive, or
    the same keys with values related by [rel]. *)
Definition view_rel {N1 N2} (rel : N1 → N2 → Prop) (x : view N1) (y : view N2) : Prop :=
  match x, y with
  | VwPrim p, VwPrim q => p = q
  | VwObj ps1, VwObj ps2 => ps1.*1 = ps2.*1 ∧ Forall2 rel ps1.*2 ps2.*2
  | VwArr es1, VwArr es2 => Forall2 rel es1 es2
  | _, _ => False
  end.

(** Two results of the same kind, related when they are values. *)
Definition res_rel {A B} (rel : A → B → Prop) (x : result A) (y : result B) : Prop :=
  match x, y with
  | Ok a, Ok b => rel a b
  | Throw e1, Throw e2 => e1 = e2
  | OutOfFuel, OutOfFuel => True
  | _, _ => False
  end.

(** [v] is a clone of [t], wherever it is laid out. *)
Definition sim (h : heap) (v : value) (t : json) : Prop := ∃ lo, rep h lo t v.

(** The predicate of [resolveResponse], on a tree. *)
Definition jpred (t : json) : bool :=
  isLink json_reader t || isResourceLink json_reader t.

(** The own keys of the object a node is cloned into. *)
Definition node_keys (t : json) : list key :=
  match t with
  | JPrim _ => []
  | JArr elems => KIdx <$> seq 0 (length elems)
  | JObj props => KName <$> props.*1
  end.

(** The keys of the node are distinct. *)
Definition keys_ok (t : json) : Prop :=
  match t with JObj props => NoDup props.*1 | _ => True end.

(** ** Walks

    [cleanUpLinks], on the object itself. *)
Definition prune (rm : bool) (o : obj) : obj :=
  if rm then
    match o with
    | OArr elems => OArr (filter (fun val => negb (is_marker val)) elems)
    | OObj props => OObj (filter (fun kv => negb (is_marker kv.2)) props)
    end
  else o.

(** The locations of the clone of [t] laid out at [lo]. *)
Definition seg (lo : nat) (t : json) : loc → Prop := fun l => lo ≤ l < lo + nodes t.

(** The clone of [t] at [lo], and the objects allocated from [a] up to [b]. *)
Definition Dseg (lo : nat) (t : json) (a b : nat) : loc → Prop :=
  fun l => seg lo t l ∨ a ≤ l < b.

(** [frame S h h']: [h'] extends [h] and differs from it only inside [S]. *)
Definition frame (S : loc → Prop) (h h' : heap) : Prop :=
  length h ≤ length h' ∧ ∀ l, l < length h → ¬ S l → h' !! l = h !! l.

(** One iteration of the [for ... in] loop of [walkMutate]. *)
Definition walk_body (fw : nat) (predicate : heap → value → bool)
    (mutator : heap → value → result value) (rm : bool) (l : loc)
    : heap → key → result heap :=
  fun h' key =>
    if has_own h' l key then
      '(r, h'') ← walkMutate fw predicate mutator rm h' (get_own h' l key);
      Ok (set_own h'' l key r)
    else Ok h'.

Section WalkDefs.
Context (em : gmap string value) (rm : bool) (fuel : nat).

(** The mutator [resolveResponse] hands to the walker. *)
Definition the_mutator : heap → value → result value :=
  fun h link => normalizeLink fuel em h link rm.

(** [walked h D t v]: in [h], the value [v] is what walking the clone of [t]
    produces, and the objects it is made of are in [D]. *)
Inductive walked (h : heap) (D : loc → Prop) : json → value → Prop :=
  | walked_link t r :
      jpred t = true →
      getResolvedLink json_reader fuel em t = Ok r →
      is_marker r = false ∨ rm = true →
      walked h D t r
  | walked_kept t lo v :
      jpred t = true →
      getResolvedLink json_reader fuel em t = Ok (VRef UNRESOLVED_LINK) →
      rm = false →
      rep h lo t v → (∀ l, seg lo t l → D l) →
      walked h D t v
  | walked_prim p : walked h D (JPrim p) (VPrim p)
  | walked_node t ws l :
      jpred t = false → is_node t = true →
      length ws = length (jchildren t) →
      (∀ i c w, jchildren t !! i = Some c → ws !! i = Some w → walked h D c w) →
      D l → h !! l = Some (prune rm (mk_obj t ws)) →
      walked h D t (VRef l).

(** A walk hands back the very value it was given, unless that value is a link
    or an array that is being pruned. *)
Definition keeps_ref (t : json) : bool :=
  negb (jpred t) && match t with JArr _ => negb rm | _ => true end.

Definition walk_post (h : heap) (lo : nat) (t : json) (v : value)
    (r : result (value * heap)) : Prop :=
  match r with
  | Ok (v', h') =>
      walked h' (Dseg lo t (length h) (length h')) t v' ∧ frame (seg lo t) h h' ∧
      (keeps_ref t = true → v' = v)
  | Throw _ => True
  | OutOfFuel => False
  end.

Context (tp : json) (pos : nat → nat) (l : loc) (h0 : heap) (vs : list value).

(** The locations of the children of [tp], the [j]-th laid out at [pos j]. *)
Definition in_children (l' : loc) : Prop :=
  ∃ j c, jchildren tp !! j = Some c ∧ seg (pos j) c l'.

(** The invariant of the [for ... in] loop over the object at [l], whose
    properties [vs] are clones of the children of [tp]: the first [i] have
    been walked into [ws]. *)
Definition Inv (i : nat) (h : heap) (ws : list value) : Prop :=
  length ws = i ∧ i ≤ length vs ∧
  h !! l = Some (mk_obj tp (ws ++ drop i vs)) ∧
  (∀ j c w, jchildren tp !! j = Some c → ws !! j = Some w →
            walked h (Dseg (pos j) c (length h0) (length h)) c w) ∧
  (∀ j c v, i ≤ j → jchildren tp !! j = Some c → vs !! j = Some v → rep h (pos j) c v) ∧
  frame (fun l' => l' = l ∨ in_children l') h0 h.
End WalkDefs.

(** ** Entries

    [Object.assign] on an object: the properties of the source are assigned
    one after the other. *)
Definition assign_props (ps kvs : list (string * value)) : list (string * value) :=
  foldl (fun acc kv => set_prop kv.1 kv.2 acc) ps kvs.

(** The properties [makeEntryObject] gives the entry object of a record with
    the properties [ps]. *)
Definition project (ps : list (string * value)) (names : list string)
    : list (string * value) :=
  foldl (fun acc name =>
           match assoc name ps with
           | Some v => set_prop name v acc
           | None => acc
           end) [] names.

(** [project], whatever the properties hold. *)
Definition projectA {A} (ps : list (string * A)) (names : list string)
    : list (string * A) :=
  foldl (fun acc name =>
           match assoc name ps with
           | Some a => set_assoc name a acc
           | None => acc
           end) [] names.

(** A function applied to what a property holds. *)
Definition on_snd {A B} (f : A → B) (kv : string * A) : string * B := (kv.1, f kv.2).

(** The value a tree is cloned into when it is laid out at [lo]. *)
Definition val_at (lo : nat) (t : json) : value :=
  match t with
  | JPrim p => VPrim p
  | _ => VRef (lo + nodesl (jchildren t))
  end.

Section ItemDefs.
Context (em : gmap string value) (o : options) (fuel : nat).

(** The top-level field [k] of a record takes part in the resolution. *)
Definition field_walked (k : string) : Prop :=
  match itemEntryPoints o with
  | None => True
  | Some names => k ∈ names
  end.

#[global] Instance field_walked_dec k : Decision (field_walked k).
Proof. unfold field_walked. destruct (itemEntryPoints o); apply _. Defined.

(** The state of a record, cloned from [JObj ps] at [lo], once it has had its
    turn. It has no key it was not cloned with. A field that takes part holds
    what its walk produced, unless that is the marker and pruning is on; any
    other field is as it was cloned. *)
Definition item_post (hf : heap) (D : loc → Prop) (ps : list (string * json)) (lo : nat)
    : Prop :=
  ∃ pf, hf !! (lo + nodesl ps.*2) = Some (OObj pf) ∧
    (∀ k, k ∈ pf.*1 → k ∈ ps.*1) ∧
    ∀ i k c, ps !! i = Some (k, c) →
      let v := val_at (child_pos lo ps.*2 i) c in
      if decide (field_walked k) then
        ∃ w, walked em (removeUnresolved o) fuel hf D c w ∧
          if is_marker w && removeUnresolved o
          then itemEntryPoints o = None → assoc k pf = None
          else assoc k pf = Some w
      else assoc k pf = Some v ∧ rep hf (child_pos lo ps.*2 i) c v.

Definition item_result (h : heap) (lo : nat) (ps : list (string * json))
    (r : result heap) : Prop :=
  match r with
  | Ok h' =>
      frame (seg lo (JObj ps)) h h' ∧
      (jpred (JObj ps) = false →
       item_post h' (Dseg lo (JObj ps) (length h) (length h')) ps lo)
  | Throw _ => True
  | OutOfFuel => False
  end.
End ItemDefs.

(** The fields of a record with their position, the tree they were cloned
    from and their value. *)
Definition fields3 (ps : list (string * json)) (vs : list value)
    : list (string * (nat * json * value)) :=
  zip ps.*1 (zip (zip (seq 0 (length ps)) ps.*2) vs).

(** The fields named in [names], in the order the projector takes them. *)
Definition sel (ps : list (string * json)) (vs : list value) (names : list string)
    : list (string * (nat * json * value)) :=
  projectA (fields3 ps vs) names.

(** Clones, and the object at [l] against the tree [t]. *)
Definition node_rel (h : heap) (l : loc) (t : json) (v : value) (t' : json) : Prop :=
  sim h v t' ∨ (v = VRef l ∧ t' = t).

(** An entry: where its clone starts, and the properties it is cloned from. *)
Definition entry : Type := nat * list (string * json).
Definition entry_val (e : entry) : value := VRef (e.1 + nodesl e.2.*2).
Definition entry_seg (e : entry) : loc → Prop := seg e.1 (JObj e.2).
Definition entries_seg (es : list entry) : loc → Prop :=
  fun l => ∃ e, e ∈ es ∧ entry_seg e l.

(** What is left once every entry of [es] has had its turn. *)
Definition entries_post (em : gmap string value) (o : options) (fuel : nat)
    (h0 hf : heap) (es : list entry) : Prop :=
  frame (entries_seg es) h0 hf ∧
  ∀ e, e ∈ es → jpred (JObj e.2) = false →
    item_post em o fuel hf (Dseg e.1 (JObj e.2) (length h0) (length hf)) e.2 e.1.

(** ** The entries of a response

    A tree together with the location its clone starts at. *)
Definition located : Type := nat * json.
Definition lval (x : located) : value := val_at x.1 x.2.
Definition lseg (x : located) : loc → Prop := seg x.1 x.2.

(** [Object.values], on a located tree. *)
Definition jvalues (x : located) : list located :=
  match x.2 with
  | JPrim (PStr s) => (fun c => (x.1, JPrim (PStr c))) <$> chars s
  | JPrim _ => []
  | t => imap (fun i c => (child_pos x.1 (jchildren t) i, c)) (jchildren t)
  end.

(** [xs.flat()] *)
Definition jflat (xs : list located) : list located :=
  concat ((fun x => match x.2 with JArr _ => jvalues x | _ => [x] end) <$> xs).

(** [[...x]] *)
Definition jspread (x : located) : result (list located) :=
  match x.2 with
  | JArr _ => Ok (jvalues x)
  | JObj _ => Throw (TypeError "object is not iterable")
  | JPrim (PStr s) => Ok (jvalues x)
  | JPrim _ => Throw (TypeError "value is not iterable")
  end.

(** [t.k], with its location. *)
Definition jprop_at (x : located) (k : string) : located :=
  match x.2 with
  | JObj ps =>
      match list_find (fun kv => kv.1 = k) ps with
      | Some (i, kv) => (child_pos x.1 ps.*2 i, kv.2)
      | None => (x.1, JPrim PUndef)
      end
  | _ => (x.1, JPrim PUndef)
  end.

(** [Boolean(entity.sys)] *)
Definition has_sys (x : located) : result bool :=
  sys ← get json_reader x.2 "sys"; Ok (truthy json_reader sys).

(** [allEntries], on the tree the response is cloned from. *)
Definition jcandidates (x : located) : result (list located) :=
  let includes := jprop_at x "includes" in
  let allIncludes := jflat (if truthy json_reader includes.2 then jvalues includes else []) in
  items ← jspread (jprop_at x "items");
  Ok (items ++ allIncludes).

(** The candidates that have a [sys]. *)
Definition jentries (x : located) : result (list located) :=
  cands ← jcandidates x; filterR has_sys cands.

(** The values located trees are cloned into. *)
Definition lift_vals (r : result (list located)) : result (list value) :=
  match r with
  | Ok xs => Ok (lval <$> xs)
  | Throw e => Throw e
  | OutOfFuel => OutOfFuel
  end.

(** Every member of the list is cloned in [h] where it is located. *)
Definition reps (h : heap) (xs : list located) : Prop :=
  Forall (fun x => rep h x.1 x.2 (lval x)) xs.

(** No two members of the list overlap. *)
Inductive Disj : list located → Prop :=
  | Disj_nil : Disj []
  | Disj_cons x xs :
      (∀ y l, y ∈ xs → lseg x l → ¬ lseg y l) → Disj xs → Disj (x :: xs).

(** Every member of the list lies inside [S]. *)
Definition inside (S : loc → Prop) (xs : list located) : Prop :=
  ∀ x l, x ∈ xs → lseg x l → S l.

(** A proper part of [x]: inside it, its root object apart. *)
Definition below (x : located) : loc → Prop :=
  fun l => lseg x l ∧ l ≠ x.1 + nodesl (jchildren x.2).

(** [c] is no deeper than [t], and is well formed when [t] is. *)
Definition part (t c : json) : Prop :=
  (wf t = true → wf c = true) ∧ depth c ≤ depth t.

(** The location of the object a located tree is cloned into. *)
Definition node_loc (y : located) : loc := y.1 + nodesl (jchildren y.2).

(** The part of the clone of [x] the candidates lie in: below the response
    object, the items array apart. *)
Definition entries_area (x : located) : loc → Prop :=
  fun l => below x l ∧
           (is_node (jprop_at x "items").2 = true → l ≠ node_loc (jprop_at x "items")).

(** A located object, as an entry. *)
Definition to_entry (y : located) : entry :=
  (y.1, match y.2 with JObj ps => ps | _ => [] end).

(** What a run leaves: the entries of the response [x], cloned into [h0] as
    [v], have each had their turn, and nothing else has changed. *)
Definition run_post (fuel : nat) (o : options) (x : located) (h0 : heap) (v r : value)
    (hf : heap) : Prop :=
  ∃ xs em, jentries x = Ok xs ∧ entityMap_of fuel h0 (lval <$> xs) = Ok em ∧
    r = prop (heap_reader hf) v "items" ∧
    frame (fun l => ∃ y, y ∈ xs ∧ lseg y l) h0 hf ∧
    ∀ y ps, y ∈ xs → y.2 = JObj ps → jpred y.2 = false →
      item_post em o fuel hf (Dseg y.1 y.2 (length h0) (length hf)) ps y.1.

(** ** Runs

    The clone [resolveResponse] works on. *)
Definition cloned (response : json) : value * heap := copy response initial_heap.

(** The response, located where its clone starts. *)
Definition at_origin (response : json) : located := (length initial_heap, response).

(** [v[k1][k2]...], as long as each key is an own property. *)
Fixpoint follow (h : heap) (v : value) (p : list key) : option value :=
  match p with
  | [] => Some v
  | k :: p' =>
      match v with
      | VRef l => if has_own h l k then follow h (get_own h l k) p' else None
      | VPrim _ => None
      end
  end.

(** [t[k]], on a tree. *)
Definition jstep (t : json) (k : key) : option json :=
  match t, k with
  | JObj ps, KName s => assoc s ps
  | JArr es, KIdx i => es !! i
  | _, _ => None
  end.

(** [t[k1][k2]...], on a tree. *)
Fixpoint jfollow (t : json) (p : list key) : option json :=
  match p with
  | [] => Some t
  | k :: p' => match jstep t k with Some c => jfollow c p' | None => None end
  end.

(** No object on the way along [p], the last one apart, is a link: the walk
    gets to the end of [p]. *)
Fixpoint exposed (t : json) (p : list key) : bool :=
  match p with
  | [] => true
  | k :: p' =>
      negb (jpred t) && match jstep t k with Some c => exposed c p' | None => false end
  end.

(** The key is a property name, not an array index. *)
Definition is_name (k : key) : bool := match k with KName _ => true | KIdx _ => false end.

(** The index a run builds for [response]. *)
Definition index_of (fuel : nat) (response : json) : result (gmap string value) :=
  let '(clone, h) := cloned response in
  allEntries ← allEntries_of h clone;
  entityMap_of fuel h allEntries.

(** The entries a run goes through. *)
Definition entries_of (response : json) : result (list value) :=
  let '(clone, h) := cloned response in allEntries_of h clone.

(** The item at position [k], located. *)
Definition item_at (rps : list (string * json)) (its : list json) (k : nat) (c : json)
    : located :=
  (child_pos (jprop_at (at_origin (JObj rps)) "items").1 its k, c).

(** ** A second run

    Two records, each with a link to the other. *)
Definition mutual_response : json :=
  JObj [("items", JArr [
    JObj [("fields", JObj [("b", jlink "Entry" "b")]); ("sys", jsys "Entry" "a")];
    JObj [("fields", JObj [("a", jlink "Entry" "a")]); ("sys", jsys "Entry" "b")]])].

(** A second run, over the items a run returned: [resolveResponse({items}, o)].
    The clone of an object graph is a graph of the same shape, so the run is
    made on the graph itself. *)
Definition rerun (fuel : nat) (h : heap) (items : value) (o : options)
    : result (value * heap) :=
  resolveCloned fuel (h ++ [OObj [("items", items)]]) (VRef (length h)) o.

(** What the first run returns for [mutual_response]. *)
Definition mutual_resolved : value * heap :=
  Eval vm_compute in
    match resolveResponse 10 mutual_response default_options with
    | Ok rh => rh
    | _ => (VPrim PUndef, [])
    end.

(** What an object holds. *)
Definition obj_values (o : obj) : list value :=
  match o with OObj props => props.*2 | OArr elems => elems end.

(** [dom] holds, with each object that is not a link, the objects it holds,
    and these have a lower rank: from [dom], there is no cycle through objects
    that are not links. *)
Definition ranked (h : heap) (rank : loc → nat) (dom : list loc) : bool :=
  forallb (fun l =>
    the_predicate h (VRef l) ||
    forallb (fun v => match v with
                      | VRef l' => bool_decide (l' ∈ dom) && (rank l' <? rank l)
                      | VPrim _ => true
                      end)
            (obj_values (default (OObj []) (h !! l))))
    dom.

(** No link object of [dom] resolves against the index. *)
Definition links_unresolved (fuel : nat) (em : gmap string value) (h : heap)
    (dom : list loc) : bool :=
  forallb (fun l =>
    negb (the_predicate h (VRef l)) ||
    match getResolvedLink (heap_reader h) fuel em (VRef l) with
    | Ok r => is_marker r
    | _ => false
    end) dom.

(** No object of the heap has two properties of the same name. *)
Definition keys_distinct (h : heap) : bool :=
  forallb (fun o => match o with
                    | OObj props => bool_decide (NoDup props.*1)
                    | OArr _ => true
                    end) h.

(** The stack is deep enough for a walk from any object of [dom]. *)
Definition deep_enough (fuel : nat) (rank : loc → nat) (dom : list loc) : bool :=
  forallb (fun l => rank l + 1 <? fuel) dom.

(** The objects among [vs] are in [dom]. *)
Definition all_in (dom : list loc) (vs : list value) : bool :=
  forallb (fun v => match v with VRef l => bool_decide (l ∈ dom) | VPrim _ => true end) vs.

(** ** More sample responses and options

    A record with a link to a second record, which has a link to a record
    that is not in the response. *)
Definition one_way : json :=
  JObj [("items", JArr [
    JObj [("sys", jsys "Entry" "a"); ("fields", JObj [("b", jlink "Entry" "b")])];
    JObj [("sys", jsys "Entry" "b"); ("fields", JObj [("x", jlink "Entry" "missing")])]])].

(** What the first run returns for [one_way]. *)
Definition one_way_resolved : value * heap :=
  Eval vm_compute in
    match resolveResponse 10 one_way default_options with
    | Ok rh => rh
    | _ => (VPrim PUndef, [])
    end.

Definition fields_only : options :=
  {| removeUnresolved := false; itemEntryPoints := Some ["fields"] |}.

Definition pruning : options :=
  {| removeUnresolved := true; itemEntryPoints := None |}.

(** ** The records of a response

    [t[k]], with its location. *)
Definition jstep_at (x : located) (k : key) : option located :=
  match x.2, k with
  | JObj ps, KName s =>
      match assoc s ps with Some _ => Some (jprop_at x s) | None => None end
  | JArr es, KIdx i => jvalues x !! i
  | _, _ => None
  end.

(** [t[k1][k2]...], with its location. *)
Fixpoint jlocate (x : located) (p : list key) : option located :=
  match p with
  | [] => Some x
  | k :: p' => match jstep_at x k with Some y => jlocate y p' | None => None end
  end.

(** The places of the records of a response: the items, then the included
    records, kind after kind. *)
Definition item_paths (its : list json) : list (list key) :=
  (fun i => [KName "items"; KIdx i]) <$> seq 0 (length its).

Definition kind_paths (kv : string * json) : list (list key) :=
  match kv.2 with
  | JArr rs => (fun j => [KName "includes"; KName kv.1; KIdx j]) <$> seq 0 (length rs)
  | _ => []
  end.

Definition record_paths (response : json) : list (list key) :=
  match prop json_reader response "items" with
  | JArr its => item_paths its
  | _ => []
  end ++
  match prop json_reader response "includes" with
  | JObj incs => concat (kind_paths <$> incs)
  | _ => []
  end.

(** The declared shape of a response: an array of items and, when there are
    included records, an array of them for each kind. *)
Definition is_array (t : json) : bool := match t with JArr _ => true | _ => false end.

Definition shaped (response : json) : bool :=
  match response with
  | JObj rps =>
      match assoc "items" rps with Some (JArr _) => true | _ => false end &&
      match assoc "includes" rps with
      | None => true
      | Some (JObj incs) => forallb (fun kv => is_array kv.2) incs
      | Some _ => false
      end
  | _ => false
  end.

(** The keys of a record, read from its identity block. *)
Definition record_keys (fuel : nat) (r : json) : result (list string) :=
  makeEntityMapKeys json_reader fuel (prop json_reader r "sys").

(** The [n]-th record of the response has an identity block, and [k] is one
    of its keys. *)
Definition registers (fuel : nat) (response : json) (n : nat) (k : string) : Prop :=
  ∃ p r ks, record_paths response !! n = Some p ∧ jfollow response p = Some r ∧
    truthy json_reader (prop json_reader r "sys") = true ∧
    record_keys fuel r = Ok ks ∧ k ∈ ks.

(** No record after the [n]-th has the key [k]. *)
Definition last_with_key (fuel : nat) (response : json) (n : nat) (k : string) : Prop :=
  ∀ n', n < n' → ¬ registers fuel response n' k.

(** A candidate is registered under its keys when it has an identity block,
    and under none otherwise. *)
Definition keyed (fuel : nat) (y : located) (ks : list string) : Prop :=
  (has_sys y = Ok true ∧ record_keys fuel y.2 = Ok ks) ∨ (has_sys y = Ok false ∧ ks = []).

(** ** Paths in the result

    An element of an array stays when the array is pruned, unless it is a
    link that does not resolve. *)
Definition kept (fuel : nat) (em : gmap string value) (c : json) : bool :=
  negb (jpred c &&
        match getResolvedLink json_reader fuel em c with
        | Ok r => is_marker r
        | _ => false
        end).

(** Where the path [p] from [t] leads in the result: with pruning, an index
    counts the elements before it that stay. *)
Fixpoint result_path (rm : bool) (fuel : nat) (em : gmap string value)
    (t : json) (p : list key) : list key :=
  match p with
  | [] => []
  | k :: p' =>
      match jstep t k with
      | Some c =>
          match t, k with
          | JArr es, KIdx i =>
              if rm then KIdx (length (filter (fun e => kept fuel em e) (take i es)))
              else k
          | _, _ => k
          end :: result_path rm fuel em c p'
      | None => k :: p'
      end
  end.

(** The key a link is looked up by: the global key of a direct link, the
    scoped key of a cross-scope link whose URN decodes. *)
Definition link_key (fuel : nat) (link : json) : option string :=
  let sys := prop json_reader link "sys" in
  if isLink json_reader link then
    match to_str json_reader fuel (prop json_reader sys "linkType"),
          to_str json_reader fuel (prop json_reader sys "id") with
    | Ok kind, Ok id => Some (global_key kind id)
    | _, _ => None
    end
  else if isResourceLink json_reader link then
    match getIdsFromUrn json_reader (prop json_reader sys "urn"),
          rview json_reader (prop json_reader sys "linkType") with
    | Some i, VwPrim (PStr descriptor) => Some (scoped_key i (effective_kind descriptor))
    | _, _ => None
    end
  else None.

(** The record has an identity block, and [k] is one of its keys. *)
Definition has_key (fuel : nat) (r : json) (k : string) : bool :=
  truthy json_reader (prop json_reader r "sys") &&
  match record_keys fuel r with
  | Ok ks => bool_decide (k ∈ ks)
  | _ => false
  end.

(** No record after the [n]-th has the key [k]. *)
Definition is_last (fuel : nat) (response : json) (n : nat) (k : string) : bool :=
  forallb (fun p => match jfollow response p with
                    | Some r => negb (has_key fuel r k)
                    | None => true
                    end)
          (drop (S n) (record_paths response)).

(** ** Sample responses with mutual links *)

(** A record among the items with an array of two links, the first to a
    record that is not in the response, the second to an included record that
    links back. *)
Definition across : json :=
  JObj [("items", JArr [
          JObj [("sys", jsys "Entry" "a");
                ("fields", JObj [("refs", JArr [jlink "Entry" "gone"; jlink "Entry" "b"])])]]);
        ("includes", JObj [("Entry", JArr [
          JObj [("sys", jsys "Entry" "b"); ("fields", JObj [("a", jlink "Entry" "a")])]])])].

(** Two records that link to each other, and a third with the identity of
    the second. *)
Definition shadowed : json :=
  JObj [("items", JArr [
          JObj [("sys", jsys "Entry" "a"); ("fields", JObj [("b", jlink "Entry" "b")])];
          JObj [("sys", jsys "Entry" "b"); ("fields", JObj [("a", jlink "Entry" "a")])];
          JObj [("sys", jsys "Entry" "b")]])].

(** Two records that link to each other, the link of the first inside an
    object that is itself a link to a record that is not in the response. *)
Definition wrapped : json :=
  JObj [("items", JArr [
          JObj [("sys", jsys "Entry" "a");
                ("fields", JObj [("wrap",
                   JObj [("sys", JObj [("type", jstr "Link"); ("linkType", jstr "Entry");
                                       ("id", jstr "gone")]);
                         ("b", jlink "Entry" "b")])])];
          JObj [("sys", jsys "Entry" "b"); ("fields", JObj [("a", jlink "Entry" "a")])]])].

(** Two records that link to each other, followed by a null item. *)
Definition with_null : json :=
  JObj [("items", JArr [
          JObj [("sys", jsys "Entry" "a"); ("fields", JObj [("b", jlink "Entry" "b")])];
          JObj [("sys", jsys "Entry" "b"); ("fields", JObj [("a", jlink "Entry" "a")])];
          JPrim PNull])].

Definition sys_only : options :=
  {| removeUnresolved := false; itemEntryPoints := Some ["sys"%string] |}.

(** The run over [t] returns, and afterwards the record that was at [recA]
    has the record that was at [recB] at the end of [pA], and the other way
    round at the end of [pB]. *)
Definition mutually_resolved (fuel : nat) (t : json) (o : options)
    (recA recB pA pB : list key) : Prop :=
  ∃ r hf vA vB,
    resolveResponse fuel t o = Ok (r, hf) ∧
    follow (cloned t).2 (cloned t).1 recA = Some vA ∧
    follow (cloned t).2 (cloned t).1 recB = Some vB ∧
    follow hf vA pA = Some vB ∧ follow hf vB pB = Some vA.

(** * Facts about strings and the URN pattern *)

Lemma append_cons (x : ascii) (a b : string) : String x a +:+ b = String x (a +:+ b).
Proof. reflexivity. Qed.

Lemma append_nil_l (a : string) : "" +:+ a = a.
Proof. reflexivity. Qed.

Ltac str_simpl := rewrite ?append_cons, ?append_nil_l in *.

Lemma append_assoc (a b c : string) : (a +:+ b) +:+ c = a +:+ (b +:+ c).
Proof. induction a as [|x a IH]; str_simpl; [done | by f_equal]. Qed.

Lemma append_nil_r (a : string) : a +:+ "" = a.
Proof. induction a as [|x a IH]; str_simpl; [done | by f_equal]. Qed.

Lemma length_append (a b : string) :
  String.length (a +:+ b) = String.length a + String.length b.
Proof. induction a as [|x a IH]; str_simpl; simpl; [done | by rewrite IH]. Qed.

Lemma substring_prefix (p s : string) :
  String.substring 0 (String.length p) (p +:+ s) = p.
Proof. induction p as [|x p IH]; str_simpl; simpl; [by destruct s | by f_equal]. Qed.

Lemma consumed_append (p s : string) : consumed (p +:+ s) s = p.
Proof.
  unfold consumed. rewrite length_append.
  replace (String.length p + String.length s - String.length s) with (String.length p) by lia.
  apply substring_prefix.
Qed.

Lemma star_sound c s k r :
  star c s k = Some r →
  ∃ p s', s = p +:+ s' ∧ all_chars (cls_ok c) p = true ∧ k s' = Some r.
Proof.
  induction s as [|a s IH]; simpl; intros H.
  - by exists "", "".
  - destruct (cls_ok c a) eqn:Ha; [|by exists "", (String a s)].
    destruct (star c s k) as [r'|] eqn:Hs.
    + destruct (IH H) as (p & s' & -> & Hp & Hk).
      exists (String a p), s'. str_simpl. simpl. by rewrite Ha, Hp.
    + by exists "", (String a s).
Qed.

Lemma star_here c s k : is_Some (k s) → is_Some (star c s k).
Proof.
  intros Hk. destruct s as [|a s]; simpl; [done|].
  destruct (cls_ok c a); [|done]. by destruct (star c s k).
Qed.

Lemma star_complete c p s k :
  all_chars (cls_ok c) p = true → is_Some (k s) → is_Some (star c (p +:+ s) k).
Proof.
  induction p as [|a p IH]; str_simpl; simpl; intros Hp Hk.
  - by apply star_here.
  - apply andb_true_iff in Hp as [-> Hp].
    destruct (IH Hp Hk) as [r ->]. by eexists.
Qed.

Lemma plus_sound c s caps k r :
  rmatch (RPlus c) s caps k = Some r →
  ∃ p s', s = p +:+ s' ∧ p ≠ "" ∧ all_chars (cls_ok c) p = true ∧ k s' caps = Some r.
Proof.
  simpl. destruct s as [|a s]; [done|]. destruct (cls_ok c a) eqn:Ha; [|done].
  intros (p & s' & -> & Hp & Hk)%star_sound.
  exists (String a p), s'. str_simpl. simpl. by rewrite Ha, Hp.
Qed.

Lemma strip_prefix_sound p s s' : strip_prefix p s = Some s' → s = p +:+ s'.
Proof.
  revert s. induction p as [|a p IH]; intros [|b s]; simpl; intros H; simplify_eq; try done.
  destruct (Ascii.eqb a b) eqn:Hab; [|done].
  apply Ascii.eqb_eq in Hab as ->. str_simpl. f_equal. by apply IH.
Qed.

Lemma strip_prefix_append p s : strip_prefix p (p +:+ s) = Some s.
Proof.
  induction p as [|a p IH]; str_simpl; simpl; [done|]. by rewrite Ascii.eqb_refl.
Qed.

Lemma rmatch_sound r : ∀ s caps k res,
  rmatch r s caps k = Some res →
  ∃ s' caps', matches r s caps s' caps' ∧ k s' caps' = Some res.
Proof.
  induction r as [p|c|c|r IH|i r IH|r1 IH1 r2 IH2]; intros s caps k res H.
  - simpl in H. destruct (strip_prefix p s) as [s'|] eqn:Hp; [|done].
    apply strip_prefix_sound in Hp as ->. eauto using matches.
  - simpl in H. apply star_sound in H as (p & s' & -> & Hp & Hk). eauto using matches.
  - apply plus_sound in H as (p & s' & -> & Hne & Hp & Hk). eauto using matches.
  - simpl in H. destruct (rmatch r s caps k) as [res'|] eqn:Hr.
    + simplify_eq. apply IH in Hr as (s' & caps' & Hm & Hk). eauto using matches.
    + eauto using matches.
  - simpl in H. apply IH in H as (s' & caps' & Hm & Hk). eauto using matches.
  - simpl in H. apply IH1 in H as (s1 & caps1 & Hm1 & H).
    apply IH2 in H as (s2 & caps2 & Hm2 & Hk). eauto using matches.
Qed.

Lemma rmatch_complete r : ∀ s caps s' caps' k,
  matches r s caps s' caps' → is_Some (k s' caps') → is_Some (rmatch r s caps k).
Proof.
  induction r as [p|c|c|r IH|i r IH|r1 IH1 r2 IH2]; intros s caps s' caps' k Hm Hk;
    inversion Hm; subst; simpl.
  - by rewrite strip_prefix_append.
  - by apply star_complete.
  - destruct p as [|a p]; [done|]. str_simpl. simpl in *.
    match goal with H : _ && _ = true |- _ => apply andb_true_iff in H as [-> ?] end.
    by apply star_complete.
  - destruct (IH _ _ _ _ k ltac:(eassumption) Hk) as [res ->]. by eexists.
  - destruct (rmatch r s' caps' k); [by eexists | done].
  - eapply IH; [eassumption|]. done.
  - eapply IH1; [eassumption|]. eapply IH2; eassumption.
Qed.

Lemma regExp_matches_shape s caps :
  matches regExp s (caps0 s) "" caps →
  ∃ p sid env eid,
    caps = [Some s; Some p; Some sid; env; Some eid] ∧
    all_chars (cls_ok CDot) p = true ∧ segment sid ∧ segment eid ∧
    match env with
    | None => s = p +:+ ":spaces/" +:+ sid +:+ "/entries/" +:+ eid
    | Some e => segment e ∧
        s = p +:+ ":spaces/" +:+ sid +:+ "/environments/" +:+ e +:+ "/entries/" +:+ eid
    end.
Proof.
  unfold regExp, caps0. intros H. inv_matches; rewrite !consumed_append, !append_nil_r.
  - exists p, p0, (Some p2), p1. by repeat split.
  - exists p, p0, None, p1. by repeat split.
Qed.

Lemma shape_matches_default h p sid eid :
  all_chars (cls_ok CDot) p = true → segment sid → segment eid →
  matches regExp (p +:+ ":spaces/" +:+ sid +:+ "/entries/" +:+ eid +:+ "")
    (h :: replicate 4 None) "" [h; Some p; Some sid; None; Some eid].
Proof.
  intros Hp [? ?] [? ?]. unfold regExp.
  eapply m_seq; [apply m_cap, m_star; done|].
  eapply m_seq; [apply m_lit|].
  eapply m_seq; [apply m_cap, m_plus; done|].
  eapply m_seq; [apply m_opt_none|].
  eapply m_seq; [apply m_lit|].
  rewrite !consumed_append.
  assert (H' := m_cap 4 (RPlus (CNot "/")) (eid +:+ "")
    (<[2:=Some sid]> (<[1:=Some p]> (h :: replicate 4 None)))
    "" _ (m_plus _ eid "" _ ltac:(done) ltac:(done))).
  by rewrite consumed_append in H'.
Qed.

Lemma shape_matches_scoped h p sid env eid :
  all_chars (cls_ok CDot) p = true → segment sid → segment env → segment eid →
  matches regExp
    (p +:+ ":spaces/" +:+ sid +:+ "/environments/" +:+ env +:+ "/entries/" +:+ eid +:+ "")
    (h :: replicate 4 None) "" [h; Some p; Some sid; Some env; Some eid].
Proof.
  intros Hp [? ?] [? ?] [? ?]. unfold regExp.
  eapply m_seq; [apply m_cap, m_star; done|].
  eapply m_seq; [apply m_lit|].
  eapply m_seq; [apply m_cap, m_plus; done|].
  eapply m_seq.
  { apply m_opt_some. eapply m_seq; [apply m_lit|]. apply m_cap, m_plus; done. }
  eapply m_seq; [apply m_lit|].
  rewrite !consumed_append.
  assert (H' := m_cap 4 (RPlus (CNot "/")) (eid +:+ "")
    (<[3:=Some env]> (<[2:=Some sid]> (<[1:=Some p]> (h :: replicate 4 None))))
    "" _ (m_plus _ eid "" _ ltac:(done) ltac:(done))).
  by rewrite consumed_append in H'.
Qed.

Lemma no_slash_append x y :
  all_chars (cls_ok (CNot "/"%char)) (x +:+ String "/"%char y) = false.
Proof.
  induction x as [|a x IH]; str_simpl; simpl; [done|]. rewrite IH. apply andb_false_r.
Qed.

Lemma rsplit_unique x x' e e' :
  all_chars (cls_ok (CNot "/"%char)) e = true →
  all_chars (cls_ok (CNot "/"%char)) e' = true →
  x +:+ String "/"%char e = x' +:+ String "/"%char e' → x = x' ∧ e = e'.
Proof.
  revert x'. induction x as [|a x IH]; intros [|b x'] He He' H; str_simpl.
  - by simplify_eq.
  - simplify_eq. by rewrite no_slash_append in He.
  - simplify_eq. by rewrite no_slash_append in He'.
  - simplify_eq. destruct (IH x' He He') as [-> ->]; done.
Qed.

Lemma append_suffix_eq x y u v :
  String.length u = String.length v → x +:+ u = y +:+ v → u = v.
Proof.
  revert y. induction x as [|a x IH]; intros [|b y] Hl H; str_simpl.
  - done.
  - apply (f_equal String.length) in H. simpl in H. rewrite length_append in H. lia.
  - apply (f_equal String.length) in H. simpl in H. rewrite length_append in H. lia.
  - simplify_eq. eauto.
Qed.

Lemma append_cancel_r x y u : x +:+ u = y +:+ u → x = y.
Proof.
  revert y. induction x as [|a x IH]; intros [|b y] H; str_simpl.
  - done.
  - apply (f_equal String.length) in H. simpl in H. rewrite length_append in H. lia.
  - apply (f_equal String.length) in H. simpl in H. rewrite length_append in H. lia.
  - simplify_eq. f_equal. eauto.
Qed.

Lemma shape_str_unique p sid env eid p' sid' env' eid' :
  segment sid → seg_opt env → segment eid →
  segment sid' → seg_opt env' → segment eid' →
  shape_str p sid env eid = shape_str p' sid' env' eid' →
  sid = sid' ∧ env = env' ∧ eid = eid'.
Proof.
  intros [_ Hs] He [_ Hi] [_ Hs'] He' [_ Hi'] H.
  unfold shape_str in H.
  assert (Hent : all_chars (cls_ok (CNot "/"%char)) "entries" = true) by done.
  assert (Henv : all_chars (cls_ok (CNot "/"%char)) "environments" = true) by done.
  destruct env as [e|], env' as [e'|]; simpl in He, He'.
  - destruct He as [_ He], He' as [_ He'].
    change ("/entries/" +:+ eid) with ("/entries" +:+ String "/"%char eid) in H.
    change ("/entries/" +:+ eid') with ("/entries" +:+ String "/"%char eid') in H.
    rewrite <- !append_assoc in H.
    apply rsplit_unique in H as [H ->]; [|done..].
    apply rsplit_unique in H as [H _]; [|done..].
    rewrite !append_assoc in H.
    change ("/environments/" +:+ e) with ("/environments" +:+ String "/"%char e) in H.
    change ("/environments/" +:+ e') with ("/environments" +:+ String "/"%char e') in H.
    rewrite <- !append_assoc in H.
    apply rsplit_unique in H as [H ->]; [|done..].
    apply rsplit_unique in H as [H _]; [|done..].
    rewrite !append_assoc in H.
    change (":spaces/" +:+ sid) with (":spaces" +:+ String "/"%char sid) in H.
    change (":spaces/" +:+ sid') with (":spaces" +:+ String "/"%char sid') in H.
    rewrite <- !append_assoc in H.
    by apply rsplit_unique in H as [H ->].
  - exfalso. destruct He as [_ He].
    change ("/entries/" +:+ eid) with ("/entries" +:+ String "/"%char eid) in H.
    change ("/entries/" +:+ eid') with ("/entries" +:+ String "/"%char eid') in H.
    rewrite <- !append_assoc in H.
    apply rsplit_unique in H as [H ->]; [|done..].
    apply rsplit_unique in H as [H _]; [|done..].
    rewrite !append_assoc in H.
    change ("/environments/" +:+ e) with ("/environments" +:+ String "/"%char e) in H.
    change (":spaces/" +:+ sid') with (":spaces" +:+ String "/"%char sid') in H.
    rewrite <- !append_assoc in H.
    apply rsplit_unique in H as [H ->]; [|done..].
    change "/environments" with ("/envir" +:+ "onments") in H.
    rewrite <- append_assoc in H.
    by apply append_suffix_eq in H.
  - exfalso. destruct He' as [_ He'].
    change ("/entries/" +:+ eid) with ("/entries" +:+ String "/"%char eid) in H.
    change ("/entries/" +:+ eid') with ("/entries" +:+ String "/"%char eid') in H.
    rewrite <- !append_assoc in H.
    apply rsplit_unique in H as [H ->]; [|done..].
    apply rsplit_unique in H as [H _]; [|done..].
    rewrite !append_assoc in H.
    change ("/environments/" +:+ e') with ("/environments" +:+ String "/"%char e') in H.
    change (":spaces/" +:+ sid) with (":spaces" +:+ String "/"%char sid) in H.
    rewrite <- !append_assoc in H.
    apply rsplit_unique in H as [H ->]; [|done..].
    change "/environments" with ("/envir" +:+ "onments") in H.
    rewrite <- append_assoc in H.
    by apply append_suffix_eq in H.
  - change ("/entries/" +:+ eid) with ("/entries" +:+ String "/"%char eid) in H.
    change ("/entries/" +:+ eid') with ("/entries" +:+ String "/"%char eid') in H.
    rewrite <- !append_assoc in H.
    apply rsplit_unique in H as [H ->]; [|done..].
    apply rsplit_unique in H as [H _]; [|done..].
    rewrite !append_assoc in H.
    change (":spaces/" +:+ sid) with (":spaces" +:+ String "/"%char sid) in H.
    change (":spaces/" +:+ sid') with (":spaces" +:+ String "/"%char sid') in H.
    rewrite <- !append_assoc in H.
    by apply rsplit_unique in H as [H ->].
Qed.

Lemma match_anchored_sound s caps :
  match_anchored 4 regExp s = Some caps →
  ∃ p sid env eid,
    caps = [Some s; Some p; Some sid; env; Some eid] ∧
    all_chars (cls_ok CDot) p = true ∧ segment sid ∧ seg_opt env ∧ segment eid ∧
    s = shape_str p sid env eid.
Proof.
  unfold match_anchored. intros (s' & caps' & Hm & Hk)%rmatch_sound.
  destruct s'; [|done]. simplify_eq.
  apply regExp_matches_shape in Hm as (p & sid & env & eid & -> & Hp & Hsid & Heid & Henv).
  exists p, sid, env, eid. unfold shape_str, seg_opt.
  destruct env as [e|]; [destruct Henv|]; done.
Qed.

Lemma match_anchored_complete p sid env eid :
  all_chars (cls_ok CDot) p = true → segment sid → seg_opt env → segment eid →
  match_anchored 4 regExp (shape_str p sid env eid)
  = Some [Some (shape_str p sid env eid); Some p; Some sid; env; Some eid].
Proof.
  intros Hp Hsid Henv Heid.
  assert (is_Some (match_anchored 4 regExp (shape_str p sid env eid))) as [caps Hc].
  { unfold match_anchored.
    destruct env as [e|]; simpl in Henv.
    - assert (H := shape_matches_scoped (Some (shape_str p sid (Some e) eid)) p sid e eid
                     Hp Hsid Henv Heid).
      rewrite append_nil_r in H.
      eapply rmatch_complete; [apply H | by eexists].
    - assert (H := shape_matches_default (Some (shape_str p sid None eid)) p sid eid
                     Hp Hsid Heid).
      rewrite append_nil_r in H.
      eapply rmatch_complete; [apply H | by eexists]. }
  rewrite Hc. f_equal.
  apply match_anchored_sound in Hc
    as (p' & sid' & env' & eid' & -> & Hp' & Hsid' & Henv' & Heid' & Heq).
  destruct (shape_str_unique _ _ _ _ _ _ _ _ Hsid Henv Heid Hsid' Henv' Heid' Heq)
    as (-> & -> & ->).
  repeat f_equal.
  (* the prefix is determined by the rest *)
  unfold shape_str in Heq. by destruct env'; apply append_cancel_r in Heq.
Qed.

(** ** Reading through any representation *)

Section ReadingFacts.
Context {N : Type} (R : Reader N).

Lemma nullish_undef : nullish R (undef R) = true.
Proof. unfold nullish, undef. by rewrite rview_rprim. Qed.

Lemma is_str_undef s : is_str R (undef R) s = false.
Proof. unfold is_str, undef. by rewrite rview_rprim. Qed.

Lemma prop_undef k : prop R (undef R) k = undef R.
Proof. unfold prop, undef. by rewrite rview_rprim. Qed.

Lemma get_opt_undef k : get_opt R (undef R) k = undef R.
Proof. unfold get_opt. by rewrite nullish_undef. Qed.

Lemma is_str_get_opt n k s :
  is_str R (get_opt R n k) s = true → nullish R n = false ∧ is_str R (prop R n k) s = true.
Proof.
  unfold get_opt. destruct (nullish R n); [by rewrite is_str_undef | done].
Qed.

Lemma is_str_not_nullish n s : is_str R n s = true → nullish R n = false.
Proof. unfold is_str, nullish. by destruct (rview R n) as [[]| |]. Qed.

Lemma getIdsFromUrn_Some urn i :
  getIdsFromUrn R urn = Some i ↔ ∃ s, rview R urn = VwPrim (PStr s) ∧ urn_shape s i.
Proof.
  unfold getIdsFromUrn, getIdsFromUrn_try, str_match. split.
  - destruct (rview R urn) as [[| | | |s]| |]; simpl; try done.
    destruct (match_anchored 4 regExp s) as [caps|] eqn:Hm; simpl; [|done].
    apply match_anchored_sound in Hm
      as (p & sid & env & eid & -> & Hp & Hsid & Henv & Heid & Hs).
    simpl. destruct Hsid as [Hne1 ?], Heid as [Hne2 ?].
    destruct (String.eqb_spec sid ""); [done|].
    destruct (String.eqb_spec eid ""); [done|]. simpl.
    intros [= <-]. exists (shape_str p sid env eid). split; [by rewrite Hs|].
    exists p, env. simpl. by repeat split.
  - intros (s & -> & p & env & Hp & Hsid & Henv & Heid & Hdef & ->). simpl.
    rewrite match_anchored_complete by done. simpl.
    destruct Hsid as [Hne1 ?], Heid as [Hne2 ?].
    destruct (String.eqb_spec (ids_spaceId i) ""); [done|].
    destruct (String.eqb_spec (ids_entryId i) ""); [done|]. simpl.
    rewrite <- Hdef. by destruct i.
Qed.
End ReadingFacts.


(** * Resolving one link *)

Section ReadingFacts2.
Context {N : Type} (R : Reader N).

Lemma to_str_rprim fuel p : to_str R (S fuel) (rprim R p) = Ok (prim_to_string p).
Proof. simpl. by rewrite rview_rprim. Qed.

Lemma truthy_rprim p : truthy R (rprim R p) = prim_truthy p.
Proof. unfold truthy. by rewrite rview_rprim. Qed.

Lemma isResourceLink_inv link :
  isResourceLink R link = true →
  get R link "sys" = Ok (prop R link "sys") ∧
  get R (prop R link "sys") "type" = Ok (prop R (prop R link "sys") "type") ∧
  is_str R (prop R (prop R link "sys") "type") "ResourceLink" = true.
Proof.
  unfold isResourceLink. intros [Hn H]%is_str_get_opt.
  unfold get, get_opt in *. destruct (nullish R link).
  - by rewrite nullish_undef in Hn.
  - by rewrite Hn.
Qed.

Lemma isLink_inv link :
  isLink R link = true →
  get R link "sys" = Ok (prop R link "sys") ∧
  get R (prop R link "sys") "type" = Ok (prop R (prop R link "sys") "type") ∧
  is_str R (prop R (prop R link "sys") "type") "Link" = true.
Proof.
  unfold isLink. intros [Hn H]%is_str_get_opt.
  unfold get, get_opt in *. destruct (nullish R link).
  - by rewrite nullish_undef in Hn.
  - by rewrite Hn.
Qed.

Lemma segment_truthy s : segment s → negb (String.eqb s "") = true.
Proof. intros [Hne _]. by destruct (String.eqb_spec s ""). Qed.

Lemma or_unresolved_record em k v :
  holds_records em → em !! k = Some v → or_unresolved v = v.
Proof. intros Hr Hk. by destruct (Hr _ _ Hk) as [l ->]. Qed.

(** C2. A node tagged 'ResourceLink' resolves as follows: when the URN does
    not decode, the result is the Unresolved marker; when it decodes to
    (spaceId, environmentId, entryId) and the kind descriptor is a string, the
    second ':'-separated segment of the descriptor is the effective kind, the
    scoped key spaceId!environmentId!kind!entryId is looked up, and the result
    is the record found, or the Unresolved marker when there is none. *)
Theorem resource_link_resolution (fuel : nat) (em : gmap string value) (link : N) :
  isResourceLink R link = true → holds_records em →
  let sys := prop R link "sys" in
  match getIdsFromUrn R (prop R sys "urn") with
  | None => getResolvedLink R (S fuel) em link = Ok (VRef UNRESOLVED_LINK)
  | Some i =>
      ∀ descriptor, rview R (prop R sys "linkType") = VwPrim (PStr descriptor) →
        getResolvedLink R (S fuel) em link =
          Ok (default (VRef UNRESOLVED_LINK)
                (em !! scoped_key i (effective_kind descriptor)))
  end.
Proof.
  intros (Hsys & Htype & Hrl)%isResourceLink_inv Hem sys.
  unfold getResolvedLink. rewrite Hsys. simpl. fold sys. fold sys in Htype, Hrl.
  rewrite Htype. simpl. rewrite Hrl.
  destruct (getIdsFromUrn R (prop R sys "urn")) as [i|] eqn:Hi; [|done].
  intros descriptor Hd. unfold split_second. rewrite Hd. simpl.
  apply getIdsFromUrn_Some in Hi as (s & _ & p & env & _ & Hsid & Henv & Heid & Hdef & _).
  unfold lookupInEntityMap. simpl. rewrite !truthy_rprim. simpl.
  rewrite (segment_truthy _ Hsid).
  assert (negb (String.eqb (ids_environmentId i) "") = true) as ->.
  { rewrite Hdef. destruct env as [e|]; [by apply segment_truthy | done]. }
  simpl. rewrite !rview_rprim. simpl.
  unfold scoped_key, effective_kind.
  destruct (split_on ":" descriptor !! 1) as [seg|] eqn:Hseg; simpl.
  - rewrite rview_rprim. simpl.
    destruct (em !! _) as [v|] eqn:Hv; simpl; [|done].
    by rewrite (or_unresolved_record _ _ _ Hem Hv).
  - unfold undef. rewrite rview_rprim. simpl.
    destruct (em !! _) as [v|] eqn:Hv; simpl; [|done].
    by rewrite (or_unresolved_record _ _ _ Hem Hv).
Qed.
End ReadingFacts2.

(** A cross-scope link to an entry of space S, environment master, against an
    index that holds it. *)
Lemma resource_link_resolution_witness :
  let link := JObj [("sys", JObj [("type", jstr "ResourceLink");
                                  ("linkType", jstr "Contentful:Entry");
                                  ("urn", jstr "crn:spaces/S/entries/E")])] in
  let em : gmap string value := {["S!master!Entry!E" := VRef 7]} in
  isResourceLink json_reader link = true ∧ holds_records em ∧
  getResolvedLink json_reader 1 em link = Ok (VRef 7).
Proof.
  intros link em.
  assert (Hl : isResourceLink json_reader link = true) by reflexivity.
  assert (Hr : holds_records em).
  { intros k v [_ <-]%lookup_singleton_Some. by eexists. }
  split; [exact Hl|]. split; [exact Hr|].
  exact (resource_link_resolution json_reader 0 em link Hl Hr "Contentful:Entry" eq_refl).
Defined.


(** * The entity index *)

Lemma bind_Ok {A B} (m : result A) (f : A → result B) b :
  m ≫= f = Ok b → ∃ a, m = Ok a ∧ f a = Ok b.
Proof. destruct m; simpl; eauto; done. Qed.

Lemma mapR_Ok {A B} (f : A → result B) xs ys :
  mapR f xs = Ok ys ↔ Forall2 (fun x y => f x = Ok y) xs ys.
Proof.
  revert ys. induction xs as [|x xs IH]; intros ys; simpl.
  - split; [intros [= <-]; constructor | by inversion 1].
  - split.
    + intros (y & Hy & (ys' & Hys & [= <-])%bind_Ok)%bind_Ok.
      constructor; [done | by apply IH].
    + inversion 1 as [|? y ? ys' Hy Hys]; subst. rewrite Hy. simpl.
      apply IH in Hys. by rewrite Hys.
Qed.

Lemma new_Map_snoc pairs k v : new_Map (pairs ++ [(k, v)]) = <[k := v]> (new_Map pairs).
Proof. unfold new_Map. by rewrite foldl_app. Qed.

Lemma new_Map_lookup pairs k v :
  new_Map pairs !! k = Some v ↔
  ∃ l1 l2, pairs = l1 ++ (k, v) :: l2 ∧ k ∉ l2.*1.
Proof.
  revert v. induction pairs as [|[k' v'] pairs IH] using rev_ind; intros v.
  - split; [done | intros (l1 & l2 & H & _); by destruct l1].
  - rewrite new_Map_snoc. destruct (decide (k = k')) as [<-|Hne].
    + rewrite lookup_insert_eq. split.
      * intros [= <-]. exists pairs, []. split; [done | set_solver].
      * intros (l1 & l2 & H & Hnot).
        destruct l2 as [|p l2 _] using rev_ind.
        -- apply app_inj_tail in H as [_ ?]. by simplify_eq.
        -- rewrite app_comm_cons, app_assoc in H. apply app_inj_tail in H as [_ ?].
           simplify_eq. rewrite fmap_app in Hnot. set_solver.
    + rewrite lookup_insert_ne by done. rewrite IH. split.
      * intros (l1 & l2 & -> & Hnot). exists l1, (l2 ++ [(k', v')]).
        split; [by rewrite <- app_assoc | rewrite fmap_app; set_solver].
      * intros (l1 & l2 & H & Hnot).
        destruct l2 as [|p l2 _] using rev_ind.
        -- apply app_inj_tail in H as [_ ?]. by simplify_eq.
        -- rewrite app_comm_cons, app_assoc in H. apply app_inj_tail in H as [? ?].
           simplify_eq. exists l1, l2. split; [done|]. rewrite fmap_app in Hnot. set_solver.
Qed.

Lemma new_Map_is_Some pairs k : is_Some (new_Map pairs !! k) ↔ k ∈ pairs.*1.
Proof.
  induction pairs as [|[k' v'] pairs IH] using rev_ind.
  - unfold new_Map. simpl. rewrite lookup_empty. split; [by intros [? ?] | set_solver].
  - rewrite new_Map_snoc, fmap_app, lookup_insert_is_Some, IH. simpl.
    rewrite elem_of_app, list_elem_of_singleton.
    destruct (decide (k' = k)); naive_solver.
Qed.

Lemma new_Map_app_keys pairs e ks k :
  new_Map (pairs ++ map (fun key : string => (key, e)) ks) !! k
  = if decide (k ∈ ks) then Some e else new_Map pairs !! k.
Proof.
  induction ks as [|k' ks IH] using rev_ind.
  - cbn [map]. rewrite app_nil_r. case_decide; [set_solver | done].
  - rewrite map_app, app_assoc. simpl. rewrite new_Map_snoc.
    destruct (decide (k = k')) as [->|Hne].
    + rewrite lookup_insert_eq. clear IH. case_decide; [done | set_solver].
    + rewrite lookup_insert_ne by done. rewrite IH.
      destruct (decide (k ∈ ks)), (decide (k ∈ ks ++ [k'])); set_solver.
Qed.

Lemma index_lookup eks k v :
  new_Map (pairs_of eks) !! k = Some v ↔
  ∃ i ks, eks !! i = Some (v, ks) ∧ k ∈ ks ∧
          ∀ j e' ks', i < j → eks !! j = Some (e', ks') → k ∉ ks'.
Proof.
  revert v. induction eks as [|[e ks] eks IH] using rev_ind; intros v.
  - split; [done | by intros (i & ks & H & _)].
  - unfold pairs_of. rewrite map_app, concat_app. simpl. rewrite app_nil_r.
    fold (pairs_of eks). rewrite new_Map_app_keys. case_decide as Hk.
    + split.
      * intros [= <-]. exists (length eks), ks. split_and!; [|done|].
        -- by rewrite lookup_app_r, Nat.sub_diag by lia.
        -- intros j e' ks' Hj Hl. apply lookup_lt_Some in Hl.
           rewrite length_app in Hl. simpl in Hl. lia.
      * intros (i & ks0 & Hi & Hk0 & Hlater).
        destruct (decide (i = length eks)) as [->|Hne].
        -- rewrite lookup_app_r, Nat.sub_diag in Hi by lia. by simplify_eq/=.
        -- exfalso. assert (i < length eks).
           { apply lookup_lt_Some in Hi. rewrite length_app in Hi. simpl in Hi. lia. }
           eapply (Hlater (length eks) e ks); [lia| |done].
           by rewrite lookup_app_r, Nat.sub_diag by lia.
    + rewrite IH. split.
      * intros (i & ks0 & Hi & Hk0 & Hlater). exists i, ks0. split_and!; [|done|].
        -- by apply lookup_app_l_Some.
        -- intros j e' ks' Hj Hl. apply lookup_app_Some in Hl as [Hl|[_ Hl]]; [eauto|].
           apply list_lookup_singleton_Some in Hl as [_ ?]. by simplify_eq.
      * intros (i & ks0 & Hi & Hk0 & Hlater).
        apply lookup_app_Some in Hi as [Hi|[_ Hi]].
        -- exists i, ks0. split_and!; [done..|].
           intros j e' ks' Hj Hl. eapply Hlater; [done|]. by apply lookup_app_l_Some.
        -- apply list_lookup_singleton_Some in Hi as [_ ?]. by simplify_eq.
Qed.

Lemma entityMap_of_Ok fuel h entries em :
  entityMap_of fuel h entries = Ok em ↔
  ∃ kss, Forall2 (fun e ks => keys_of fuel h e = Ok ks) entries kss ∧
         em = new_Map (pairs_of (zip entries kss)).
Proof.
  unfold entityMap_of. split.
  - intros (pss & Hm & [= <-])%bind_Ok.
    apply mapR_Ok in Hm.
    assert (∃ kss, Forall2 (fun e ks => keys_of fuel h e = Ok ks) entries kss ∧
                   concat pss = pairs_of (zip entries kss)) as (kss & ? & ->); [|eauto].
    induction Hm as [|e ps entries pss He _ (kss & Hk & Heq)].
    + by exists [].
    + apply bind_Ok in He as (ks & He & [= <-]).
      exists (ks :: kss). split; [by constructor|].
      simpl. unfold pairs_of in *. simpl. by rewrite Heq.
  - intros (kss & Hk & ->).
    assert (mapR (fun entity =>
              keys ← makeEntityMapKeys (heap_reader h) fuel (prop (heap_reader h) entity "sys");
              Ok (map (fun key : string => (key, entity)) keys)) entries
            = Ok (map (fun ek => map (fun key : string => (key, ek.1)) ek.2) (zip entries kss)))
      as ->; [|done].
    induction Hk as [|e ks entries kss He _ IH]; simpl; [done|].
    unfold keys_of in He. rewrite He. simpl. by rewrite IH.
Qed.

(** What the index holds: [k] is mapped to [v] exactly when [v] is the last
    entry that has [k] among its keys. *)
Lemma entityMap_lookup fuel h entries em k v :
  entityMap_of fuel h entries = Ok em →
  em !! k = Some v ↔
  ∃ i ks, entries !! i = Some v ∧ keys_of fuel h v = Ok ks ∧ k ∈ ks ∧
          no_later_key fuel h entries i k.
Proof.
  intros (kss & Hk & ->)%entityMap_of_Ok. rewrite index_lookup. split.
  - intros (i & ks & Hi & Hin & Hlater).
    apply lookup_zip_with_Some in Hi as (e & ks0 & ? & He & Hks). simplify_eq.
    exists i, ks0. split_and!; [done| |done|].
    + by eapply Forall2_lookup_lr in Hk.
    + intros j e' ks' Hj He' Hks'.
      destruct (Forall2_lookup_l _ _ _ _ _ Hk He') as (ks'' & Hks'' & Heq).
      assert (ks'' = ks') by congruence. subst.
      eapply (Hlater j e' ks'); [done|]. apply lookup_zip_with_Some. eauto.
  - intros (i & ks & Hi & Hks & Hin & Hlater).
    destruct (Forall2_lookup_l _ _ _ _ _ Hk Hi) as (ks' & Hks' & Heq).
    assert (ks' = ks) by congruence. subst.
    exists i, ks. split_and!; [|done|].
    + apply lookup_zip_with_Some. eauto.
    + intros j e' ks' Hj Hl.
      apply lookup_zip_with_Some in Hl as (? & ? & ? & He' & Hks''). simplify_eq.
      eapply Hlater; [done..|]. by eapply Forall2_lookup_lr in Hk.
Qed.

Lemma filterR_Ok {A} (f : A → result bool) xs ys :
  filterR f xs = Ok ys → ∀ y, y ∈ ys → y ∈ xs ∧ f y = Ok true.
Proof.
  revert ys. induction xs as [|x xs IH]; simpl; intros ys H y Hy.
  - simplify_eq. set_solver.
  - apply bind_Ok in H as (b & Hb & (ys' & Hys & [= <-])%bind_Ok).
    destruct b.
    + apply elem_of_cons in Hy as [->|Hy]; [set_solver|].
      destruct (IH _ Hys _ Hy). set_solver.
    + destruct (IH _ Hys _ Hy). set_solver.
Qed.

Lemma allEntries_truthy_sys h clone entries e :
  allEntries_of h clone = Ok entries → e ∈ entries →
  truthy (heap_reader h) (prop (heap_reader h) e "sys") = true.
Proof.
  unfold allEntries_of. intros (items & _ & Hf)%bind_Ok He.
  destruct (filterR_Ok _ _ _ Hf _ He) as [_ Hs].
  apply bind_Ok in Hs as (sys & Hsys & [= Ht]).
  unfold get in Hsys. destruct (nullish _ e); by simplify_eq.
Qed.

Lemma allEntries_refs h clone entries e :
  allEntries_of h clone = Ok entries → e ∈ entries → ∃ l, e = VRef l.
Proof.
  intros H He. pose proof (allEntries_truthy_sys _ _ _ _ H He) as Ht.
  destruct e as [p|l]; [|eauto]. by destruct p.
Qed.

Lemma entityMap_holds_records fuel h clone entries em :
  allEntries_of h clone = Ok entries → entityMap_of fuel h entries = Ok em →
  holds_records em.
Proof.
  intros Ha He k v Hk. apply (entityMap_lookup _ _ _ _ k v He) in Hk as (i & ks & Hi & _).
  eapply allEntries_refs; [done|]. by eapply list_elem_of_lookup_2.
Qed.

Lemma entityMap_is_Some fuel h entries em i e ks k :
  entityMap_of fuel h entries = Ok em →
  entries !! i = Some e → keys_of fuel h e = Ok ks → k ∈ ks → is_Some (em !! k).
Proof.
  intros (kss & Hk & ->)%entityMap_of_Ok Hi Hks Hin.
  apply new_Map_is_Some.
  destruct (Forall2_lookup_l _ _ _ _ _ Hk Hi) as (ks' & Hks' & Heq).
  assert (ks' = ks) by congruence. subst.
  unfold pairs_of. rewrite list_elem_of_fmap. exists (k, e). split; [done|].
  apply list_elem_of_In, in_concat. exists (map (fun key : string => (key, e)) ks). split.
  - apply in_map_iff. exists (e, ks). split; [done|].
    apply list_elem_of_In. eapply list_elem_of_lookup_2. apply lookup_zip_with_Some. eauto.
  - apply in_map_iff. exists k. split; [done|]. by apply list_elem_of_In.
Qed.

Section KeyFacts.
Context {N : Type} (R : Reader N).

Lemma makeEntityMapKeys_Ok fuel sys ks :
  makeEntityMapKeys R fuel sys = Ok ks →
  ∃ kind id,
    to_str R fuel (prop R sys "type") = Ok kind ∧
    to_str R fuel (prop R sys "id") = Ok id ∧
    if carries_scope R sys then
      ∃ space environment,
        to_str R fuel (prop R (get_opt R (prop R sys "space") "sys") "id") = Ok space ∧
        to_str R fuel (prop R (get_opt R (prop R sys "environment") "sys") "id")
          = Ok environment ∧
        ks = [global_key kind id; record_scoped_key space environment kind id]
    else ks = [global_key kind id].
Proof.
  unfold makeEntityMapKeys, carries_scope.
  intros (space & Hsp & (kind & Hk & (id & Hid & H)%bind_Ok)%bind_Ok)%bind_Ok.
  assert (space = prop R sys "space") as ->.
  { unfold get in Hsp. destruct (nullish R sys); by simplify_eq. }
  exists kind, id. split_and!; [done..|].
  destruct (truthy R _ && truthy R _).
  - apply bind_Ok in H as (sp & Hs & (env & He & [= <-])%bind_Ok). eauto.
  - by simplify_eq.
Qed.

Lemma isLink_not_resource link :
  isLink R link = true → is_str R (prop R (prop R link "sys") "type") "ResourceLink" = false.
Proof.
  intros (_ & _ & H)%isLink_inv. unfold is_str in *.
  destruct (rview R _) as [[| | | |s]| |]; try done.
  apply String.eqb_eq in H as ->. done.
Qed.

(** A direct link is looked up by its global key, whatever else its identity
    block holds. *)
Lemma direct_link_lookup fuel em link :
  isLink R link = true →
  let sys := prop R link "sys" in
  getResolvedLink R fuel em link =
    kind ← to_str R fuel (prop R sys "linkType");
    id ← to_str R fuel (prop R sys "id");
    Ok (or_unresolved (default (VPrim PUndef) (em !! global_key kind id))).
Proof.
  intros Hl sys. pose proof (isLink_not_resource _ Hl) as Hnr.
  apply isLink_inv in Hl as (Hsys & Htype & _).
  unfold getResolvedLink. rewrite Hsys. simpl. fold sys. fold sys in Htype, Hnr.
  rewrite Htype. simpl. rewrite Hnr.
  unfold lookupInEntityMap. simpl. unfold truthy, undef. rewrite rview_rprim. simpl.
  destruct (to_str R fuel (prop R sys "linkType")); simpl; try done.
  destruct (to_str R fuel (prop R sys "id")); simpl; done.
Qed.
End KeyFacts.


(** * Decoding and failures (C5, C4, C3) *)

(** C5. The decoder returns (spaceId, environmentId, entryId) exactly when its
    argument is a string of the form
    prefix:spaces/spaceId(/environments/environmentId)?/entries/entryId, where
    the prefix has no line terminator and the three names are non-empty and
    free of '/'; the environment is 'master' when that segment is absent. On
    anything else (another string, or a value that is not a string) it
    returns no result, without throwing, and the link resolves to the
    Unresolved marker. *)
Theorem urn_decoding {N : Type} (R : Reader N) (urn : N) :
  (∀ i, getIdsFromUrn R urn = Some i ↔
        ∃ s, rview R urn = VwPrim (PStr s) ∧ urn_shape s i)
  ∧ (getIdsFromUrn R urn = None ↔
        ¬ ∃ s i, rview R urn = VwPrim (PStr s) ∧ urn_shape s i)
  ∧ (∀ fuel em link,
        isResourceLink R link = true →
        prop R (prop R link "sys") "urn" = urn →
        getIdsFromUrn R urn = None →
        getResolvedLink R fuel em link = Ok (VRef UNRESOLVED_LINK)).
Proof.
  split_and!.
  - intros i. apply getIdsFromUrn_Some.
  - split.
    + intros Hnone (s & i & Hs).
      assert (getIdsFromUrn R urn = Some i) by (apply getIdsFromUrn_Some; eauto).
      congruence.
    + intros Hno. destruct (getIdsFromUrn R urn) as [i|] eqn:Hi; [|done].
      exfalso. apply Hno. apply getIdsFromUrn_Some in Hi as (s & ? & ?). eauto.
  - intros fuel em link (Hsys & Htype & Hrl)%isResourceLink_inv <- Hnone.
    unfold getResolvedLink. rewrite Hsys. simpl. rewrite Htype. simpl.
    by rewrite Hrl, Hnone.
Qed.

Example urn_with_environment :
  getIdsFromUrn json_reader (jstr "crn:spaces/SID/environments/staging/entries/EID")
  = Some {| ids_spaceId := "SID"; ids_environmentId := "staging"; ids_entryId := "EID" |}.
Proof. reflexivity. Qed.

Example urn_without_environment :
  getIdsFromUrn json_reader (jstr "crn:spaces/SID/entries/EID")
  = Some {| ids_spaceId := "SID"; ids_environmentId := "master"; ids_entryId := "EID" |}.
Proof. reflexivity. Qed.

Example urn_malformed : getIdsFromUrn json_reader (jstr "not-a-valid-urn") = None.
Proof. reflexivity. Qed.

Example urn_not_a_string : getIdsFromUrn json_reader (JPrim PUndef) = None.
Proof. reflexivity. Qed.

(** C4 fails on the code: a cross-scope link whose URN decodes and whose kind
    descriptor is missing makes [resolveResponse] throw, at
    [linkType.split(':')]. *)
Theorem missing_descriptor_throws :
  resolveResponse 10 bare_resource_link default_options
  = Throw (TypeError "Cannot read properties of undefined (reading 'split')").
Proof. vm_compute. reflexivity. Qed.

(** C3 fails on the code: with pruning on and [ref] as the only entry point,
    the unresolvable link in the top-level field [ref] is still there after
    the run; without entry points the same field is deleted. *)
Theorem projected_field_not_pruned :
  (∃ items h item,
     resolveResponse 10 top_level_link
       {| removeUnresolved := true; itemEntryPoints := Some ["ref"] |} = Ok (items, h) ∧
     spread h items = Ok [VRef item] ∧
     has_own h item (KName "ref") = true ∧
     isLink (heap_reader h) (get_own h item (KName "ref")) = true)
  ∧ (∃ items h item,
     resolveResponse 10 top_level_link
       {| removeUnresolved := true; itemEntryPoints := None |} = Ok (items, h) ∧
     spread h items = Ok [VRef item] ∧
     has_own h item (KName "ref") = false).
Proof.
  split.
  - eexists _, _, _. split; [vm_compute; reflexivity|]. by vm_compute.
  - eexists _, _, _. split; [vm_compute; reflexivity|]. by vm_compute.
Qed.

(** * The clone of a response *)

(** ** Trees in the heap *)

Lemma json_ind' (P : json → Prop) :
  (∀ p, P (JPrim p)) →
  (∀ elems, Forall P elems → P (JArr elems)) →
  (∀ props, Forall P props.*2 → P (JObj props)) →
  ∀ t, P t.
Proof.
  intros Hp Ha Ho. fix IH 1. intros [p|elems|props].
  - apply Hp.
  - apply Ha. induction elems as [|t ts IHts]; constructor; [apply IH | apply IHts].
  - apply Ho. induction props as [|[k t] ps IHps]; constructor; [apply IH | apply IHps].
Qed.

Lemma nodes_children t : is_node t = true → nodes t = S (nodesl (jchildren t)).
Proof.
  destruct t as [p|elems|props]; simpl; [done|done|].
  intros _. f_equal. unfold nodesl. by induction props as [|[k t] ps IH]; simpl; [|rewrite IH].
Qed.

Lemma nodesl_cons t ts : nodesl (t :: ts) = nodes t + nodesl ts.
Proof. done. Qed.

Lemma nodesl_app ts1 ts2 : nodesl (ts1 ++ ts2) = nodesl ts1 + nodesl ts2.
Proof. apply sum_list_with_app. Qed.

Lemma child_pos_0 lo ts : child_pos lo ts 0 = lo.
Proof. unfold child_pos. rewrite take_0. unfold nodesl. simpl. lia. Qed.

Lemma child_pos_S lo t ts i : child_pos lo (t :: ts) (S i) = child_pos (lo + nodes t) ts i.
Proof. unfold child_pos, nodesl. simpl. lia. Qed.

Lemma child_pos_bound lo ts i c :
  ts !! i = Some c → lo ≤ child_pos lo ts i ∧ child_pos lo ts i + nodes c ≤ lo + nodesl ts.
Proof.
  intros Hi. unfold child_pos.
  rewrite <- (take_drop_middle ts i c Hi) at 3.
  rewrite nodesl_app, nodesl_cons. lia.
Qed.

Lemma child_pos_lt lo ts i j c :
  ts !! i = Some c → i < j → child_pos lo ts i + nodes c ≤ child_pos lo ts j.
Proof.
  intros Hi Hij. unfold child_pos.
  replace j with (S i + (j - S i)) by lia.
  rewrite <- take_take_drop, (take_S_r _ _ _ Hi), !nodesl_app.
  change (nodesl [c]) with (nodes c + 0). lia.
Qed.

Lemma rep_frame h h' lo t v :
  rep h lo t v →
  (∀ l, lo ≤ l < lo + nodes t → h' !! l = h !! l) →
  rep h' lo t v.
Proof.
  induction 1 as [lo p|lo t vs Hn Hlen Hch IH Hl]; intros Hagree.
  - constructor.
  - rewrite (nodes_children _ Hn) in Hagree.
    apply rep_node with (vs := vs); [done..| |].
    + intros i c v Hc Hv. apply (IH i c v Hc Hv).
      intros l Hl'. apply Hagree. pose proof (child_pos_bound lo _ _ _ Hc). lia.
    + rewrite Hagree by lia. done.
Qed.

Lemma rep_in_heap h lo t v : rep h lo t v → is_node t = true → lo + nodes t ≤ length h.
Proof.
  destruct 1 as [lo p|lo t vs Hn Hlen Hch Hl]; [done|]. intros _.
  rewrite (nodes_children _ Hn). apply lookup_lt_Some in Hl. lia.
Qed.

Lemma lookup_middle (h seg : heap) o h' n :
  n = length h + length seg → (h ++ (seg ++ [o]) ++ h') !! n = Some o.
Proof.
  intros ->. rewrite lookup_app_r by lia. rewrite <- app_assoc, lookup_app_r by lia.
  by replace (_ - _ - _) with 0 by lia.
Qed.

Lemma copy_props_elems f ps h :
  copy_props f ps h = (zip ps.*1 (copy_elems f ps.*2 h).1, (copy_elems f ps.*2 h).2).
Proof.
  revert h. induction ps as [|[k t] ps IH]; intros h; simpl; [done|].
  destruct (f t h) as [v h1]. rewrite IH.
  fold (@fmap list _ _ _ snd ps). fold (@fmap list _ _ _ fst ps).
  by destruct (copy_elems f ps.*2 h1).
Qed.

Lemma copy_elems_spec ts :
  Forall (fun t => ∀ h, ∃ v seg, copy t h = (v, h ++ seg) ∧ length seg = nodes t ∧
                    ∀ h', rep (h ++ seg ++ h') (length h) t v) ts →
  ∀ h, ∃ vs seg, copy_elems copy ts h = (vs, h ++ seg) ∧
    length seg = nodesl ts ∧ length vs = length ts ∧
    ∀ h' i c v, ts !! i = Some c → vs !! i = Some v →
      rep (h ++ seg ++ h') (child_pos (length h) ts i) c v.
Proof.
  induction 1 as [|t ts Ht _ IH]; intros h.
  - exists [], []. rewrite app_nil_r. by split_and!.
  - destruct (Ht h) as (v & s1 & Hc & Hl1 & Hr1).
    destruct (IH (h ++ s1)) as (vs & s2 & Hcs & Hl2 & Hlen & Hr2).
    exists (v :: vs), (s1 ++ s2). simpl. rewrite Hc, Hcs.
    split_and!.
    + by rewrite <- app_assoc.
    + rewrite length_app, nodesl_cons. lia.
    + by rewrite Hlen.
    + intros h' [|i] c w Hi Hw; simpl in *; simplify_eq.
      * rewrite child_pos_0. rewrite <- app_assoc. apply Hr1.
      * rewrite child_pos_S, <- Hl1, <- length_app.
        specialize (Hr2 h' i c w Hi Hw). by rewrite <- !app_assoc in *.
Qed.

Lemma copy_spec t : ∀ h,
  ∃ v seg, copy t h = (v, h ++ seg) ∧ length seg = nodes t ∧
    ∀ h', rep (h ++ seg ++ h') (length h) t v.
Proof.
  induction t as [p|elems IH|props IH] using json_ind'; intros h.
  - exists (VPrim p), []. simpl. rewrite app_nil_r. split_and!; [done..|]. constructor.
  - destruct (copy_elems_spec _ IH h) as (vs & seg & Hc & Hl & Hlen & Hr).
    exists (VRef (length (h ++ seg))), (seg ++ [OArr vs]). simpl. rewrite Hc.
    split_and!.
    + by rewrite <- app_assoc.
    + rewrite length_app. simpl. fold (nodesl elems). lia.
    + intros h'. rewrite length_app, Hl.
      apply (rep_node _ _ (JArr elems) vs); [done..| |].
      * intros i c v Hi Hv. specialize (Hr ([OArr vs] ++ h') i c v Hi Hv).
        by rewrite <- !app_assoc in *.
      * apply lookup_middle. unfold jchildren. lia.
  - destruct (copy_elems_spec _ IH h) as (vs & seg & Hc & Hl & Hlen & Hr).
    exists (VRef (length (h ++ seg))), (seg ++ [OObj (zip props.*1 vs)]). simpl.
    rewrite copy_props_elems, Hc. simpl.
    split_and!.
    + by rewrite <- app_assoc.
    + rewrite length_app. simpl. rewrite Hl.
      pose proof (nodes_children (JObj props) eq_refl) as Hn. simpl in Hn. lia.
    + intros h'. rewrite length_app, Hl.
      apply (rep_node _ _ (JObj props) vs); [done..| |].
      * intros i c v Hi Hv. specialize (Hr ([OObj (zip props.*1 vs)] ++ h') i c v Hi Hv).
        by rewrite <- !app_assoc in *.
      * apply lookup_middle. unfold jchildren. lia.
Qed.

(** ** Two representations of the same data read the same *)

Section Parametricity.
Context {N1 N2 : Type} (R1 : Reader N1) (R2 : Reader N2) (rel : N1 → N2 → Prop).
Hypothesis rel_view : ∀ n1 n2, rel n1 n2 → view_rel rel (rview R1 n1) (rview R2 n2).
Hypothesis rel_prim : ∀ p, rel (rprim R1 p) (rprim R2 p).

Lemma rel_assoc k (ps1 : list (string * N1)) (ps2 : list (string * N2)) :
  ps1.*1 = ps2.*1 → Forall2 rel ps1.*2 ps2.*2 →
  option_Forall2 rel (assoc k ps1) (assoc k ps2).
Proof.
  revert ps2. induction ps1 as [|[k1 v1] ps1 IH]; intros [|[k2 v2] ps2]; simpl;
    intros Hk Hv; simplify_eq; [constructor|].
  apply Forall2_cons in Hv as [Hv Hvs].
  destruct (String.eqb k k2); [by constructor | by apply IH].
Qed.

Lemma rel_nullish n1 n2 : rel n1 n2 → nullish R1 n1 = nullish R2 n2.
Proof.
  intros H%rel_view. unfold nullish.
  destruct (rview R1 n1), (rview R2 n2); simpl in H; by subst.
Qed.

Lemma rel_truthy n1 n2 : rel n1 n2 → truthy R1 n1 = truthy R2 n2.
Proof.
  intros H%rel_view. unfold truthy.
  destruct (rview R1 n1), (rview R2 n2); simpl in H; by subst.
Qed.

Lemma rel_is_str n1 n2 s : rel n1 n2 → is_str R1 n1 s = is_str R2 n2 s.
Proof.
  intros H%rel_view. unfold is_str.
  destruct (rview R1 n1), (rview R2 n2); simpl in H; by subst.
Qed.

Lemma rel_undef : rel (undef R1) (undef R2).
Proof. apply rel_prim. Qed.

Lemma rel_prop n1 n2 k : rel n1 n2 → rel (prop R1 n1 k) (prop R2 n2 k).
Proof.
  intros H%rel_view. unfold prop.
  destruct (rview R1 n1), (rview R2 n2); simpl in H; try done; try apply rel_undef.
  destruct H as [Hk Hv].
  destruct (rel_assoc k _ _ Hk Hv); simpl; [done | apply rel_undef].
Qed.

Lemma rel_get n1 n2 k : rel n1 n2 → res_rel rel (get R1 n1 k) (get R2 n2 k).
Proof.
  intros H. unfold get. rewrite (rel_nullish _ _ H).
  destruct (nullish R2 n2); simpl; [done | by apply rel_prop].
Qed.

Lemma rel_get_opt n1 n2 k : rel n1 n2 → rel (get_opt R1 n1 k) (get_opt R2 n2 k).
Proof.
  intros H. unfold get_opt. rewrite (rel_nullish _ _ H).
  destruct (nullish R2 n2); [apply rel_undef | by apply rel_prop].
Qed.

Lemma rel_to_str fuel : ∀ n1 n2, rel n1 n2 → to_str R1 fuel n1 = to_str R2 fuel n2.
Proof.
  induction fuel as [|fuel IH]; intros n1 n2 H; simpl; [done|].
  pose proof (rel_view _ _ H) as Hv.
  destruct (rview R1 n1) as [p|ps1|es1], (rview R2 n2) as [q|ps2|es2];
    simpl in Hv; try done.
  - by subst.
  - destruct Hv as [Hk Hvs]. by destruct (rel_assoc "toString" _ _ Hk Hvs).
  - assert (mapR (fun e => if nullish R1 e then Ok "" else to_str R1 fuel e) es1
            = mapR (fun e => if nullish R2 e then Ok "" else to_str R2 fuel e) es2) as ->;
      [|done].
    induction Hv as [|e1 e2 es1 es2 He _ IHes]; simpl; [done|].
    rewrite (rel_nullish _ _ He), (IH _ _ He), IHes. done.
Qed.

Lemma rel_isLink n1 n2 : rel n1 n2 → isLink R1 n1 = isLink R2 n2.
Proof. intros H. unfold isLink. by apply rel_is_str, rel_get_opt, rel_get_opt. Qed.

Lemma rel_isResourceLink n1 n2 : rel n1 n2 → isResourceLink R1 n1 = isResourceLink R2 n2.
Proof. intros H. unfold isResourceLink. by apply rel_is_str, rel_get_opt, rel_get_opt. Qed.

Lemma rel_getIdsFromUrn n1 n2 : rel n1 n2 → getIdsFromUrn R1 n1 = getIdsFromUrn R2 n2.
Proof.
  intros H%rel_view. unfold getIdsFromUrn, getIdsFromUrn_try, str_match.
  destruct (rview R1 n1) as [p| |], (rview R2 n2) as [q| |]; simpl in H; try done.
  by subst.
Qed.

Lemma rel_split_second n1 n2 :
  rel n1 n2 → res_rel rel (split_second R1 n1) (split_second R2 n2).
Proof.
  intros H%rel_view. unfold split_second.
  destruct (rview R1 n1) as [p| |], (rview R2 n2) as [q| |]; simpl in H; try done.
  subst. destruct q; simpl; try done.
  destruct (split_on ":" s !! 1); [apply rel_prim | apply rel_undef].
Qed.

Lemma rel_lookupInEntityMap fuel em d1 d2 :
  rel (entryId d1) (entryId d2) → rel (linkType d1) (linkType d2) →
  rel (spaceId d1) (spaceId d2) → rel (environmentId d1) (environmentId d2) →
  lookupInEntityMap R1 fuel em d1 = lookupInEntityMap R2 fuel em d2.
Proof.
  intros He Hl Hs Henv. unfold lookupInEntityMap.
  rewrite (rel_truthy _ _ Hs), (rel_truthy _ _ Henv).
  rewrite (rel_to_str fuel _ _ Hs), (rel_to_str fuel _ _ Henv),
    (rel_to_str fuel _ _ Hl), (rel_to_str fuel _ _ He). done.
Qed.

Lemma rel_getResolvedLink fuel em n1 n2 :
  rel n1 n2 → getResolvedLink R1 fuel em n1 = getResolvedLink R2 fuel em n2.
Proof.
  intros H. unfold getResolvedLink.
  pose proof (rel_get _ _ "sys" H) as Hsys.
  destruct (get R1 n1 "sys") as [s1| |], (get R2 n2 "sys") as [s2| |];
    simpl in Hsys; try done; [|by subst]. simpl.
  pose proof (rel_get _ _ "type" Hsys) as Hty.
  destruct (get R1 s1 "type") as [t1| |], (get R2 s2 "type") as [t2| |];
    simpl in Hty; try done; [|by subst]. simpl.
  rewrite (rel_is_str _ _ _ Hty). destruct (is_str R2 t2 "ResourceLink").
  - rewrite (rel_getIdsFromUrn _ _ (rel_prop _ _ "urn" Hsys)).
    destruct (getIdsFromUrn R2 _) as [i|]; [|done].
    pose proof (rel_split_second _ _ (rel_prop _ _ "linkType" Hsys)) as Hsp.
    destruct (split_second R1 _) as [x1| |], (split_second R2 _) as [x2| |];
      simpl in Hsp; try done; [|by subst]. simpl.
    erewrite rel_lookupInEntityMap; [reflexivity|simpl..]; auto using rel_prim.
  - erewrite rel_lookupInEntityMap; [reflexivity|simpl..]; auto using rel_prop, rel_undef.
Qed.

Lemma rel_makeEntityMapKeys fuel n1 n2 :
  rel n1 n2 → makeEntityMapKeys R1 fuel n1 = makeEntityMapKeys R2 fuel n2.
Proof.
  intros H. unfold makeEntityMapKeys.
  pose proof (rel_get _ _ "space" H) as Hsp.
  destruct (get R1 n1 "space") as [s1| |], (get R2 n2 "space") as [s2| |];
    simpl in Hsp; try done; [|by subst]. simpl.
  rewrite (rel_to_str fuel _ _ (rel_prop _ _ "type" H)),
    (rel_to_str fuel _ _ (rel_prop _ _ "id" H)).
  rewrite (rel_truthy _ _ (rel_get_opt _ _ "sys" Hsp)),
    (rel_truthy _ _ (rel_get_opt _ _ "sys" (rel_prop _ _ "environment" H))).
  rewrite (rel_to_str fuel _ _ (rel_prop _ _ "id" (rel_get_opt _ _ "sys" Hsp))),
    (rel_to_str fuel _ _ (rel_prop _ _ "id"
       (rel_get_opt _ _ "sys" (rel_prop _ _ "environment" H)))).
  done.
Qed.
End Parametricity.

(** ** A cloned tree reads like the tree *)

Lemma sim_view h v t :
  sim h v t → view_rel (sim h) (rview (heap_reader h) v) (rview json_reader t).
Proof.
  intros [lo H]. destruct H as [lo p|lo t vs Hn Hlen Hch Hl]; [done|].
  unfold heap_reader, json_reader. cbn [rview].
  rewrite Hl. destruct t as [p|elems|props]; simpl in *; [done| |].
  - apply Forall2_same_length_lookup. split; [done|].
    intros i v c Hv Hc. eexists. eauto.
  - rewrite length_fmap in Hlen. split.
    + apply fst_zip. rewrite length_fmap. lia.
    + rewrite snd_zip by (rewrite length_fmap; lia).
      apply Forall2_same_length_lookup. split; [by rewrite length_fmap|].
      intros i v c Hv Hc. eexists. eauto.
Qed.

Lemma sim_prim h p : sim h (rprim (heap_reader h) p) (rprim json_reader p).
Proof. exists 0. constructor. Qed.

Lemma rep_predicate h lo t v : rep h lo t v → the_predicate h v = jpred t.
Proof.
  intros H. unfold the_predicate, jpred.
  rewrite (rel_isLink _ _ _ (sim_view h) (sim_prim h) v t) by (by exists lo).
  by rewrite (rel_isResourceLink _ _ _ (sim_view h) (sim_prim h) v t) by (by exists lo).
Qed.

Lemma rep_getResolvedLink h lo t v fuel em :
  rep h lo t v →
  getResolvedLink (heap_reader h) fuel em v = getResolvedLink json_reader fuel em t.
Proof.
  intros H. apply (rel_getResolvedLink _ _ _ (sim_view h) (sim_prim h)). by exists lo.
Qed.

(** ** Reading and writing the children of a node *)

Lemma assoc_zip_lookup {A} (ks : list string) (vs : list A) i k :
  NoDup ks → ks !! i = Some k → assoc k (zip ks vs) = vs !! i.
Proof.
  revert vs i. induction ks as [|k' ks IH]; intros vs i Hnd Hi; [done|].
  apply NoDup_cons in Hnd as [Hk' Hnd].
  destruct vs as [|v vs]; simpl.
  { by destruct i. }
  destruct i as [|i]; simpl in *.
  - simplify_eq. by rewrite String.eqb_refl.
  - destruct (String.eqb_spec k k') as [->|Hne].
    + exfalso. apply Hk'. by eapply list_elem_of_lookup_2.
    + by apply IH.
Qed.

Lemma replace_prop_zip (ks : list string) (vs : list value) i k w :
  NoDup ks → ks !! i = Some k → i < length vs →
  replace_prop k w (zip ks vs) = zip ks (<[i := w]> vs).
Proof.
  revert vs i. induction ks as [|k' ks IH]; intros vs i Hnd Hi Hlt; [done|].
  apply NoDup_cons in Hnd as [Hk' Hnd].
  destruct vs as [|v vs]; simpl in *; [lia|].
  destruct i as [|i]; simpl in *.
  - simplify_eq. by rewrite String.eqb_refl.
  - destruct (String.eqb_spec k k') as [->|Hne].
    + exfalso. apply Hk'. by eapply list_elem_of_lookup_2.
    + f_equal. apply IH; [done..|lia].
Qed.

Lemma set_prop_zip (ks : list string) (vs : list value) i k w :
  NoDup ks → ks !! i = Some k → i < length vs →
  set_prop k w (zip ks vs) = zip ks (<[i := w]> vs).
Proof.
  intros Hnd Hi Hlt. unfold set_prop, set_assoc.
  destruct (lookup_lt_is_Some_2 vs i Hlt) as [v Hv].
  rewrite (assoc_zip_lookup ks vs i k) by done. rewrite Hv. by apply replace_prop_zip.
Qed.

Lemma node_keys_length t (vs : list value) :
  length vs = length (jchildren t) → length (node_keys t) = length vs.
Proof.
  intros ->. destruct t as [p|elems|props]; simpl; [done| |].
  - by rewrite length_fmap, length_seq.
  - by rewrite !length_fmap.
Qed.

Section NodeOps.
Context (h : heap) (l : loc) (t : json) (vs : list value).
Hypothesis Hnode : is_node t = true.
Hypothesis Hkeys : keys_ok t.
Hypothesis Hlen : length vs = length (jchildren t).
Hypothesis Hl : h !! l = Some (mk_obj t vs).

Lemma own_keys_node : own_keys h l = node_keys t.
Proof.
  unfold own_keys. rewrite Hl. destruct t as [p|elems|props]; simpl in *; [done| |].
  - by rewrite Hlen.
  - rewrite length_fmap in Hlen. by rewrite fst_zip by (rewrite length_fmap; lia).
Qed.

Lemma has_own_node i k : node_keys t !! i = Some k → has_own h l k = true.
Proof.
  intros Hk. unfold has_own. rewrite Hl.
  destruct t as [p|elems|props]; simpl in *; [done| |].
  - apply list_lookup_fmap_Some in Hk as (j & -> & Hj).
    apply lookup_seq in Hj as [-> Hj]. apply bool_decide_eq_true. simpl. lia.
  - apply list_lookup_fmap_Some in Hk as (s & -> & Hs).
    apply bool_decide_eq_true. rewrite (assoc_zip_lookup _ _ i) by done.
    apply lookup_lt_is_Some. apply lookup_lt_Some in Hs.
    pose proof Hlen as Hlen'. rewrite !length_fmap in Hlen'. rewrite length_fmap in Hs. lia.
Qed.

Lemma get_own_node i k v :
  node_keys t !! i = Some k → vs !! i = Some v → get_own h l k = v.
Proof.
  intros Hk Hv. unfold get_own. rewrite Hl.
  destruct t as [p|elems|props]; simpl in *; [done| |].
  - apply list_lookup_fmap_Some in Hk as (j & -> & Hj).
    apply lookup_seq in Hj as [-> Hj]. simpl. by rewrite Hv.
  - apply list_lookup_fmap_Some in Hk as (s & -> & Hs).
    by rewrite (assoc_zip_lookup _ _ i), Hv.
Qed.

Lemma set_own_node i k w :
  node_keys t !! i = Some k →
  set_own h l k w = <[l := mk_obj t (<[i := w]> vs)]> h.
Proof.
  intros Hk. unfold set_own. rewrite Hl.
  assert (i < length vs) as Hi.
  { rewrite <- (node_keys_length t vs Hlen). by eapply lookup_lt_Some. }
  destruct t as [p|elems|props]; simpl in *; [done| |].
  - apply list_lookup_fmap_Some in Hk as (j & -> & Hj).
    apply lookup_seq in Hj as [-> Hj]. simpl. unfold set_idx.
    by rewrite bool_decide_true by lia.
  - apply list_lookup_fmap_Some in Hk as (s & -> & Hs).
    by rewrite (set_prop_zip _ _ i).
Qed.
End NodeOps.

(** * The walk *)

(** ** What a walk leaves behind *)

Section Walk.
Context (em : gmap string value) (rm : bool) (fuel : nat).

Lemma walked_frame h h' D t v :
  walked em rm fuel h D t v → (∀ l, D l → h' !! l = h !! l) → walked em rm fuel h' D t v.
Proof.
  induction 1 as [t r Hp Hr Hm|t lo v Hp Hr Hrm Hrep HD| |t ws l Hp Hn Hlen Hch IH HD Hl];
    intros Hagree.
  - by apply walked_link.
  - apply walked_kept with (lo := lo); [done..| |done].
    eapply rep_frame; [done|]. intros l Hl. apply Hagree, HD. exact Hl.
  - apply walked_prim.
  - apply walked_node with (ws := ws); [done..| |done|].
    + intros i c w Hc Hw. by eapply IH.
    + by rewrite Hagree.
Qed.

Lemma walked_mono h (D D' : loc → Prop) t v :
  walked em rm fuel h D t v → (∀ l, D l → D' l) → walked em rm fuel h D' t v.
Proof.
  induction 1 as [t r Hp Hr Hm|t lo v Hp Hr Hrm Hrep HD| |t ws l Hp Hn Hlen Hch IH HD Hl];
    intros Hsub.
  - by apply walked_link.
  - eapply walked_kept; eauto.
  - apply walked_prim.
  - eapply walked_node; eauto.
Qed.

Lemma frame_refl S h : frame S h h.
Proof. by split. Qed.

Lemma frame_trans (S : loc → Prop) h1 h2 h3 :
  frame S h1 h2 → frame S h2 h3 → frame S h1 h3.
Proof.
  intros [Hl1 H1] [Hl2 H2]. split; [lia|].
  intros l Hl HS. rewrite H2, H1; [done..|lia|done].
Qed.

Lemma frame_mono (S S' : loc → Prop) h h' :
  frame S h h' → (∀ l, S l → S' l) → frame S' h h'.
Proof. intros [Hl H] Hsub. split; [done|]. intros l ? HS. apply H; [done|]. auto. Qed.

Lemma frame_insert (S : loc → Prop) h l o : S l → frame S h (<[l := o]> h).
Proof.
  intros HS. split; [by rewrite length_insert|].
  intros l' _ Hl'. apply list_lookup_insert_ne. congruence.
Qed.

Lemma frame_app (S : loc → Prop) h seg' : frame S h (h ++ seg').
Proof.
  split; [rewrite length_app; lia|]. intros l Hl _. by apply lookup_app_l.
Qed.
End Walk.

(** ** Enough fuel *)

Lemma max_list_with_elem_of {A} (f : A → nat) (xs : list A) x :
  x ∈ xs → f x ≤ max_list_with f xs.
Proof.
  induction xs as [|y xs IH]; simpl; [set_solver|].
  intros [->|Hx]%elem_of_cons; [lia|]. specialize (IH Hx). lia.
Qed.

Lemma depth_child t c : c ∈ jchildren t → depth c < depth t.
Proof.
  destruct t as [p|elems|props]; simpl; [set_solver| |].
  - intros Hc. pose proof (max_list_with_elem_of depth _ _ Hc) as Hm. lia.
  - intros ([k c'] & -> & Hc)%list_elem_of_fmap.
    pose proof (max_list_with_elem_of (fun kv => depth kv.2) _ _ Hc) as Hm. simpl in *. lia.
Qed.

Lemma assoc_Some_elem {A} k (ps : list (string * A)) v :
  assoc k ps = Some v → v ∈ ps.*2.
Proof.
  induction ps as [|[k' v'] ps IH]; simpl; [done|].
  destruct (String.eqb k k'); [intros [= ->]; set_solver | set_solver].
Qed.

Lemma depth_prop t k : depth (prop json_reader t k) ≤ depth t.
Proof.
  unfold prop. destruct t as [p|elems|props]; simpl; try lia.
  destruct (assoc k props) as [c|] eqn:Hc; simpl; [|lia].
  pose proof (depth_child (JObj props) c (assoc_Some_elem _ _ _ Hc)). simpl in *. lia.
Qed.

Lemma depth_get_opt t k : depth (get_opt json_reader t k) ≤ depth t.
Proof. unfold get_opt. destruct (nullish _ _); [simpl; lia | apply depth_prop]. Qed.

Lemma mapR_no_fuel {A B} (f : A → result B) xs :
  (∀ x, x ∈ xs → f x ≠ OutOfFuel) → mapR f xs ≠ OutOfFuel.
Proof.
  induction xs as [|x xs IH]; simpl; intros H; [done|].
  destruct (f x) eqn:Hx; simpl; [|done|].
  - destruct (mapR f xs) eqn:Hxs; simpl; [done..|]. exfalso. apply IH; [|done]. set_solver.
  - exfalso. eapply H; [|done]. set_solver.
Qed.

Lemma to_str_no_fuel t : ∀ fuel, depth t < fuel → to_str json_reader fuel t ≠ OutOfFuel.
Proof.
  induction t as [p|elems IH|props IH] using json_ind'; intros [|fuel] Hd; simpl in *;
    try lia; try done.
  - destruct (mapR _ elems) eqn:Hm; simpl; [done..|]. exfalso.
    revert Hm. apply mapR_no_fuel. intros e He.
    destruct (nullish json_reader e); [done|].
    rewrite Forall_forall in IH. apply IH; [done|].
    pose proof (max_list_with_elem_of depth _ _ He). lia.
  - by destruct (assoc "toString" props).
Qed.

Lemma bind_no_fuel {A B} (m : result A) (f : A → result B) :
  m ≠ OutOfFuel → (∀ a, m = Ok a → f a ≠ OutOfFuel) → m ≫= f ≠ OutOfFuel.
Proof. destruct m; simpl; eauto. Qed.

Lemma lookupInEntityMap_no_fuel fuel em (d : linkData json) :
  depth (entryId d) < fuel → depth (linkType d) < fuel →
  depth (spaceId d) < fuel → depth (environmentId d) < fuel →
  lookupInEntityMap json_reader fuel em d ≠ OutOfFuel.
Proof.
  intros. unfold lookupInEntityMap.
  destruct (_ && _); repeat (apply bind_no_fuel; [by apply to_str_no_fuel|intros ? _]); done.
Qed.

Lemma getResolvedLink_no_fuel fuel em t :
  depth t < fuel → getResolvedLink json_reader fuel em t ≠ OutOfFuel.
Proof.
  intros Hd. unfold getResolvedLink.
  apply bind_no_fuel; [unfold get; by destruct (nullish _ _)|]. intros sys Hsys.
  assert (depth sys ≤ depth t).
  { unfold get in Hsys. destruct (nullish _ _); simplify_eq. apply depth_prop. }
  apply bind_no_fuel; [unfold get; by destruct (nullish _ _)|]. intros ty _.
  pose proof (depth_prop sys "linkType"). pose proof (depth_prop sys "id").
  destruct (is_str _ _ _).
  - destruct (getIdsFromUrn _ _); [|done].
    apply bind_no_fuel.
    { unfold split_second. by destruct (rview _ _) as [[]| |]. }
    intros x Hx. apply bind_no_fuel; [|done].
    assert (depth x = 0) as Hx0.
    { unfold split_second in Hx. destruct (rview _ _) as [[]| |]; simplify_eq.
      by destruct (split_on _ _ !! 1). }
    apply lookupInEntityMap_no_fuel; simpl; lia.
  - apply bind_no_fuel; [|done].
    apply lookupInEntityMap_no_fuel; simpl; lia.
Qed.

Lemma makeEntityMapKeys_no_fuel fuel t :
  depth t < fuel → makeEntityMapKeys json_reader fuel t ≠ OutOfFuel.
Proof.
  intros Hd. unfold makeEntityMapKeys.
  pose proof (depth_prop t "type"). pose proof (depth_prop t "id").
  pose proof (depth_prop t "environment"). pose proof (depth_prop t "space").
  apply bind_no_fuel; [unfold get; by destruct (nullish _ _)|]. intros sp Hsp.
  assert (sp = prop json_reader t "space") as ->.
  { unfold get in Hsp. destruct (nullish _ _); by simplify_eq. }
  pose proof (depth_get_opt (prop json_reader t "space") "sys").
  pose proof (depth_get_opt (prop json_reader t "environment") "sys").
  pose proof (depth_prop (get_opt json_reader (prop json_reader t "space") "sys") "id").
  pose proof (depth_prop (get_opt json_reader (prop json_reader t "environment") "sys") "id").
  apply bind_no_fuel; [apply to_str_no_fuel; lia|]. intros ? _.
  apply bind_no_fuel; [apply to_str_no_fuel; lia|]. intros ? _.
  destruct (_ && _); [|done].
  apply bind_no_fuel; [apply to_str_no_fuel; lia|]. intros ? _.
  apply bind_no_fuel; [apply to_str_no_fuel; lia|]. intros ? _. done.
Qed.

(** ** The walk of a cloned tree *)

Lemma jpred_prim p : jpred (JPrim p) = false.
Proof. by destruct p. Qed.

Lemma is_marker_true v : is_marker v = true → v = VRef UNRESOLVED_LINK.
Proof. unfold is_marker. by intros ?%bool_decide_eq_true. Qed.

Section WalkSpec.
Context (em : gmap string value) (rm : bool) (fuel : nat).

Notation walk fw := (walkMutate fw the_predicate (the_mutator em rm fuel) rm).
Notation post := (walk_post em rm fuel).
Notation body fw l := (walk_body fw the_predicate (the_mutator em rm fuel) rm l).

Lemma walkMutate_unfold fw h input :
  walk (S fw) h input =
    if the_predicate h input then
      r ← the_mutator em rm fuel h input; Ok (r, h)
    else
      match input with
      | VRef l =>
          h1 ← foldR (body fw l) h (own_keys h l);
          if rm then Ok (cleanUpLinks h1 input) else Ok (input, h1)
      | VPrim _ => Ok (input, h)
      end.
Proof. reflexivity. Qed.

Lemma walk_link fw h lo t v :
  jpred t = true → rep h lo t v → depth t < fuel → post h lo t v (walk (S fw) h v).
Proof.
  intros Hp Hrep Hd. rewrite walkMutate_unfold, (rep_predicate _ _ _ _ Hrep), Hp.
  unfold the_mutator, normalizeLink. rewrite (rep_getResolvedLink _ _ _ _ _ _ Hrep).
  pose proof (getResolvedLink_no_fuel fuel em t Hd) as Hnf.
  destruct (getResolvedLink json_reader fuel em t) as [r| |] eqn:Hr; simpl; [|done..].
  assert (Hk : keeps_ref rm t = true → ∀ x, x = v).
  { unfold keeps_ref. by rewrite Hp. }
  destruct (is_marker r) eqn:Hm; simpl.
  - destruct rm eqn:Hrm; simpl.
    + split_and!; [|apply frame_refl|by auto]. apply walked_link; auto.
    + split_and!; [|apply frame_refl|by auto]. apply is_marker_true in Hm as ->.
      apply walked_kept with (lo := lo); [done..|]. intros l Hl. by left.
  - split_and!; [|apply frame_refl|by auto]. apply walked_link; auto.
Qed.

Section Children.
Context (fw : nat).
Hypothesis IHw : ∀ c lo v h,
  depth c < fw → depth c < fuel → wf c = true → rep h lo c v → post h lo c v (walk fw h v).

Context (tp : json) (pos : nat → nat) (l : loc) (h0 : heap) (vs : list value).
Hypothesis Hnode : is_node tp = true.
Hypothesis Hkeys : keys_ok tp.
Hypothesis Hlen : length vs = length (jchildren tp).
Hypothesis Hchild : ∀ c, c ∈ jchildren tp → depth c < fw ∧ depth c < fuel ∧ wf c = true.
Hypothesis Hdisj : ∀ i j ci cj,
  jchildren tp !! i = Some ci → jchildren tp !! j = Some cj → i ≠ j →
  pos i + nodes ci ≤ pos j ∨ pos j + nodes cj ≤ pos i.
Hypothesis Hout : ∀ i c, jchildren tp !! i = Some c → ¬ seg (pos i) c l.
Hypothesis Hl_lt : l < length h0.
Hypothesis Hreps : ∀ i c v,
  jchildren tp !! i = Some c → vs !! i = Some v → rep h0 (pos i) c v.

Lemma seg_below j c l' : jchildren tp !! j = Some c → seg (pos j) c l' → l' < length h0.
Proof.
  intros Hc Hs. unfold seg in Hs.
  destruct (lookup_lt_is_Some_2 vs j) as [v Hv].
  { rewrite Hlen. by eapply lookup_lt_Some. }
  pose proof (Hreps _ _ _ Hc Hv) as Hrep.
  destruct (is_node c) eqn:Hn.
  - pose proof (rep_in_heap _ _ _ _ Hrep Hn). lia.
  - destruct c; simpl in *; [lia|done..].
Qed.

Lemma loop_step i h ws k c v :
  Inv em rm fuel tp pos l h0 vs i h ws → node_keys tp !! i = Some k →
  jchildren tp !! i = Some c → vs !! i = Some v →
  match body fw l h k with
  | Ok h' => ∃ w, Inv em rm fuel tp pos l h0 vs (S i) h' (ws ++ [w])
  | Throw _ => True
  | OutOfFuel => False
  end.
Proof.
  intros (Hws & Hi & Hl & Hwalked & Hrest & Hframe) Hk Hc Hv.
  assert (Hlen' : length (ws ++ drop i vs) = length (jchildren tp)).
  { rewrite length_app, length_drop. lia. }
  assert (Hvi : (ws ++ drop i vs) !! i = Some v).
  { rewrite lookup_app_r by lia. rewrite lookup_drop. rewrite <- Hv. f_equal. lia. }
  unfold walk_body.
  rewrite (has_own_node h l tp _ Hnode Hkeys Hlen' Hl i k Hk).
  rewrite (get_own_node h l tp _ Hnode Hkeys Hlen' Hl i k v Hk Hvi).
  destruct (Hchild c) as (Hd1 & Hd2 & Hwf); [by eapply list_elem_of_lookup_2|].
  pose proof (IHw c (pos i) v h Hd1 Hd2 Hwf (Hrest i c v (le_n _) Hc Hv)) as Hpost.
  destruct (walk fw h v) as [[w h'']| |]; simpl in *; [|done..].
  destruct Hpost as (Hw & [Hlen'' Hfr] & _).
  destruct Hframe as [Hlen0 Hframe].
  assert (Hl'' : h'' !! l = Some (mk_obj tp (ws ++ drop i vs))).
  { rewrite Hfr; [done|lia|]. by apply Hout. }
  rewrite (set_own_node h'' l tp _ Hnode Hkeys Hlen' Hl'' i k w Hk).
  exists w. unfold Inv.
  assert (Hlv : i < length vs) by (by eapply lookup_lt_Some).
  split_and!.
  - rewrite length_app. simpl. lia.
  - lia.
  - rewrite list_lookup_insert_eq by (by eapply lookup_lt_Some).
    do 2 f_equal. rewrite insert_app_r_alt by lia.
    replace (i - length ws) with 0 by lia.
    rewrite (drop_S _ _ _ Hv). simpl. by rewrite <- app_assoc.
  - intros j c' w' Hc' Hw'. rewrite length_insert.
    assert (l < length h'') by lia.
    apply lookup_app_Some in Hw' as [Hw'|[Hj Hw']].
    + (* an earlier child *)
      assert (j < i) by (apply lookup_lt_Some in Hw'; lia).
      apply walked_frame with (h := h'').
      * apply walked_mono with (D := Dseg (pos j) c' (length h0) (length h)).
        -- apply walked_frame with (h := h); [by eapply Hwalked|].
           intros l' [Hs|Hfresh].
           ++ apply Hfr; [pose proof (seg_below _ _ _ Hc' Hs); lia|].
              unfold seg in *. destruct (Hdisj i j c c' Hc Hc'); lia.
           ++ apply Hfr; [lia|]. intros Hs. pose proof (seg_below _ _ _ Hc Hs). lia.
        -- intros l' [Hs|Hfresh]; [by left | right; lia].
      * intros l' HD. apply list_lookup_insert_ne. intros <-.
        destruct HD as [Hs|Hfresh]; [by eapply Hout | lia].
    + (* the child just walked *)
      apply list_lookup_singleton_Some in Hw' as [Hj' <-].
      assert (j = i) as -> by lia. assert (c' = c) as -> by congruence.
      apply walked_frame with (h := h'').
      * eapply walked_mono; [done|]. intros l' [Hs|Hfresh]; [by left | right; lia].
      * intros l' HD. apply list_lookup_insert_ne. intros <-.
        destruct HD as [Hs|Hfresh]; [by eapply Hout | lia].
  - intros j c' v' Hj Hc' Hv'. apply rep_frame with (h := h'').
    + apply rep_frame with (h := h); [apply Hrest; [lia|done..]|].
      intros l' Hs. apply Hfr.
      * pose proof (seg_below j c' l' Hc' Hs). lia.
      * unfold seg in *. destruct (Hdisj i j c c' Hc Hc'); lia.
    + intros l' Hs. apply list_lookup_insert_ne. intros <-. by eapply Hout.
  - split; [rewrite length_insert; lia|].
    intros l' Hl' Hnot. rewrite list_lookup_insert_ne by (intros <-; apply Hnot; by left).
    rewrite Hfr; [by apply Hframe|lia|].
    intros Hs. apply Hnot. right. by exists i, c.
Qed.

Lemma loop n : ∀ i h ws,
  i + n = length vs → Inv em rm fuel tp pos l h0 vs i h ws →
  match foldR (body fw l) h (drop i (node_keys tp)) with
  | Ok h' => ∃ ws', Inv em rm fuel tp pos l h0 vs (length vs) h' ws'
  | Throw _ => True
  | OutOfFuel => False
  end.
Proof.
  induction n as [|n IH]; intros i h ws Hn HInv.
  - rewrite drop_ge; [simpl; exists ws; by replace (length vs) with i by lia|].
    pose proof HInv as (_ & _ & Hl & _).
    rewrite (node_keys_length tp vs Hlen). lia.
  - assert (i < length vs) as Hi by lia.
    destruct (lookup_lt_is_Some_2 vs i Hi) as [v Hv].
    destruct (lookup_lt_is_Some_2 (jchildren tp) i) as [c Hc]; [lia|].
    destruct (lookup_lt_is_Some_2 (node_keys tp) i) as [k Hk].
    { rewrite (node_keys_length tp vs Hlen). lia. }
    rewrite (drop_S _ _ _ Hk). simpl.
    pose proof (loop_step i h ws k c v HInv Hk Hc Hv) as Hstep.
    destruct (body fw l h k) as [h'| |]; simpl; [|done..].
    destruct Hstep as [w HInv']. apply (IH (S i) h' (ws ++ [w])); [lia|done].
Qed.
End Children.

Lemma wf_children t :
  wf t = true → keys_ok t ∧ ∀ c, c ∈ jchildren t → wf c = true.
Proof.
  destruct t as [p|elems|props]; simpl.
  - intros _. split; [done | set_solver].
  - intros H. split; [done|]. intros c Hc.
    rewrite forallb_forall in H. apply H. by apply list_elem_of_In.
  - intros [Hnd H]%andb_true_iff. split; [by apply bool_decide_eq_true in Hnd|].
    intros c ([k c'] & -> & Hc)%list_elem_of_fmap.
    rewrite forallb_forall in H. apply (H (k, c')). by apply list_elem_of_In.
Qed.

Lemma seg_child lo t i c l :
  is_node t = true → jchildren t !! i = Some c →
  seg (child_pos lo (jchildren t) i) c l → seg lo t l ∧ l ≠ lo + nodesl (jchildren t).
Proof.
  intros Hn Hc Hs. unfold seg in *. rewrite (nodes_children _ Hn).
  pose proof (child_pos_bound lo _ _ _ Hc). lia.
Qed.

Theorem walk_spec fw : ∀ t lo v h,
  depth t < fw → depth t < fuel → wf t = true → rep h lo t v →
  post h lo t v (walk fw h v).
Proof.
  induction fw as [|fw IH]; intros t lo v h Hd Hdf Hwf Hrep; [lia|].
  destruct (jpred t) eqn:Hp; [by eapply walk_link|].
  rewrite walkMutate_unfold, (rep_predicate _ _ _ _ Hrep), Hp.
  destruct Hrep as [lo p|lo t vs Hn Hlen Hch Hl].
  { simpl. split_and!; [apply walked_prim | apply frame_refl | done]. }
  set (l := lo + nodesl (jchildren t)) in *.
  set (pos := child_pos lo (jchildren t)) in *.
  destruct (wf_children _ Hwf) as [Hkeys Hwfc].
  rewrite (own_keys_node h l t vs Hn Hkeys Hlen Hl).
  assert (HInv0 : Inv em rm fuel t pos l h vs 0 h []).
  { unfold Inv. simpl. rewrite drop_0. split_and!; [done|lia|done|done| |apply frame_refl].
    intros j c v _ Hc Hv. by apply Hch. }
  assert (Hl_lt : l < length h) by (by eapply lookup_lt_Some).
  assert (Hout : ∀ i c, jchildren t !! i = Some c → ¬ seg (pos i) c l).
  { intros i c Hc Hs. by destruct (seg_child lo t i c l Hn Hc Hs). }
  assert (Hchild : ∀ c, c ∈ jchildren t → depth c < fw ∧ depth c < fuel ∧ wf c = true).
  { intros c Hc. pose proof (depth_child t c Hc). split_and!; [lia..|by apply Hwfc]. }
  assert (Hdisj : ∀ i j ci cj,
    jchildren t !! i = Some ci → jchildren t !! j = Some cj → i ≠ j →
    pos i + nodes ci ≤ pos j ∨ pos j + nodes cj ≤ pos i).
  { intros i j ci cj Hi Hj Hij. destruct (decide (i < j)).
    - left. by eapply child_pos_lt.
    - right. eapply child_pos_lt; [done|lia]. }
  pose proof (loop fw IH t pos l h vs Hn Hkeys Hlen Hchild Hdisj Hout Hl_lt Hch
                (length vs) 0 h [] eq_refl HInv0) as Hloop.
  rewrite drop_0 in Hloop.
  destruct (foldR _ h (node_keys t)) as [hn| |]; simpl; [|done..].
  destruct Hloop as (ws & Hws & _ & Hln & Hwalked & _ & Hframe).
  rewrite drop_all, app_nil_r in Hln.
  assert (Hframe' : frame (seg lo t) h hn).
  { eapply frame_mono; [done|]. intros l' [->|(j & c & Hc & Hs)].
    - unfold seg, l. rewrite (nodes_children _ Hn). lia.
    - by destruct (seg_child lo t j c l' Hn Hc Hs). }
  assert (Hseg_l : seg lo t l).
  { unfold seg, l. rewrite (nodes_children _ Hn). lia. }
  destruct Hframe as [Hle _].
  (* the children, as seen from the parent *)
  assert (Hkids : ∀ h' b, length hn ≤ b →
            (∀ l', l' < length hn → l' ≠ l → h' !! l' = hn !! l') →
            ∀ i c w, jchildren t !! i = Some c → ws !! i = Some w →
              walked em rm fuel h' (Dseg lo t (length h) b) c w).
  { intros h' b Hb Hagree i c w Hc Hw.
    apply walked_mono with (D := Dseg (pos i) c (length h) (length hn)).
    - apply walked_frame with (h := hn); [by eapply Hwalked|].
      intros l' [Hs|Hfresh].
      + apply Hagree.
        * pose proof (seg_below t pos l h vs Hlen Hl_lt Hch i c l' Hc Hs). lia.
        * intros ->. by eapply Hout.
      + apply Hagree; lia.
    - intros l' [Hs|Hfresh]; [left | right; lia].
      by destruct (seg_child lo t i c l' Hn Hc Hs). }
  destruct rm eqn:Hrm; simpl.
  - unfold cleanUpLinks. rewrite Hln.
    destruct t as [p|elems|props]; simpl in Hn; [done| |]; simpl mk_obj; cbv iota.
    + (* an array is filtered into a new array *)
      split_and!.
      * apply walked_node with (ws := ws); [done..|lia| | |].
        -- apply Hkids; [rewrite length_app; simpl; lia|].
           intros l' Hl' _. by apply lookup_app_l.
        -- right. rewrite length_app. simpl. lia.
        -- simpl. rewrite lookup_app_r by lia. by rewrite Nat.sub_diag.
      * eapply frame_trans; [done | apply frame_app].
      * unfold keeps_ref. by rewrite andb_false_r.
    + (* an object is filtered in place *)
      split_and!; [| |done].
      * apply walked_node with (ws := ws); [done..|lia| | |].
        -- apply Hkids; [rewrite length_insert; lia|].
           intros l' Hl' Hne. by apply list_lookup_insert_ne.
        -- by left.
        -- simpl. apply list_lookup_insert_eq. lia.
      * eapply frame_trans; [done | by apply frame_insert].
  - split_and!; [|done..].
    apply walked_node with (ws := ws); [done..|lia| | |].
    + apply Hkids; [lia | done].
    + by left.
    + done.
Qed.
End WalkSpec.

(** * One entry: the entry object and the assignment *)

(** ** Assignments to the properties of an object *)

Lemma assoc_lookup {A} k (ps : list (string * A)) v :
  assoc k ps = Some v → ∃ i, ps !! i = Some (k, v).
Proof.
  induction ps as [|[k' v'] ps IH]; simpl; [done|].
  destruct (String.eqb_spec k k') as [->|Hne].
  - intros [= ->]. by exists 0.
  - intros [i Hi]%IH. by exists (S i).
Qed.

Lemma assoc_None {A} k (ps : list (string * A)) : assoc k ps = None ↔ k ∉ ps.*1.
Proof.
  induction ps as [|[k' v'] ps IH]; simpl; [set_solver|].
  destruct (String.eqb_spec k k') as [->|Hne]; [set_solver|].
  rewrite IH. set_solver.
Qed.

Lemma assoc_NoDup_lookup {A} (ps : list (string * A)) i k v :
  NoDup ps.*1 → ps !! i = Some (k, v) → assoc k ps = Some v.
Proof.
  revert i. induction ps as [|[k' v'] ps IH]; intros i Hnd Hi; [done|].
  apply NoDup_cons in Hnd as [Hk' Hnd]. simpl.
  destruct i as [|i]; simpl in Hi.
  - simplify_eq. by rewrite String.eqb_refl.
  - destruct (String.eqb_spec k k') as [->|Hne]; [|by eapply IH].
    exfalso. apply Hk'. apply list_elem_of_fmap. exists (k', v).
    split; [done|]. by eapply list_elem_of_lookup_2.
Qed.

Lemma replace_prop_keys {A} k (a : A) ps : (replace_prop k a ps).*1 = ps.*1.
Proof.
  induction ps as [|[k' a'] ps IH]; simpl; [done|].
  destruct (String.eqb_spec k k') as [->|Hne]; [done|].
  rewrite !fmap_cons. by f_equal.
Qed.

Lemma replace_prop_assoc {A} k (a : A) ps k' :
  is_Some (assoc k ps) →
  assoc k' (replace_prop k a ps) = if decide (k' = k) then Some a else assoc k' ps.
Proof.
  induction ps as [|[k'' a''] ps IH]; simpl; [by intros [? ?]|].
  destruct (String.eqb_spec k k'') as [->|Hne]; simpl.
  - intros _. destruct (String.eqb_spec k' k''); destruct (decide (k' = k'')); done.
  - intros Hk. destruct (String.eqb_spec k' k''); [|by apply IH].
    subst. by destruct (decide (k'' = k)).
Qed.

Lemma create_prop_perm {A} k (a : A) ps : create_prop k a ps ≡ₚ (k, a) :: ps.
Proof.
  induction ps as [|[k' a'] ps IH]; simpl; [done|].
  destruct (enumerated_before k k'); [done|]. rewrite IH. apply Permutation_swap.
Qed.

Lemma create_prop_assoc {A} k (a : A) ps k' :
  assoc k ps = None →
  assoc k' (create_prop k a ps) = if decide (k' = k) then Some a else assoc k' ps.
Proof.
  induction ps as [|[k'' a''] ps IH]; simpl.
  - intros _. destruct (String.eqb_spec k' k); destruct (decide (k' = k)); done.
  - destruct (String.eqb_spec k k'') as [->|Hne]; [done|]. intros Hk.
    destruct (enumerated_before k k''); simpl.
    + destruct (String.eqb_spec k' k); destruct (decide (k' = k)); done.
    + destruct (String.eqb_spec k' k''); [|by apply IH].
      subst. by destruct (decide (k'' = k)).
Qed.

Lemma set_assoc_assoc {A} k (a : A) ps k' :
  assoc k' (set_assoc k a ps) = if decide (k' = k) then Some a else assoc k' ps.
Proof.
  unfold set_assoc. destruct (assoc k ps) eqn:Hk.
  - apply replace_prop_assoc. by rewrite Hk.
  - by apply create_prop_assoc.
Qed.

(** An own property keeps its place; a new one is added. *)
Lemma set_assoc_keys {A} k (a : A) ps :
  if decide (k ∈ ps.*1) then (set_assoc k a ps).*1 = ps.*1
  else (set_assoc k a ps).*1 ≡ₚ k :: ps.*1.
Proof.
  unfold set_assoc. destruct (assoc k ps) eqn:Hk.
  - rewrite decide_True; [apply replace_prop_keys|].
    destruct (decide (k ∈ ps.*1)) as [|Hn]; [done|].
    apply assoc_None in Hn. congruence.
  - rewrite decide_False by (by apply assoc_None).
    by rewrite create_prop_perm.
Qed.

Lemma set_assoc_NoDup {A} k (a : A) ps : NoDup ps.*1 → NoDup (set_assoc k a ps).*1.
Proof.
  intros Hnd. pose proof (set_assoc_keys k a ps) as Hk.
  destruct (decide (k ∈ ps.*1)); [by rewrite Hk|].
  rewrite Hk. by apply NoDup_cons.
Qed.

Lemma replace_prop_id {A} k (a : A) ps : assoc k ps = Some a → replace_prop k a ps = ps.
Proof.
  induction ps as [|[k' a'] ps IH]; simpl; [done|].
  destruct (String.eqb_spec k k') as [->|Hne]; [by intros [= ->]|].
  intros H. by rewrite IH.
Qed.

Lemma set_assoc_id {A} k (a : A) ps : assoc k ps = Some a → set_assoc k a ps = ps.
Proof. intros H. unfold set_assoc. rewrite H. by apply replace_prop_id. Qed.

Lemma replace_prop_mem {A} k (a : A) ps x :
  x ∈ replace_prop k a ps → x = (k, a) ∨ x ∈ ps.
Proof.
  induction ps as [|[k' a'] ps IH]; simpl; [set_solver|].
  destruct (String.eqb k k'); set_solver.
Qed.

Lemma set_assoc_mem {A} k (a : A) ps x :
  x ∈ set_assoc k a ps → x = (k, a) ∨ x ∈ ps.
Proof.
  unfold set_assoc. destruct (assoc k ps).
  - apply replace_prop_mem.
  - rewrite create_prop_perm. set_solver.
Qed.

(** What a property holds after an assignment is there. *)
Lemma assoc_elem {A} k (a : A) ps : assoc k ps = Some a → (k, a) ∈ ps.
Proof. intros [i Hi]%assoc_lookup. by eapply list_elem_of_lookup_2. Qed.

Lemma set_assoc_new {A} k (a : A) ps : (k, a) ∈ set_assoc k a ps.
Proof. apply assoc_elem. rewrite set_assoc_assoc. by rewrite decide_True. Qed.

Lemma replace_prop_old {A} k (a : A) ps x : x ∈ ps → x.1 ≠ k → x ∈ replace_prop k a ps.
Proof.
  induction ps as [|[k' a'] ps IH]; simpl; [set_solver|].
  intros Hx Hne. destruct (String.eqb_spec k k') as [->|Hk].
  - apply elem_of_cons in Hx as [->|Hx]; [done|set_solver].
  - set_solver.
Qed.

Lemma set_assoc_old {A} k (a : A) ps x : x ∈ ps → x.1 ≠ k → x ∈ set_assoc k a ps.
Proof.
  intros Hx Hne. unfold set_assoc. destruct (assoc k ps).
  - by apply replace_prop_old.
  - rewrite create_prop_perm. set_solver.
Qed.

Lemma set_prop_assoc k v ps k' :
  assoc k' (set_prop k v ps) = if decide (k' = k) then Some v else assoc k' ps.
Proof. apply set_assoc_assoc. Qed.

Lemma set_prop_keys k v ps : k ∈ ps.*1 → (set_prop k v ps).*1 = ps.*1.
Proof.
  intros Hk. pose proof (set_assoc_keys k v ps) as H. by rewrite decide_True in H.
Qed.

Lemma set_prop_NoDup k v ps : NoDup ps.*1 → NoDup (set_prop k v ps).*1.
Proof. apply set_assoc_NoDup. Qed.

Lemma set_prop_id k v ps : assoc k ps = Some v → set_prop k v ps = ps.
Proof. apply set_assoc_id. Qed.

Lemma assign_props_assoc ps kvs k :
  NoDup kvs.*1 →
  assoc k (assign_props ps kvs) = match assoc k kvs with Some w => Some w | None => assoc k ps end.
Proof.
  revert ps. induction kvs as [|[k' w'] kvs IH]; intros ps Hnd; [done|].
  apply NoDup_cons in Hnd as [Hk' Hnd]. simpl in Hk'.
  change (assign_props ps ((k', w') :: kvs)) with (assign_props (set_prop k' w' ps) kvs).
  rewrite IH by done. cbn [assoc].
  destruct (String.eqb_spec k k') as [->|Hne].
  - apply assoc_None in Hk'. rewrite Hk', set_prop_assoc. by destruct (decide (k' = k')).
  - destruct (assoc k kvs); [done|]. rewrite set_prop_assoc. by destruct (decide (k = k')).
Qed.

Lemma assign_props_keys ps kvs :
  (∀ k, k ∈ kvs.*1 → k ∈ ps.*1) → (assign_props ps kvs).*1 = ps.*1.
Proof.
  revert ps. induction kvs as [|[k' w'] kvs IH]; intros ps Hsub; [done|].
  change (assign_props ps ((k', w') :: kvs)) with (assign_props (set_prop k' w' ps) kvs).
  assert (Hk : (set_prop k' w' ps).*1 = ps.*1).
  { apply set_prop_keys, Hsub. set_solver. }
  rewrite IH; [done|]. intros k Hin. rewrite Hk. apply Hsub. set_solver.
Qed.

Lemma set_own_obj h l ps k v :
  h !! l = Some (OObj ps) → set_own h l (KName k) v = <[l := OObj (set_prop k v ps)]> h.
Proof. intros Hl. unfold set_own. by rewrite Hl. Qed.

Lemma Object_assign_obj h l ps src :
  h !! l = Some (OObj ps) →
  Object_assign h l src = <[l := OObj (assign_props ps (own_entries h src))]> h.
Proof.
  intros Hl. unfold Object_assign, assign_props.
  generalize (own_entries h src) as kvs. intros kvs.
  revert h ps Hl. induction kvs as [|[k v] kvs IH]; intros h ps Hl; simpl.
  - by rewrite list_insert_id.
  - rewrite (set_own_obj _ _ _ _ _ Hl).
    rewrite (IH _ (set_prop k v ps)).
    + by rewrite list_insert_insert_eq.
    + apply list_lookup_insert_eq. by eapply lookup_lt_Some.
Qed.

Lemma assign_props_self ps : NoDup ps.*1 → assign_props ps ps = ps.
Proof.
  intros Hnd. unfold assign_props.
  assert (H : ∀ kvs, (∀ k v, (k, v) ∈ kvs → assoc k ps = Some v) →
              foldl (fun acc kv => set_prop kv.1 kv.2 acc) ps kvs = ps).
  { induction kvs as [|[k v] kvs IH]; intros Hin; simpl; [done|].
    rewrite set_prop_id by (apply Hin; set_solver). apply IH. intros. apply Hin. set_solver. }
  apply H. intros k v [i Hi]%list_elem_of_lookup_1. by eapply assoc_NoDup_lookup.
Qed.

Lemma Object_assign_frame h l src :
  length (Object_assign h l src) = length h ∧
  ∀ l', l' ≠ l → Object_assign h l src !! l' = h !! l'.
Proof.
  unfold Object_assign. generalize (own_entries h src) as kvs. intros kvs.
  revert h. induction kvs as [|[k v] kvs IH]; intros h; simpl; [done|].
  destruct (IH (set_own h l (KName k) v)) as [Hlen Hl].
  assert (length (set_own h l (KName k) v) = length h ∧
          ∀ l', l' ≠ l → set_own h l (KName k) v !! l' = h !! l') as [Hlen' Hl'].
  { unfold set_own. destruct (h !! l) as [[ps|es]|]; [|done..].
    split; [by rewrite length_insert|]. intros. by apply list_lookup_insert_ne. }
  split; [lia|]. intros l' Hne. by rewrite Hl, Hl'.
Qed.

(** ** The projection of a record on its entry points *)

Lemma makeEntryObject_fold h item ps names : ∀ acc,
  h !! item = Some (OObj ps) →
  foldl (fun h' entryPoint =>
           if has_own h' item (KName entryPoint) then
             set_own h' (length h) (KName entryPoint) (get_own h' item (KName entryPoint))
           else h')
        (h ++ [OObj acc]) names
  = h ++ [OObj (foldl (fun acc name =>
                  match assoc name ps with
                  | Some v => set_prop name v acc
                  | None => acc
                  end) acc names)].
Proof.
  induction names as [|name names IH]; intros acc Hitem; [done|].
  assert (Hlt : item < length h) by (by eapply lookup_lt_Some).
  assert (Hhas : has_own (h ++ [OObj acc]) item (KName name)
                 = bool_decide (is_Some (assoc name ps))).
  { unfold has_own. by rewrite lookup_app_l, Hitem by done. }
  assert (Hget : get_own (h ++ [OObj acc]) item (KName name)
                 = default (VPrim PUndef) (assoc name ps)).
  { unfold get_own. by rewrite lookup_app_l, Hitem by done. }
  assert (Hset : ∀ v, set_own (h ++ [OObj acc]) (length h) (KName name) v
                      = h ++ [OObj (set_prop name v acc)]).
  { intros v. unfold set_own. rewrite lookup_app_r, Nat.sub_diag by lia. simpl.
    by rewrite insert_app_r_alt, Nat.sub_diag by lia. }
  cbn [foldl]. rewrite Hhas, Hget, Hset.
  destruct (assoc name ps) as [v|] eqn:Hv; simpl.
  - rewrite ?bool_decide_true by eauto. by apply IH.
  - rewrite ?bool_decide_false by (by intros [? ?]). by apply IH.
Qed.

Lemma makeEntryObject_project h item ps names :
  h !! item = Some (OObj ps) →
  makeEntryObject h item (Some names) = (VRef (length h), h ++ [OObj (project ps names)]).
Proof.
  intros Hitem. unfold makeEntryObject, project. f_equal.
  by apply makeEntryObject_fold.
Qed.

Lemma project_spec ps names :
  NoDup (project ps names).*1 ∧
  ∀ k, assoc k (project ps names) = if decide (k ∈ names) then assoc k ps else None.
Proof.
  unfold project.
  assert (H : ∀ acc, NoDup acc.*1 →
    let r := foldl (fun acc name =>
               match assoc name ps with Some v => set_prop name v acc | None => acc end)
               acc names in
    NoDup r.*1 ∧
    ∀ k, assoc k r = if decide (k ∈ names) then
                       match assoc k ps with Some v => Some v | None => assoc k acc end
                     else assoc k acc).
  { induction names as [|name names IH]; intros acc Hnd; cbn [foldl].
    - split; [done|]. intros k. destruct (decide (k ∈ [])); [set_solver | done].
    - destruct (assoc name ps) as [v|] eqn:Hv.
      + destruct (IH (set_prop name v acc) (set_prop_NoDup _ _ _ Hnd)) as [Hnd' Hk].
        split; [done|]. intros k. rewrite Hk, set_prop_assoc.
        destruct (decide (k = name)) as [->|Hne].
        * rewrite Hv. destruct (decide (name ∈ names)), (decide (name ∈ name :: names));
            try done; set_solver.
        * destruct (decide (k ∈ names)), (decide (k ∈ name :: names)); try done; set_solver.
      + destruct (IH acc Hnd) as [Hnd' Hk].
        split; [done|]. intros k. rewrite Hk.
        destruct (decide (k = name)) as [->|Hne].
        * rewrite Hv. destruct (decide (name ∈ names)), (decide (name ∈ name :: names));
            try done; set_solver.
        * destruct (decide (k ∈ names)), (decide (k ∈ name :: names)); try done; set_solver. }
  destruct (H [] (NoDup_nil_2)) as [Hnd Hk]. split; [done|].
  intros k. rewrite Hk. destruct (decide (k ∈ names)); [by destruct (assoc k ps) | done].
Qed.


(** ** Projections, whatever the properties hold *)

Lemma set_prop_set_assoc k v ps : set_prop k v ps = set_assoc k v ps.
Proof. reflexivity. Qed.

Lemma project_projectA ps names : project ps names = projectA ps names.
Proof.
  unfold project, projectA. generalize (@nil (string * value)).
  induction names as [|name names IH]; intros acc; simpl; [done|].
  destruct (assoc name ps); [rewrite set_prop_set_assoc|]; apply IH.
Qed.

Lemma assoc_on_snd {A B} (f : A → B) k (ps : list (string * A)) :
  assoc k (on_snd f <$> ps) = f <$> assoc k ps.
Proof.
  induction ps as [|[k' a] ps IH]; simpl; [done|]. by destruct (String.eqb k k').
Qed.

Lemma replace_prop_on_snd {A B} (f : A → B) k a (ps : list (string * A)) :
  replace_prop k (f a) (on_snd f <$> ps) = on_snd f <$> replace_prop k a ps.
Proof.
  induction ps as [|[k' a'] ps IH]; simpl; [done|].
  destruct (String.eqb k k'); simpl; [done|]. f_equal. apply IH.
Qed.

Lemma create_prop_on_snd {A B} (f : A → B) k a (ps : list (string * A)) :
  create_prop k (f a) (on_snd f <$> ps) = on_snd f <$> create_prop k a ps.
Proof.
  induction ps as [|[k' a'] ps IH]; simpl; [done|].
  destruct (enumerated_before k k'); simpl; [done|]. f_equal. apply IH.
Qed.

Lemma set_assoc_on_snd {A B} (f : A → B) k a (ps : list (string * A)) :
  set_assoc k (f a) (on_snd f <$> ps) = on_snd f <$> set_assoc k a ps.
Proof.
  unfold set_assoc. rewrite assoc_on_snd.
  destruct (assoc k ps); simpl; [apply replace_prop_on_snd | apply create_prop_on_snd].
Qed.

Lemma projectA_on_snd {A B} (f : A → B) (ps : list (string * A)) names :
  projectA (on_snd f <$> ps) names = on_snd f <$> projectA ps names.
Proof.
  unfold projectA.
  change (@nil (string * B)) with (on_snd f <$> @nil (string * A)).
  generalize (@nil (string * A)).
  induction names as [|name names IH]; intros acc; simpl; [done|].
  rewrite assoc_on_snd. destruct (assoc name ps) as [a|]; simpl; [|apply IH].
  rewrite set_assoc_on_snd. apply IH.
Qed.

(** The projection has each selected name once, with what the record holds
    under it. *)
Lemma projectA_spec {A} (ps : list (string * A)) names :
  NoDup (projectA ps names).*1 ∧
  (∀ k a, (k, a) ∈ projectA ps names → k ∈ names ∧ assoc k ps = Some a) ∧
  (∀ k a, k ∈ names → assoc k ps = Some a → (k, a) ∈ projectA ps names).
Proof.
  unfold projectA.
  assert (H : ∀ acc : list (string * A),
    NoDup acc.*1 → (∀ k a, (k, a) ∈ acc → assoc k ps = Some a) →
    let r := foldl (fun acc name =>
               match assoc name ps with Some a => set_assoc name a acc | None => acc end)
               acc names in
    NoDup r.*1 ∧
    (∀ k a, (k, a) ∈ r → (k ∈ names ∨ (k, a) ∈ acc) ∧ assoc k ps = Some a) ∧
    (∀ k a, (k ∈ names ∨ (k, a) ∈ acc) → assoc k ps = Some a → (k, a) ∈ r)).
  { induction names as [|name names IH]; intros acc Hnd Hacc; cbn [foldl].
    - split_and!; [done| |]; intros k a; [|set_solver]. intros Hin. split; [by right | eauto].
    - destruct (assoc name ps) as [a0|] eqn:Ha0.
      + assert (Hnd' : NoDup (set_assoc name a0 acc).*1) by (by apply set_assoc_NoDup).
        assert (Hacc' : ∀ k a, (k, a) ∈ set_assoc name a0 acc → assoc k ps = Some a).
        { intros k a [?|?]%set_assoc_mem; [by simplify_eq | eauto]. }
        destruct (IH _ Hnd' Hacc') as (Hr1 & Hr2 & Hr3). split_and!; [done| |].
        * intros k a Hin. destruct (Hr2 k a Hin) as [[?|Hin'] ?]; split; try done.
          -- left. set_solver.
          -- apply set_assoc_mem in Hin' as [?|?]; [left; set_solver | by right].
        * intros k a Hor Hk. apply Hr3; [|done].
          destruct Hor as [[->|?]%elem_of_cons|Hin]; [|by left|].
          -- right. assert (a = a0) as -> by congruence. apply set_assoc_new.
          -- destruct (decide (k = name)) as [->|Hne].
             ++ right. assert (a = a0) as -> by congruence. apply set_assoc_new.
             ++ right. by apply set_assoc_old.
      + destruct (IH _ Hnd Hacc) as (Hr1 & Hr2 & Hr3). split_and!; [done| |].
        * intros k a Hin. destruct (Hr2 k a Hin) as [[?|?] ?]; split; try done;
            [left; set_solver | by right].
        * intros k a Hor Hk. apply Hr3; [|done].
          destruct Hor as [[->|?]%elem_of_cons|Hin]; [congruence|by left|by right]. }
  destruct (H [] NoDup_nil_2) as (H1 & H2 & H3); [set_solver|].
  split_and!; [done| |].
  - intros k a Hin. destruct (H2 k a Hin) as [[?|?] ?]; [done|set_solver].
  - intros k a Hin Hk. apply H3; auto.
Qed.

(** ** One entry *)

Lemma rep_val_at h lo t v : rep h lo t v → v = val_at lo t.
Proof. destruct 1 as [lo p|lo t vs Hn _ _ _]; [done|]. by destruct t. Qed.

Lemma assoc_filter_zip (P : value → bool) (ks : list string) (ws : list value) i k w :
  NoDup ks → ks !! i = Some k → ws !! i = Some w →
  assoc k (filter (fun kv => P kv.2) (zip ks ws)) = if P w then Some w else None.
Proof.
  revert ws i. induction ks as [|k' ks IH]; intros ws i Hnd Hk Hw; [done|].
  apply NoDup_cons in Hnd as [Hk' Hnd].
  destruct ws as [|w' ws]; [done|]. simpl. rewrite filter_cons. simpl.
  destruct i as [|i]; simpl in *.
  - simplify_eq. destruct (P w) eqn:HP.
    + rewrite decide_True by done. simpl. by rewrite String.eqb_refl.
    + rewrite decide_False by (by intros []).
      apply assoc_None. intros Hin. apply Hk'.
      apply list_elem_of_fmap in Hin as ([k0 w0] & -> & Hin).
      apply list_elem_of_filter in Hin as [_ Hin]. simpl.
      apply list_elem_of_lookup_1 in Hin as [j Hj].
      apply lookup_zip_with_Some in Hj as (? & ? & ? & ? & ?). simplify_eq.
      by eapply list_elem_of_lookup_2.
  - assert (k ≠ k') as Hne.
    { intros ->. apply Hk'. by eapply list_elem_of_lookup_2. }
    destruct (decide (P w')); simpl; [|by eapply IH].
    destruct (String.eqb_spec k k'); [done|]. by eapply IH.
Qed.

Lemma NoDup_fst_filter {A} (P : string * A → Prop) `{∀ x, Decision (P x)}
    (ps : list (string * A)) :
  NoDup ps.*1 → NoDup (filter P ps).*1.
Proof.
  induction ps as [|[k a] ps IH]; [done|]. rewrite fmap_cons. intros [Hk Hnd]%NoDup_cons.
  rewrite filter_cons. destruct (decide (P (k, a))); [|by apply IH].
  rewrite fmap_cons. apply NoDup_cons. split; [|by apply IH].
  intros Hin. apply Hk. apply list_elem_of_fmap in Hin as (x & -> & Hin).
  apply list_elem_of_filter in Hin as [_ Hin]. apply list_elem_of_fmap. eauto.
Qed.

Lemma prune_props_NoDup rm (ks : list string) (ws : list value) :
  NoDup ks → length ws = length ks →
  ∃ pf, prune rm (OObj (zip ks ws)) = OObj pf ∧ NoDup pf.*1.
Proof.
  intros Hnd Hlen.
  assert (NoDup (zip ks ws).*1) by (rewrite fst_zip by lia; done).
  unfold prune. destruct rm; eexists; (split; [done|]); [|done].
  by apply NoDup_fst_filter.
Qed.

Lemma cleanUp_object rm h l kvs :
  h !! l = Some (OObj kvs) →
  (if (rm : bool) then Ok (cleanUpLinks h (VRef l)) else Ok (VRef l, h)) =
  (Ok (VRef l, <[l := prune rm (OObj kvs)]> h) : result (value * heap)).
Proof.
  intros Hl. destruct rm; simpl.
  - by rewrite Hl.
  - by rewrite list_insert_id.
Qed.

Lemma prune_assoc rm (ks : list string) (ws : list value) pf j k w :
  NoDup ks → prune rm (OObj (zip ks ws)) = OObj pf →
  ks !! j = Some k → ws !! j = Some w →
  assoc k pf = if is_marker w && rm then None else Some w.
Proof.
  intros Hnd Hpf Hk Hw. unfold prune in Hpf. destruct rm; injection Hpf as <-.
  - rewrite (assoc_filter_zip (fun v => negb (is_marker v)) _ _ j k w Hnd Hk Hw).
    rewrite andb_true_r. by destruct (is_marker w).
  - rewrite andb_false_r. by rewrite (assoc_zip_lookup _ _ j).
Qed.

Lemma prune_keys rm (ks : list string) (ws : list value) pf k :
  prune rm (OObj (zip ks ws)) = OObj pf → k ∈ pf.*1 → k ∈ ks.
Proof.
  intros Hpf Hin.
  assert (Hsub : ∀ x, x ∈ pf → x ∈ zip ks ws).
  { unfold prune in Hpf. destruct rm; injection Hpf as <-; [|done].
    intros x Hx. by apply list_elem_of_filter in Hx as [_ ?]. }
  apply list_elem_of_fmap in Hin as ([k' w] & -> & Hin). apply Hsub in Hin.
  apply list_elem_of_lookup_1 in Hin as [j Hj].
  apply lookup_zip_with_Some in Hj as (? & ? & ? & ? & ?). simplify_eq.
  by eapply list_elem_of_lookup_2.
Qed.

Section Item.
Context (em : gmap string value) (o : options) (fuel : nat).

Notation rm := (removeUnresolved o).

Lemma resolve_item_whole h lo ps :
  itemEntryPoints o = None →
  rep h lo (JObj ps) (VRef (lo + nodesl ps.*2)) →
  wf (JObj ps) = true → depth (JObj ps) < fuel →
  item_result em o fuel h lo ps (resolve_item fuel em o h (VRef (lo + nodesl ps.*2))).
Proof.
  intros Heps Hrep Hwf Hd. set (l := lo + nodesl ps.*2) in *.
  unfold resolve_item. rewrite Heps. simpl.
  pose proof (walk_spec em rm fuel fuel (JObj ps) lo (VRef l) h Hd Hd Hwf Hrep) as Hpost.
  fold (the_mutator em rm fuel).
  destruct (walkMutate fuel _ _ rm h (VRef l)) as [[w h2]| |]; simpl; simpl in Hpost;
    [|done..].
  destruct Hpost as (Hw & Hfr & Hkeep).
  destruct (Object_assign_frame h2 l w) as [Hlen Hother].
  assert (Hsegl : seg lo (JObj ps) l).
  { unfold seg, l. rewrite (nodes_children (JObj ps) eq_refl). simpl. lia. }
  split.
  - eapply frame_trans; [done|]. split; [lia|].
    intros l' _ Hl'. apply Hother. by intros ->.
  - intros Hp. rewrite Hkeep in * by (unfold keeps_ref; by rewrite Hp).
    inversion Hw as [? ? Hp' | ? ? ? Hp' | | t' ws l' _ _ Hlen' Hch HD Hl]; subst;
      try congruence.
    destruct (wf_children _ Hwf) as [Hkeys _]. simpl in Hkeys, Hlen'.
    rewrite length_fmap in Hlen'.
    destruct (prune_props_NoDup rm ps.*1 ws Hkeys) as (pf & Hpf & Hnd).
    { by rewrite length_fmap. }
    simpl in Hl. rewrite Hpf in Hl.
    assert (Hsame : Object_assign h2 l (VRef l) = h2).
    { rewrite (Object_assign_obj _ _ _ _ Hl). simpl. rewrite Hl.
      rewrite assign_props_self by done. by apply list_insert_id. }
    rewrite Hsame. exists pf. split; [done|].
    split; [intros k; by apply (prune_keys rm ps.*1 ws)|].
    intros i k c Hi v. rewrite decide_True by (unfold field_walked; by rewrite Heps).
    destruct (lookup_lt_is_Some_2 ws i) as [wi Hwi].
    { rewrite Hlen'. by eapply lookup_lt_Some. }
    assert (Hki : ps.*1 !! i = Some k) by (by rewrite list_lookup_fmap, Hi).
    assert (Hci : ps.*2 !! i = Some c) by (by rewrite list_lookup_fmap, Hi).
    exists wi. split; [by eapply Hch|].
    unfold prune in Hpf. destruct rm eqn:Hrm.
    + injection Hpf as <-.
      rewrite (assoc_filter_zip (fun v => negb (is_marker v)) _ _ i k wi Hkeys Hki Hwi).
      rewrite andb_true_r. by destruct (is_marker wi).
    + injection Hpf as <-. rewrite andb_false_r.
      by rewrite (assoc_zip_lookup _ _ i).
Qed.
End Item.


(** ** The projected entry object *)

Lemma on_snd_zip {A B} (f : A → B) (l : list (string * A)) :
  on_snd f <$> l = zip l.*1 (f <$> l.*2).
Proof. induction l as [|[k a] l IH]; [done|]. rewrite !fmap_cons. simpl. by rewrite IH. Qed.

Lemma fields3_lookup ps vs j :
  length vs = length ps →
  fields3 ps vs !! j =
    '(k, c) ← ps !! j; v ← vs !! j; Some (k, (j, c, v)).
Proof.
  intros Hlen. unfold fields3.
  destruct (ps !! j) as [[k c]|] eqn:Hj; simpl.
  - destruct (lookup_lt_is_Some_2 vs j) as [v Hv].
    { rewrite Hlen. by eapply lookup_lt_Some. }
    rewrite Hv. simpl. apply lookup_zip_with_Some. exists k, (j, c, v).
    split_and!; [done|by rewrite list_lookup_fmap, Hj|].
    apply lookup_zip_with_Some. exists (j, c), v. split_and!; [done| |done].
    apply lookup_zip_with_Some. exists j, c. split_and!; [done| |].
    + apply lookup_seq. split; [done|]. by eapply lookup_lt_Some.
    + by rewrite list_lookup_fmap, Hj.
  - apply lookup_ge_None. apply lookup_ge_None in Hj.
    rewrite length_zip_with, length_fmap. lia.
Qed.

Lemma fields3_keys ps vs : length vs = length ps → (fields3 ps vs).*1 = ps.*1.
Proof.
  intros Hlen. unfold fields3. apply fst_zip.
  rewrite !length_zip_with, !length_fmap, length_seq. lia.
Qed.

Lemma fields3_values ps vs :
  length vs = length ps → zip ps.*1 vs = on_snd snd <$> fields3 ps vs.
Proof.
  intros Hlen. apply list_eq. intros j.
  rewrite list_lookup_fmap, (fields3_lookup _ _ _ Hlen).
  destruct (ps !! j) as [[k c]|] eqn:Hj; simpl.
  - destruct (lookup_lt_is_Some_2 vs j) as [v Hv].
    { rewrite Hlen. by eapply lookup_lt_Some. }
    rewrite Hv. simpl. apply lookup_zip_with_Some. exists k, v.
    split_and!; [done| |done]. by rewrite list_lookup_fmap, Hj.
  - apply lookup_ge_None. apply lookup_ge_None in Hj.
    rewrite length_zip_with, length_fmap. lia.
Qed.

Lemma fields3_assoc ps vs k i c v :
  NoDup ps.*1 → length vs = length ps →
  assoc k (fields3 ps vs) = Some (i, c, v) → ps !! i = Some (k, c) ∧ vs !! i = Some v.
Proof.
  intros Hnd Hlen Ha. apply assoc_lookup in Ha as [j Hj].
  rewrite (fields3_lookup _ _ _ Hlen) in Hj.
  destruct (ps !! j) as [[k' c']|] eqn:Hpj; simpl in Hj; [|done].
  destruct (vs !! j) as [v'|] eqn:Hvj; simpl in Hj; [|done]. by simplify_eq.
Qed.

Lemma fields3_assoc_2 ps vs k i c v :
  NoDup ps.*1 → length vs = length ps →
  ps !! i = Some (k, c) → vs !! i = Some v → assoc k (fields3 ps vs) = Some (i, c, v).
Proof.
  intros Hnd Hlen Hp Hv. apply (assoc_NoDup_lookup _ i).
  - by rewrite fields3_keys.
  - by rewrite (fields3_lookup _ _ _ Hlen), Hp, Hv.
Qed.

Lemma fields3_trees ps vs :
  length vs = length ps → ps = on_snd (fun x => x.1.2) <$> fields3 ps vs.
Proof.
  intros Hlen. apply list_eq. intros j.
  rewrite list_lookup_fmap, (fields3_lookup _ _ _ Hlen).
  destruct (ps !! j) as [[k c]|] eqn:Hj; simpl; [|done].
  destruct (lookup_lt_is_Some_2 vs j) as [v Hv].
  { rewrite Hlen. by eapply lookup_lt_Some. }
  by rewrite Hv.
Qed.

Lemma on_snd_fst {A B} (f : A → B) (l : list (string * A)) : (on_snd f <$> l).*1 = l.*1.
Proof. rewrite <- list_fmap_compose. by apply list_fmap_ext. Qed.

Lemma on_snd_snd {A B} (f : A → B) (l : list (string * A)) : (on_snd f <$> l).*2 = f <$> l.*2.
Proof. rewrite <- !list_fmap_compose. by apply list_fmap_ext. Qed.

Lemma projectA_assoc {A} (ps : list (string * A)) names k :
  assoc k (projectA ps names) = if decide (k ∈ names) then assoc k ps else None.
Proof.
  destruct (projectA_spec ps names) as (Hnd & H1 & H2).
  destruct (assoc k (projectA ps names)) as [a|] eqn:Ha.
  - apply assoc_lookup in Ha as [j Hj]. apply list_elem_of_lookup_2 in Hj.
    destruct (H1 _ _ Hj) as [Hk Hps]. by rewrite decide_True.
  - destruct (decide (k ∈ names)) as [Hk|]; [|done].
    destruct (assoc k ps) as [a|] eqn:Hps; [|done].
    pose proof (H2 k a Hk Hps) as Hin. apply assoc_None in Ha.
    exfalso. apply Ha. apply list_elem_of_fmap. by exists (k, a).
Qed.

(** What the selection of the fields named in [names] consists of. *)
Section Selection.
Context (ps : list (string * json)) (vs : list value) (names : list string).
Hypothesis Hnd : NoDup ps.*1.
Hypothesis Hlen : length vs = length ps.

Lemma sel_trees : projectA ps names = on_snd (fun x => x.1.2) <$> sel ps vs names.
Proof. unfold sel. rewrite <- projectA_on_snd. by rewrite <- fields3_trees. Qed.

Lemma sel_values : project (zip ps.*1 vs) names = on_snd snd <$> sel ps vs names.
Proof.
  unfold sel. rewrite <- projectA_on_snd, project_projectA. by rewrite <- fields3_values.
Qed.

Lemma sel_NoDup : NoDup (sel ps vs names).*1.
Proof. apply projectA_spec. Qed.

Lemma sel_lookup j k i c v :
  sel ps vs names !! j = Some (k, (i, c, v)) →
  k ∈ names ∧ ps !! i = Some (k, c) ∧ vs !! i = Some v.
Proof.
  intros Hj. apply list_elem_of_lookup_2 in Hj.
  destruct (projectA_spec (fields3 ps vs) names) as (_ & H1 & _).
  destruct (H1 _ _ Hj) as [Hk Ha]. split; [done|]. by eapply fields3_assoc.
Qed.

Lemma sel_named i k c v :
  k ∈ names → ps !! i = Some (k, c) → vs !! i = Some v →
  ∃ j, sel ps vs names !! j = Some (k, (i, c, v)).
Proof.
  intros Hk Hp Hv. apply list_elem_of_lookup_1.
  destruct (projectA_spec (fields3 ps vs) names) as (_ & _ & H2).
  apply H2; [done|]. by apply fields3_assoc_2.
Qed.

Lemma sel_inj j j' k k' i c c' v v' :
  sel ps vs names !! j = Some (k, (i, c, v)) → sel ps vs names !! j' = Some (k', (i, c', v')) → j = j'.
Proof.
  intros Hj Hj'. destruct (sel_lookup _ _ _ _ _ Hj) as (_ & Hp & _).
  destruct (sel_lookup _ _ _ _ _ Hj') as (_ & Hp' & _).
  assert (k = k') as <- by congruence.
  apply (NoDup_lookup (sel ps vs names).*1 j j' k sel_NoDup); by rewrite list_lookup_fmap, ?Hj, ?Hj'.
Qed.
End Selection.

(** ** Reading an object whose properties are clones *)

Lemma view_rel_mono {N1 N2} (R R' : N1 → N2 → Prop) x y :
  (∀ a b, R a b → R' a b) → view_rel R x y → view_rel R' x y.
Proof.
  intros HR. destruct x, y; simpl; try done.
  - intros [? H]. split; [done|]. by eapply Forall2_impl.
  - intros H. by eapply Forall2_impl.
Qed.

Section NodeReading.
Context (h : heap) (l : loc) (t : json) (vs : list value).
Hypothesis Hnode : is_node t = true.
Hypothesis Hlen : length vs = length (jchildren t).
Hypothesis Hl : h !! l = Some (mk_obj t vs).
Hypothesis Hkids : ∀ i c v, jchildren t !! i = Some c → vs !! i = Some v → sim h v c.

Lemma node_rel_view v t' :
  node_rel h l t v t' → view_rel (node_rel h l t) (rview (heap_reader h) v) (rview json_reader t').
Proof.
  intros [Hs|[-> ->]].
  - eapply view_rel_mono; [|by apply sim_view]. intros a b Hab. by left.
  - unfold heap_reader, json_reader. cbn [rview]. rewrite Hl.
    destruct t as [p|elems|props]; simpl in *; [done| |].
    + apply Forall2_same_length_lookup. split; [done|].
      intros i v c Hv Hc. left. eauto.
    + rewrite length_fmap in Hlen. split.
      * apply fst_zip. rewrite length_fmap. lia.
      * rewrite snd_zip by (rewrite length_fmap; lia).
        apply Forall2_same_length_lookup. split; [by rewrite length_fmap|].
        intros i v c Hv Hc. left. eauto.
Qed.

Lemma node_rel_prim p : node_rel h l t (rprim (heap_reader h) p) (rprim json_reader p).
Proof. left. apply sim_prim. Qed.

Lemma node_predicate : the_predicate h (VRef l) = jpred t.
Proof.
  unfold the_predicate, jpred.
  rewrite (rel_isLink _ _ _ node_rel_view node_rel_prim (VRef l) t) by (by right).
  by rewrite (rel_isResourceLink _ _ _ node_rel_view node_rel_prim (VRef l) t) by (by right).
Qed.

Lemma node_getResolvedLink fuel em :
  getResolvedLink (heap_reader h) fuel em (VRef l) = getResolvedLink json_reader fuel em t.
Proof. apply (rel_getResolvedLink _ _ _ node_rel_view node_rel_prim). by right. Qed.
End NodeReading.

(** Whether an object is a link is decided by its [sys]. *)
Lemma jpred_sys ps ps' : assoc "sys" ps = assoc "sys" ps' → jpred (JObj ps) = jpred (JObj ps').
Proof.
  intros H. unfold jpred, isLink, isResourceLink.
  assert (get_opt json_reader (JObj ps) "sys" = get_opt json_reader (JObj ps') "sys") as ->;
    [|done].
  unfold get_opt, nullish, prop. simpl. by rewrite H.
Qed.

Lemma jpred_no_sys ps : assoc "sys" ps = None → jpred (JObj ps) = false.
Proof. intros H. rewrite (jpred_sys ps []) by done. reflexivity. Qed.

Lemma jpred_projectA ps names :
  jpred (JObj ps) = false → jpred (JObj (projectA ps names)) = false.
Proof.
  intros Hp. destruct (decide ("sys" ∈ names)) as [Hin|Hnin].
  - rewrite <- Hp. apply jpred_sys. by rewrite projectA_assoc, decide_True.
  - apply jpred_no_sys. by rewrite projectA_assoc, decide_False.
Qed.

Lemma depth_projectA ps names : depth (JObj (projectA ps names)) ≤ depth (JObj ps).
Proof.
  simpl. apply le_n_S.
  assert (H : ∀ (l : list (string * json)) n,
    (∀ x, x ∈ l → depth x.2 ≤ n) → max_list_with (fun kv => depth kv.2) l ≤ n).
  { induction l as [|x l IH]; intros n Hx; simpl; [lia|].
    pose proof (Hx x ltac:(set_solver)). pose proof (IH n ltac:(set_solver)). lia. }
  apply H. intros [k c] Hin.
  destruct (projectA_spec ps names) as (_ & H1 & _).
  destruct (H1 _ _ Hin) as [_ Ha].
  pose proof (depth_child (JObj ps) c (assoc_Some_elem _ _ _ Ha)). simpl in *. lia.
Qed.


Section Projected.
Context (em : gmap string value) (o : options) (fuel : nat).

Notation rm := (removeUnresolved o).

Lemma resolve_item_projected h lo ps names :
  itemEntryPoints o = Some names →
  rep h lo (JObj ps) (VRef (lo + nodesl ps.*2)) →
  wf (JObj ps) = true → depth (JObj ps) < fuel →
  item_result em o fuel h lo ps (resolve_item fuel em o h (VRef (lo + nodesl ps.*2))).
Proof.
  intros Heps Hrep Hwf Hd. set (l := lo + nodesl ps.*2) in *.
  set (cs := ps.*2) in *.
  destruct (wf_children _ Hwf) as [Hkeys Hwfc]. simpl in Hkeys.
  inversion Hrep as [|? ? vs _ Hlen Hch Hl]; subst.
  change (jchildren (JObj ps)) with cs in *. fold l in Hl. simpl in Hl.
  assert (Hlenps : length vs = length ps) by (by rewrite Hlen; unfold cs; rewrite length_fmap).
  assert (Hl_lt : l < length h) by (by eapply lookup_lt_Some).
  unfold resolve_item. rewrite Heps.
  rewrite (makeEntryObject_project h l _ names Hl).
  rewrite (sel_values ps vs names Hlenps).
  set (s := sel ps vs names).
  set (tp := JObj (projectA ps names)).
  set (tvs := snd <$> s.*2).
  set (le := length h). set (h1 := h ++ [OObj (on_snd snd <$> s)]).
  set (pos := fun j => match s !! j with
                       | Some (_, (i, _, _)) => child_pos lo cs i
                       | None => 0
                       end).
  pose proof (sel_trees ps vs names Hlenps) as Htrees. fold s in Htrees.
  assert (Hjc : jchildren tp = (fun x => x.1.2) <$> s.*2).
  { unfold tp. simpl. by rewrite Htrees, on_snd_snd. }
  assert (Htk : (projectA ps names).*1 = s.*1) by (by rewrite Htrees, on_snd_fst).
  assert (Hle : h1 !! le = Some (mk_obj tp tvs)).
  { unfold h1, le. rewrite lookup_app_r by lia. replace (_ - _) with 0 by lia. simpl.
    by rewrite Htk, on_snd_zip. }
  assert (Htlen : length tvs = length (jchildren tp)).
  { rewrite Hjc. unfold tvs. by rewrite !length_fmap. }
  (* what a selected child is *)
  assert (Hsel : ∀ j c, jchildren tp !! j = Some c →
            ∃ k i v, s !! j = Some (k, (i, c, v)) ∧ k ∈ names ∧
                     ps !! i = Some (k, c) ∧ vs !! i = Some v ∧
                     cs !! i = Some c ∧ tvs !! j = Some v ∧ pos j = child_pos lo cs i).
  { intros j c Hc. rewrite Hjc, !list_lookup_fmap in Hc.
    destruct (s !! j) as [[k [[i c'] v]]|] eqn:Hj; simpl in Hc; [|done]. simplify_eq.
    destruct (sel_lookup ps vs names Hkeys Hlenps _ _ _ _ _ Hj) as (Hk & Hp & Hv).
    exists k, i, v. split_and!; try done.
    - unfold cs. by rewrite list_lookup_fmap, Hp.
    - unfold tvs. by rewrite !list_lookup_fmap, Hj.
    - unfold pos. by rewrite Hj. }
  assert (Hreps : ∀ j c v, jchildren tp !! j = Some c → tvs !! j = Some v →
            rep h1 (pos j) c v).
  { intros j c v Hc Hv. destruct (Hsel j c Hc) as (k & i & v' & Hj & Hk & Hp & Hvi & Hci & Hv' & ->).
    assert (v' = v) as -> by congruence.
    apply rep_frame with (h := h); [by eapply Hch|].
    intros l' Hl'. apply lookup_app_l.
    pose proof (Hch i c v Hci Hvi) as Hr. fold cs in Hr.
    destruct (is_node c) eqn:Hn.
    - pose proof (rep_in_heap _ _ _ _ Hr Hn). lia.
    - destruct c; simpl in *; [lia|done..]. }
  assert (Hsegs : ∀ l', in_children tp pos l' → seg lo (JObj ps) l' ∧ l' ≠ l).
  { intros l' (j & c & Hc & Hs).
    destruct (Hsel j c Hc) as (k & i & v' & Hj & Hk & Hp & Hvi & Hci & Hv' & Hpos).
    rewrite Hpos in Hs. by apply (seg_child lo (JObj ps) i c l'). }
  assert (Hseg_lt : ∀ l', seg lo (JObj ps) l' → l' < length h).
  { intros l' Hs. pose proof (rep_in_heap _ _ _ _ Hrep eq_refl). unfold seg in Hs. lia. }
  assert (Hsegl : seg lo (JObj ps) l).
  { unfold seg, l. rewrite (nodes_children (JObj ps) eq_refl). simpl. fold cs. lia. }
  assert (Hpred : the_predicate h1 (VRef le) = jpred tp).
  { apply (node_predicate h1 le tp tvs eq_refl Htlen Hle).
    intros i c v Hc Hv. exists (pos i). by apply Hreps. }
  destruct fuel as [|fw] eqn:Hfuel; [lia|]. rewrite <- Hfuel in *.
  assert (Hstep : walkMutate fuel the_predicate (the_mutator em rm fuel) rm h1 (VRef le) =
                  walkMutate (S fw) the_predicate (the_mutator em rm fuel) rm h1 (VRef le))
    by (by rewrite Hfuel).
  fold (the_mutator em rm fuel). rewrite Hstep, walkMutate_unfold, Hpred.
  destruct (jpred tp) eqn:Hptp.
  - (* the entry object is itself a link *)
    unfold the_mutator, normalizeLink.
    rewrite (node_getResolvedLink h1 le tp tvs eq_refl Htlen Hle) by
      (intros i c v Hc Hv; exists (pos i); by apply Hreps).
    assert (Hdtp : depth tp < fuel) by (pose proof (depth_projectA ps names); unfold tp; lia).
    pose proof (getResolvedLink_no_fuel fuel em tp Hdtp) as Hnf.
    destruct (getResolvedLink json_reader fuel em tp) as [r| |]; simpl; [|done..].
    assert (Hfr : ∀ r', frame (seg lo (JObj ps)) h (Object_assign h1 l r')).
    { intros r'. destruct (Object_assign_frame h1 l r') as [Hlen' Hother].
      split; [rewrite Hlen'; unfold h1; rewrite length_app; lia|].
      intros l' Hl' Hnot. rewrite Hother by (by intros ->).
      by apply lookup_app_l. }
    assert (Hno : jpred (JObj ps) = false → False).
    { intros Hp. apply (jpred_projectA ps names) in Hp. fold tp in Hp. congruence. }
    destruct (is_marker r); simpl; (split; [apply Hfr | intros Hp; by destruct (Hno Hp)]).
  - (* its properties are walked *)
    assert (Hkeys' : keys_ok tp) by (unfold tp; simpl; apply projectA_spec).
    rewrite (own_keys_node h1 le tp tvs eq_refl Hkeys' Htlen Hle).
    assert (IHw : ∀ c lo v h, depth c < fw → depth c < fuel → wf c = true → rep h lo c v →
              walk_post em rm fuel h lo c v
                (walkMutate fw the_predicate (the_mutator em rm fuel) rm h v))
      by (intros; by apply walk_spec).
    assert (Hchild : ∀ c, c ∈ jchildren tp → depth c < fw ∧ depth c < fuel ∧ wf c = true).
    { intros c [j Hc]%list_elem_of_lookup_1.
      destruct (Hsel j c Hc) as (k & i & v' & _ & _ & _ & _ & Hci & _).
      apply list_elem_of_lookup_2 in Hci.
      pose proof (depth_child (JObj ps) c Hci). split_and!; [lia|lia|by apply Hwfc]. }
    assert (Hdisj : ∀ i j ci cj, jchildren tp !! i = Some ci → jchildren tp !! j = Some cj →
              i ≠ j → pos i + nodes ci ≤ pos j ∨ pos j + nodes cj ≤ pos i).
    { intros i j ci cj Hi Hj Hij.
      destruct (Hsel i ci Hi) as (k & i' & v' & Hsi & _ & _ & _ & Hci & _ & ->).
      destruct (Hsel j cj Hj) as (k2 & j' & v2 & Hsj & _ & _ & _ & Hcj & _ & ->).
      assert (i' ≠ j') as Hne.
      { intros ->. apply Hij. by eapply (sel_inj ps vs names Hkeys Hlenps). }
      destruct (decide (i' < j')).
      - left. by apply child_pos_lt.
      - right. apply child_pos_lt; [done|lia]. }
    assert (Hout : ∀ i c, jchildren tp !! i = Some c → ¬ seg (pos i) c le).
    { intros i c Hc Hs. assert (in_children tp pos le) as Hin by (by exists i, c).
      apply Hsegs in Hin as [Hin _]. apply Hseg_lt in Hin. unfold le in Hin. lia. }
    assert (Hle_lt : le < length h1) by (unfold h1, le; rewrite length_app; simpl; lia).
    assert (HInv0 : Inv em rm fuel tp pos le h1 tvs 0 h1 []).
    { unfold Inv. split_and!; [done|lia|by rewrite drop_0| |auto|apply frame_refl].
      intros j c w _ Hw. by rewrite lookup_nil in Hw. }
    pose proof (loop em rm fuel fw IHw tp pos le h1 tvs eq_refl Hkeys' Htlen Hchild Hdisj
                  Hout Hle_lt Hreps (length tvs) 0 h1 [] eq_refl HInv0) as Hloop.
    rewrite drop_0 in Hloop.
    fold (walk_body fw the_predicate (the_mutator em rm fuel) rm le).
    destruct (foldR _ h1 (node_keys tp)) as [h'| |]; [|done..].
    cbn [mbind result_bind].
    destruct Hloop as (ws' & Hws & _ & Hl' & Hwalked & _ & [Hlen1 Hframe]).
    rewrite drop_all, app_nil_r in Hl'. unfold tp in Hl'. simpl in Hl'. rewrite Htk in Hl'.
    rewrite (cleanUp_object rm h' le _ Hl'). cbn [mbind result_bind].
    destruct (prune_props_NoDup rm s.*1 ws') as (E & HE & HndE).
    { rewrite <- Htk. apply projectA_spec. }
    { rewrite Hws. unfold tvs. by rewrite !length_fmap. }
    rewrite HE. set (h2 := <[le := OObj E]> h').
    assert (Hle' : le < length h') by lia.
    assert (Hh1 : ∀ l', l' < length h → h1 !! l' = h !! l')
      by (intros l' ?; by apply lookup_app_l).
    assert (Hl2 : h2 !! l = Some (OObj (zip ps.*1 vs))).
    { unfold h2. rewrite list_lookup_insert_ne by (unfold le; lia).
      rewrite Hframe; [by rewrite Hh1|lia|].
      intros [?|Hin]; [unfold le in *; lia|]. by apply Hsegs in Hin as [_ ?]. }
    rewrite (Object_assign_obj h2 l _ (VRef le) Hl2).
    assert (Hown : own_entries h2 (VRef le) = E).
    { unfold own_entries, h2. by rewrite list_lookup_insert_eq. }
    rewrite Hown. set (pf := assign_props (zip ps.*1 vs) E).
    assert (Hagree : ∀ l', l' ≠ l → l' ≠ le → (<[l := OObj pf]> h2) !! l' = h' !! l').
    { intros l' H1 H2. unfold h2. by rewrite !list_lookup_insert_ne. }
    split.
    + split; [unfold h2; rewrite !length_insert; unfold h1 in Hlen1;
              rewrite length_app in Hlen1; lia|].
      intros l' Hlt Hnot. rewrite Hagree; [|by intros ->|unfold le; lia].
      rewrite Hframe; [by apply Hh1|lia|].
      intros [?|Hin]; [unfold le in *; lia|]. by apply Hsegs in Hin as [? _].
    + intros Hp. exists pf. split.
      { rewrite list_lookup_insert_eq; [done|]. unfold h2. rewrite length_insert. lia. }
      assert (HEk : ∀ k, k ∈ E.*1 → k ∈ names ∧ k ∈ ps.*1).
      { intros k Hin. apply (prune_keys rm _ _ _ _ HE) in Hin.
        apply list_elem_of_fmap in Hin as ([k' [[i' c'] v']] & -> & Hin).
        apply list_elem_of_lookup_1 in Hin as [j Hj].
        destruct (sel_lookup ps vs names Hkeys Hlenps _ _ _ _ _ Hj) as (? & Hpi' & _).
        split; [done|]. apply list_elem_of_fmap. exists (k', c'). split; [done|].
        by eapply list_elem_of_lookup_2. }
      split.
      { intros k. unfold pf. rewrite assign_props_keys.
        - by rewrite fst_zip by (rewrite length_fmap; lia).
        - intros k' Hk'. rewrite fst_zip by (rewrite length_fmap; lia). by apply HEk. }
      intros i k c Hi v.
      destruct (lookup_lt_is_Some_2 vs i) as [vi Hvi].
      { rewrite Hlenps. by eapply lookup_lt_Some. }
      assert (Hci : cs !! i = Some c) by (unfold cs; by rewrite list_lookup_fmap, Hi).
      pose proof (Hch i c vi Hci Hvi) as Hri. fold cs in Hri.
      assert (v = vi) as Hv by (symmetry; by apply rep_val_at with (h := h)).
      destruct (decide (field_walked o k)) as [Hk|Hk]; unfold field_walked in Hk;
        rewrite Heps in Hk.
      * destruct (sel_named ps vs names Hkeys Hlenps i k c vi Hk Hi Hvi) as [j Hj].
        fold s in Hj.
        assert (Hcj : jchildren tp !! j = Some c) by (by rewrite Hjc, !list_lookup_fmap, Hj).
        destruct (lookup_lt_is_Some_2 ws' j) as [w Hw].
        { rewrite Hws, Htlen. by eapply lookup_lt_Some. }
        pose proof (Hwalked j c w Hcj Hw) as Hwk.
        assert (Hpos : pos j = child_pos lo cs i) by (unfold pos; by rewrite Hj).
        rewrite Hpos in Hwk.
        exists w. split.
        -- apply walked_mono with (D := Dseg (child_pos lo cs i) c (length h1) (length h')).
           ++ apply walked_frame with (h := h'); [done|]. intros l' [Hs|Hfresh].
              ** destruct (seg_child lo (JObj ps) i c l' eq_refl Hci Hs) as [Hs' Hne].
                 apply Hagree; [done|]. apply Hseg_lt in Hs'. unfold le. lia.
              ** unfold h1 in Hfresh. rewrite length_app in Hfresh. simpl in Hfresh.
                 apply Hagree; unfold le; lia.
           ++ intros l' [Hs|Hfresh].
              ** left. by apply (seg_child lo (JObj ps) i c l').
              ** right. unfold h2. rewrite !length_insert. unfold h1 in Hfresh.
                 rewrite length_app in Hfresh. simpl in Hfresh. lia.
        -- unfold pf. rewrite assign_props_assoc by done.
           rewrite (prune_assoc rm s.*1 ws' E j k w); [| |done| |done].
           ++ destruct (is_marker w && rm); [congruence|done].
           ++ rewrite <- Htk. apply projectA_spec.
           ++ by rewrite list_lookup_fmap, Hj.
      * assert (HkE : assoc k E = None).
        { apply assoc_None. intros Hin. by apply HEk in Hin as [? _]. }
        split.
        -- unfold pf. rewrite assign_props_assoc by done. rewrite HkE, Hv.
           rewrite (assoc_zip_lookup _ _ i); [done..|]. by rewrite list_lookup_fmap, Hi.
        -- rewrite Hv. apply rep_frame with (h := h); [done|].
           intros l' Hs. fold (seg (child_pos lo cs i) c l') in Hs.
           destruct (seg_child lo (JObj ps) i c l' eq_refl Hci Hs) as [Hs' Hne].
           pose proof (Hseg_lt _ Hs').
           rewrite Hagree; [|done|unfold le; lia].
           rewrite Hframe; [by apply Hh1|lia|].
           intros [?|(j & c' & Hc' & Hs2)]; [unfold le in *; lia|].
           destruct (Hsel j c' Hc') as (k' & i' & v' & Hsj & Hk' & Hp' & _ & Hci' & _ & Hpos).
           rewrite Hpos in Hs2.
           assert (i ≠ i') as Hne' by (intros ->; congruence).
           unfold seg in Hs, Hs2. fold cs in Hs.
           destruct (decide (i < i')).
           ++ pose proof (child_pos_lt lo cs i i' c Hci ltac:(lia)). lia.
           ++ pose proof (child_pos_lt lo cs i' i c' Hci' ltac:(lia)). lia.
Qed.
End Projected.

(** * All the entries *)

(** ** Every entry in turn *)

Section Entries.
Context (em : gmap string value) (o : options) (fuel : nat).

Notation rm := (removeUnresolved o).

Lemma resolve_item_spec h lo ps :
  rep h lo (JObj ps) (VRef (lo + nodesl ps.*2)) →
  wf (JObj ps) = true → depth (JObj ps) < fuel →
  item_result em o fuel h lo ps (resolve_item fuel em o h (VRef (lo + nodesl ps.*2))).
Proof.
  destruct (itemEntryPoints o) as [names|] eqn:Heps.
  - by apply resolve_item_projected with (names := names).
  - by apply resolve_item_whole.
Qed.

Lemma item_post_frame hf hf' (D D' : loc → Prop) ps lo :
  item_post em o fuel hf D ps lo →
  (∀ l, D l → hf' !! l = hf !! l) → (∀ l, D l → D' l) →
  (∀ l, seg lo (JObj ps) l → D l) →
  item_post em o fuel hf' D' ps lo.
Proof.
  intros (pf & Hpf & Hpk & Hfields) Hagree Hsub Hseg. exists pf. split_and!; [|done|].
  - rewrite Hagree; [done|]. apply Hseg. unfold seg.
    rewrite (nodes_children (JObj ps) eq_refl). simpl. lia.
  - intros i k c Hi v. specialize (Hfields i k c Hi). simpl in Hfields.
    destruct (decide (field_walked o k)).
    + destruct Hfields as (w & Hw & Ha). exists w. split; [|done].
      apply walked_mono with (D := D); [|done]. by apply walked_frame with (h := hf).
    + destruct Hfields as [Ha Hr]. split; [done|].
      apply rep_frame with (h := hf); [done|]. intros l Hl. apply Hagree, Hseg.
      assert (Hci : jchildren (JObj ps) !! i = Some c) by (simpl; by rewrite list_lookup_fmap, Hi).
      by apply (seg_child lo (JObj ps) i c l).
Qed.

Lemma entries_fold es : ∀ h,
  (∀ e, e ∈ es → wf (JObj e.2) = true ∧ depth (JObj e.2) < fuel ∧
                 rep h e.1 (JObj e.2) (entry_val e)) →
  (∀ i j ei ej, es !! i = Some ei → es !! j = Some ej → i ≠ j →
                ∀ l, entry_seg ei l → ¬ entry_seg ej l) →
  match foldR (resolve_item fuel em o) h (entry_val <$> es) with
  | Ok hf => entries_post em o fuel h hf es
  | Throw _ => True
  | OutOfFuel => False
  end.
Proof.
  induction es as [|[lo ps] es IH]; intros h Hes Hdisj.
  - split; [apply frame_refl|]. intros e He. by apply elem_of_nil in He.
  - rewrite fmap_cons. cbn [foldR].
    destruct (Hes (lo, ps)) as (Hwf & Hd & Hrep); [set_solver|].
    unfold entry_val in Hrep. cbn [fst snd] in Hwf, Hd, Hrep.
    pose proof (resolve_item_spec h lo ps Hrep Hwf Hd) as Hitem.
    change (entry_val (lo, ps)) with (VRef (lo + nodesl ps.*2)).
    unfold item_result in Hitem.
    destruct (resolve_item fuel em o h (VRef (lo + nodesl ps.*2))) as [h1| |];
      cbn [mbind result_bind]; [|done..].
    destruct Hitem as [[Hlen1 Hfr1] Hpost1].
    assert (Hlt : ∀ e l, e ∈ (lo, ps) :: es → entry_seg e l → l < length h).
    { intros e l He Hl. destruct (Hes e He) as (_ & _ & Hr).
      pose proof (rep_in_heap _ _ _ _ Hr eq_refl). unfold entry_seg, seg in Hl. lia. }
    assert (Hes1 : ∀ e, e ∈ es → wf (JObj e.2) = true ∧ depth (JObj e.2) < fuel ∧
                     rep h1 e.1 (JObj e.2) (entry_val e)).
    { intros e He. destruct (Hes e) as (? & ? & Hr); [set_solver|]. split_and!; [done..|].
      apply rep_frame with (h := h); [done|]. intros l Hl.
      apply list_elem_of_lookup_1 in He as [j Hj].
      apply Hfr1.
      - apply (Hlt e); [apply elem_of_cons; right; by eapply list_elem_of_lookup_2|done].
      - apply (Hdisj (S j) 0 e (lo, ps)); [done..|lia|done]. }
    assert (Hdisj1 : ∀ i j ei ej, es !! i = Some ei → es !! j = Some ej → i ≠ j →
                ∀ l, entry_seg ei l → ¬ entry_seg ej l).
    { intros i j ei ej Hi Hj Hij. apply (Hdisj (S i) (S j)); [done..|lia]. }
    specialize (IH h1 Hes1 Hdisj1).
    destruct (foldR (resolve_item fuel em o) h1 (entry_val <$> es)) as [hf| |]; [|done..].
    destruct IH as [[Hlenf Hfrf] Hpostf]. split.
    + split; [lia|]. intros l Hl Hnot.
      rewrite Hfrf; [apply Hfr1; [done|]|lia|].
      * intros Hs. apply Hnot. exists (lo, ps). split; [set_solver|done].
      * intros (e & He & Hs). apply Hnot. exists e. split; [set_solver|done].
    + intros e [->|He]%elem_of_cons Hp; simpl.
      * apply item_post_frame with (hf := h1) (D := Dseg lo (JObj ps) (length h) (length h1)).
        -- by apply Hpost1.
        -- intros l [Hs|Hfresh]; apply Hfrf; try lia.
           ++ pose proof (Hlt (lo, ps) l ltac:(set_solver) Hs). lia.
           ++ intros (e & [j Hj]%list_elem_of_lookup_1 & Hs2).
              by apply (Hdisj 0 (S j) (lo, ps) e eq_refl Hj ltac:(lia) l).
           ++ intros (e & He & Hs2).
              pose proof (Hlt e l ltac:(set_solver) Hs2). lia.
        -- intros l [Hs|Hfresh]; [by left | right; lia].
        -- intros l Hs. by left.
      * eapply item_post_frame; [by apply Hpostf|done| |].
        -- intros l [Hs|Hfresh]; [by left | right; lia].
        -- intros l Hs. by left.
Qed.
End Entries.


(** ** Where the entries of a cloned response are *)

Lemma lseg_prim lo p l : ¬ lseg (lo, JPrim p) l.
Proof. unfold lseg, seg. simpl. lia. Qed.

Lemma Disj_app xs ys :
  Disj xs → Disj ys → (∀ x y l, x ∈ xs → y ∈ ys → lseg x l → ¬ lseg y l) →
  Disj (xs ++ ys).
Proof.
  induction 1 as [|x xs Hx Hxs IH]; intros Hys Hxy; [done|]. simpl. constructor.
  - intros y l [Hy|Hy]%elem_of_app; [by apply Hx|]. apply Hxy; [set_solver|done].
  - apply IH; [done|]. intros x' y l Hx' Hy. apply Hxy; [set_solver|done].
Qed.

Lemma Disj_lookup xs i j x y l :
  Disj xs → xs !! i = Some x → xs !! j = Some y → i ≠ j → lseg x l → ¬ lseg y l.
Proof.
  intros HD. revert i j. induction HD as [|z zs Hz Hzs IH]; intros i j Hi Hj Hij Hx Hy; [done|].
  destruct i as [|i], j as [|j]; simpl in *; simplify_eq.
  - apply (Hz y l); [by eapply list_elem_of_lookup_2|done..].
  - apply (Hz x l); [by eapply list_elem_of_lookup_2|done..].
  - apply (IH i j); [done..|lia|done|done].
Qed.

Lemma Disj_sublist xs ys : sublist ys xs → Disj xs → Disj ys.
Proof.
  intros Hsub HD. revert ys Hsub. induction HD as [|x xs Hx Hxs IH]; intros ys Hsub.
  - apply sublist_nil_r in Hsub as ->. constructor.
  - apply sublist_cons_r in Hsub as [Hsub|(ys' & -> & Hsub)]; [by apply IH|].
    constructor; [|by apply IH]. intros y l Hy. apply Hx.
    by eapply elem_of_sublist.
Qed.

Lemma Disj_prims xs : (∀ x, x ∈ xs → is_node x.2 = false) → Disj xs.
Proof.
  induction xs as [|[lo t] xs IH]; intros H; constructor.
  - intros y l _ Hs. pose proof (H (lo, t) ltac:(set_solver)) as Hn.
    destruct t; [|done..]. by apply lseg_prim in Hs.
  - apply IH. intros x Hx. apply H. set_solver.
Qed.

Lemma filterR_sublist {A} (f : A → result bool) xs ys :
  filterR f xs = Ok ys → sublist ys xs.
Proof.
  revert ys. induction xs as [|x xs IH]; simpl; intros ys H.
  - by simplify_eq.
  - apply bind_Ok in H as (b & Hb & (ys' & Hys & [= <-])%bind_Ok).
    destruct b; [apply sublist_skip | apply sublist_cons]; by apply IH.
Qed.

Lemma filterR_elem {A} (f : A → result bool) xs ys x :
  filterR f xs = Ok ys → x ∈ xs → f x = Ok true → x ∈ ys.
Proof.
  revert ys. induction xs as [|x' xs IH]; simpl; intros ys H Hx Hf; [set_solver|].
  apply bind_Ok in H as (b & Hb & (ys' & Hys & [= <-])%bind_Ok).
  apply elem_of_cons in Hx as [->|Hx].
  - assert (b = true) as -> by congruence. set_solver.
  - specialize (IH _ Hys Hx Hf). destruct b; set_solver.
Qed.

Lemma filterR_fmap {A B} (g : A → B) (f : B → result bool) (f' : A → result bool) xs :
  (∀ x, x ∈ xs → f (g x) = f' x) →
  filterR f (g <$> xs) =
    match filterR f' xs with
    | Ok ys => Ok (g <$> ys)
    | Throw e => Throw e
    | OutOfFuel => OutOfFuel
    end.
Proof.
  induction xs as [|x xs IH]; intros H; [done|]. rewrite fmap_cons. cbn [filterR].
  rewrite H by set_solver. destruct (f' x) as [b| |]; cbn [mbind result_bind]; [|done..].
  rewrite IH by (intros; apply H; set_solver).
  destruct (filterR f' xs) as [ys| |]; cbn [mbind result_bind]; [|done..]. by destruct b.
Qed.

Lemma part_refl t : part t t.
Proof. by split. Qed.

Lemma part_trans t c d : part t c → part c d → part t d.
Proof. intros [? ?] [? ?]. split; [auto | lia]. Qed.

Lemma part_child t c : c ∈ jchildren t → part t c.
Proof.
  intros Hc. split.
  - intros Hwf. by apply (wf_children t Hwf).
  - pose proof (depth_child t c Hc). lia.
Qed.

Lemma part_prim t p : part t (JPrim p).
Proof. split; [done | simpl; lia]. Qed.

Lemma indexed_snd vs : (indexed vs).*2 = vs.
Proof.
  unfold indexed. rewrite fmap_imap.
  rewrite (imap_ext _ (const id)) by done. rewrite imap_const. apply list_fmap_id.
Qed.

Lemma below_lseg x l : below x l → lseg x l.
Proof. by intros [? _]. Qed.

Lemma jvalues_node h x vs :
  is_node x.2 = true → length vs = length (jchildren x.2) →
  (∀ i c v, jchildren x.2 !! i = Some c → vs !! i = Some v →
            rep h (child_pos x.1 (jchildren x.2) i) c v) →
  vs = lval <$> jvalues x.
Proof.
  intros Hn Hlen Hch. apply list_eq. intros i.
  assert (jvalues x = imap (fun i c => (child_pos x.1 (jchildren x.2) i, c)) (jchildren x.2))
    as -> by (unfold jvalues; by destruct x.2).
  rewrite list_lookup_fmap, list_lookup_imap.
  destruct (jchildren x.2 !! i) as [c|] eqn:Hc; simpl.
  - destruct (lookup_lt_is_Some_2 vs i) as [v Hv].
    { rewrite Hlen. by eapply lookup_lt_Some. }
    rewrite Hv. f_equal. by apply rep_val_at with (h := h), Hch.
  - apply lookup_ge_None. apply lookup_ge_None in Hc. lia.
Qed.

Lemma jvalues_spec h x v :
  rep h x.1 x.2 v →
  (own_entries h v).*2 = lval <$> jvalues x ∧ reps h (jvalues x) ∧ Disj (jvalues x) ∧
  inside (below x) (jvalues x) ∧ ∀ y, y ∈ jvalues x → part x.2 y.2.
Proof.
  destruct x as [lo t]. simpl. intros Hrep.
  inversion Hrep as [? p|? ? vs Hn Hlen Hch Hl]; subst.
  - (* a primitive: only a string has values *)
    assert (Hprims : ∀ y, y ∈ jvalues (lo, JPrim p) → ∃ q, y.2 = JPrim q).
    { intros y Hy. unfold jvalues in Hy. simpl in Hy. destruct p; try by apply elem_of_nil in Hy.
      apply list_elem_of_fmap in Hy as (c & -> & _). eauto. }
    split_and!.
    + unfold jvalues. simpl. destruct p; try done.
      rewrite indexed_snd, <- !list_fmap_compose. by apply list_fmap_ext.
    + apply Forall_forall. intros [lo' c] Hy. destruct (Hprims _ Hy) as [q Hq].
      simpl in *. subst. constructor.
    + apply Disj_prims. intros y Hy. destruct (Hprims _ Hy) as [q ->]. done.
    + intros [lo' c] l Hy Hs. destruct (Hprims _ Hy) as [q Hq]. simpl in Hq. subst.
      by apply lseg_prim in Hs.
    + intros y Hy. destruct (Hprims _ Hy) as [q ->]. apply part_prim.
  - assert (Hjv : jvalues (lo, t) =
                  imap (fun i c => (child_pos lo (jchildren t) i, c)) (jchildren t))
      by (unfold jvalues; simpl; by destruct t).
    pose proof (jvalues_node h (lo, t) vs Hn Hlen Hch) as Hvs.
    assert (Hmem : ∀ y, y ∈ jvalues (lo, t) →
              ∃ i, jchildren t !! i = Some y.2 ∧ y.1 = child_pos lo (jchildren t) i).
    { intros y Hy. rewrite Hjv in Hy. apply elem_of_lookup_imap_1 in Hy as (i & c & -> & Hc).
      by exists i. }
    split_and!.
    + rewrite <- Hvs. unfold own_entries. rewrite Hl.
      destruct t as [p|elems|props]; simpl in *; [done| |].
      * apply indexed_snd.
      * apply snd_zip. rewrite !length_fmap in Hlen. rewrite length_fmap. lia.
    + apply Forall_forall. intros y Hy. destruct (Hmem y Hy) as (i & Hc & Hpos).
      destruct (lookup_lt_is_Some_2 vs i) as [v Hv].
      { rewrite Hlen. by eapply lookup_lt_Some. }
      pose proof (Hch i _ v Hc Hv) as Hr. unfold lval. rewrite Hpos.
      by rewrite <- (rep_val_at _ _ _ _ Hr).
    + rewrite Hjv. clear -Hn. generalize lo. generalize (jchildren t) as cs.
      induction cs as [|c cs IH]; intros lo'; [constructor|].
      rewrite imap_cons. constructor.
      * intros y l Hy Hs. apply elem_of_lookup_imap_1 in Hy as (i & d & -> & Hd).
        simpl. unfold lseg, seg in *. simpl in *.
        rewrite child_pos_0 in Hs.
        pose proof (child_pos_lt lo' (c :: cs) 0 (S i) c eq_refl ltac:(lia)) as Hlt.
        rewrite child_pos_0 in Hlt. lia.
      * rewrite (imap_ext _ (fun i d => (child_pos (lo' + nodes c) cs i, d)));
          [apply IH|]. intros i d _. simpl. by rewrite child_pos_S.
    + intros y l Hy Hs. destruct (Hmem y Hy) as (i & Hc & Hpos).
      unfold lseg in Hs. rewrite Hpos in Hs.
      by apply (seg_child lo t i y.2 l).
    + intros y Hy. destruct (Hmem y Hy) as (i & Hc & _).
      apply part_child. by eapply list_elem_of_lookup_2.
Qed.

Lemma jspread_spec h x v : rep h x.1 x.2 v → spread h v = lift_vals (jspread x).
Proof.
  destruct x as [lo t]. simpl. intros Hrep.
  inversion Hrep as [? p|? ? vs Hn Hlen Hch Hl]; subst.
  - unfold jspread, jvalues. simpl. destruct p; try done. simpl.
    f_equal. rewrite <- !list_fmap_compose. by apply list_fmap_ext.
  - pose proof (jvalues_node h (lo, t) vs Hn Hlen Hch) as Hvs.
    unfold spread, jspread. rewrite Hl.
    destruct t as [p|elems|props]; simpl in *; [done| |done].
    by rewrite Hvs.
Qed.

Lemma reps_app h xs ys : reps h xs → reps h ys → reps h (xs ++ ys).
Proof. apply Forall_app_2. Qed.

Lemma inside_mono (S S' : loc → Prop) xs :
  inside S xs → (∀ l, S l → S' l) → inside S' xs.
Proof. intros H HS x l Hx Hl. eauto. Qed.

Lemma jflat_spec h xs :
  reps h xs → Disj xs →
  flat h (lval <$> xs) = lval <$> jflat xs ∧ reps h (jflat xs) ∧ Disj (jflat xs) ∧
  (∀ y, y ∈ jflat xs → ∃ x, x ∈ xs ∧ part x.2 y.2 ∧ ∀ l, lseg y l → lseg x l).
Proof.
  unfold flat, jflat. induction 1 as [|x xs Hx Hxs IH]; intros HD.
  { split_and!; [done|constructor|constructor|]. intros y Hy. by apply elem_of_nil in Hy. }
  inversion HD as [|? ? Hdx HDxs]; subst.
  destruct (IH HDxs) as (IH1 & IH2 & IH3 & IH4). clear IH.
  rewrite !fmap_cons. cbn [concat].
  destruct (jvalues_spec h x (lval x) Hx) as (Hv1 & Hv2 & Hv3 & Hv4 & Hv5).
  set (fx := match x.2 with JArr _ => jvalues x | _ => [x] end).
  assert (Hfx : ∀ y, y ∈ fx → part x.2 y.2 ∧ ∀ l, lseg y l → lseg x l).
  { intros y Hy. unfold fx in Hy. destruct x as [lo t]. simpl in *. destruct t.
    1,3: apply list_elem_of_singleton in Hy as ->; split; [apply part_refl|done].
    split; [by apply Hv5|]. intros l Hl. by apply (Hv4 y l Hy). }
  assert (Hfirst : match lval x with
                   | VRef l => match h !! l with Some (OArr elems) => elems | _ => [lval x] end
                   | VPrim _ => [lval x]
                   end = lval <$> fx ∧ reps h fx ∧ Disj fx).
  { unfold fx. destruct x as [lo t]. simpl in *.
    destruct t as [p|elems|props].
    - split_and!; [done|by constructor|]. apply Disj_prims.
      intros y ->%list_elem_of_singleton. done.
    - inversion Hx as [|? ? vs Hn Hlen Hch Hl]; subst. unfold lval at 1. simpl in *.
      rewrite Hl. split_and!; [|done..]. by apply (jvalues_node h (lo, JArr elems) vs).
    - inversion Hx as [|? ? vs Hn Hlen Hch Hl]; subst. unfold lval at 1. simpl in *.
      rewrite Hl. split_and!; [done|by constructor|].
      constructor; [|constructor]. intros y l Hy. by apply elem_of_nil in Hy. }
  destruct Hfirst as (Hf1 & Hf2 & Hf3).
  split_and!.
  - rewrite fmap_app. f_equal; [done|]. apply IH1.
  - by apply reps_app.
  - apply Disj_app; [done..|]. intros y z l Hy Hz Hl Hl'.
    destruct (Hfx y Hy) as [_ Hyx]. destruct (IH4 z Hz) as (x' & Hx' & _ & Hzx').
    apply (Hdx x' l Hx'); auto.
  - intros y [Hy|Hy]%elem_of_app.
    + exists x. split; [set_solver|]. by apply Hfx.
    + destruct (IH4 y Hy) as (x' & Hx' & H'). exists x'. split; [set_solver|done].
Qed.

Lemma assoc_list_find {A} k (ps : list (string * A)) :
  assoc k ps = (fun ikv : nat * (string * A) => ikv.2.2) <$> list_find (fun kv => kv.1 = k) ps.
Proof.
  induction ps as [|[k' a] ps IH]; [done|]. cbn [assoc list_find]. simpl.
  destruct (String.eqb_spec k k') as [->|Hne].
  - by rewrite decide_True.
  - rewrite decide_False by congruence. rewrite IH.
    by destruct (list_find _ ps) as [[i kv]|].
Qed.

Lemma jprop_at_spec h x v k :
  rep h x.1 x.2 v → wf x.2 = true →
  let y := jprop_at x k in
  prop (heap_reader h) v k = lval y ∧ prop json_reader x.2 k = y.2 ∧
  rep h y.1 y.2 (lval y) ∧ (∀ l, lseg y l → below x l) ∧ part x.2 y.2.
Proof.
  destruct x as [lo t]. simpl. intros Hrep Hwf.
  assert (Hundef : ∀ lo', rep h lo' (JPrim PUndef) (lval (lo', JPrim PUndef)) ∧
                          (∀ l, lseg (lo', JPrim PUndef) l → below (lo, t) l) ∧
                          part t (JPrim PUndef)).
  { intros lo'. split_and!; [constructor| |apply part_prim].
    intros l Hl. by apply lseg_prim in Hl. }
  inversion Hrep as [? p|? ? vs Hn Hlen Hch Hl]; subst.
  { unfold jprop_at, prop. simpl. split_and!; try done; apply (Hundef lo). }
  destruct t as [p|elems|ps]; [done| |].
  { simpl in Hl. unfold jprop_at, prop. simpl. rewrite Hl. simpl.
    split_and!; try done; apply (Hundef lo). }
  destruct (wf_children _ Hwf) as [Hkeys Hwfc]. simpl in Hkeys, Hlen, Hl, Hch.
  rewrite length_fmap in Hlen.
  unfold jprop_at, prop. cbn [heap_reader json_reader rview snd fst jchildren]. rewrite Hl.
  rewrite (assoc_list_find k ps).
  destruct (list_find (fun kv => kv.1 = k) ps) as [[i [k' c]]|] eqn:Hfind; simpl.
  - apply list_find_Some in Hfind as (Hi & Hk & _). simpl in Hk. subst k'.
    destruct (lookup_lt_is_Some_2 vs i) as [vi Hvi].
    { rewrite Hlen. by eapply lookup_lt_Some. }
    assert (Hci : ps.*2 !! i = Some c) by (by rewrite list_lookup_fmap, Hi).
    pose proof (Hch i c vi Hci Hvi) as Hr.
    rewrite (assoc_zip_lookup _ _ i) by (done || by rewrite list_lookup_fmap, Hi).
    rewrite Hvi. simpl. unfold lval. simpl. rewrite <- (rep_val_at _ _ _ _ Hr).
    split_and!; [done..| |].
    + intros l Hs. by apply (seg_child lo (JObj ps) i c l).
    + apply part_child. simpl. by eapply list_elem_of_lookup_2.
  - assert (assoc k (zip ps.*1 vs) = None) as ->.
    { apply assoc_None. rewrite fst_zip by (rewrite length_fmap; lia).
      apply list_find_None in Hfind. rewrite Forall_forall in Hfind.
      intros ([k' c] & -> & Hin)%list_elem_of_fmap. by apply (Hfind _ Hin). }
    simpl. split_and!; try done; apply (Hundef lo).
Qed.

Lemma jprop_at_disjoint x k1 k2 l :
  k1 ≠ k2 → lseg (jprop_at x k1) l → ¬ lseg (jprop_at x k2) l.
Proof.
  destruct x as [lo t]. unfold jprop_at. simpl. intros Hne.
  destruct t as [p|elems|ps]; try by (intros H; by apply lseg_prim in H).
  destruct (list_find (fun kv => kv.1 = k1) ps) as [[i [k' c]]|] eqn:H1;
    [|intros H; by apply lseg_prim in H].
  destruct (list_find (fun kv => kv.1 = k2) ps) as [[j [k'' d]]|] eqn:H2;
    [|intros _ H; by apply lseg_prim in H].
  apply list_find_Some in H1 as (Hi & Hk1 & _). apply list_find_Some in H2 as (Hj & Hk2 & _).
  simpl in *. subst.
  assert (i ≠ j) by (intros ->; congruence).
  assert (Hci : ps.*2 !! i = Some c) by (by rewrite list_lookup_fmap, Hi).
  assert (Hcj : ps.*2 !! j = Some d) by (by rewrite list_lookup_fmap, Hj).
  unfold lseg, seg. simpl. intros Hs Hs'.
  destruct (decide (i < j)).
  - pose proof (child_pos_lt lo ps.*2 i j c Hci ltac:(lia)). lia.
  - pose proof (child_pos_lt lo ps.*2 j i d Hcj ltac:(lia)). lia.
Qed.

Lemma has_sys_rep h x :
  rep h x.1 x.2 (lval x) →
  (sys ← get (heap_reader h) (lval x) "sys"; Ok (truthy (heap_reader h) sys)) = has_sys x.
Proof.
  intros Hrep. unfold has_sys.
  assert (Hsim : sim h (lval x) x.2) by (by exists x.1).
  pose proof (rel_get _ _ _ (sim_view h) (sim_prim h) _ _ "sys" Hsim) as Hg.
  destruct (get (heap_reader h) (lval x) "sys") as [s| |],
           (get json_reader x.2 "sys") as [s'| |]; simpl in *; try done; [|congruence].
  by rewrite (rel_truthy _ _ _ (sim_view h) _ _ Hg).
Qed.

Lemma has_sys_object x : has_sys x = Ok true → ∃ ps, x.2 = JObj ps.
Proof.
  unfold has_sys, get, nullish, prop, truthy. destruct x as [lo t]. simpl.
  destruct t as [p|elems|ps]; [by destruct p|done|eauto].
Qed.

Lemma lseg_node_loc y : is_node y.2 = true → lseg y (node_loc y).
Proof.
  intros Hn. unfold lseg, seg, node_loc. rewrite (nodes_children _ Hn). lia.
Qed.

Lemma jcandidates_spec h x v cands :
  rep h x.1 x.2 v → wf x.2 = true → jcandidates x = Ok cands →
  reps h cands ∧ Disj cands ∧ inside (entries_area x) cands ∧
  (∀ y, y ∈ cands → part x.2 y.2) ∧
  ∃ rest, cands = jvalues (jprop_at x "items") ++ rest.
Proof.
  intros Hrep Hwf Hc. unfold jcandidates in Hc.
  apply bind_Ok in Hc as (items & Hitems & [= <-]).
  set (xi := jprop_at x "items") in *. set (xinc := jprop_at x "includes") in *.
  destruct (jprop_at_spec h x v "items" Hrep Hwf) as (_ & _ & Hri & Hbi & Hpi).
  destruct (jprop_at_spec h x v "includes" Hrep Hwf) as (_ & _ & Hrc & Hbc & Hpc).
  fold xi in Hri, Hbi, Hpi. fold xinc in Hrc, Hbc, Hpc.
  assert (items = jvalues xi) as ->.
  { unfold jspread in Hitems. destruct xi.2 as [p| |]; [|by simplify_eq..].
    destruct p; by simplify_eq. }
  destruct (jvalues_spec h xi _ Hri) as (_ & Hi2 & Hi3 & Hi4 & Hi5).
  set (incs := if truthy json_reader xinc.2 then jvalues xinc else []).
  assert (Hincs : reps h incs ∧ Disj incs ∧ inside (below xinc) incs ∧
                  ∀ y, y ∈ incs → part xinc.2 y.2).
  { unfold incs. destruct (truthy json_reader xinc.2).
    - destruct (jvalues_spec h xinc _ Hrc) as (_ & ? & ? & ? & ?). done.
    - split_and!; [constructor|constructor| |]; intros y; intros; by apply elem_of_nil in H. }
  destruct Hincs as (Hc2 & Hc3 & Hc4 & Hc5).
  destruct (jflat_spec h incs Hc2 Hc3) as (_ & Hf2 & Hf3 & Hf4).
  assert (Hfl : ∀ y l, y ∈ jflat incs → lseg y l → lseg xinc l).
  { intros y l Hy Hl. destruct (Hf4 y Hy) as (z & Hz & _ & Hsub).
    by apply below_lseg, (Hc4 z l Hz), Hsub. }
  split_and!.
  - by apply reps_app.
  - apply Disj_app; [done..|]. intros y z l Hy Hz Hl Hl'.
    apply (jprop_at_disjoint x "items" "includes" l); [done| |by eapply Hfl].
    by apply below_lseg, (Hi4 y l Hy).
  - intros y l [Hy|Hy]%elem_of_app Hl.
    + destruct (Hi4 y l Hy Hl) as [Hs Hne]. split; [by apply Hbi|done].
    + pose proof (Hfl y l Hy Hl) as Hs. split; [by apply Hbc|].
      intros Hn ->.
      apply (jprop_at_disjoint x "items" "includes" (node_loc xi)); [done| |done].
      by apply lseg_node_loc.
  - intros y [Hy|Hy]%elem_of_app.
    + apply (part_trans _ xi.2); [done|]. by apply Hi5.
    + destruct (Hf4 y Hy) as (z & Hz & Hzy & _).
      apply (part_trans _ xinc.2); [done|]. apply (part_trans _ z.2); [by apply Hc5|done].
  - eauto.
Qed.

Lemma allEntries_of_layout h x v :
  rep h x.1 x.2 v → wf x.2 = true → allEntries_of h v = lift_vals (jentries x).
Proof.
  intros Hrep Hwf. unfold allEntries_of, jentries, jcandidates.
  destruct (jprop_at_spec h x v "items" Hrep Hwf) as (Hvi & _ & Hri & _).
  destruct (jprop_at_spec h x v "includes" Hrep Hwf) as (Hvc & _ & Hrc & _).
  set (xi := jprop_at x "items") in *. set (xinc := jprop_at x "includes") in *.
  rewrite Hvi, Hvc, (jspread_spec h xi _ Hri).
  assert (Ht : truthy (heap_reader h) (lval xinc) = truthy json_reader xinc.2).
  { apply (rel_truthy _ _ _ (sim_view h)). by exists xinc.1. }
  rewrite Ht.
  destruct (jspread xi) as [items| |] eqn:Hitems; simpl; [|done..].
  assert (items = jvalues xi) as ->.
  { unfold jspread in Hitems. destruct xi.2 as [p| |]; [|by simplify_eq..].
    destruct p; by simplify_eq. }
  destruct (jvalues_spec h xi _ Hri) as (_ & Hi2 & _).
  set (incs := if truthy json_reader xinc.2 then jvalues xinc else []).
  assert (Hincs : (if truthy json_reader xinc.2 then (own_entries h (lval xinc)).*2 else [])
                  = lval <$> incs ∧ reps h incs ∧ Disj incs).
  { unfold incs. destruct (truthy json_reader xinc.2).
    - destruct (jvalues_spec h xinc _ Hrc) as (? & ? & ? & _). done.
    - split_and!; [done|constructor|constructor]. }
  destruct Hincs as (-> & Hc2 & Hc3).
  destruct (jflat_spec h incs Hc2 Hc3) as (-> & Hf2 & _).
  rewrite <- fmap_app.
  rewrite (filterR_fmap lval _ has_sys).
  - by destruct (filterR has_sys _).
  - intros y Hy. apply has_sys_rep.
    pose proof (reps_app _ _ _ Hi2 Hf2) as Hall. unfold reps in Hall.
    rewrite Forall_forall in Hall. by apply Hall.
Qed.

(** What the entries of a cloned response are. *)
Lemma jentries_spec h x v xs :
  rep h x.1 x.2 v → wf x.2 = true → jentries x = Ok xs →
  reps h xs ∧ Disj xs ∧ inside (entries_area x) xs ∧
  ∀ y, y ∈ xs → part x.2 y.2 ∧ has_sys y = Ok true ∧ ∃ ps, y.2 = JObj ps.
Proof.
  intros Hrep Hwf Hx. unfold jentries in Hx. apply bind_Ok in Hx as (cands & Hc & Hf).
  destruct (jcandidates_spec h x v cands Hrep Hwf Hc) as (H1 & H2 & H3 & H4 & _).
  pose proof (filterR_sublist _ _ _ Hf) as Hsub.
  split_and!.
  - unfold reps in *. rewrite Forall_forall in *. intros y Hy. apply H1.
    by eapply elem_of_sublist.
  - by eapply Disj_sublist.
  - intros y l Hy. apply H3. by eapply elem_of_sublist.
  - intros y Hy. destruct (filterR_Ok _ _ _ Hf y Hy) as [Hin Hs].
    split_and!; [by apply H4|done|by apply has_sys_object].
Qed.

(** ** The whole run *)

Lemma filterR_no_fuel {A} (f : A → result bool) xs :
  (∀ x, x ∈ xs → f x ≠ OutOfFuel) → filterR f xs ≠ OutOfFuel.
Proof.
  induction xs as [|x xs IH]; simpl; intros H; [done|].
  apply bind_no_fuel; [apply H; set_solver|]. intros b _.
  apply bind_no_fuel; [apply IH; intros; apply H; set_solver|]. done.
Qed.

Lemma jentries_no_fuel x : jentries x ≠ OutOfFuel.
Proof.
  unfold jentries. apply bind_no_fuel.
  - unfold jcandidates. apply bind_no_fuel; [|done].
    unfold jspread. destruct (jprop_at x "items").2 as [p| |]; try done. by destruct p.
  - intros cands _. apply filterR_no_fuel. intros y _. unfold has_sys, get.
    by destruct (nullish json_reader y.2).
Qed.

Lemma entityMap_of_no_fuel fuel h xs :
  reps h xs → (∀ y, y ∈ xs → depth y.2 < fuel) →
  entityMap_of fuel h (lval <$> xs) ≠ OutOfFuel.
Proof.
  intros Hreps Hd. unfold entityMap_of. apply bind_no_fuel; [|done].
  apply mapR_no_fuel. intros e (y & -> & Hy)%list_elem_of_fmap.
  apply bind_no_fuel; [|done].
  unfold reps in Hreps. rewrite Forall_forall in Hreps.
  assert (Hsim : sim h (lval y) y.2) by (exists y.1; by apply Hreps).
  rewrite (rel_makeEntityMapKeys _ _ _ (sim_view h) (sim_prim h) fuel _
             (prop json_reader y.2 "sys"))
    by (by apply (rel_prop _ _ _ (sim_view h) (sim_prim h))).
  apply makeEntityMapKeys_no_fuel.
  pose proof (depth_prop y.2 "sys"). pose proof (Hd y Hy). lia.
Qed.

Lemma resolveCloned_spec fuel o h0 x v :
  rep h0 x.1 x.2 v → wf x.2 = true → depth x.2 < fuel →
  match resolveCloned fuel h0 v o with
  | Ok (r, hf) => run_post fuel o x h0 v r hf
  | Throw _ => True
  | OutOfFuel => False
  end.
Proof.
  intros Hrep Hwf Hd. unfold resolveCloned.
  rewrite (allEntries_of_layout h0 x v Hrep Hwf).
  pose proof (jentries_no_fuel x) as Hnf.
  destruct (jentries x) as [xs| |] eqn:Hxs; simpl; [|done..].
  destruct (jentries_spec h0 x v xs Hrep Hwf Hxs) as (Hreps & HD & Hin & Hobj).
  assert (Hdx : ∀ y, y ∈ xs → depth y.2 < fuel).
  { intros y Hy. destruct (Hobj y Hy) as [[_ ?] _]. lia. }
  pose proof (entityMap_of_no_fuel fuel h0 xs Hreps Hdx) as Hnf'.
  destruct (entityMap_of fuel h0 (lval <$> xs)) as [em| |] eqn:Hem; simpl; [|done..].
  assert (Hvals : lval <$> xs = entry_val <$> (to_entry <$> xs)).
  { rewrite <- list_fmap_compose. apply Forall_fmap_ext_1, Forall_forall.
    intros y Hy. destruct (Hobj y Hy) as (_ & _ & ps & Hps).
    destruct y as [lo t]. simpl in *. by subst. }
  rewrite Hvals.
  assert (Hent : ∀ y, y ∈ xs → ∃ ps, y.2 = JObj ps ∧ to_entry y = (y.1, ps)).
  { intros y Hy. destruct (Hobj y Hy) as (_ & _ & ps & Hps). exists ps. split; [done|].
    unfold to_entry. by rewrite Hps. }
  assert (H1 : ∀ e, e ∈ to_entry <$> xs →
            wf (JObj e.2) = true ∧ depth (JObj e.2) < fuel ∧
            rep h0 e.1 (JObj e.2) (entry_val e)).
  { intros e (y & -> & Hy)%list_elem_of_fmap.
    destruct (Hent y Hy) as (ps & Hps & ->). cbn [fst snd]. rewrite <- Hps.
    destruct (Hobj y Hy) as [[Hwfy _] _]. split_and!; [by apply Hwfy|by apply Hdx|].
    unfold reps in Hreps. rewrite Forall_forall in Hreps.
    specialize (Hreps y Hy). unfold entry_val. cbn [fst snd].
    unfold lval, val_at in Hreps. rewrite Hps in Hreps. by rewrite Hps. }
  assert (H2 : ∀ i j ei ej, (to_entry <$> xs) !! i = Some ei →
            (to_entry <$> xs) !! j = Some ej → i ≠ j →
            ∀ l, entry_seg ei l → ¬ entry_seg ej l).
  { intros i j ei ej Hi Hj Hij l.
    apply list_lookup_fmap_Some in Hi as (yi & -> & Hi).
    apply list_lookup_fmap_Some in Hj as (yj & -> & Hj).
    destruct (Hent yi) as (psi & Hpsi & ->); [by eapply list_elem_of_lookup_2|].
    destruct (Hent yj) as (psj & Hpsj & ->); [by eapply list_elem_of_lookup_2|].
    unfold entry_seg. cbn [fst snd]. rewrite <- Hpsi, <- Hpsj.
    by apply (Disj_lookup xs i j yi yj l). }
  pose proof (entries_fold em o fuel (to_entry <$> xs) h0 H1 H2) as Hfold.
  destruct (foldR (resolve_item fuel em o) h0 (entry_val <$> (to_entry <$> xs)))
    as [hf| |]; simpl; [|done..].
  destruct Hfold as [Hfr Hpost].
  exists xs, em. split_and!; [done..| |].
  - eapply frame_mono; [done|]. intros l (e & (y & -> & Hy)%list_elem_of_fmap & Hs).
    exists y. split; [done|]. destruct (Hent y Hy) as (ps & Hps & Heq).
    rewrite Heq in Hs. unfold entry_seg in Hs. cbn [fst snd] in Hs. unfold lseg.
    by rewrite Hps.
  - intros y ps Hy Hps Hp. destruct (Hent y Hy) as (ps' & Hps' & Heq).
    assert (ps' = ps) as -> by congruence.
    specialize (Hpost (to_entry y)). rewrite Heq in Hpost. cbn [fst snd] in Hpost.
    rewrite Hps. apply Hpost; [|by rewrite <- Hps].
    apply list_elem_of_fmap. exists y. by rewrite Heq.
Qed.

(** * The returned items *)

(** ** From the response to the returned items *)

Lemma cloned_rep t : rep (cloned t).2 (length initial_heap) t (cloned t).1.
Proof.
  unfold cloned. destruct (copy_spec t initial_heap) as (v & sg & -> & _ & Hrep).
  specialize (Hrep []). by rewrite app_nil_r in Hrep.
Qed.

Lemma resolveResponse_spec fuel t o :
  wf t = true → depth t < fuel →
  truthy json_reader (prop json_reader t "items") = true →
  match resolveResponse fuel t o with
  | Ok (r, hf) => run_post fuel o (at_origin t) (cloned t).2 (cloned t).1 r hf
  | Throw _ => True
  | OutOfFuel => False
  end.
Proof.
  intros Hwf Hd Hitems. unfold resolveResponse, get.
  destruct (nullish json_reader t) eqn:Hnull.
  { exfalso. unfold nullish, prop, truthy in *.
    destruct t as [p| |]; simpl in *; [|done..]. by destruct p. }
  cbn [mbind result_bind]. rewrite Hitems. cbn [negb].
  pose proof (cloned_rep t) as Hrep. unfold cloned in *.
  destruct (copy t initial_heap) as [v h0]. simpl in Hrep.
  by apply (resolveCloned_spec fuel o h0 (at_origin t) v).
Qed.

Lemma index_of_entries fuel t xs :
  wf t = true → jentries (at_origin t) = Ok xs →
  entries_of t = Ok (lval <$> xs) ∧
  index_of fuel t = entityMap_of fuel (cloned t).2 (lval <$> xs).
Proof.
  intros Hwf Hxs. pose proof (cloned_rep t) as Hrep.
  unfold entries_of, index_of. destruct (cloned t) as [v h0]. simpl in *.
  rewrite (allEntries_of_layout h0 (at_origin t) v Hrep Hwf), Hxs. done.
Qed.

Lemma jentries_candidates x xs :
  jentries x = Ok xs → ∃ cands, jcandidates x = Ok cands ∧ filterR has_sys cands = Ok xs.
Proof. unfold jentries. intros (cands & ? & ?)%bind_Ok. eauto. Qed.

(** A candidate is an entry, or no entry overlaps it. *)
Lemma candidate_cases h x v cands xs y :
  rep h x.1 x.2 v → wf x.2 = true →
  jcandidates x = Ok cands → filterR has_sys cands = Ok xs → y ∈ cands →
  (has_sys y = Ok true ∧ y ∈ xs) ∨
  (has_sys y ≠ Ok true ∧ ∀ z l, z ∈ xs → lseg z l → ¬ lseg y l).
Proof.
  intros Hrep Hwf Hc Hf Hy.
  destruct (jcandidates_spec h x v cands Hrep Hwf Hc) as (_ & HD & _).
  assert (has_sys y = Ok true ∨ has_sys y ≠ Ok true) as [Hs|Hs].
  { destruct (has_sys y) as [[|]| |]; auto. }
  - left. split; [done|]. by eapply filterR_elem.
  - right. split; [done|]. intros z l Hz.
    destruct (filterR_Ok _ _ _ Hf z Hz) as [Hzc Hzs].
    apply list_elem_of_lookup_1 in Hzc as [i Hi].
    apply list_elem_of_lookup_1 in Hy as [j Hj].
    apply (Disj_lookup cands i j z y l HD Hi Hj). intros ->. congruence.
Qed.

Section Items.
Context (fuel : nat) (o : options) (rps : list (string * json)) (its : list json).
Context (r : value) (hf : heap).

Notation t := (JObj rps).
Notation x := (at_origin (JObj rps)).
Notation h0 := (cloned (JObj rps)).2.
Notation v0 := (cloned (JObj rps)).1.
Notation xi := (jprop_at (at_origin (JObj rps)) "items").

Hypothesis Hwf : wf t = true.
Hypothesis Hitems : assoc "items" rps = Some (JArr its).
Hypothesis Hrun : run_post fuel o x h0 v0 r hf.

Lemma items_tree : xi.2 = JArr its.
Proof.
  pose proof (cloned_rep t) as Hrep.
  destruct (jprop_at_spec h0 x v0 "items" Hrep Hwf) as (_ & <- & _).
  unfold prop. simpl. by rewrite Hitems.
Qed.

Lemma item_candidate k c cands :
  its !! k = Some c → jcandidates x = Ok cands → item_at rps its k c ∈ cands.
Proof.
  intros Hk Hc. pose proof (cloned_rep t) as Hrep.
  destruct (jcandidates_spec h0 x v0 cands Hrep Hwf Hc) as (_ & _ & _ & _ & rest & ->).
  apply elem_of_app. left. unfold jvalues. rewrite items_tree. simpl.
  apply (elem_of_lookup_imap_2 (fun i c => (child_pos xi.1 its i, c)) its c k Hk).
Qed.

Lemma entries_above y l : lseg y l → (∃ xs', jentries x = Ok xs' ∧ y ∈ xs') → 0 < l ∧ l < length h0.
Proof.
  intros Hs (xs' & Hxs & Hy). pose proof (cloned_rep t) as Hrep.
  destruct (jentries_spec h0 x v0 xs' Hrep Hwf Hxs) as (_ & _ & Hin & _).
  destruct (Hin y l Hy Hs) as [[Hx _] _].
  pose proof (rep_in_heap _ _ _ _ Hrep eq_refl). unfold lseg, seg in Hx. simpl in *. lia.
Qed.

Lemma items_kept :
  r = VRef (node_loc xi) ∧ hf !! node_loc xi = Some (OArr (lval <$> jvalues xi)).
Proof.
  destruct Hrun as (xs & em & Hxs & Hem & -> & [Hlen Hfr] & _).
  pose proof (cloned_rep t) as Hrep.
  destruct (jentries_spec h0 x v0 xs Hrep Hwf Hxs) as (_ & _ & Hin & _).
  destruct (jprop_at_spec h0 x v0 "items" Hrep Hwf) as (Hv & _ & Hri & Hbi & _).
  pose proof items_tree as Hxi.
  assert (Hroot : ∀ l, (l = node_loc x ∨ l = node_loc xi) → hf !! l = h0 !! l).
  { intros l Hl. apply Hfr.
    - pose proof (rep_in_heap _ _ _ _ Hrep eq_refl) as Hb.
      destruct Hl as [->| ->].
      + unfold node_loc. rewrite (nodes_children t eq_refl) in Hb. simpl in *. lia.
      + assert (lseg xi (node_loc xi)) as Hs by (apply lseg_node_loc; by rewrite Hxi).
        apply Hbi in Hs as [Hs _]. unfold lseg, seg in Hs. simpl in *. lia.
    - intros (y & Hy & Hs). destruct (Hin y l Hy Hs) as [[_ Hne] Hne'].
      destruct Hl as [->| ->]; [done|]. apply Hne'; [by rewrite Hxi|done]. }
  assert (Hv0 : v0 = VRef (node_loc x)) by (by rewrite (rep_val_at _ _ _ _ Hrep)).
  split.
  - assert (lval xi = VRef (node_loc xi)) as Hl
      by (unfold lval, val_at, node_loc; by rewrite Hxi).
    rewrite <- Hl, <- Hv. unfold prop. rewrite Hv0. cbn [heap_reader rview].
    by rewrite Hroot by (by left).
  - rewrite Hroot by (by right).
    unfold lval, val_at in Hri. rewrite Hxi in Hri.
    inversion Hri as [|? ? vs Hn Hlenvs Hch Hl]; subst.
    unfold node_loc. rewrite Hxi. rewrite Hl. simpl. do 2 f_equal.
    pose proof (jvalues_node h0 xi vs) as Hvs. rewrite Hxi in Hvs. by apply Hvs.
Qed.

Lemma follow_item k c :
  its !! k = Some c → follow hf r [KIdx k] = Some (lval (item_at rps its k c)).
Proof.
  intros Hk. destruct items_kept as [-> Hl]. simpl.
  unfold has_own, get_own. rewrite Hl.
  assert (Hjv : jvalues xi = imap (fun i c => (child_pos xi.1 its i, c)) its).
  { unfold jvalues. by rewrite items_tree. }
  rewrite length_fmap, Hjv, length_imap.
  rewrite bool_decide_eq_true_2 by (by eapply lookup_lt_Some).
  by rewrite list_lookup_fmap, list_lookup_imap, Hk.
Qed.
End Items.

(** * Items without a sys (C10) *)

Lemma lval_node y : is_node y.2 = true → lval y = VRef (node_loc y).
Proof. destruct y as [lo t]. by destruct t. Qed.

Lemma lval_inj_disjoint y z :
  is_node z.2 = true → (∀ l, lseg z l → ¬ lseg y l) → lval z ≠ lval y.
Proof.
  intros Hz Hdisj Heq. rewrite (lval_node z Hz) in Heq.
  destruct (is_node y.2) eqn:Hy.
  - rewrite (lval_node y Hy) in Heq. injection Heq as Heq.
    apply (Hdisj (node_loc z)); [by apply lseg_node_loc|].
    rewrite Heq. by apply lseg_node_loc.
  - destruct y as [lo c]. by destruct c.
Qed.

(** C10. An element of [items] without a truthy [sys] is no entry and is not in
    the index; the run, which never runs out of stack on a response it is deep
    enough for, returns it at its position, cloned and otherwise untouched. *)
Theorem sysless_item_kept fuel rps its o k c :
  wf (JObj rps) = true → depth (JObj rps) < fuel →
  assoc "items" rps = Some (JArr its) → its !! k = Some c →
  truthy json_reader (prop json_reader c "sys") = false →
  ∃ lo,
    rep (cloned (JObj rps)).2 lo c (val_at lo c) ∧
    (∀ es, entries_of (JObj rps) = Ok es → val_at lo c ∉ es) ∧
    (∀ em key, index_of fuel (JObj rps) = Ok em → em !! key ≠ Some (val_at lo c)) ∧
    match resolveResponse fuel (JObj rps) o with
    | Ok (r, hf) => follow hf r [KIdx k] = Some (val_at lo c) ∧ rep hf lo c (val_at lo c)
    | Throw _ => True
    | OutOfFuel => False
    end.
Proof.
  intros Hwf Hd Hitems Hk Hsys.
  set (t := JObj rps). set (x := at_origin t).
  set (y := item_at rps its k c). exists y.1.
  change (val_at y.1 c) with (lval y).
  pose proof (cloned_rep t) as Hrep.
  assert (Hnot : has_sys y ≠ Ok true).
  { unfold has_sys, get. simpl. destruct (nullish json_reader c); [done|].
    simpl. by rewrite Hsys. }
  assert (Hcase : ∀ xs, jentries x = Ok xs →
            rep (cloned t).2 y.1 c (lval y) ∧ ∀ z l, z ∈ xs → lseg z l → ¬ lseg y l).
  { intros xs Hxs. destruct (jentries_candidates _ _ Hxs) as (cands & Hc & Hf).
    pose proof (item_candidate rps its Hwf Hitems k c cands Hk Hc) as Hy. fold y in Hy.
    destruct (jcandidates_spec _ x _ cands Hrep Hwf Hc) as (Hreps & _).
    unfold reps in Hreps. rewrite Forall_forall in Hreps. split; [by apply (Hreps y)|].
    by destruct (candidate_cases _ x _ cands xs y Hrep Hwf Hc Hf Hy) as [[? _]|[_ ?]]. }
  assert (Hentry : ∀ xs z, jentries x = Ok xs → z ∈ xs → lval z ≠ lval y).
  { intros xs z Hxs Hz. destruct (Hcase xs Hxs) as [_ Hdisj].
    destruct (jentries_spec _ x _ xs Hrep Hwf Hxs) as (_ & _ & _ & Hobj).
    destruct (Hobj z Hz) as (_ & _ & ps & Hps).
    apply lval_inj_disjoint; [by rewrite Hps|]. intros l. by apply Hdisj. }
  assert (Hclone : rep (cloned t).2 y.1 c (lval y)).
  { destruct (jentries x) as [xs| |] eqn:Hxs; [by destruct (Hcase xs eq_refl)| |].
    - (* the clone does not depend on the entries *)
      unfold jentries in Hxs. destruct (jcandidates x) as [cands| |] eqn:Hc.
      + pose proof (item_candidate rps its Hwf Hitems k c cands Hk Hc) as Hy.
        destruct (jcandidates_spec _ x _ cands Hrep Hwf Hc) as (Hreps & _).
        unfold reps in Hreps. rewrite Forall_forall in Hreps. by apply (Hreps y).
      + exfalso. clear -Hc Hitems Hwf. unfold jcandidates in Hc.
        pose proof (items_tree rps its Hwf Hitems) as Hxi. fold t x in Hxi.
        unfold jspread in Hc. by rewrite Hxi in Hc.
      + exfalso. clear -Hc Hitems Hwf. unfold jcandidates in Hc.
        pose proof (items_tree rps its Hwf Hitems) as Hxi. fold t x in Hxi.
        unfold jspread in Hc. by rewrite Hxi in Hc.
    - by destruct (jentries_no_fuel x). }
  split_and!; [done| | |].
  - intros es Hes Hin.
    destruct (jentries x) as [xs| |] eqn:Hxs.
    + destruct (index_of_entries fuel t xs Hwf Hxs) as [Hes' _].
      assert (es = lval <$> xs) as -> by congruence.
      apply list_elem_of_fmap in Hin as (z & Heq & Hz). by apply (Hentry xs z eq_refl Hz).
    + unfold entries_of in Hes. destruct (cloned t) as [v h0] eqn:Hcl. simpl in *.
      rewrite (allEntries_of_layout h0 x v Hrep Hwf) in Hes. fold x in Hxs.
      by rewrite Hxs in Hes.
    + by destruct (jentries_no_fuel x).
  - intros em key Hem Hlook.
    destruct (jentries x) as [xs| |] eqn:Hxs.
    + destruct (index_of_entries fuel t xs Hwf Hxs) as [_ Hidx].
      rewrite Hidx in Hem.
      apply (entityMap_lookup _ _ _ _ key (lval y) Hem) in Hlook as (i & ks & Hi & _).
      apply list_lookup_fmap_Some in Hi as (z & Heq & Hi).
      apply (Hentry xs z eq_refl); [by eapply list_elem_of_lookup_2|done].
    + unfold index_of in Hem. destruct (cloned t) as [v h0] eqn:Hcl. simpl in *.
      rewrite (allEntries_of_layout h0 x v Hrep Hwf) in Hem. fold x in Hxs.
      by rewrite Hxs in Hem.
    + by destruct (jentries_no_fuel x).
  - pose proof (resolveResponse_spec fuel t o Hwf Hd) as Hspec.
    destruct (resolveResponse fuel t o) as [[r hf]| |]; [|done|].
    + assert (Hrun : run_post fuel o x (cloned t).2 (cloned t).1 r hf).
      { apply Hspec. unfold prop. simpl. by rewrite Hitems. }
      split; [by apply (follow_item fuel o rps its r hf Hwf Hitems Hrun)|].
      destruct Hrun as (xs & em & Hxs & _ & _ & [Hlen Hfr] & _).
      destruct (Hcase xs Hxs) as [Hr Hdisj].
      apply rep_frame with (h := (cloned t).2); [done|]. intros l Hl. apply Hfr.
      * destruct (is_node c) eqn:Hn.
        -- pose proof (rep_in_heap _ _ _ _ Hr Hn). lia.
        -- destruct c; simpl in *; [lia|done..].
      * intros (z & Hz & Hs). by apply (Hdisj z l Hz Hs).
    + apply Hspec. unfold prop. simpl. by rewrite Hitems.
Qed.


(** ** Following a path through what the walk leaves *)

Lemma has_own_obj h l pf k :
  h !! l = Some (OObj pf) → has_own h l (KName k) = bool_decide (is_Some (assoc k pf)).
Proof. intros Hl. unfold has_own. by rewrite Hl. Qed.

Lemma get_own_obj h l pf k w :
  h !! l = Some (OObj pf) → assoc k pf = Some w → get_own h l (KName k) = w.
Proof. intros Hl Hk. unfold get_own. by rewrite Hl, Hk. Qed.

Lemma follow_obj h l pf k w p :
  h !! l = Some (OObj pf) → assoc k pf = Some w →
  follow h (VRef l) (KName k :: p) = follow h w p.
Proof.
  intros Hl Hk. simpl. rewrite (has_own_obj _ _ _ _ Hl), (get_own_obj _ _ _ _ _ Hl Hk), Hk.
  by rewrite bool_decide_eq_true_2.
Qed.

Lemma jstep_child t k c :
  keys_ok t → jstep t k = Some c →
  ∃ i, jchildren t !! i = Some c ∧ node_keys t !! i = Some k.
Proof.
  intros Hkeys Hs. destruct t as [p|es|ps], k as [s|i]; simpl in *; try done.
  - exists i. split; [done|]. rewrite list_lookup_fmap.
    assert (i < length es) by (by eapply lookup_lt_Some).
    by rewrite lookup_seq_lt.
  - apply assoc_lookup in Hs as [i Hi]. exists i.
    by rewrite !list_lookup_fmap, Hi.
Qed.

Lemma rep_follow_at h lo t v k c i :
  rep h lo t v → keys_ok t → jchildren t !! i = Some c → node_keys t !! i = Some k →
  follow h v [k] = Some (val_at (child_pos lo (jchildren t) i) c) ∧
  rep h (child_pos lo (jchildren t) i) c (val_at (child_pos lo (jchildren t) i) c).
Proof.
  intros Hrep Hkeys Hc Hk.
  inversion Hrep as [? p|? ? vs Hn Hlen Hch Hl]; subst; [done|].
  destruct (lookup_lt_is_Some_2 vs i) as [vi Hvi].
  { rewrite Hlen. by eapply lookup_lt_Some. }
  pose proof (Hch i c vi Hc Hvi) as Hr.
  rewrite <- (rep_val_at _ _ _ _ Hr). split; [|done]. simpl.
  rewrite (has_own_node h _ t vs Hn Hkeys Hlen Hl i k Hk).
  by rewrite (get_own_node h _ t vs Hn Hkeys Hlen Hl i k vi Hk Hvi).
Qed.

Lemma follow_app h v p q w :
  follow h v p = Some w → follow h v (p ++ q) = follow h w q.
Proof.
  revert v. induction p as [|k p IH]; intros v Hp; simpl in *; [by simplify_eq|].
  destruct v as [|l]; [done|]. destruct (has_own h l k); [by apply IH|done].
Qed.

Section Paths.
Context (em : gmap string value) (rm : bool) (fuel : nat).
Context (hf : heap) (D : loc → Prop).
Hypothesis HD : ∀ l, D l → l ≠ UNRESOLVED_LINK.

(** Only a link that does not resolve, with pruning on, is walked into the
    marker. *)
Lemma walked_marker t w :
  walked em rm fuel hf D t w → is_marker w = true →
  rm = true ∧ jpred t = true ∧
  getResolvedLink json_reader fuel em t = Ok (VRef UNRESOLVED_LINK).
Proof.
  intros Hw Hm. apply is_marker_true in Hm as ->.
  inversion Hw as [? ? Hp Hr Hor|? lo ? Hp Hr Hrm Hrep Hseg| |? ws l Hp Hn Hlen Hch HDl Hl];
    subst.
  - destruct Hor as [Hor|Hor]; [done|]. done.
  - exfalso. destruct t as [p|es|ps]; [by rewrite jpred_prim in Hp|done|].
    pose proof (rep_val_at _ _ _ _ Hrep) as Hv. simpl in Hv. injection Hv as Hv.
    apply (HD UNRESOLVED_LINK); [|done]. apply Hseg. unfold seg.
    rewrite (nodes_children (JObj ps) eq_refl). simpl in *. lia.
  - by destruct (HD _ HDl).
Qed.

Lemma walked_step t w k c :
  walked em rm fuel hf D t w → jpred t = false → keys_ok t → jstep t k = Some c →
  ∃ l i wi ws, w = VRef l ∧ hf !! l = Some (prune rm (mk_obj t ws)) ∧
    length ws = length (jchildren t) ∧
    jchildren t !! i = Some c ∧ node_keys t !! i = Some k ∧ ws !! i = Some wi ∧
    walked em rm fuel hf D c wi.
Proof.
  intros Hw Hp Hkeys Hs. destruct (jstep_child t k c Hkeys Hs) as (i & Hc & Hk).
  inversion Hw as [? ? Hp' _ _|? lo ? Hp' _ _ _ _| |? ws l _ Hn Hlen Hch HDl Hl];
    subst; try congruence; [done|].
  destruct (lookup_lt_is_Some_2 ws i) as [wi Hwi].
  { rewrite Hlen. by eapply lookup_lt_Some. }
  exists l, i, wi, ws. split_and!; try done. by eapply Hch.
Qed.

(** A link at the end of an exposed path is replaced by what it resolves to. *)
Lemma walked_follow_link p : ∀ t w c r,
  walked em rm fuel hf D t w → wf t = true →
  exposed t p = true → jfollow t p = Some c →
  jpred c = true → getResolvedLink json_reader fuel em c = Ok r → is_marker r = false →
  rm = false ∨ forallb is_name p = true →
  follow hf w p = Some r.
Proof.
  induction p as [|k p IH]; intros t w c r Hw Hwf Hex Hf Hp Hr Hm Hrm.
  - simpl in Hf. simplify_eq. simpl.
    inversion Hw as [? ? _ Hr' _|? lo ? _ Hr' _ _ _|p|? ws l Hp' _ _ _ _ _]; subst.
    + congruence.
    + rewrite Hr in Hr'. by simplify_eq.
    + by rewrite jpred_prim in Hp.
    + congruence.
  - cbn [exposed jfollow] in Hex, Hf.
    apply andb_true_iff in Hex as [Hnp Hex]. apply negb_true_iff in Hnp.
    destruct (jstep t k) as [c1|] eqn:Hs; [|done].
    destruct (wf_children t Hwf) as [Hkeys Hwfc].
    destruct (walked_step t w k c1 Hw Hnp Hkeys Hs)
      as (l & i & wi & ws & -> & Hl & Hlen & Hc1 & Hk & Hwi & Hwalk).
    assert (Hwfc1 : wf c1 = true) by (apply Hwfc; by eapply list_elem_of_lookup_2).
    assert (Hrm' : rm = false ∨ forallb is_name p = true).
    { destruct Hrm as [?|Hn]; [by left|]. simpl in Hn. apply andb_true_iff in Hn as [_ ?].
      by right. }
    specialize (IH c1 wi c r Hwalk Hwfc1 Hex Hf Hp Hr Hm Hrm').
    assert (Hwim : is_marker wi = false).
    { destruct (is_marker wi) eqn:Hmi; [|done].
      destruct (walked_marker c1 wi Hwalk Hmi) as (_ & Hp1 & Hr1).
      destruct p as [|k' p'].
      - simpl in Hf. simplify_eq. rewrite Hr in Hr1. by simplify_eq.
      - simpl in Hex. apply andb_true_iff in Hex as [Hnp1 _]. by rewrite Hp1 in Hnp1. }
    destruct rm eqn:Hrmv.
    + (* pruning is on: the path goes through objects only *)
      destruct Hrm as [?|Hn]; [done|]. simpl in Hn. apply andb_true_iff in Hn as [Hk' _].
      destruct k as [s|]; [|done]. destruct t as [|es|ps]; try done.
      simpl in Hl, Hk, Hkeys, Hlen.
      destruct (prune_props_NoDup true ps.*1 ws Hkeys) as (pf & Hpf & _).
      { by rewrite Hlen, !length_fmap. }
      assert (Hks : ps.*1 !! i = Some s).
      { rewrite list_lookup_fmap in Hk. destruct (ps.*1 !! i); simpl in Hk; by simplify_eq. }
      pose proof (prune_assoc true ps.*1 ws pf i s wi Hkeys Hpf Hks Hwi) as Ha.
      rewrite Hwim in Ha. simpl in Ha. simpl in Hpf. rewrite Hpf in Hl.
      by rewrite (follow_obj hf l pf s wi p Hl Ha).
    + simpl in Hl. change (follow hf (VRef l) (k :: p)) with
        (if has_own hf l k then follow hf (get_own hf l k) p else None).
      destruct (is_node t) eqn:Hn; [|by destruct t].
      rewrite (has_own_node hf l t ws Hn Hkeys Hlen Hl i k Hk).
      by rewrite (get_own_node hf l t ws Hn Hkeys Hlen Hl i k wi Hk Hwi).
Qed.
End Paths.

(** ** An entry among the items *)

Section ItemEntry.
Context (fuel : nat) (o : options) (rps : list (string * json)) (its : list json).
Context (r : value) (hf : heap).

Notation t := (JObj rps).
Notation x := (at_origin (JObj rps)).
Notation h0 := (cloned (JObj rps)).2.
Notation v0 := (cloned (JObj rps)).1.
Notation xi := (jprop_at (at_origin (JObj rps)) "items").

Hypothesis Hwf : wf t = true.
Hypothesis Hitems : assoc "items" rps = Some (JArr its).

Lemma follow_clone_item k c :
  its !! k = Some c →
  follow h0 v0 [KName "items"; KIdx k] = Some (lval (item_at rps its k c)).
Proof.
  intros Hk. pose proof (cloned_rep t) as Hrep.
  destruct (jprop_at_spec h0 x v0 "items" Hrep Hwf) as (Hv & _ & Hri & _).
  pose proof (items_tree rps its Hwf Hitems) as Hxi.
  assert (H1 : follow h0 v0 [KName "items"] = Some (lval xi)).
  { rewrite <- Hv. inversion Hrep as [|? ? vs Hn Hlen Hch Hl]; subst. simpl in *.
    rewrite length_fmap in Hlen.
    assert (is_Some (assoc "items" (zip rps.*1 vs))) as [w Hw].
    { destruct (assoc "items" (zip rps.*1 vs)) eqn:Ha; [eauto|].
      apply assoc_None in Ha. rewrite fst_zip in Ha by (rewrite length_fmap; lia).
      exfalso. apply Ha. apply assoc_lookup in Hitems as [i Hi].
      apply list_elem_of_fmap. exists ("items", JArr its). split; [done|].
      by eapply list_elem_of_lookup_2. }
    rewrite (has_own_obj _ _ _ _ Hl), (get_own_obj _ _ _ _ _ Hl Hw), Hw.
    rewrite bool_decide_eq_true_2 by eauto. unfold prop. simpl.
    by rewrite Hl, Hw. }
  change [KName "items"; KIdx k] with ([KName "items"] ++ [KIdx k]).
  rewrite (follow_app _ _ _ _ _ H1).
  unfold lval at 1 in Hri.
  assert (Hri' : rep h0 xi.1 (JArr its) (lval xi)) by (by rewrite <- Hxi).
  destruct (rep_follow_at h0 xi.1 (JArr its) (lval xi) (KIdx k) c k Hri' I) as [Hf _];
    [done| |done].
  simpl. rewrite list_lookup_fmap, lookup_seq_lt; [done|]. by eapply lookup_lt_Some.
Qed.

Lemma item_not_marker k ps :
  its !! k = Some (JObj ps) → is_marker (lval (item_at rps its k (JObj ps))) = false.
Proof.
  intros Hk. pose proof (cloned_rep t) as Hrep.
  pose proof (items_tree rps its Hwf Hitems) as Hxi.
  destruct (jcandidates x) as [cands| |] eqn:Hc.
  - pose proof (item_candidate rps its Hwf Hitems k _ cands Hk Hc) as Hy.
    destruct (jcandidates_spec h0 x v0 cands Hrep Hwf Hc) as (_ & _ & Hin & _).
    set (y := item_at rps its k (JObj ps)) in *.
    assert (Hs : lseg y (node_loc y)) by (by apply lseg_node_loc).
    destruct (Hin y _ Hy Hs) as [[Hx _] _].
    rewrite (lval_node y eq_refl). unfold is_marker. apply bool_decide_eq_false.
    intros [= Heq]. unfold lseg, seg in Hx. simpl in Hx. rewrite Heq in Hx.
    unfold UNRESOLVED_LINK in Hx. lia.
  - unfold jcandidates, jspread in Hc. by rewrite Hxi in Hc.
  - unfold jcandidates, jspread in Hc. by rewrite Hxi in Hc.
Qed.

Hypothesis Hrun : run_post fuel o x h0 v0 r hf.

Lemma item_entry_post k ps :
  its !! k = Some (JObj ps) →
  truthy json_reader (prop json_reader (JObj ps) "sys") = true →
  jpred (JObj ps) = false →
  let y := item_at rps its k (JObj ps) in
  ∃ em D, index_of fuel t = Ok em ∧ item_post em o fuel hf D ps y.1 ∧
    (∀ l, D l → l ≠ UNRESOLVED_LINK) ∧
    follow hf r [KIdx k] = Some (VRef (y.1 + nodesl ps.*2)).
Proof.
  intros Hk Hsys Hp y. pose proof (cloned_rep t) as Hrep.
  pose proof (follow_item fuel o rps its r hf Hwf Hitems Hrun k (JObj ps) Hk) as Hfol.
  destruct Hrun as (xs & em & Hxs & Hem & _ & _ & Hpost).
  destruct (jentries_candidates _ _ Hxs) as (cands & Hc & Hf).
  pose proof (item_candidate rps its Hwf Hitems k _ cands Hk Hc) as Hy. fold y in Hy.
  assert (Hs : has_sys y = Ok true).
  { unfold has_sys, get. simpl. by rewrite Hsys. }
  assert (Hyx : y ∈ xs) by (by eapply filterR_elem).
  exists em, (Dseg y.1 y.2 (length h0) (length hf)). split_and!.
  - destruct (index_of_entries fuel t xs Hwf Hxs) as [_ ->]. done.
  - by apply (Hpost y ps Hyx).
  - intros l [Hsl|Hfresh].
    + destruct (jentries_spec h0 x v0 xs Hrep Hwf Hxs) as (_ & _ & Hin & _).
      destruct (Hin y l Hyx Hsl) as [[Hx _] _]. unfold lseg, seg in Hx. simpl in Hx.
      unfold UNRESOLVED_LINK. lia.
    + pose proof (rep_in_heap _ _ _ _ Hrep eq_refl). simpl in *.
      unfold UNRESOLVED_LINK. lia.
  - done.
Qed.
End ItemEntry.

(** * The records of a response and the index *)

Lemma jprop_at_child x ps s c :
  x.2 = JObj ps → assoc s ps = Some c →
  ∃ i, jprop_at x s = (child_pos x.1 ps.*2 i, c) ∧ ps !! i = Some (s, c).
Proof.
  intros Hx Hs. unfold jprop_at. rewrite Hx.
  rewrite assoc_list_find in Hs.
  destruct (list_find (λ kv, kv.1 = s) ps) as [[i [k c']]|] eqn:Hf; [|done].
  simpl in Hs. simplify_eq. apply list_find_Some in Hf as (Hi & Hk & _).
  simpl in Hk. subst. eauto.
Qed.

Lemma jstep_at_spec h x v k y :
  rep h x.1 x.2 v → wf x.2 = true → jstep_at x k = Some y →
  follow h v [k] = Some (lval y) ∧ rep h y.1 y.2 (lval y) ∧
  jstep x.2 k = Some y.2 ∧ wf y.2 = true.
Proof.
  intros Hrep Hwf Hs. destruct x as [lo t]. simpl in *.
  destruct (wf_children t Hwf) as [Hkeys Hwfc].
  assert (∃ i, y = (child_pos lo (jchildren t) i, y.2) ∧ jchildren t !! i = Some y.2 ∧
               node_keys t !! i = Some k ∧ jstep t k = Some y.2) as (i & Hy & Hc & Hk & Hj).
  { unfold jstep_at in Hs. simpl in Hs. destruct t as [p|es|ps], k as [s|i]; try done.
    - unfold jvalues in Hs. simpl in Hs. rewrite list_lookup_imap in Hs.
      destruct (es !! i) as [c|] eqn:Hc; [|done]. simpl in Hs. simplify_eq.
      exists i. simpl. split_and!; [done..| |done].
      rewrite list_lookup_fmap. assert (i < length es) by (by eapply lookup_lt_Some).
      by rewrite lookup_seq_lt.
    - destruct (assoc s ps) as [c|] eqn:Hc; [|done]. simplify_eq.
      destruct (jprop_at_child (lo, JObj ps) ps s c eq_refl Hc) as (i & -> & Hi).
      exists i. simpl. split_and!; [done| | |done].
      + by rewrite list_lookup_fmap, Hi.
      + by rewrite !list_lookup_fmap, Hi. }
  destruct (rep_follow_at h lo t v k y.2 i Hrep Hkeys Hc Hk) as [Hf Hr].
  rewrite Hy. simpl. split_and!; [done..|].
  apply Hwfc. by eapply list_elem_of_lookup_2.
Qed.

Lemma jlocate_spec h p : ∀ x v y,
  rep h x.1 x.2 v → wf x.2 = true → jlocate x p = Some y →
  follow h v p = Some (lval y) ∧ rep h y.1 y.2 (lval y) ∧
  jfollow x.2 p = Some y.2 ∧ wf y.2 = true.
Proof.
  induction p as [|k p IH]; intros x v y Hrep Hwf Hl; simpl in Hl.
  - simplify_eq. pose proof (rep_val_at _ _ _ _ Hrep) as ->. done.
  - destruct (jstep_at x k) as [z|] eqn:Hz; [|done].
    destruct (jstep_at_spec h x v k z Hrep Hwf Hz) as (Hf & Hr & Hj & Hw).
    destruct (IH z (lval z) y Hr Hw Hl) as (Hf' & Hr' & Hj' & Hw').
    split_and!; [|done| |done].
    + change (k :: p) with ([k] ++ p). by rewrite (follow_app _ _ _ _ _ Hf).
    + simpl. by rewrite Hj.
Qed.

Lemma jlocate_app x p q :
  jlocate x (p ++ q) = match jlocate x p with Some y => jlocate y q | None => None end.
Proof.
  revert x. induction p as [|k p IH]; intros x; simpl; [done|].
  destruct (jstep_at x k); [apply IH|done].
Qed.

Lemma jvalues_array y es :
  y.2 = JArr es → jvalues y = imap (fun i c => (child_pos y.1 es i, c)) es.
Proof. intros Hy. unfold jvalues. by rewrite Hy. Qed.

(** The elements of an array are where its indices lead. *)
Lemma array_located x p0 y es :
  jlocate x p0 = Some y → y.2 = JArr es →
  Forall2 (fun z p => jlocate x p = Some z) (jvalues y)
          ((fun i => p0 ++ [KIdx i]) <$> seq 0 (length es)).
Proof.
  intros Hy Hes. apply Forall2_same_length_lookup. split.
  - rewrite (jvalues_array y es Hes), length_imap, length_fmap, length_seq. done.
  - intros i z p Hz Hp. apply list_lookup_fmap_Some in Hp as (j & -> & Hj).
    apply lookup_seq in Hj as [-> Hj]. simpl in *.
    rewrite jlocate_app, Hy. simpl. unfold jstep_at. rewrite Hes. by rewrite Hz.
Qed.

Lemma Forall2_concat_2 {A B} (R : A → B → Prop) xss yss :
  Forall2 (Forall2 R) xss yss → Forall2 R (concat xss) (concat yss).
Proof. induction 1; simpl; [constructor|]. by apply Forall2_app. Qed.

Lemma shaped_inv t :
  shaped t = true →
  ∃ rps its, t = JObj rps ∧ assoc "items" rps = Some (JArr its) ∧
    (assoc "includes" rps = None ∨
     ∃ incs, assoc "includes" rps = Some (JObj incs) ∧
             forallb (fun kv => is_array kv.2) incs = true).
Proof.
  destruct t as [p|es|rps]; [done..|]. simpl. intros [Hi Hc]%andb_true_iff.
  destruct (assoc "items" rps) as [[| its|]|] eqn:Hits; try done.
  exists rps, its. split_and!; [done..|].
  destruct (assoc "includes" rps) as [[| |incs]|]; try done; eauto.
Qed.

Lemma candidates_located t :
  wf t = true → shaped t = true →
  ∃ cands, jcandidates (at_origin t) = Ok cands ∧
    Forall2 (fun y p => jlocate (at_origin t) p = Some y) cands (record_paths t).
Proof.
  intros Hwf (rps & its & -> & Hits & Hincs)%shaped_inv.
  set (x := at_origin (JObj rps)).
  set (xi := jprop_at x "items"). set (xc := jprop_at x "includes").
  assert (Hxi : xi.2 = JArr its).
  { destruct (jprop_at_child x rps "items" _ eq_refl Hits) as (i & Hxi & Hi).
    unfold xi. by rewrite Hxi. }
  assert (Hli : jlocate x [KName "items"] = Some xi).
  { simpl. unfold jstep_at. simpl. by rewrite Hits. }
  assert (Hp1 : prop json_reader (JObj rps) "items" = JArr its).
  { unfold prop. simpl. by rewrite Hits. }
  unfold jcandidates, record_paths. fold xi xc. rewrite Hp1.
  unfold jspread. rewrite Hxi. cbn [mbind result_bind]. eexists. split; [done|].
  apply Forall2_app.
  { apply (array_located x [KName "items"] xi its Hli Hxi). }
  destruct Hincs as [Hnone|(incs & Hinc & Hall)].
  - assert (Hp2 : prop json_reader (JObj rps) "includes" = JPrim PUndef).
    { unfold prop. simpl. by rewrite Hnone. }
    rewrite Hp2.
    assert (Hxc : xc.2 = JPrim PUndef).
    { unfold xc, jprop_at. simpl. rewrite assoc_list_find in Hnone.
      by destruct (list_find _ rps) as [[? ?]|]. }
    rewrite Hxc. simpl. constructor.
  - assert (Hp2 : prop json_reader (JObj rps) "includes" = JObj incs).
    { unfold prop. simpl. by rewrite Hinc. }
    rewrite Hp2.
    assert (Hxc : xc.2 = JObj incs).
    { destruct (jprop_at_child x rps "includes" _ eq_refl Hinc) as (j & Hxc & Hj).
      unfold xc. by rewrite Hxc. }
    assert (Hlc : jlocate x [KName "includes"] = Some xc).
    { simpl. unfold jstep_at. simpl. by rewrite Hinc. }
    rewrite Hxc. simpl.
    assert (Hwfc : wf (JObj incs) = true).
    { destruct (wf_children _ Hwf) as [_ Hch]. apply Hch. simpl.
      apply list_elem_of_fmap. exists ("includes", JObj incs). split; [done|].
      by apply assoc_elem. }
    destruct (wf_children _ Hwfc) as [Hnd _]. simpl in Hnd.
    unfold jflat. apply Forall2_concat_2.
    apply Forall2_fmap. apply Forall2_same_length_lookup. split.
    { unfold jvalues. rewrite Hxc. simpl. by rewrite length_imap, length_fmap. }
    intros m y kv Hy Hkv. destruct kv as [kind c].
    unfold jvalues in Hy. rewrite Hxc in Hy. simpl in Hy.
    rewrite list_lookup_imap, list_lookup_fmap, Hkv in Hy. simpl in Hy. simplify_eq.
    rewrite forallb_forall in Hall.
    pose proof (Hall (kind, c) ltac:(by eapply list_elem_of_In, list_elem_of_lookup_2)) as Hc.
    destruct c as [|rs|]; [done| |done]. simpl.
    apply (array_located x [KName "includes"; KName kind] _ rs); [|done].
    change [KName "includes"; KName kind] with ([KName "includes"] ++ [KName kind]).
    rewrite jlocate_app, Hlc. simpl. unfold jstep_at. rewrite Hxc.
    rewrite (assoc_NoDup_lookup incs m kind (JArr rs) Hnd Hkv).
    destruct (jprop_at_child xc incs kind (JArr rs) Hxc) as (m' & -> & Hm').
    { by eapply assoc_NoDup_lookup. }
    assert (m' = m) as ->; [|done].
    eapply NoDup_lookup; [exact Hnd| |]; rewrite list_lookup_fmap.
    + by rewrite Hm'.
    + by rewrite Hkv.
Qed.

(** ** The index, record by record *)

Lemma keys_of_rep fuel h x :
  rep h x.1 x.2 (lval x) → keys_of fuel h (lval x) = record_keys fuel x.2.
Proof.
  intros Hrep. unfold keys_of, record_keys.
  apply (rel_makeEntityMapKeys _ _ _ (sim_view h) (sim_prim h)).
  apply (rel_prop _ _ _ (sim_view h) (sim_prim h)). by exists x.1.
Qed.

Lemma pairs_of_cons e ks eks :
  pairs_of ((e, ks) :: eks) = map (fun key : string => (key, e)) ks ++ pairs_of eks.
Proof. done. Qed.

Lemma candidates_keyed fuel cands : ∀ xs kss',
  filterR has_sys cands = Ok xs →
  Forall2 (fun y ks => record_keys fuel y.2 = Ok ks) xs kss' →
  ∃ kss, Forall2 (keyed fuel) cands kss ∧
    pairs_of (zip (lval <$> cands) kss) = pairs_of (zip (lval <$> xs) kss').
Proof.
  induction cands as [|y cands IH]; intros xs kss' Hf Hk; simpl in Hf.
  - simplify_eq. inversion Hk; subst. exists []. split; [constructor|done].
  - apply bind_Ok in Hf as (b & Hb & (xs' & Hxs & [= <-])%bind_Ok). destruct b.
    + inversion Hk as [|? ks ? kss'' Hy Hk']; subst.
      destruct (IH _ _ Hxs Hk') as (kss & HF & Hp).
      exists (ks :: kss). split; [constructor; [by left|done]|].
      rewrite !fmap_cons. cbn [zip zip_with]. by rewrite !pairs_of_cons, Hp.
    + destruct (IH _ _ Hxs Hk) as (kss & HF & Hp).
      exists ([] :: kss). split; [constructor; [by right|done]|].
      rewrite !fmap_cons. cbn [zip zip_with]. by rewrite pairs_of_cons, Hp.
Qed.

Lemma index_of_candidates fuel t cands em :
  wf t = true → jcandidates (at_origin t) = Ok cands → index_of fuel t = Ok em →
  ∃ kss, Forall2 (keyed fuel) cands kss ∧
    em = new_Map (pairs_of (zip (lval <$> cands) kss)).
Proof.
  intros Hwf Hc Hem. pose proof (cloned_rep t) as Hrep.
  destruct (jentries (at_origin t)) as [xs| |] eqn:Hxs.
  2, 3: unfold index_of in Hem; destruct (cloned t) as [v h0]; simpl in *;
        rewrite (allEntries_of_layout h0 (at_origin t) v Hrep Hwf), Hxs in Hem; done.
  destruct (index_of_entries fuel t xs Hwf Hxs) as [_ Hi]. rewrite Hi in Hem.
  destruct (jentries_spec _ (at_origin t) _ xs Hrep Hwf Hxs) as (Hreps & _).
  apply entityMap_of_Ok in Hem as (kss' & Hk & ->).
  unfold jentries in Hxs. rewrite Hc in Hxs. cbn [mbind result_bind] in Hxs.
  destruct (candidates_keyed fuel cands xs kss' Hxs) as (kss & HF & Hp).
  { apply Forall2_same_length_lookup. split.
    - apply Forall2_length in Hk. by rewrite length_fmap in Hk.
    - intros i y ks Hy Hks.
      assert (Hly : (lval <$> xs) !! i = Some (lval y)).
      { apply list_lookup_fmap_Some. eauto. }
      pose proof (Forall2_lookup_lr _ _ _ _ _ _ Hk Hly Hks) as Hkeys.
      simpl in Hkeys. rewrite <- Hkeys. symmetry. apply keys_of_rep.
      unfold reps in Hreps. rewrite Forall_forall in Hreps. apply Hreps.
      by eapply list_elem_of_lookup_2. }
  exists kss. by rewrite Hp.
Qed.

Lemma has_sys_truthy y :
  has_sys y = Ok true ↔ truthy json_reader (prop json_reader y.2 "sys") = true.
Proof.
  unfold has_sys, get. destruct (nullish json_reader y.2) eqn:Hn; simpl.
  - split; [done|]. unfold nullish, prop, truthy in *.
    destruct (rview json_reader y.2) as [[]| |]; simpl in *; done.
  - split; [by intros [= ->] | by intros ->].
Qed.

Lemma keyed_record fuel y ks :
  keyed fuel y ks → truthy json_reader (prop json_reader y.2 "sys") = true →
  record_keys fuel y.2 = Ok ks.
Proof.
  intros [[_ ?]|[Hs _]] Ht; [done|]. apply has_sys_truthy in Ht. congruence.
Qed.

Lemma keyed_elem fuel y ks k :
  keyed fuel y ks → k ∈ ks →
  truthy json_reader (prop json_reader y.2 "sys") = true ∧ record_keys fuel y.2 = Ok ks.
Proof.
  intros [[Hs ?]|[_ ->]] Hk; [|by apply elem_of_nil in Hk].
  split; [by apply has_sys_truthy|done].
Qed.

Lemma pairs_of_keys (eks : list (value * list string)) i e ks k :
  eks !! i = Some (e, ks) → k ∈ ks → k ∈ (pairs_of eks).*1.
Proof.
  intros Hi Hk. apply list_elem_of_fmap. exists (k, e). split; [done|].
  unfold pairs_of.
  apply list_elem_of_In, in_concat. exists (map (fun key : string => (key, e)) ks). split.
  - apply in_map_iff. exists (e, ks). split; [done|].
    apply list_elem_of_In. by eapply list_elem_of_lookup_2.
  - apply in_map_iff. exists k. split; [done|]. by apply list_elem_of_In.
Qed.

Lemma index_holds_records fuel t em : index_of fuel t = Ok em → holds_records em.
Proof.
  unfold index_of. destruct (cloned t) as [clone h].
  intros (es & Hes & Hem)%bind_Ok. by eapply entityMap_holds_records.
Qed.

Section Records.
Context (fuel : nat) (t : json) (em : gmap string value).
Hypothesis Hwf : wf t = true.
Hypothesis Hshaped : shaped t = true.
Hypothesis Hem : index_of fuel t = Ok em.

(** The index is made from the records, in the order of their places. *)
Lemma index_of_records :
  ∃ cands kss,
    Forall2 (fun y p => jlocate (at_origin t) p = Some y) cands (record_paths t) ∧
    Forall2 (keyed fuel) cands kss ∧
    em = new_Map (pairs_of (zip (lval <$> cands) kss)).
Proof.
  destruct (candidates_located t Hwf Hshaped) as (cands & Hc & Hp).
  destruct (index_of_candidates fuel t cands em Hwf Hc Hem) as (kss & Hk & ->).
  by exists cands, kss.
Qed.

Lemma located_record p y :
  jlocate (at_origin t) p = Some y →
  follow (cloned t).2 (cloned t).1 p = Some (lval y) ∧ jfollow t p = Some y.2.
Proof.
  intros Hl.
  destruct (jlocate_spec (cloned t).2 p (at_origin t) (cloned t).1 y (cloned_rep t) Hwf Hl)
    as (? & _ & ? & _).
  done.
Qed.

(** A record with an identity block is registered under each of its keys,
    and a key leads to the last record that has it. *)
Lemma record_registered n p r :
  record_paths t !! n = Some p → jfollow t p = Some r →
  truthy json_reader (prop json_reader r "sys") = true →
  ∃ e ks, follow (cloned t).2 (cloned t).1 p = Some e ∧ record_keys fuel r = Ok ks ∧
    ∀ k, k ∈ ks →
      is_Some (em !! k) ∧ (last_with_key fuel t n k → em !! k = Some e).
Proof.
  intros Hp Hr Hsys. destruct index_of_records as (cands & kss & Hloc & Hkeyed & ->).
  destruct (Forall2_lookup_r _ _ _ _ _ Hloc Hp) as (y & Hy & Hly).
  destruct (located_record p y Hly) as [Hf Hj].
  assert (r = y.2) as -> by congruence.
  destruct (Forall2_lookup_l _ _ _ _ _ Hkeyed Hy) as (ks & Hks & Hkd).
  pose proof (keyed_record fuel y ks Hkd Hsys) as Hrk.
  assert (Hz : zip (lval <$> cands) kss !! n = Some (lval y, ks)).
  { apply lookup_zip_with_Some. exists (lval y), ks. split_and!; [done| |done].
    apply list_lookup_fmap_Some. eauto. }
  exists (lval y), ks. split_and!; [done..|]. intros k Hk. split.
  - apply new_Map_is_Some. by eapply pairs_of_keys.
  - intros Hlast. apply index_lookup. exists n, ks. split_and!; [done..|].
    intros j e' ks' Hj' Hz' Hk'.
    apply lookup_zip_with_Some in Hz' as (e'' & ks'' & [= <- <-] & He'' & Hks'').
    apply list_lookup_fmap_Some in He'' as (y' & -> & Hy').
    pose proof (Forall2_lookup_lr _ _ _ _ _ _ Hkeyed Hy' Hks'') as Hkd'.
    destruct (keyed_elem fuel y' ks' k Hkd' Hk') as [Hs' Hrk'].
    destruct (Forall2_lookup_l _ _ _ _ _ Hloc Hy') as (p' & Hp' & Hly').
    destruct (located_record p' y' Hly') as [_ Hj''].
    apply (Hlast j Hj'). exists p', y'.2, ks'. done.
Qed.

(** Nothing else is registered. *)
Lemma registered_record k v :
  em !! k = Some v →
  ∃ n p r ks, record_paths t !! n = Some p ∧ jfollow t p = Some r ∧
    truthy json_reader (prop json_reader r "sys") = true ∧
    follow (cloned t).2 (cloned t).1 p = Some v ∧
    record_keys fuel r = Ok ks ∧ k ∈ ks ∧ last_with_key fuel t n k.
Proof.
  intros Hk. destruct index_of_records as (cands & kss & Hloc & Hkeyed & ->).
  apply index_lookup in Hk as (n & ks & Hz & Hin & Hlast).
  apply lookup_zip_with_Some in Hz as (e & ks0 & [= <- <-] & He & Hks).
  apply list_lookup_fmap_Some in He as (y & -> & Hy).
  pose proof (Forall2_lookup_lr _ _ _ _ _ _ Hkeyed Hy Hks) as Hkd.
  destruct (keyed_elem fuel y ks k Hkd Hin) as [Hs Hrk].
  destruct (Forall2_lookup_l _ _ _ _ _ Hloc Hy) as (p & Hp & Hly).
  destruct (located_record p y Hly) as [Hf Hj].
  exists n, p, y.2, ks. split_and!; [done..|].
  intros n' Hn' (p' & r' & ks' & Hp' & Hj' & Hs' & Hrk' & Hk').
  destruct (Forall2_lookup_r _ _ _ _ _ Hloc Hp') as (y' & Hy' & Hly').
  destruct (located_record p' y' Hly') as [_ Hj''].
  assert (r' = y'.2) as -> by congruence.
  destruct (Forall2_lookup_l _ _ _ _ _ Hkeyed Hy') as (ks'' & Hks'' & Hkd').
  pose proof (keyed_record fuel y' ks'' Hkd' Hs') as Hrk''.
  assert (ks'' = ks') as -> by congruence.
  apply (Hlast n' (lval y') ks' Hn'); [|done].
  apply lookup_zip_with_Some. exists (lval y'), ks'. split_and!; [done| |done].
  apply list_lookup_fmap_Some. eauto.
Qed.
End Records.

(** * Identity keys and registration (C1, C8) *)

(** C8, as the code has it. In a response of the declared shape, every
    top-level item and every included record that has an identity block has
    each of its keys in the index; a key leads to exactly one record, the
    last one (items first, then the included records, kind after kind) that
    has it, so a record is registered under a key of its own when no later
    record has that key; and the index holds nothing else: not the records
    nested in other records, and no record without an identity block. *)
Theorem index_registration (fuel : nat) (t : json) (em : gmap string value) :
  wf t = true → shaped t = true → index_of fuel t = Ok em →
  (∀ n p r, record_paths t !! n = Some p → jfollow t p = Some r →
     truthy json_reader (prop json_reader r "sys") = true →
     ∃ e ks, follow (cloned t).2 (cloned t).1 p = Some e ∧ record_keys fuel r = Ok ks ∧
       ∀ k, k ∈ ks →
         is_Some (em !! k) ∧ (last_with_key fuel t n k → em !! k = Some e))
  ∧ (∀ k v, em !! k = Some v →
       ∃ n p r ks, record_paths t !! n = Some p ∧ jfollow t p = Some r ∧
         truthy json_reader (prop json_reader r "sys") = true ∧
         follow (cloned t).2 (cloned t).1 p = Some v ∧
         record_keys fuel r = Ok ks ∧ k ∈ ks ∧ last_with_key fuel t n k).
Proof.
  intros Hwf Hshaped Hem. split.
  - intros n p r. by apply record_registered.
  - intros k v. by apply registered_record.
Qed.

Lemma two_env_paths :
  record_paths two_environments
  = [[KName "items"; KIdx 0]; [KName "includes"; KName "Entry"; KIdx 0]].
Proof. reflexivity. Qed.

Lemma index_registration_witness :
  let t := two_environments in
  let em := new_Map (pairs_of
     [(VRef 6, ["Entry!1"; "S1!master!Entry!1"]);
      (VRef 13, ["Entry!1"; "S1!staging!Entry!1"])]) in
  (∀ n p r, record_paths t !! n = Some p → jfollow t p = Some r →
     truthy json_reader (prop json_reader r "sys") = true →
     ∃ e ks, follow (cloned t).2 (cloned t).1 p = Some e ∧ record_keys 3 r = Ok ks ∧
       ∀ k, k ∈ ks →
         is_Some (em !! k) ∧ (last_with_key 3 t n k → em !! k = Some e))
  ∧ (∀ k v, em !! k = Some v →
       ∃ n p r ks, record_paths t !! n = Some p ∧ jfollow t p = Some r ∧
         truthy json_reader (prop json_reader r "sys") = true ∧
         follow (cloned t).2 (cloned t).1 p = Some v ∧
         record_keys 3 r = Ok ks ∧ k ∈ ks ∧ last_with_key 3 t n k).
Proof.
  intros t em. apply (index_registration 3 t em).
  - vm_compute. reflexivity.
  - vm_compute. reflexivity.
  - vm_compute. reflexivity.
Defined.

(** C8 as stated fails: in [two_environments] the item is not registered
    under its global key, which leads to the included record. *)
Lemma overwritten_key_counterexample :
  ¬ (∀ fuel t em n p r e ks k,
       wf t = true → shaped t = true → index_of fuel t = Ok em →
       record_paths t !! n = Some p → jfollow t p = Some r →
       truthy json_reader (prop json_reader r "sys") = true →
       follow (cloned t).2 (cloned t).1 p = Some e →
       record_keys fuel r = Ok ks → k ∈ ks →
       em !! k = Some e).
Proof.
  intros H.
  set (em := new_Map (pairs_of
     [(VRef 6, ["Entry!1"; "S1!master!Entry!1"]);
      (VRef 13, ["Entry!1"; "S1!staging!Entry!1"])])).
  specialize (H 3 two_environments em 0 [KName "items"; KIdx 0]
                (JObj [("sys", jscoped_sys "Entry" "1" "S1" "master")]) (VRef 6)
                ["Entry!1"; "S1!master!Entry!1"] "Entry!1").
  assert (em !! "Entry!1" = Some (VRef 6)) as Heq.
  { apply H; [vm_compute; reflexivity..|]. set_solver. }
  vm_compute in Heq. discriminate.
Qed.

(** C1, as the code has it. In a response of the declared shape, for a
    record whose identity block carries a space and an environment, the
    global key kind!id and the scoped key space!environment!kind!id, made
    from the type and id of the block and from the ids of its space and its
    environment, are both in the index; each leads to the last record (items
    first, then the included records) that has it, so both lead to this
    record when no later record has either key. A node tagged 'Link' is
    looked up by the global key linkType!id alone. *)
Theorem index_keys_and_direct_lookup (fuel : nat) (t : json) (em : gmap string value) :
  wf t = true → shaped t = true → index_of fuel t = Ok em →
  (∀ n p r, record_paths t !! n = Some p → jfollow t p = Some r →
     let sys := prop json_reader r "sys" in
     truthy json_reader sys = true → carries_scope json_reader sys = true →
     ∃ e kind id space environment,
       follow (cloned t).2 (cloned t).1 p = Some e ∧
       to_str json_reader fuel (prop json_reader sys "type") = Ok kind ∧
       to_str json_reader fuel (prop json_reader sys "id") = Ok id ∧
       to_str json_reader fuel
         (prop json_reader (prop json_reader (prop json_reader sys "space") "sys") "id")
         = Ok space ∧
       to_str json_reader fuel
         (prop json_reader (prop json_reader (prop json_reader sys "environment") "sys") "id")
         = Ok environment ∧
       is_Some (em !! global_key kind id) ∧
       is_Some (em !! record_scoped_key space environment kind id) ∧
       (last_with_key fuel t n (global_key kind id) →
        em !! global_key kind id = Some e) ∧
       (last_with_key fuel t n (record_scoped_key space environment kind id) →
        em !! record_scoped_key space environment kind id = Some e))
  ∧ (∀ (N : Type) (R : Reader N) (link : N),
       isLink R link = true →
       getResolvedLink R fuel em link =
         kind ← to_str R fuel (prop R (prop R link "sys") "linkType");
         id ← to_str R fuel (prop R (prop R link "sys") "id");
         Ok (default (VRef UNRESOLVED_LINK) (em !! global_key kind id))).
Proof.
  intros Hwf Hshaped Hem. split.
  - intros n p r Hp Hr sys Hsys Hscope.
    destruct (record_registered fuel t em Hwf Hshaped Hem n p r Hp Hr Hsys)
      as (e & ks & Hf & Hks & Hreg).
    unfold record_keys in Hks. fold sys in Hks.
    apply makeEntityMapKeys_Ok in Hks as (kind & id & Hkind & Hid & Hshape).
    rewrite Hscope in Hshape. destruct Hshape as (space & environment & Hsp & Henv & ->).
    assert (Hopt : ∀ x, truthy json_reader (get_opt json_reader x "sys") = true →
                        get_opt json_reader x "sys" = prop json_reader x "sys").
    { intros x. unfold get_opt. by destruct (nullish json_reader x). }
    apply andb_true_iff in Hscope as [Hs1 Hs2].
    rewrite (Hopt _ Hs1) in Hsp. rewrite (Hopt _ Hs2) in Henv.
    exists e, kind, id, space, environment.
    destruct (Hreg (global_key kind id)) as [? ?]; [set_solver|].
    destruct (Hreg (record_scoped_key space environment kind id)) as [? ?]; [set_solver|].
    done.
  - intros N R link Hl. rewrite direct_link_lookup by done. simpl.
    destruct (to_str R fuel _); simpl; [|done..].
    destruct (to_str R fuel _); simpl; [|done..].
    destruct (em !! _) as [v|] eqn:Hv; simpl; [|done].
    by rewrite (or_unresolved_record _ _ _ (index_holds_records _ _ _ Hem) Hv).
Qed.

(** C1 at two records of the same kind and id in two spaces. *)
Lemma index_keys_witness :
  let t := two_spaces in
  let em := new_Map (pairs_of
     [(VRef 6, ["Entry!1"; "S1!master!Entry!1"]);
      (VRef 12, ["Entry!1"; "S2!master!Entry!1"])]) in
  (∀ n p r, record_paths t !! n = Some p → jfollow t p = Some r →
     let sys := prop json_reader r "sys" in
     truthy json_reader sys = true → carries_scope json_reader sys = true →
     ∃ e kind id space environment,
       follow (cloned t).2 (cloned t).1 p = Some e ∧
       to_str json_reader 3 (prop json_reader sys "type") = Ok kind ∧
       to_str json_reader 3 (prop json_reader sys "id") = Ok id ∧
       to_str json_reader 3
         (prop json_reader (prop json_reader (prop json_reader sys "space") "sys") "id")
         = Ok space ∧
       to_str json_reader 3
         (prop json_reader (prop json_reader (prop json_reader sys "environment") "sys") "id")
         = Ok environment ∧
       is_Some (em !! global_key kind id) ∧
       is_Some (em !! record_scoped_key space environment kind id) ∧
       (last_with_key 3 t n (global_key kind id) →
        em !! global_key kind id = Some e) ∧
       (last_with_key 3 t n (record_scoped_key space environment kind id) →
        em !! record_scoped_key space environment kind id = Some e))
  ∧ (∀ (N : Type) (R : Reader N) (link : N),
       isLink R link = true →
       getResolvedLink R 3 em link =
         kind ← to_str R 3 (prop R (prop R link "sys") "linkType");
         id ← to_str R 3 (prop R (prop R link "sys") "id");
         Ok (default (VRef UNRESOLVED_LINK) (em !! global_key kind id))).
Proof.
  intros t em. apply (index_keys_and_direct_lookup 3 t em).
  - vm_compute. reflexivity.
  - vm_compute. reflexivity.
  - vm_compute. reflexivity.
Defined.

(** C1 as stated fails: in [two_spaces] the global key of the first record
    leads to the second record, its scoped key to the first. *)
Lemma shared_global_key_counterexample :
  ¬ (∀ fuel t em n p r kind id space environment,
       wf t = true → shaped t = true → index_of fuel t = Ok em →
       record_paths t !! n = Some p → jfollow t p = Some r →
       carries_scope json_reader (prop json_reader r "sys") = true →
       record_keys fuel r
         = Ok [global_key kind id; record_scoped_key space environment kind id] →
       em !! global_key kind id = em !! record_scoped_key space environment kind id).
Proof.
  intros H.
  set (em := new_Map (pairs_of
     [(VRef 6, ["Entry!1"; "S1!master!Entry!1"]);
      (VRef 12, ["Entry!1"; "S2!master!Entry!1"])])).
  specialize (H 3 two_spaces em 0 [KName "items"; KIdx 0]
                (JObj [("sys", jscoped_sys "Entry" "1" "S1" "master")])
                "Entry" "1" "S1" "master").
  assert (em !! global_key "Entry" "1" = em !! record_scoped_key "S1" "master" "Entry" "1")
    as Heq by (apply H; vm_compute; reflexivity).
  vm_compute in Heq. discriminate.
Qed.

(** The key of a record whose id is a number is made from the string the
    program prints the number as. *)
Example numeric_id_keys :
  record_keys 3 (JObj [("sys", JObj [("type", jstr "Entry"); ("id", JPrim (PNum 42))])])
    = Ok ["Entry!42"%string] ∧
  record_keys 3 (JObj [("sys", JObj [("type", jstr "Entry");
                                     ("id", JPrim (PNum (10 ^ 21)))])])
    = Ok ["Entry!1e+21"%string] ∧
  record_keys 3 (JObj [("sys", JObj [("type", jstr "Entry");
                                     ("id", JPrim (PNum (2 ^ 53 + 1)))])])
    = Ok ["Entry!9007199254740992"%string].
Proof. split_and!; vm_compute; reflexivity. Qed.

(** * Paths in the result *)

Lemma is_last_spec fuel t n k : is_last fuel t n k = true → last_with_key fuel t n k.
Proof.
  intros H n' Hn' (p & r & ks & Hp & Hr & Hs & Hk & Hin).
  unfold is_last in H. rewrite forallb_forall in H.
  assert (Hd : drop (S n) (record_paths t) !! (n' - S n) = Some p).
  { rewrite lookup_drop. by replace (S n + (n' - S n)) with n' by lia. }
  specialize (H p ltac:(by eapply list_elem_of_In, list_elem_of_lookup_2)).
  rewrite Hr in H. unfold has_key in H. rewrite Hs, Hk in H. simpl in H.
  by rewrite bool_decide_eq_true_2 in H.
Qed.

Lemma has_key_spec fuel r k :
  has_key fuel r k = true →
  truthy json_reader (prop json_reader r "sys") = true ∧
  ∃ ks, record_keys fuel r = Ok ks ∧ k ∈ ks.
Proof.
  unfold has_key. intros [Hs Hk]%andb_true_iff. split; [done|].
  destruct (record_keys fuel r) as [ks| |]; [|done..].
  exists ks. split; [done|]. by apply bool_decide_eq_true in Hk.
Qed.

Lemma link_key_jpred fuel link k : link_key fuel link = Some k → jpred link = true.
Proof.
  unfold link_key, jpred. destruct (isLink json_reader link); [done|].
  by destruct (isResourceLink json_reader link).
Qed.

(** A link is looked up by its key. *)
Lemma link_key_lookup fuel em link k :
  0 < fuel → holds_records em → link_key fuel link = Some k →
  getResolvedLink json_reader fuel em link
  = Ok (default (VRef UNRESOLVED_LINK) (em !! k)).
Proof.
  intros Hfuel Hrec. unfold link_key.
  destruct (isLink json_reader link) eqn:Hl.
  - rewrite (direct_link_lookup json_reader fuel em link Hl). simpl.
    destruct (to_str json_reader fuel _) as [kind| |]; [|done..].
    destruct (to_str json_reader fuel _) as [id| |]; [|done..].
    intros [= <-]. simpl. destruct (em !! _) as [v|] eqn:Hv; simpl; [|done].
    by rewrite (or_unresolved_record _ _ _ Hrec Hv).
  - destruct (isResourceLink json_reader link) eqn:Hr; [|done].
    destruct (isResourceLink_inv json_reader link Hr) as (Hsys & Htype & Hrl).
    destruct (getIdsFromUrn json_reader _) as [i|] eqn:Hi; [|done].
    destruct (rview json_reader (prop json_reader (prop json_reader link "sys") "linkType"))
      as [[| | | |d]| |] eqn:Hd; try done.
    intros [= <-]. destruct fuel as [|f]; [lia|].
    unfold getResolvedLink. rewrite Hsys. simpl. rewrite Htype. simpl. rewrite Hrl, Hi.
    unfold split_second. rewrite Hd. simpl.
    apply getIdsFromUrn_Some in Hi as (s & _ & p & env & _ & Hsid & Henv & Heid & Hdef & _).
    unfold lookupInEntityMap. simpl. rewrite !(truthy_rprim json_reader). simpl.
    rewrite (segment_truthy _ Hsid).
    assert (negb (String.eqb (ids_environmentId i) "") = true) as ->.
    { rewrite Hdef. destruct env as [e|]; [by apply segment_truthy | done]. }
    simpl. unfold scoped_key, effective_kind.
    destruct (split_on ":" d !! 1) as [seg|] eqn:Hseg; simpl.
    + destruct (em !! _) as [v|] eqn:Hv; simpl; [|done].
      by rewrite (or_unresolved_record _ _ _ Hrec Hv).
    + destruct (em !! _) as [v|] eqn:Hv; simpl; [|done].
      by rewrite (or_unresolved_record _ _ _ Hrec Hv).
Qed.

Lemma filter_lookup_kept {A} (P : A → Prop) `{∀ x, Decision (P x)} (l : list A) i x :
  l !! i = Some x → P x → filter P l !! length (filter P (take i l)) = Some x.
Proof.
  intros Hi HP.
  replace (filter P l) with (filter P (take i l ++ x :: drop (S i) l))
    by (by rewrite take_drop_middle).
  rewrite filter_app, filter_cons_True by done.
  by rewrite lookup_app_r, Nat.sub_diag by lia.
Qed.

Lemma filter_length_rel {A B} (P : A → Prop) (Q : B → Prop)
    `{∀ x, Decision (P x)} `{∀ y, Decision (Q y)} xs ys :
  Forall2 (fun x y => P x ↔ Q y) xs ys → length (filter P xs) = length (filter Q ys).
Proof.
  induction 1 as [|x y xs ys Hxy _ IH]; [done|].
  rewrite !filter_cons. destruct (decide (P x)), (decide (Q y)); simpl; tauto || lia.
Qed.

Section KeptValue.
Context (em : gmap string value) (rm : bool) (fuel : nat).
Context (hf : heap) (D : loc → Prop).
Hypothesis HD : ∀ l, D l → l ≠ UNRESOLVED_LINK.

(** With pruning, the walk leaves the marker exactly for the links that do
    not resolve. *)
Lemma walked_kept_value c w :
  rm = true → walked em rm fuel hf D c w → (kept fuel em c ↔ negb (is_marker w)).
Proof.
  intros Hrm Hw. unfold kept. split.
  - intros Hk. destruct (is_marker w) eqn:Hm; [|done].
    destruct (walked_marker em rm fuel hf D HD c w Hw Hm) as (_ & Hp & Hr).
    rewrite Hp, Hr in Hk. by vm_compute in Hk.
  - intros Hm. destruct (jpred c) eqn:Hp; [|done]. simpl.
    inversion Hw as [? ? _ Hr _|? lo ? _ _ Hrm' _ _|p|? ws l Hp' _ _ _ _ _]; subst.
    + rewrite Hr. done.
    + done.
    + by rewrite jpred_prim in Hp.
    + congruence.
Qed.

End KeptValue.

Section PrunedPaths.
Context (em : gmap string value) (rm : bool) (fuel : nat).
Context (hf : heap) (D : loc → Prop).
Hypothesis HD : ∀ l, D l → l ≠ UNRESOLVED_LINK.

(** The walk gets to the end of an exposed path, at the place the pruning of
    arrays moves it to, unless the path ends in a link that is pruned. *)
Lemma walked_follow_pruned p : ∀ t w c,
  walked em rm fuel hf D t w → wf t = true →
  exposed t p = true → jfollow t p = Some c →
  rm = false ∨
    (jpred c = true →
     getResolvedLink json_reader fuel em c ≠ Ok (VRef UNRESOLVED_LINK)) →
  ∃ w', follow hf w (result_path rm fuel em t p) = Some w' ∧
        walked em rm fuel hf D c w'.
Proof.
  induction p as [|k p IH]; intros t w c Hw Hwf Hex Hf Hrm.
  - simpl in Hf. simplify_eq. exists w. by split.
  - cbn [exposed jfollow] in Hex, Hf.
    apply andb_true_iff in Hex as [Hnp Hex]. apply negb_true_iff in Hnp.
    destruct (jstep t k) as [c1|] eqn:Hs; [|done].
    destruct (wf_children t Hwf) as [Hkeys Hwfc].
    destruct (jstep_child t k c1 Hkeys Hs) as (i & Hc1 & Hk).
    inversion Hw as [? ? Hp' _ _|? lo ? Hp' _ _ _ _| |? ws l _ Hn Hlen Hch HDl Hl];
      subst; try congruence; [done|].
    destruct (lookup_lt_is_Some_2 ws i) as [wi Hwi].
    { rewrite Hlen. by eapply lookup_lt_Some. }
    pose proof (Hch i c1 wi Hc1 Hwi) as Hwalk.
    assert (Hwfc1 : wf c1 = true) by (apply Hwfc; by eapply list_elem_of_lookup_2).
    destruct (IH c1 wi c Hwalk Hwfc1 Hex Hf Hrm) as (w' & Hfw & Hw').
    exists w'. split; [|done].
    cbn [result_path]. rewrite Hs.
    assert (Hwim : rm = true → is_marker wi = false).
    { intros Hrmt. destruct (is_marker wi) eqn:Hmi; [|done].
      destruct (walked_marker em _ fuel hf D HD c1 wi Hwalk Hmi) as (_ & Hp1 & Hr1).
      destruct p as [|k' p'].
      - simpl in Hf. simplify_eq. destruct Hrm as [?|Hc]; [congruence|]. by destruct (Hc Hp1).
      - simpl in Hex. apply andb_true_iff in Hex as [Hnp1 _]. by rewrite Hp1 in Hnp1. }
    destruct rm eqn:Hrmv.
    + specialize (Hwim eq_refl).
      destruct t as [|es|ps]; [done| |]; destruct k as [s|j]; try done.
      * (* an array: the index counts the elements that stay *)
        simpl in Hl, Hk, Hlen, Hc1, Hs.
        apply list_lookup_fmap_Some in Hk as (j' & [= ->] & Hj').
        apply lookup_seq in Hj' as [-> _]. simpl in *.
        set (n := length (filter (fun e => kept fuel em e) (take i es))).
        assert (Hn' : n = length (filter (fun v => negb (is_marker v)) (take i ws))).
        { unfold n. apply filter_length_rel.
          apply Forall2_same_length_lookup. split.
          - rewrite !length_take. lia.
          - intros m e v He Hv. apply lookup_take_Some in He as [He Hm].
            apply lookup_take_Some in Hv as [Hv _].
            apply (walked_kept_value em true fuel hf D HD e v eq_refl). by apply (Hch m). }
        assert (Hget : filter (fun v => negb (is_marker v)) ws !! n = Some wi).
        { rewrite Hn'. apply filter_lookup_kept; [done|]. by rewrite Hwim. }
        change (follow hf (VRef l) (KIdx n :: result_path true fuel em c1 p)) with
          (if has_own hf l (KIdx n)
           then follow hf (get_own hf l (KIdx n)) (result_path true fuel em c1 p)
           else None).
        unfold has_own, get_own. rewrite Hl, Hget. simpl.
        rewrite bool_decide_eq_true_2 by (by eapply lookup_lt_Some). done.
      * (* an object: the property is still there *)
        simpl in Hl, Hk, Hkeys, Hlen.
        destruct (prune_props_NoDup true ps.*1 ws Hkeys) as (pf & Hpf & _).
        { by rewrite Hlen, !length_fmap. }
        assert (Hks : ps.*1 !! i = Some s).
        { rewrite list_lookup_fmap in Hk. destruct (ps.*1 !! i); simpl in Hk; by simplify_eq. }
        pose proof (prune_assoc true ps.*1 ws pf i s wi Hkeys Hpf Hks Hwi) as Ha.
        rewrite Hwim in Ha. simpl in Ha. simpl in Hpf. rewrite Hpf in Hl.
        by rewrite (follow_obj hf l pf s wi _ Hl Ha).
    + assert (Hstep : match t, k with
                      | JArr es, KIdx i0 => k
                      | _, _ => k
                      end = k) by (by destruct t, k).
      simpl in Hl.
      replace (match t with JArr _ => match k with KIdx _ => k | _ => k end | _ => k end)
        with k by (by destruct t, k).
      change (follow hf (VRef l) (k :: result_path false fuel em c1 p)) with
        (if has_own hf l k then follow hf (get_own hf l k) (result_path false fuel em c1 p)
         else None).
      rewrite (has_own_node hf l t ws Hn Hkeys Hlen Hl i k Hk).
      by rewrite (get_own_node hf l t ws Hn Hkeys Hlen Hl i k wi Hk Hwi).
Qed.
End PrunedPaths.

(** ** A record of the response, after the run *)

Section RecordPaths.
Context (fuel : nat) (o : options) (t : json) (r : value) (hf : heap).
Hypothesis Hwf : wf t = true.
Hypothesis Hshaped : shaped t = true.
Hypothesis Hrun : run_post fuel o (at_origin t) (cloned t).2 (cloned t).1 r hf.

Lemma record_entry_post n rec ps :
  record_paths t !! n = Some rec → jfollow t rec = Some (JObj ps) →
  truthy json_reader (prop json_reader (JObj ps) "sys") = true →
  jpred (JObj ps) = false →
  ∃ y em D, y.2 = JObj ps ∧ index_of fuel t = Ok em ∧
    item_post em o fuel hf D ps y.1 ∧ (∀ l, D l → l ≠ UNRESOLVED_LINK) ∧
    follow (cloned t).2 (cloned t).1 rec = Some (lval y) ∧
    lval y = VRef (y.1 + nodesl ps.*2) ∧ is_marker (lval y) = false ∧
    wf (JObj ps) = true.
Proof.
  intros Hp Hr Hsys Hnl. pose proof (cloned_rep t) as Hrep.
  destruct (candidates_located t Hwf Hshaped) as (cands & Hc & Hloc).
  destruct (Forall2_lookup_r _ _ _ _ _ Hloc Hp) as (y & Hy & Hly).
  destruct (located_record t Hwf rec y Hly) as [Hf Hj].
  assert (Hy2 : y.2 = JObj ps) by congruence.
  destruct Hrun as (xs & em & Hxs & Hem & _ & _ & Hpost).
  destruct (jentries_candidates _ _ Hxs) as (cands' & Hc' & Hfl).
  assert (cands' = cands) as -> by congruence.
  assert (Hyc : y ∈ cands) by (by eapply list_elem_of_lookup_2).
  assert (Hs : has_sys y = Ok true) by (apply has_sys_truthy; by rewrite Hy2).
  assert (Hyx : y ∈ xs) by (by eapply filterR_elem).
  destruct (jentries_spec (cloned t).2 (at_origin t) (cloned t).1 xs Hrep Hwf Hxs)
    as (_ & _ & Hin & _).
  assert (Hlv : lval y = VRef (y.1 + nodesl ps.*2)).
  { unfold lval, val_at. by rewrite Hy2. }
  exists y, em, (Dseg y.1 y.2 (length (cloned t).2) (length hf)). split_and!.
  - done.
  - destruct (index_of_entries fuel t xs Hwf Hxs) as [_ ->]. done.
  - apply (Hpost y ps Hyx Hy2). by rewrite Hy2.
  - intros l [Hsl|Hfresh].
    + destruct (Hin y l Hyx Hsl) as [[Hx _] _]. unfold lseg, seg in Hx. simpl in Hx.
      unfold UNRESOLVED_LINK. lia.
    + assert (1 ≤ length (cloned t).2).
      { unfold cloned. destruct (copy_spec t initial_heap) as (v & sg & -> & _).
        simpl. lia. }
      unfold UNRESOLVED_LINK. lia.
  - done.
  - done.
  - assert (Hsn : lseg y (node_loc y)) by (apply lseg_node_loc; by rewrite Hy2).
    destruct (Hin y _ Hyx Hsn) as [[Hx _] _].
    rewrite (lval_node y) by (by rewrite Hy2). unfold is_marker.
    apply bool_decide_eq_false. intros [= Heq]. unfold lseg, seg in Hx. simpl in Hx.
    rewrite Heq in Hx. unfold UNRESOLVED_LINK in Hx. lia.
  - destruct (jlocate_spec (cloned t).2 rec (at_origin t) (cloned t).1 y Hrep Hwf Hly)
      as (_ & _ & _ & Hwfy).
    by rewrite Hy2 in Hwfy.
Qed.

(** From a record, the walk gets to the end of an exposed path through a
    field that takes part. *)
Lemma record_path_walked n rec ps v k p c em :
  record_paths t !! n = Some rec → jfollow t rec = Some (JObj ps) →
  truthy json_reader (prop json_reader (JObj ps) "sys") = true →
  follow (cloned t).2 (cloned t).1 rec = Some v →
  index_of fuel t = Ok em →
  field_walked o k → exposed (JObj ps) (KName k :: p) = true →
  jfollow (JObj ps) (KName k :: p) = Some c →
  removeUnresolved o = false ∨
    (jpred c = true →
     getResolvedLink json_reader fuel em c ≠ Ok (VRef UNRESOLVED_LINK)) →
  ∃ D w', (∀ l, D l → l ≠ UNRESOLVED_LINK) ∧
    follow hf v (result_path (removeUnresolved o) fuel em (JObj ps) (KName k :: p))
      = Some w' ∧
    walked em (removeUnresolved o) fuel hf D c w'.
Proof.
  intros Hp Hr Hsys Hv Hem Hw Hex Hf Hrm.
  assert (Hnl : jpred (JObj ps) = false).
  { cbn [exposed] in Hex. apply andb_true_iff in Hex as [Hnp _].
    by apply negb_true_iff in Hnp. }
  destruct (record_entry_post n rec ps Hp Hr Hsys Hnl)
    as (y & em' & D & Hy2 & Hem' & (pf & Hpf & Hkeys & Hfields) & HD & Hfol & Hlv & _ & Hwfy).
  assert (em' = em) as -> by congruence.
  assert (v = lval y) as -> by congruence. rewrite Hlv.
  exists D.
  cbn [exposed jfollow jstep result_path] in Hex, Hf |- *.
  apply andb_true_iff in Hex as [_ Hex].
  destruct (assoc k ps) as [d|] eqn:Hd'; [|done].
  destruct (assoc_lookup _ _ _ Hd') as [j Hj].
  specialize (Hfields j k d Hj). simpl in Hfields.
  rewrite decide_True in Hfields by done.
  destruct Hfields as (w & Hwalk & Ha).
  assert (Hwfd : wf d = true).
  { apply (wf_children _ Hwfy). simpl. apply list_elem_of_fmap. exists (k, d).
    split; [done|]. by eapply list_elem_of_lookup_2. }
  destruct (walked_follow_pruned em _ fuel hf D HD p d w c Hwalk Hwfd Hex Hf Hrm)
    as (w' & Hfw & Hw').
  exists w'. split_and!; [done| |done].
  assert (Hwm : is_marker w && removeUnresolved o = false).
  { destruct (is_marker w) eqn:Hmw; [|done]. simpl.
    destruct (walked_marker em _ fuel hf D HD d w Hwalk Hmw) as (Hrmt & Hp1 & Hr1).
    destruct Hrm as [?|Hc]; [congruence|].
    destruct p as [|k' p'].
    - simpl in Hf. simplify_eq. by destruct (Hc Hp1).
    - simpl in Hex. apply andb_true_iff in Hex as [Hnp1 _]. by rewrite Hp1 in Hnp1. }
  rewrite Hwm in Ha.
  by rewrite (follow_obj hf _ pf k w _ Hpf Ha).
Qed.
End RecordPaths.

(** * Entry points and mutual links (C9, C7) *)


Lemma shaped_items_truthy t :
  shaped t = true → truthy json_reader (prop json_reader t "items") = true.
Proof.
  intros (rps & its & -> & Hits & _)%shaped_inv. unfold prop. simpl. by rewrite Hits.
Qed.

Section ItemsInResult.
Context (fuel : nat) (o : options) (t : json) (r : value) (hf : heap).
Hypothesis Hwf : wf t = true.
Hypothesis Hshaped : shaped t = true.
Hypothesis Hrun : run_post fuel o (at_origin t) (cloned t).2 (cloned t).1 r hf.

(** An item is in the returned array where it was cloned. *)
Lemma item_in_result i c v :
  jfollow t [KName "items"; KIdx i] = Some c →
  follow (cloned t).2 (cloned t).1 [KName "items"; KIdx i] = Some v →
  follow hf r [KIdx i] = Some v.
Proof.
  destruct (shaped_inv t Hshaped) as (rps & its & -> & Hits & _).
  intros Hj Hv. simpl in Hj. rewrite Hits in Hj. simpl in Hj.
  destruct (its !! i) as [c'|] eqn:Hi; [|done]. simplify_eq.
  rewrite (follow_clone_item rps its Hwf Hits i c Hi) in Hv. injection Hv as <-.
  by apply (follow_item fuel o rps its r hf Hwf Hits Hrun).
Qed.
End ItemsInResult.

Section LinkedRecords.
Context (fuel : nat) (o : options) (t : json) (em : gmap string value).
Context (r : value) (hf : heap).
Hypothesis Hwf : wf t = true.
Hypothesis Hshaped : shaped t = true.
Hypothesis Hfuel : 0 < fuel.
Hypothesis Hem : index_of fuel t = Ok em.
Hypothesis Hrun : run_post fuel o (at_origin t) (cloned t).2 (cloned t).1 r hf.

(** The key of a record that no later record has leads to the record. *)
Lemma last_key_lookup n rec rc v k :
  record_paths t !! n = Some rec → jfollow t rec = Some rc →
  follow (cloned t).2 (cloned t).1 rec = Some v →
  has_key fuel rc k = true → is_last fuel t n k = true →
  em !! k = Some v.
Proof.
  intros Hp Hr Hv [Hsys (ks & Hks & Hk)]%has_key_spec Hlast%is_last_spec.
  destruct (record_registered fuel t em Hwf Hshaped Hem n rec rc Hp Hr Hsys)
    as (e & ks' & Hf & Hks' & Hreg).
  assert (e = v) as -> by congruence. assert (ks' = ks) as -> by congruence.
  by apply (Hreg k Hk).
Qed.

(** A link that names a record, at the end of an exposed path through a
    field that takes part, has been replaced by the record. *)
Lemma link_to_record n rec ps v k p link n' rec' ps' v' key :
  record_paths t !! n = Some rec → jfollow t rec = Some (JObj ps) →
  truthy json_reader (prop json_reader (JObj ps) "sys") = true →
  follow (cloned t).2 (cloned t).1 rec = Some v →
  field_walked o k → exposed (JObj ps) (KName k :: p) = true →
  jfollow (JObj ps) (KName k :: p) = Some link → link_key fuel link = Some key →
  record_paths t !! n' = Some rec' → jfollow t rec' = Some (JObj ps') →
  jpred (JObj ps') = false →
  follow (cloned t).2 (cloned t).1 rec' = Some v' →
  has_key fuel (JObj ps') key = true → is_last fuel t n' key = true →
  follow hf v (result_path (removeUnresolved o) fuel em (JObj ps) (KName k :: p))
    = Some v'.
Proof.
  intros Hp Hr Hsys Hv Hw Hex Hf Hkey Hp' Hr' Hnl' Hv' Hhas Hlast.
  pose proof (last_key_lookup n' rec' (JObj ps') v' key Hp' Hr' Hv' Hhas Hlast) as Hlook.
  pose proof (link_key_lookup fuel em link key Hfuel (index_holds_records _ _ _ Hem) Hkey)
    as Hres.
  rewrite Hlook in Hres. simpl in Hres.
  assert (Hm : is_marker v' = false).
  { apply has_key_spec in Hhas as [Hsys' _].
    destruct (record_entry_post fuel o t r hf Hwf Hshaped Hrun n' rec' ps' Hp' Hr' Hsys' Hnl')
      as (y & _ & _ & _ & _ & _ & _ & Hfy & _ & Hmy & _).
    assert (v' = lval y) as -> by congruence. done. }
  destruct (record_path_walked fuel o t r hf Hwf Hshaped Hrun n rec ps v k p link em
              Hp Hr Hsys Hv Hem Hw Hex Hf) as (D & w' & HD & Hfol & Hwalk).
  { right. intros _ Heq. rewrite Hres in Heq. injection Heq as ->. by vm_compute in Hm. }
  rewrite Hfol. f_equal.
  pose proof (link_key_jpred _ _ _ Hkey) as Hpl.
  inversion Hwalk as [? ? _ Hr1 _|? lo ? _ Hr1 _ _ _|pp|? ws l Hp1 _ _ _ _ _]; subst.
  - congruence.
  - rewrite Hres in Hr1. injection Hr1 as ->. by vm_compute in Hm.
  - by rewrite jpred_prim in Hpl.
  - congruence.
Qed.

End LinkedRecords.

(** C7, as the code has it. Two records of a response of the declared shape,
    among the items or the included records, each holding a link that names
    a key of the other at the end of an exposed path through a field that
    takes part, each the last record with that key: the run never runs out
    of stack on a response it is deep enough for, and when it returns each
    path, renumbered where pruning has taken elements out of an array, leads
    to the other record; a record among the items is in the returned array
    at its place. *)
Theorem mutual_links_resolved fuel t o em nA nB recA recB psA psB vA vB
    kA pA kB pB linkA linkB keyA keyB :
  wf t = true → shaped t = true → depth t < fuel →
  index_of fuel t = Ok em →
  record_paths t !! nA = Some recA → jfollow t recA = Some (JObj psA) →
  record_paths t !! nB = Some recB → jfollow t recB = Some (JObj psB) →
  follow (cloned t).2 (cloned t).1 recA = Some vA →
  follow (cloned t).2 (cloned t).1 recB = Some vB →
  has_key fuel (JObj psA) keyA = true → is_last fuel t nA keyA = true →
  has_key fuel (JObj psB) keyB = true → is_last fuel t nB keyB = true →
  field_walked o kA → exposed (JObj psA) (KName kA :: pA) = true →
  jfollow (JObj psA) (KName kA :: pA) = Some linkA → link_key fuel linkA = Some keyB →
  field_walked o kB → exposed (JObj psB) (KName kB :: pB) = true →
  jfollow (JObj psB) (KName kB :: pB) = Some linkB → link_key fuel linkB = Some keyA →
  match resolveResponse fuel t o with
  | Ok (r, hf) =>
      follow hf vA (result_path (removeUnresolved o) fuel em (JObj psA) (KName kA :: pA))
        = Some vB ∧
      follow hf vB (result_path (removeUnresolved o) fuel em (JObj psB) (KName kB :: pB))
        = Some vA ∧
      (∀ i, recA = [KName "items"; KIdx i] → follow hf r [KIdx i] = Some vA) ∧
      (∀ i, recB = [KName "items"; KIdx i] → follow hf r [KIdx i] = Some vB)
  | Throw _ => True
  | OutOfFuel => False
  end.
Proof.
  intros Hwf Hshaped Hd Hem HpA HrA HpB HrB HvA HvB HhA HlA HhB HlB
    HwA HeA HfA HkA HwB HeB HfB HkB.
  pose proof (resolveResponse_spec fuel t o Hwf Hd (shaped_items_truthy t Hshaped)) as Hrun.
  destruct (resolveResponse fuel t o) as [[r hf]| |]; [|done..].
  assert (Hfuel : 0 < fuel) by lia.
  assert (HnA : jpred (JObj psA) = false).
  { cbn [exposed] in HeA. apply andb_true_iff in HeA as [Hnp _].
    by apply negb_true_iff in Hnp. }
  assert (HnB : jpred (JObj psB) = false).
  { cbn [exposed] in HeB. apply andb_true_iff in HeB as [Hnp _].
    by apply negb_true_iff in Hnp. }
  pose proof (proj1 (has_key_spec _ _ _ HhA)) as HsA.
  pose proof (proj1 (has_key_spec _ _ _ HhB)) as HsB.
  split_and!.
  - by apply (link_to_record fuel o t em r hf Hwf Hshaped Hfuel Hem Hrun
                nA recA psA vA kA pA linkA nB recB psB vB keyB).
  - by apply (link_to_record fuel o t em r hf Hwf Hshaped Hfuel Hem Hrun
                nB recB psB vB kB pB linkB nA recA psA vA keyA).
  - intros i ->. by apply (item_in_result fuel o t r hf Hwf Hshaped Hrun i (JObj psA)).
  - intros i ->. by apply (item_in_result fuel o t r hf Hwf Hshaped Hrun i (JObj psB)).
Qed.

(** * A second run (C6) *)

(** The walk of an object runs out of stack when the walk of its first
    property does. *)
Lemma walk_first_key n pred mut rm h l k ks :
  pred h (VRef l) = false → own_keys h l = k :: ks → has_own h l k = true →
  walkMutate n pred mut rm h (get_own h l k) = OutOfFuel →
  walkMutate (S n) pred mut rm h (VRef l) = OutOfFuel.
Proof. intros H1 H2 H3 H4. simpl. rewrite H1, H2. simpl. by rewrite H3, H4. Qed.

(** In the result of the first run, the two records hold each other: no
    stack is deep enough to walk them. *)
Lemma mutual_cycle n mut rm :
  let h := mutual_resolved.2 ++ [OObj [("items", mutual_resolved.1)]] in
  walkMutate n the_predicate mut rm h (VRef 5) = OutOfFuel ∧
  walkMutate n the_predicate mut rm h (VRef 3) = OutOfFuel ∧
  walkMutate n the_predicate mut rm h (VRef 10) = OutOfFuel ∧
  walkMutate n the_predicate mut rm h (VRef 8) = OutOfFuel.
Proof.
  intros h. induction n as [|n (IH5 & IH3 & IH10 & IH8)]; [done|]. split_and!.
  - apply walk_first_key with (k := KName "fields") (ks := [KName "sys"]);
      [reflexivity..|exact IH3].
  - apply walk_first_key with (k := KName "b") (ks := []); [reflexivity..|exact IH10].
  - apply walk_first_key with (k := KName "fields") (ks := [KName "sys"]);
      [reflexivity..|exact IH8].
  - apply walk_first_key with (k := KName "a") (ks := []); [reflexivity..|exact IH5].
Qed.


(** ** A second run that changes nothing *)

Lemma the_predicate_prim h p : the_predicate h (VPrim p) = false.
Proof. by destruct p. Qed.

Lemma the_predicate_dangling h l : h !! l = None → the_predicate h (VRef l) = false.
Proof.
  intros Hl. unfold the_predicate, isLink, isResourceLink, get_opt, nullish, prop.
  simpl. by rewrite Hl.
Qed.

Lemma foldR_fixed {A B} (f : A → B → result A) a bs :
  (∀ b, b ∈ bs → f a b = Ok a) → foldR f a bs = Ok a.
Proof.
  induction bs as [|b bs IH]; intros H; simpl; [done|].
  rewrite H by set_solver. simpl. apply IH. intros; apply H; set_solver.
Qed.

Lemma forallb_elem {A} (P : A → bool) xs x :
  forallb P xs = true → x ∈ xs → P x = true.
Proof. intros H Hx. rewrite forallb_forall in H. by apply H, list_elem_of_In. Qed.

(** An own key is an own property; assigning to it what it holds changes
    nothing. *)
Lemma own_key_facts h l k :
  k ∈ own_keys h l →
  has_own h l k = true ∧ set_own h l k (get_own h l k) = h ∧
  ∃ o, h !! l = Some o ∧ get_own h l k ∈ obj_values o.
Proof.
  unfold own_keys, has_own, get_own, set_own. intros Hk.
  destruct (h !! l) as [[props|elems]|] eqn:Hl; [| |by apply elem_of_nil in Hk].
  - apply list_elem_of_fmap in Hk as (s & -> & Hs).
    destruct (assoc s props) as [v|] eqn:Ha.
    2: { by apply assoc_None in Ha. }
    split_and!.
    + by apply bool_decide_eq_true.
    + simpl. rewrite (set_prop_id _ _ _ Ha). by apply list_insert_id.
    + exists (OObj props). split; [done|]. simpl.
      apply assoc_lookup in Ha as [i Hi]. apply list_elem_of_fmap. exists (s, v).
      split; [done|]. by eapply list_elem_of_lookup_2.
  - apply list_elem_of_fmap in Hk as (i & -> & Hi). apply elem_of_seq in Hi.
    destruct (lookup_lt_is_Some_2 elems i) as [v Hv]; [lia|].
    rewrite Hv. simpl. split_and!.
    + apply bool_decide_eq_true. lia.
    + unfold set_idx. rewrite bool_decide_eq_true_2 by lia.
      rewrite (list_insert_id _ _ _ Hv). by apply list_insert_id.
    + exists (OArr elems). split; [done|]. simpl. by eapply list_elem_of_lookup_2.
Qed.

Section Unchanged.
Context (fuel : nat) (em : gmap string value) (h : heap) (rank : loc → nat).
Context (dom : list loc).
Hypothesis Hranked : ranked h rank dom = true.
Hypothesis Hlinks : links_unresolved fuel em h dom = true.

Notation mut := (fun h link => normalizeLink fuel em h link false).

(** From an object of [dom], a walk changes nothing. *)
Lemma walk_unchanged n : ∀ v,
  0 < n → (∀ l, v = VRef l → l ∈ dom ∧ rank l + 1 < n) →
  walkMutate n the_predicate mut false h v = Ok (v, h).
Proof.
  induction n as [|n IH]; intros v Hn Hrank; [lia|]. simpl.
  destruct (the_predicate h v) eqn:Hp.
  - destruct v as [p|l]; [by rewrite the_predicate_prim in Hp|].
    destruct (Hrank l eq_refl) as [Hl _].
    pose proof (forallb_elem _ _ l Hlinks Hl) as Hr. simpl in Hr. rewrite Hp in Hr.
    simpl in Hr. unfold normalizeLink.
    destruct (getResolvedLink (heap_reader h) fuel em (VRef l)) as [r| |]; [|done..].
    simpl. by rewrite Hr.
  - destruct v as [p|l]; [done|].
    rewrite foldR_fixed; [done|]. intros k Hk.
    destruct (own_key_facts h l k Hk) as (Hown & Hset & o & Hl & Hv).
    rewrite Hown. destruct (Hrank l eq_refl) as [Hdom Hrl].
    pose proof (forallb_elem _ _ l Hranked Hdom) as Hr. simpl in Hr.
    rewrite Hp, Hl in Hr. simpl in Hr.
    pose proof (forallb_elem _ _ (get_own h l k) Hr Hv) as Hchild. simpl in Hchild.
    rewrite IH.
    + simpl. by rewrite Hset.
    + lia.
    + intros l' Hl'. rewrite Hl' in Hchild.
      apply andb_true_iff in Hchild as [Hin Hlt'].
      apply bool_decide_eq_true in Hin. apply Nat.ltb_lt in Hlt'. split; [done|lia].
Qed.

Hypothesis Hkeys : keys_distinct h = true.
Hypothesis Hdeep : deep_enough fuel rank dom = true.

Lemma resolve_item_unchanged o e :
  removeUnresolved o = false → itemEntryPoints o = None →
  truthy (heap_reader h) (prop (heap_reader h) e "sys") = true →
  (∀ l, e = VRef l → l ∈ dom) →
  resolve_item fuel em o h e = Ok h.
Proof.
  intros Hrm Heps Hsys Hin. destruct e as [p|l]; [done|].
  unfold resolve_item. rewrite Heps, Hrm. simpl.
  destruct (h !! l) as [ob|] eqn:Hl.
  2: { unfold prop, truthy in Hsys. simpl in Hsys. by rewrite Hl in Hsys. }
  pose proof (forallb_elem _ _ l Hdeep (Hin l eq_refl)) as Hd. simpl in Hd.
  apply Nat.ltb_lt in Hd.
  rewrite walk_unchanged; [|lia|intros ? [= <-]; split; [by apply Hin|done]].
  simpl. f_equal.
  destruct ob as [props|elems].
  2: { unfold prop, truthy in Hsys. simpl in Hsys. by rewrite Hl in Hsys. }
  rewrite (Object_assign_obj h l props (VRef l) Hl). simpl. rewrite Hl.
  rewrite assign_props_self; [by apply list_insert_id|].
  unfold keys_distinct in Hkeys. rewrite forallb_forall in Hkeys.
  specialize (Hkeys (OObj props)). simpl in Hkeys.
  eapply bool_decide_eq_true_1, Hkeys, list_elem_of_In. by eapply list_elem_of_lookup_2.
Qed.
End Unchanged.


(** * The theorems at sample responses *)

(** C10 at a response whose second item has no [sys]. *)
Lemma sysless_item_kept_witness :
  let rps := [("items", JArr [JObj [("sys", jsys "Entry" "a"); ("fields", JObj [])];
                              JObj [("title", jstr "stray")]])] in
  let c := JObj [("title", jstr "stray")] in
  ∃ lo,
    rep (cloned (JObj rps)).2 lo c (val_at lo c) ∧
    (∀ es, entries_of (JObj rps) = Ok es → val_at lo c ∉ es) ∧
    (∀ em key, index_of 10 (JObj rps) = Ok em → em !! key ≠ Some (val_at lo c)) ∧
    match resolveResponse 10 (JObj rps) default_options with
    | Ok (r, hf) => follow hf r [KIdx 1] = Some (val_at lo c) ∧ rep hf lo c (val_at lo c)
    | Throw _ => True
    | OutOfFuel => False
    end.
Proof.
  intros rps c.
  apply (sysless_item_kept 10 rps
           [JObj [("sys", jsys "Entry" "a"); ("fields", JObj [])]; c] default_options 1 c).
  - vm_compute. reflexivity.
  - vm_compute. lia.
  - reflexivity.
  - reflexivity.
  - reflexivity.
Defined.



(** C7 at a record among the items and an included record, with pruning on:
    the link of the first is the second element of an array whose first
    element does not resolve. *)
Lemma mutual_links_witness :
  let A := JObj [("sys", jsys "Entry" "a");
                 ("fields", JObj [("refs", JArr [jlink "Entry" "gone"; jlink "Entry" "b"])])] in
  let B := JObj [("sys", jsys "Entry" "b"); ("fields", JObj [("a", jlink "Entry" "a")])] in
  let em := new_Map (pairs_of [(VRef 8, ["Entry!a"%string]); (VRef 14, ["Entry!b"%string])]) in
  match resolveResponse 10 across pruning with
  | Ok (r, hf) =>
      follow hf (VRef 8)
        (result_path (removeUnresolved pruning) 10 em A
           [KName "fields"; KName "refs"; KIdx 1]) = Some (VRef 14) ∧
      follow hf (VRef 14)
        (result_path (removeUnresolved pruning) 10 em B [KName "fields"; KName "a"])
        = Some (VRef 8) ∧
      (∀ i, [KName "items"; KIdx 0] = [KName "items"; KIdx i] →
            follow hf r [KIdx i] = Some (VRef 8)) ∧
      (∀ i, [KName "includes"; KName "Entry"; KIdx 0] = [KName "items"; KIdx i] →
            follow hf r [KIdx i] = Some (VRef 14))
  | Throw _ => True
  | OutOfFuel => False
  end.
Proof.
  intros A B em.
  apply (mutual_links_resolved 10 across pruning em 0 1
           [KName "items"; KIdx 0] [KName "includes"; KName "Entry"; KIdx 0]
           [("sys", jsys "Entry" "a");
            ("fields", JObj [("refs", JArr [jlink "Entry" "gone"; jlink "Entry" "b"])])]
           [("sys", jsys "Entry" "b"); ("fields", JObj [("a", jlink "Entry" "a")])]
           (VRef 8) (VRef 14)
           "fields" [KName "refs"; KIdx 1] "fields" [KName "a"]
           (jlink "Entry" "b") (jlink "Entry" "a") "Entry!a" "Entry!b").
  - vm_compute. reflexivity.
  - vm_compute. reflexivity.
  - vm_compute. lia.
  - vm_compute. reflexivity.
  - vm_compute. reflexivity.
  - vm_compute. reflexivity.
  - vm_compute. reflexivity.
  - vm_compute. reflexivity.
  - vm_compute. reflexivity.
  - vm_compute. reflexivity.
  - vm_compute. reflexivity.
  - vm_compute. reflexivity.
  - vm_compute. reflexivity.
  - vm_compute. reflexivity.
  - vm_compute. exact I.
  - vm_compute. reflexivity.
  - vm_compute. reflexivity.
  - vm_compute. reflexivity.
  - vm_compute. exact I.
  - vm_compute. reflexivity.
  - vm_compute. reflexivity.
  - vm_compute. reflexivity.
Defined.

(** C7 as stated fails. In [shadowed] the link of the first record leads to
    the third record, which has the identity of the second; with the entry
    point "sys" the links of [mutual_response], which are under "fields",
    stay links; in [wrapped] the link inside a link that does not resolve
    stays a link; over [with_null] the run throws. *)
Lemma mutual_links_counterexample :
  ¬ mutually_resolved 10 shadowed default_options
      [KName "items"; KIdx 0] [KName "items"; KIdx 1]
      [KName "fields"; KName "b"] [KName "fields"; KName "a"] ∧
  ¬ mutually_resolved 10 mutual_response sys_only
      [KName "items"; KIdx 0] [KName "items"; KIdx 1]
      [KName "fields"; KName "b"] [KName "fields"; KName "a"] ∧
  ¬ mutually_resolved 10 wrapped default_options
      [KName "items"; KIdx 0] [KName "items"; KIdx 1]
      [KName "fields"; KName "wrap"; KName "b"] [KName "fields"; KName "a"] ∧
  ¬ mutually_resolved 10 with_null default_options
      [KName "items"; KIdx 0] [KName "items"; KIdx 1]
      [KName "fields"; KName "b"] [KName "fields"; KName "a"].
Proof.
  split_and!; intros (r & hf & vA & vB & Hrun & HA & HB & H1 & H2);
    vm_compute in Hrun; try discriminate;
    injection Hrun as <- <-; vm_compute in HA, HB;
    injection HA as <-; injection HB as <-; vm_compute in H1; discriminate.
Qed.



(** * Further properties of the functions *)

(** ** [cleanUpLinks] *)

Lemma filter_not_marker (elems : list value) :
  filter (fun val => negb (is_marker val)) elems =
  filter (fun v => v ≠ VRef UNRESOLVED_LINK) elems.
Proof.
  induction elems as [|v vs IH]; [done|].
  rewrite !filter_cons, <- IH. unfold is_marker.
  destruct (decide (v ≠ VRef UNRESOLVED_LINK)) as [Hne|He].
  - by rewrite bool_decide_eq_false_2.
  - apply dec_stable in He. by rewrite bool_decide_eq_true_2.
Qed.

(** X1. On an array, [cleanUpLinks] allocates a new array that holds exactly
    the elements of the input that are not the marker, each as often as the
    input has it and in the order of the input. The input array and every
    other object are left as they are. *)
Theorem cleanUpLinks_array h l elems :
  h !! l = Some (OArr elems) →
  cleanUpLinks h (VRef l) =
    (VRef (length h), h ++ [OArr (filter (fun v => v ≠ VRef UNRESOLVED_LINK) elems)]) ∧
  ∀ l', l' < length h →
    (h ++ [OArr (filter (fun v => v ≠ VRef UNRESOLVED_LINK) elems)]) !! l' = h !! l'.
Proof.
  intros Hl. split.
  - unfold cleanUpLinks. rewrite Hl. by rewrite filter_not_marker.
  - intros l' Hl'. by apply lookup_app_l.
Qed.

(** X2. On an object, [cleanUpLinks] works in place: the properties that hold
    the marker are deleted, the others keep their values and their order, and
    no other object changes. *)
Theorem cleanUpLinks_object h l props :
  h !! l = Some (OObj props) →
  ∃ kept,
    cleanUpLinks h (VRef l) = (VRef l, <[l := OObj kept]> h) ∧
    sublist kept props ∧
    (∀ k, (k, VRef UNRESOLVED_LINK) ∉ kept) ∧
    (∀ k v, (k, v) ∈ props → v ≠ VRef UNRESOLVED_LINK → (k, v) ∈ kept) ∧
    (<[l := OObj kept]> h) !! l = Some (OObj kept) ∧
    ∀ l', l' ≠ l → (<[l := OObj kept]> h) !! l' = h !! l'.
Proof.
  intros Hl. exists (filter (fun kv => negb (is_marker kv.2)) props).
  unfold cleanUpLinks. rewrite Hl. split_and!.
  - done.
  - apply sublist_filter.
  - intros k Hin. apply list_elem_of_filter in Hin as [Hm _]. by vm_compute in Hm.
  - intros k v Hv Hne. apply list_elem_of_filter. split; [|done]. simpl.
    unfold is_marker. by rewrite bool_decide_eq_false_2.
  - apply list_lookup_insert_eq. by eapply lookup_lt_Some.
  - intros l' Hne. by apply list_lookup_insert_ne.
Qed.

Lemma cleanUpLinks_array_witness :
  let h := [OObj []; OObj [];
            OArr [VRef 1; VRef UNRESOLVED_LINK; VRef 1; VPrim (PNum 3); VRef UNRESOLVED_LINK]] in
  cleanUpLinks h (VRef 2) = (VRef 3, h ++ [OArr [VRef 1; VRef 1; VPrim (PNum 3)]]) ∧
  ∀ l', l' < 3 → (h ++ [OArr [VRef 1; VRef 1; VPrim (PNum 3)]]) !! l' = h !! l'.
Proof.
  intros h.
  apply (cleanUpLinks_array h 2
           [VRef 1; VRef UNRESOLVED_LINK; VRef 1; VPrim (PNum 3); VRef UNRESOLVED_LINK]).
  reflexivity.
Defined.

Lemma cleanUpLinks_object_witness :
  let h := [OObj []; OObj [("a", VRef UNRESOLVED_LINK); ("b", VPrim (PStr "x"))]] in
  h !! 1 = Some (OObj [("a", VRef UNRESOLVED_LINK); ("b", VPrim (PStr "x"))]) ∧
  ∃ kept,
    cleanUpLinks h (VRef 1) = (VRef 1, <[1 := OObj kept]> h) ∧
    sublist kept [("a", VRef UNRESOLVED_LINK); ("b", VPrim (PStr "x"))] ∧
    (∀ k, (k, VRef UNRESOLVED_LINK) ∉ kept) ∧
    (∀ k v, (k, v) ∈ [("a", VRef UNRESOLVED_LINK); ("b", VPrim (PStr "x"))] →
            v ≠ VRef UNRESOLVED_LINK → (k, v) ∈ kept) ∧
    (<[1 := OObj kept]> h) !! 1 = Some (OObj kept) ∧
    ∀ l', l' ≠ 1 → (<[1 := OObj kept]> h) !! l' = h !! l'.
Proof.
  intros h. split; [reflexivity|]. apply (cleanUpLinks_object h 1). reflexivity.
Defined.

(** ** [makeEntryObject] *)

(** X3. Given a list of entry points, [makeEntryObject] allocates a new object
    and changes no other: it has each name of the list that the record has,
    once, with the value the record holds under it; a name the record does
    not have is skipped. *)
Theorem makeEntryObject_projection h item ps names :
  h !! item = Some (OObj ps) →
  ∃ e,
    makeEntryObject h item (Some names) = (VRef (length h), h ++ [OObj e]) ∧
    NoDup e.*1 ∧
    (∀ k, assoc k e = if decide (k ∈ names) then assoc k ps else None) ∧
    ∀ l, l < length h → (h ++ [OObj e]) !! l = h !! l.
Proof.
  intros Hitem. exists (project ps names).
  destruct (project_spec ps names) as [Hnd Hassoc].
  split_and!; [by apply makeEntryObject_project|done|done|].
  intros l Hl. by apply lookup_app_l.
Qed.

Lemma makeEntryObject_projection_witness :
  let ps := [("sys", VRef 1); ("fields", VRef 2)] in
  let h := [OObj []; OObj []; OObj []; OObj ps] in
  h !! 3 = Some (OObj ps) ∧
  ∃ e,
    makeEntryObject h 3 (Some ["fields"; "absent"; "fields"])
      = (VRef (length h), h ++ [OObj e]) ∧
    NoDup e.*1 ∧
    (∀ k, assoc k e = if decide (k ∈ ["fields"; "absent"; "fields"])
                      then assoc k ps else None) ∧
    ∀ l, l < length h → (h ++ [OObj e]) !! l = h !! l.
Proof.
  intros ps h. split; [reflexivity|].
  apply (makeEntryObject_projection h 3 ps). reflexivity.
Defined.

(** ** [normalizeLink] *)

Lemma lookupInEntityMap_range {N} (R : Reader N) fuel em (d : linkData N) v :
  lookupInEntityMap R fuel em d = Ok v → v = VPrim PUndef ∨ ∃ k, em !! k = Some v.
Proof.
  unfold lookupInEntityMap. intros H.
  assert (Hd : ∀ k, default (VPrim PUndef) (em !! k) = v →
                    v = VPrim PUndef ∨ ∃ k, em !! k = Some v).
  { intros k Hk. destruct (em !! k) eqn:He; simpl in Hk; subst; eauto. }
  destruct (_ && _).
  - apply bind_Ok in H as (? & _ & H). apply bind_Ok in H as (? & _ & H).
    apply bind_Ok in H as (? & _ & H). apply bind_Ok in H as (? & _ & [= H]). eauto.
  - apply bind_Ok in H as (? & _ & H). apply bind_Ok in H as (? & _ & [= H]). eauto.
Qed.

Lemma or_unresolved_range (em : gmap string value) v :
  v = VPrim PUndef ∨ (∃ k, em !! k = Some v) →
  is_marker (or_unresolved v) = true ∨ ∃ k, em !! k = Some (or_unresolved v).
Proof.
  intros [->|[k Hk]]; [by left|].
  destruct v as [p|l]; simpl; [|eauto]. destruct (prim_truthy p); [eauto|by left].
Qed.

Lemma getResolvedLink_range {N} (R : Reader N) fuel em link r :
  getResolvedLink R fuel em link = Ok r →
  is_marker r = true ∨ ∃ k, em !! k = Some r.
Proof.
  unfold getResolvedLink. intros H.
  apply bind_Ok in H as (sys & _ & H). apply bind_Ok in H as (type & _ & H).
  destruct (is_str R type "ResourceLink").
  - destruct (getIdsFromUrn R _) as [i|]; [|simplify_eq; by left].
    apply bind_Ok in H as (? & _ & H). apply bind_Ok in H as (v & Hv & [= <-]).
    by eapply or_unresolved_range, lookupInEntityMap_range.
  - apply bind_Ok in H as (v & Hv & [= <-]).
    by eapply or_unresolved_range, lookupInEntityMap_range.
Qed.

(** X4. [normalizeLink] returns either what the link resolves to, a value of
    the index that is not the marker, or, when the link resolves to the
    marker, the marker with pruning on and the link itself with pruning
    off. *)
Theorem normalizeLink_range fuel em h link rm r :
  normalizeLink fuel em h link rm = Ok r →
  (getResolvedLink (heap_reader h) fuel em link = Ok r ∧
   r ≠ VRef UNRESOLVED_LINK ∧ ∃ k, em !! k = Some r) ∨
  (getResolvedLink (heap_reader h) fuel em link = Ok (VRef UNRESOLVED_LINK) ∧
   r = if rm then VRef UNRESOLVED_LINK else link).
Proof.
  unfold normalizeLink. intros H. apply bind_Ok in H as (r' & Hr' & H).
  destruct (is_marker r') eqn:Hm.
  - right. apply is_marker_true in Hm. subst. split; [done|]. simplify_eq. by destruct rm.
  - simplify_eq. left. split; [done|].
    assert (Hne : r ≠ VRef UNRESOLVED_LINK).
    { intros ->. by vm_compute in Hm. }
    split; [done|].
    destruct (getResolvedLink_range _ _ _ _ _ Hr') as [?|[k Hk]]; [congruence|eauto].
Qed.

Lemma normalizeLink_range_witness :
  let h := (cloned one_way).2 in
  let em : gmap string value := {["Entry!b" := VRef 10]} in
  (getResolvedLink (heap_reader h) 3 em (VRef 3) = Ok (VRef 10) ∧
   VRef 10 ≠ VRef UNRESOLVED_LINK ∧ ∃ k, em !! k = Some (VRef 10)) ∨
  (getResolvedLink (heap_reader h) 3 em (VRef 3) = Ok (VRef UNRESOLVED_LINK) ∧
   VRef 10 = if true then VRef UNRESOLVED_LINK else VRef 3).
Proof.
  intros h em. apply (normalizeLink_range 3 em h (VRef 3) true (VRef 10)).
  vm_compute. reflexivity.
Defined.

(** ** [getResolvedLink] *)

(** X5. A cross-scope link whose URN decodes and whose kind descriptor is not a
    string makes [getResolvedLink] throw, whatever the index holds: the
    descriptor is split before anything is looked up. *)
Theorem descriptor_not_a_string_throws {N} (R : Reader N) fuel em (link : N) i :
  isResourceLink R link = true →
  getIdsFromUrn R (prop R (prop R link "sys") "urn") = Some i →
  (∀ s, rview R (prop R (prop R link "sys") "linkType") ≠ VwPrim (PStr s)) →
  ∃ msg, getResolvedLink R fuel em link = Throw (TypeError msg).
Proof.
  intros (Hsys & Htype & Hrl)%isResourceLink_inv Hi Hns.
  unfold getResolvedLink. rewrite Hsys. simpl. rewrite Htype. simpl. rewrite Hrl, Hi.
  unfold split_second.
  destruct (rview R (prop R (prop R link "sys") "linkType")) as [[| |b|z|s]|ps|es] eqn:Hv;
    simpl; eauto.
  by destruct (Hns s).
Qed.

Lemma descriptor_not_a_string_throws_witness :
  let link := JObj [("sys", JObj [("type", jstr "ResourceLink");
                                  ("linkType", JPrim (PNum 7));
                                  ("urn", jstr "crn:contentful:::content:spaces/S/entries/E")])] in
  ∃ msg, getResolvedLink json_reader 0 ∅ link = Throw (TypeError msg).
Proof.
  intros link.
  apply (descriptor_not_a_string_throws json_reader 0 ∅ link
           {| ids_spaceId := "S"; ids_environmentId := "master"; ids_entryId := "E" |}).
  - reflexivity.
  - vm_compute. reflexivity.
  - intros s. vm_compute. discriminate.
Defined.

(** ** [walkMutate] *)

(** X6. [walkMutate] works in place: run on the clone of a tree that was
    allocated on top of a store [h], it ends (with enough fuel), leaves every
    object of [h] as it was and drops none of the store; and unless the tree
    is itself a link, or an array walked with [removeUnresolved], what it
    returns is the very reference it was given. *)
Theorem walk_in_place fw fuel em rm h t :
  wf t = true → depth t < fw → depth t < fuel →
  match walkMutate fw the_predicate (the_mutator em rm fuel) rm (copy t h).2 (copy t h).1 with
  | Ok (v', h') =>
      length (copy t h).2 ≤ length h' ∧
      (∀ l, l < length h → h' !! l = h !! l) ∧
      (keeps_ref rm t = true → v' = (copy t h).1)
  | Throw _ => True
  | OutOfFuel => False
  end.
Proof.
  intros Hwf Hfw Hfuel.
  destruct (copy_spec t h) as (v & sg & Hc & Hlen & Hrep).
  rewrite Hc. simpl. specialize (Hrep []). rewrite app_nil_r in Hrep.
  pose proof (walk_spec em rm fuel fw t (length h) v (h ++ sg) Hfw Hfuel Hwf Hrep) as Hpost.
  unfold walk_post in Hpost.
  destruct (walkMutate fw _ _ rm (h ++ sg) v) as [[v' h']| |]; [|done..].
  destruct Hpost as (_ & [Hl Hfr] & Hkeep). split_and!; [done| |done].
  intros l Hlt. rewrite Hfr.
  - by apply lookup_app_l.
  - rewrite length_app. lia.
  - unfold seg. lia.
Qed.

Lemma walk_in_place_witness :
  let t := JObj [("sys", jsys "Entry" "a");
                 ("fields", JObj [("b", jlink "Entry" "b"); ("n", JPrim (PNum 1))])] in
  let h := initial_heap ++ [OObj [("kept", VPrim (PBool true))]] in
  match walkMutate 8 the_predicate (the_mutator ∅ true 8) true (copy t h).2 (copy t h).1 with
  | Ok (v', h') =>
      length (copy t h).2 ≤ length h' ∧
      (∀ l, l < length h → h' !! l = h !! l) ∧
      (keeps_ref true t = true → v' = (copy t h).1)
  | Throw _ => True
  | OutOfFuel => False
  end.
Proof.
  intros t h. apply (walk_in_place 8 8 ∅ true h t).
  - vm_compute. reflexivity.
  - vm_compute. lia.
  - vm_compute. lia.
Defined.

(** * Further properties of a run *)

Lemma items_truthy rps its :
  assoc "items" rps = Some (JArr its) →
  truthy json_reader (prop json_reader (JObj rps) "items") = true.
Proof. intros H. unfold prop. simpl. by rewrite H. Qed.

(** X7. A response without [items] (or with a falsy one) gives a new empty
    array, whatever the stack and the options, and nothing else is allocated;
    a response that is [null] or [undefined] makes the run throw. *)
Theorem missing_items_yields_empty fuel response o :
  truthy json_reader (prop json_reader response "items") = false →
  if nullish json_reader response
  then ∃ msg, resolveResponse fuel response o = Throw (TypeError msg)
  else resolveResponse fuel response o
       = Ok (VRef (length initial_heap), initial_heap ++ [OArr []]).
Proof.
  intros Hitems. unfold resolveResponse, get.
  destruct (nullish json_reader response); [by eauto|]. simpl. by rewrite Hitems.
Qed.

Lemma missing_items_yields_empty_witness :
  let response := JObj [("includes", JObj [("Entry", JArr [JObj [("sys", jsys "Entry" "a")]])])] in
  truthy json_reader (prop json_reader response "items") = false ∧
  resolveResponse 0 response pruning
  = Ok (VRef (length initial_heap), initial_heap ++ [OArr []]).
Proof.
  intros response. split; [reflexivity|].
  apply (missing_items_yields_empty 0 response pruning). reflexivity.
Defined.

Lemma filterR_throws {A} (f : A → result bool) (P : exn → Prop) xs x e :
  (∀ y, f y ≠ OutOfFuel) → (∀ y e', f y = Throw e' → P e') →
  x ∈ xs → f x = Throw e → ∃ e', filterR f xs = Throw e' ∧ P e'.
Proof.
  intros Hf HP Hx Hthrow. induction xs as [|y ys IH]; [by apply elem_of_nil in Hx|].
  simpl. destruct (f y) as [b|e1|] eqn:Hy; simpl; [|by eauto|by destruct (Hf y)].
  apply elem_of_cons in Hx as [->|Hx]; [congruence|].
  destruct (IH Hx) as (e' & -> & He'). simpl. eauto.
Qed.

Lemma has_sys_fuel y : has_sys y ≠ OutOfFuel.
Proof. unfold has_sys, get. by destruct (nullish json_reader y.2). Qed.

Lemma has_sys_throws y e : has_sys y = Throw e → ∃ msg, e = TypeError msg.
Proof.
  unfold has_sys, get. destruct (nullish json_reader y.2); simpl; [|done].
  intros [= <-]. eauto.
Qed.

(** X8. An element of [items] that is null or undefined makes the run throw:
    its [sys] is read when the entries are collected. *)
Theorem nullish_item_throws fuel rps its o i c :
  wf (JObj rps) = true → assoc "items" rps = Some (JArr its) →
  its !! i = Some c → nullish json_reader c = true →
  ∃ msg, resolveResponse fuel (JObj rps) o = Throw (TypeError msg).
Proof.
  intros Hwf Hitems Hi Hnull.
  pose proof (items_truthy _ _ Hitems) as Htr.
  unfold resolveResponse, get.
  change (nullish json_reader (JObj rps)) with false.
  cbn [mbind result_bind]. rewrite Htr. cbn [negb].
  pose proof (cloned_rep (JObj rps)) as Hrep. unfold cloned in Hrep.
  destruct (copy (JObj rps) initial_heap) as [clone h]. simpl in Hrep.
  unfold resolveCloned.
  rewrite (allEntries_of_layout h (at_origin (JObj rps)) clone Hrep Hwf).
  destruct (jprop_at_spec h (at_origin (JObj rps)) clone "items" Hrep Hwf)
    as (_ & Hy & _).
  set (y := jprop_at (at_origin (JObj rps)) "items") in *.
  assert (Hy2 : y.2 = JArr its).
  { rewrite <- Hy. simpl. unfold prop. simpl. by rewrite Hitems. }
  unfold jentries, jcandidates. fold y. unfold jspread. rewrite Hy2.
  cbn [mbind result_bind].
  destruct (filterR_throws has_sys (fun e => ∃ msg, e = TypeError msg)
              (jvalues y ++ jflat (if truthy json_reader (jprop_at (at_origin (JObj rps)) "includes").2
                                   then jvalues (jprop_at (at_origin (JObj rps)) "includes") else []))
              (child_pos y.1 its i, c)
              (TypeError "Cannot read properties of undefined (reading 'sys')"))
    as (e' & He' & msg & ->).
  - apply has_sys_fuel.
  - apply has_sys_throws.
  - apply elem_of_app. left. unfold jvalues. rewrite Hy2. simpl.
    apply list_elem_of_lookup. exists i. by rewrite list_lookup_imap, Hi.
  - unfold has_sys, get. simpl. by rewrite Hnull.
  - rewrite He'. simpl. eauto.
Qed.

Lemma nullish_item_throws_witness :
  let rps := [("items", JArr [JObj [("sys", jsys "Entry" "a")]; JPrim PNull])] in
  ∃ msg, resolveResponse 0 (JObj rps) default_options = Throw (TypeError msg).
Proof.
  intros rps.
  apply (nullish_item_throws 0 rps [JObj [("sys", jsys "Entry" "a")]; JPrim PNull]
           default_options 1 (JPrim PNull)).
  - vm_compute. reflexivity.
  - reflexivity.
  - reflexivity.
  - reflexivity.
Defined.

(** X9. A run ends. The walker does not descend into the record a link was
    replaced by, so its recursion is no deeper than the response is nested,
    also when records link to each other: with a stack deeper than the
    response, the run returns or throws. *)
Theorem resolveResponse_terminates fuel response o :
  wf response = true → depth response < fuel →
  resolveResponse fuel response o ≠ OutOfFuel.
Proof.
  intros Hwf Hd.
  destruct (truthy json_reader (prop json_reader response "items")) eqn:Hitems.
  - pose proof (resolveResponse_spec fuel response o Hwf Hd Hitems) as Hspec.
    by destruct (resolveResponse fuel response o) as [[r hf]| |].
  - unfold resolveResponse, get.
    destruct (nullish json_reader response); [done|]. simpl. by rewrite Hitems.
Qed.

Lemma resolveResponse_terminates_witness :
  wf mutual_response = true ∧ depth mutual_response < 8 ∧
  resolveResponse 8 mutual_response pruning ≠ OutOfFuel.
Proof.
  assert (Hwf : wf mutual_response = true) by (vm_compute; reflexivity).
  assert (Hd : depth mutual_response < 8) by (vm_compute; lia).
  split; [exact Hwf|]. split; [exact Hd|].
  exact (resolveResponse_terminates 8 mutual_response pruning Hwf Hd).
Defined.

(** X10. A run never writes to the marker: it is the empty object it was
    created as. *)
Theorem marker_stays_empty fuel response o :
  wf response = true → depth response < fuel →
  match resolveResponse fuel response o with
  | Ok (r, hf) => hf !! UNRESOLVED_LINK = Some (OObj [])
  | Throw _ => True
  | OutOfFuel => False
  end.
Proof.
  intros Hwf Hd.
  destruct (truthy json_reader (prop json_reader response "items")) eqn:Hitems.
  - pose proof (resolveResponse_spec fuel response o Hwf Hd Hitems) as Hspec.
    destruct (resolveResponse fuel response o) as [[r hf]| |]; [|done..].
    destruct Hspec as (xs & em & Hxs & _ & _ & [Hlen Hfr] & _).
    pose proof (cloned_rep response) as Hrep.
    destruct (jentries_spec _ (at_origin response) _ xs Hrep Hwf Hxs) as (_ & _ & Hin & _).
    rewrite Hfr.
    + unfold cloned. destruct (copy_spec response initial_heap) as (v & sg & -> & _).
      reflexivity.
    + unfold cloned. destruct (copy_spec response initial_heap) as (v & sg & -> & _).
      simpl. unfold UNRESOLVED_LINK. lia.
    + intros (y & Hy & Hs). destruct (Hin y _ Hy Hs) as [[Hx _] _].
      unfold lseg, seg, at_origin in Hx. simpl in Hx. unfold UNRESOLVED_LINK in Hx. lia.
  - unfold resolveResponse, get.
    destruct (nullish json_reader response); [done|]. simpl. by rewrite Hitems.
Qed.

Lemma marker_stays_empty_witness :
  wf top_level_link = true ∧ depth top_level_link < 8 ∧
  match resolveResponse 8 top_level_link pruning with
  | Ok (r, hf) => hf !! UNRESOLVED_LINK = Some (OObj [])
  | Throw _ => True
  | OutOfFuel => False
  end.
Proof.
  assert (Hwf : wf top_level_link = true) by (vm_compute; reflexivity).
  assert (Hd : depth top_level_link < 8) by (vm_compute; lia).
  split; [exact Hwf|]. split; [exact Hd|].
  exact (marker_stays_empty 8 top_level_link pruning Hwf Hd).
Defined.

Lemma rep_prop_follow h lo ps v k c :
  rep h lo (JObj ps) v → assoc k ps = Some c →
  follow h v [KName k] = Some (prop (heap_reader h) v k).
Proof.
  intros Hrep Hk. inversion Hrep as [|? ? vs Hn Hlen Hch Hroot]; subst.
  simpl in Hroot, Hlen. rewrite length_fmap in Hlen.
  assert (is_Some (assoc k (zip ps.*1 vs))) as [w Hw].
  { destruct (assoc k (zip ps.*1 vs)) eqn:Ha; [eauto|].
    apply assoc_None in Ha. rewrite fst_zip in Ha by (rewrite length_fmap; lia).
    exfalso. apply Ha. apply assoc_lookup in Hk as [i Hi].
    apply list_elem_of_fmap. exists (k, c). split; [done|].
    by eapply list_elem_of_lookup_2. }
  simpl. rewrite (has_own_obj _ _ _ _ Hroot), (get_own_obj _ _ _ _ _ Hroot Hw), Hw.
  rewrite bool_decide_eq_true_2 by eauto. unfold prop. simpl. by rewrite Hroot, Hw.
Qed.

(** X11. A run returns the items array of the clone: it has as many elements as
    the items of the response, and its [k]-th element is what the [k]-th item
    was cloned into. No item is added, dropped, replaced or moved, whatever the
    options. *)
Theorem returned_items_in_place fuel rps its o :
  wf (JObj rps) = true → depth (JObj rps) < fuel →
  assoc "items" rps = Some (JArr its) →
  match resolveResponse fuel (JObj rps) o with
  | Ok (r, hf) =>
      follow (cloned (JObj rps)).2 (cloned (JObj rps)).1 [KName "items"] = Some r ∧
      ∃ l vs, r = VRef l ∧ hf !! l = Some (OArr vs) ∧ length vs = length its ∧
        ∀ k, k < length its →
          follow (cloned (JObj rps)).2 (cloned (JObj rps)).1 [KName "items"; KIdx k]
            = vs !! k
  | Throw _ => True
  | OutOfFuel => False
  end.
Proof.
  intros Hwf Hd Hitems.
  pose proof (resolveResponse_spec fuel (JObj rps) o Hwf Hd (items_truthy _ _ Hitems))
    as Hspec.
  destruct (resolveResponse fuel (JObj rps) o) as [[r hf]| |]; [|done..].
  destruct (items_kept fuel o rps its r hf Hwf Hitems Hspec) as [Hr Hl].
  pose proof (items_tree rps its Hwf Hitems) as Hxi.
  set (xi := jprop_at (at_origin (JObj rps)) "items") in *.
  assert (Hjv : jvalues xi = imap (fun i c => (child_pos xi.1 its i, c)) its).
  { unfold jvalues. by rewrite Hxi. }
  assert (Hk : ∀ k, k < length its →
            follow (cloned (JObj rps)).2 (cloned (JObj rps)).1 [KName "items"; KIdx k]
              = (lval <$> jvalues xi) !! k).
  { intros k Hlt. destruct (lookup_lt_is_Some_2 its k Hlt) as [c Hc].
    rewrite (follow_clone_item rps its Hwf Hitems k c Hc).
    rewrite list_lookup_fmap, Hjv, list_lookup_imap, Hc. reflexivity. }
  split.
  - pose proof (cloned_rep (JObj rps)) as Hrep.
    destruct (jprop_at_spec _ (at_origin (JObj rps)) _ "items" Hrep Hwf) as (Hv & _).
    fold xi in Hv. rewrite Hr, <- (lval_node xi) by (by rewrite Hxi). rewrite <- Hv.
    by apply (rep_prop_follow _ _ _ _ _ _ Hrep Hitems).
  - exists (node_loc xi), (lval <$> jvalues xi). split_and!; [done..| |done].
    by rewrite length_fmap, Hjv, length_imap.
Qed.

Lemma returned_items_in_place_witness :
  let rps := [("items", JArr [JObj [("sys", jsys "Entry" "a");
                                    ("fields", JObj [("b", jlink "Asset" "b")])]]);
              ("includes", JObj [("Asset", JArr [JObj [("sys", jsys "Asset" "b")]])])] in
  let its := [JObj [("sys", jsys "Entry" "a"); ("fields", JObj [("b", jlink "Asset" "b")])]] in
  match resolveResponse 8 (JObj rps) pruning with
  | Ok (r, hf) =>
      follow (cloned (JObj rps)).2 (cloned (JObj rps)).1 [KName "items"] = Some r ∧
      ∃ l vs, r = VRef l ∧ hf !! l = Some (OArr vs) ∧ length vs = length its ∧
        ∀ k, k < length its →
          follow (cloned (JObj rps)).2 (cloned (JObj rps)).1 [KName "items"; KIdx k]
            = vs !! k
  | Throw _ => True
  | OutOfFuel => False
  end.
Proof.
  intros rps its. apply (returned_items_in_place 8 rps its pruning).
  - vm_compute. reflexivity.
  - vm_compute. lia.
  - reflexivity.
Defined.

Lemma resolve_item_no_points fuel em o h item :
  itemEntryPoints o = Some [] → 0 < fuel →
  ∃ ext, resolve_item fuel em o h item = Ok (h ++ ext).
Proof.
  intros Ho Hfuel. destruct item as [p|l].
  { exists []. by rewrite app_nil_r. }
  exists [OObj []]. unfold resolve_item, makeEntryObject. rewrite Ho. cbn [foldl].
  destruct fuel as [|f]; [lia|].
  assert (Hnew : (h ++ [OObj []]) !! length h = Some (OObj [])).
  { by apply list_lookup_middle. }
  assert (Hp : the_predicate (h ++ [OObj []]) (VRef (length h)) = false).
  { unfold the_predicate, isLink, isResourceLink, get_opt, nullish, prop, is_str. simpl.
    by rewrite Hnew. }
  cbn [walkMutate]. rewrite Hp. unfold own_keys. rewrite Hnew. cbn [fmap list_fmap foldR].
  assert (Hw : (if removeUnresolved o
                then Ok (cleanUpLinks (h ++ [OObj []]) (VRef (length h)))
                else Ok (VRef (length h), h ++ [OObj []]))
               = Ok (VRef (length h), h ++ [OObj []])).
  { destruct (removeUnresolved o); [|done]. unfold cleanUpLinks. rewrite Hnew. simpl.
    by rewrite list_insert_id. }
  cbn [mbind result_bind]. rewrite Hw. simpl. unfold Object_assign, own_entries.
  by rewrite Hnew.
Qed.

Lemma foldR_extends {A} (f : heap → A → result heap) xs : ∀ h,
  (∀ h x, ∃ ext, f h x = Ok (h ++ ext)) → ∃ ext, foldR f h xs = Ok (h ++ ext).
Proof.
  induction xs as [|x xs IH]; intros h Hf; simpl.
  - exists []. by rewrite app_nil_r.
  - destruct (Hf h x) as [e1 ->]. simpl. destruct (IH (h ++ e1) Hf) as [e2 ->].
    exists (e1 ++ e2). by rewrite app_assoc.
Qed.

(** X12. With an empty list of entry points a run resolves nothing: it returns
    the items of the clone, and every object of the clone is as it was
    cloned. No link is resolved and none is removed, whatever
    [removeUnresolved] says. *)
Theorem no_entry_points_nothing_resolved fuel t o :
  itemEntryPoints o = Some [] →
  wf t = true → depth t < fuel →
  truthy json_reader (prop json_reader t "items") = true →
  match resolveResponse fuel t o with
  | Ok (r, hf) =>
      r = prop (heap_reader (cloned t).2) (cloned t).1 "items" ∧
      ∀ l, l < length (cloned t).2 → hf !! l = (cloned t).2 !! l
  | Throw _ => True
  | OutOfFuel => False
  end.
Proof.
  intros Ho Hwf Hd Hitems.
  pose proof (resolveResponse_spec fuel t o Hwf Hd Hitems) as Hrun.
  destruct (resolveResponse fuel t o) as [[r hf]| |] eqn:Hres; [|done..].
  clear Hrun. unfold resolveResponse, get in Hres.
  destruct (nullish json_reader t); [done|].
  cbn [mbind result_bind] in Hres. rewrite Hitems in Hres. cbn [negb] in Hres.
  pose proof (cloned_rep t) as Hrep. unfold cloned in *.
  destruct (copy t initial_heap) as [v h0]. simpl in *.
  unfold resolveCloned in Hres.
  apply bind_Ok in Hres as (es & _ & (em & _ & (h' & Hfold & [= <- <-])%bind_Ok)%bind_Ok).
  destruct (foldR_extends (resolve_item fuel em o) es h0) as [ext Hext].
  { intros h x. apply resolve_item_no_points; [done|lia]. }
  rewrite Hext in Hfold. injection Hfold as <-.
  assert (Hl : ∀ l, l < length h0 → (h0 ++ ext) !! l = h0 !! l).
  { intros l Hlt. by apply lookup_app_l. }
  split; [|done].
  unfold prop. simpl. inversion Hrep as [? p|? ? vs Hn Hlen Hch Hlk]; subst; [done|].
  rewrite Hl; [done|]. by apply lookup_lt_Some in Hlk.
Qed.

Lemma no_entry_points_nothing_resolved_witness :
  let o := {| removeUnresolved := true; itemEntryPoints := Some [] |} in
  match resolveResponse 8 top_level_link o with
  | Ok (r, hf) =>
      r = prop (heap_reader (cloned top_level_link).2) (cloned top_level_link).1 "items" ∧
      ∀ l, l < length (cloned top_level_link).2 → hf !! l = (cloned top_level_link).2 !! l
  | Throw _ => True
  | OutOfFuel => False
  end.
Proof.
  intros o. apply (no_entry_points_nothing_resolved 8 top_level_link o).
  - reflexivity.
  - vm_compute. reflexivity.
  - vm_compute. lia.
  - reflexivity.
Defined.

(** * Links at the end of a path *)

Lemma jpred_arr es : jpred (JArr es) = false.
Proof. reflexivity. Qed.

Section PathsTo.
Context (em : gmap string value) (rm : bool) (fuel : nat).
Context (hf : heap) (D : loc → Prop).
Hypothesis HD : ∀ l, D l → l ≠ UNRESOLVED_LINK.

(** The walk gets to the end of an exposed path, unless pruning takes the
    path away. *)
Lemma walked_follow p : ∀ t w c,
  walked em rm fuel hf D t w → wf t = true →
  exposed t p = true → jfollow t p = Some c →
  rm = false ∨
    (forallb is_name p = true ∧
     (jpred c = true →
      getResolvedLink json_reader fuel em c ≠ Ok (VRef UNRESOLVED_LINK))) →
  ∃ w', follow hf w p = Some w' ∧ walked em rm fuel hf D c w'.
Proof.
  induction p as [|k p IH]; intros t w c Hw Hwf Hex Hf Hrm.
  - simpl in Hf. simplify_eq. exists w. by split.
  - cbn [exposed jfollow] in Hex, Hf.
    apply andb_true_iff in Hex as [Hnp Hex]. apply negb_true_iff in Hnp.
    destruct (jstep t k) as [c1|] eqn:Hs; [|done].
    destruct (wf_children t Hwf) as [Hkeys Hwfc].
    destruct (walked_step em rm fuel hf D t w k c1 Hw Hnp Hkeys Hs)
      as (l & i & wi & ws & -> & Hl & Hlen & Hc1 & Hk & Hwi & Hwalk).
    assert (Hwfc1 : wf c1 = true) by (apply Hwfc; by eapply list_elem_of_lookup_2).
    assert (Hrm' : rm = false ∨
              (forallb is_name p = true ∧
               (jpred c = true →
                getResolvedLink json_reader fuel em c ≠ Ok (VRef UNRESOLVED_LINK)))).
    { destruct Hrm as [?|[Hn ?]]; [by left|]. simpl in Hn.
      apply andb_true_iff in Hn as [_ ?]. by right. }
    destruct (IH c1 wi c Hwalk Hwfc1 Hex Hf Hrm') as (w' & Hfw & Hw').
    exists w'. split; [|done].
    destruct rm eqn:Hrmv.
    + destruct Hrm as [?|[Hn Hc]]; [done|]. simpl in Hn.
      apply andb_true_iff in Hn as [Hk' _].
      assert (Hwim : is_marker wi = false).
      { destruct (is_marker wi) eqn:Hmi; [|done].
        destruct (walked_marker em _ fuel hf D HD c1 wi Hwalk Hmi) as (_ & Hp1 & Hr1).
        destruct p as [|k' p'].
        - simpl in Hf. simplify_eq. by destruct (Hc Hp1).
        - simpl in Hex. apply andb_true_iff in Hex as [Hnp1 _]. by rewrite Hp1 in Hnp1. }
      destruct k as [s|]; [|done]. destruct t as [|es|ps]; try done.
      simpl in Hl, Hk, Hkeys, Hlen.
      destruct (prune_props_NoDup true ps.*1 ws Hkeys) as (pf & Hpf & _).
      { by rewrite Hlen, !length_fmap. }
      assert (Hks : ps.*1 !! i = Some s).
      { rewrite list_lookup_fmap in Hk. destruct (ps.*1 !! i); simpl in Hk; by simplify_eq. }
      pose proof (prune_assoc true ps.*1 ws pf i s wi Hkeys Hpf Hks Hwi) as Ha.
      rewrite Hwim in Ha. simpl in Ha. simpl in Hpf. rewrite Hpf in Hl.
      by rewrite (follow_obj hf l pf s wi p Hl Ha).
    + simpl in Hl. change (follow hf (VRef l) (k :: p)) with
        (if has_own hf l k then follow hf (get_own hf l k) p else None).
      destruct (is_node t) eqn:Hn; [|by destruct t].
      rewrite (has_own_node hf l t ws Hn Hkeys Hlen Hl i k Hk).
      by rewrite (get_own_node hf l t ws Hn Hkeys Hlen Hl i k wi Hk Hwi).
Qed.
End PathsTo.

Section ItemPaths.
Context (fuel : nat) (o : options) (rps : list (string * json)) (its : list json).
Context (r : value) (hf : heap).
Hypothesis Hwf : wf (JObj rps) = true.
Hypothesis Hitems : assoc "items" rps = Some (JArr its).
Hypothesis Hrun : run_post fuel o (at_origin (JObj rps)) (cloned (JObj rps)).2
                    (cloned (JObj rps)).1 r hf.

Lemma item_path_walked i ps k p c em :
  its !! i = Some (JObj ps) →
  truthy json_reader (prop json_reader (JObj ps) "sys") = true →
  index_of fuel (JObj rps) = Ok em →
  field_walked o k → exposed (JObj ps) (KName k :: p) = true →
  jfollow (JObj ps) (KName k :: p) = Some c →
  removeUnresolved o = false ∨
    (forallb is_name p = true ∧
     (jpred c = true →
      getResolvedLink json_reader fuel em c ≠ Ok (VRef UNRESOLVED_LINK))) →
  ∃ D w', (∀ l, D l → l ≠ UNRESOLVED_LINK) ∧
    follow hf r (KIdx i :: KName k :: p) = Some w' ∧
    walked em (removeUnresolved o) fuel hf D c w'.
Proof.
  intros Hi Hsys Hem Hw Hex Hf Hrm.
  assert (Hp : jpred (JObj ps) = false).
  { cbn [exposed] in Hex. apply andb_true_iff in Hex as [Hnp _].
    by apply negb_true_iff in Hnp. }
  destruct (item_entry_post fuel o rps its r hf Hwf Hitems Hrun i ps Hi Hsys Hp)
    as (em' & D & Hem' & (pf & Hpf & Hkeys & Hfields) & HD & Hfol).
  assert (em' = em) as -> by congruence.
  exists D.
  cbn [exposed jfollow jstep] in Hex, Hf.
  apply andb_true_iff in Hex as [_ Hex].
  destruct (assoc k ps) as [d|] eqn:Hd'; [|done].
  destruct (assoc_lookup _ _ _ Hd') as [j Hj].
  specialize (Hfields j k d Hj). simpl in Hfields.
  rewrite decide_True in Hfields by done.
  destruct Hfields as (w & Hwalk & Ha).
  assert (Hwfd : wf d = true).
  { assert (Hwfi : wf (JObj ps) = true).
    { apply (wf_children (JArr its)).
      - apply (wf_children (JObj rps) Hwf). simpl.
        apply list_elem_of_fmap. exists ("items", JArr its). split; [done|].
        apply assoc_lookup in Hitems as [n Hn]. by eapply list_elem_of_lookup_2.
      - simpl. by eapply list_elem_of_lookup_2. }
    apply (wf_children _ Hwfi). simpl. apply list_elem_of_fmap. exists (k, d).
    split; [done|]. by eapply list_elem_of_lookup_2. }
  destruct (walked_follow em _ fuel hf D HD p d w c Hwalk Hwfd Hex Hf Hrm)
    as (w' & Hfw & Hw').
  exists w'. split_and!; [done| |done].
  assert (Hwm : is_marker w && removeUnresolved o = false).
  { destruct (is_marker w) eqn:Hmw; [|done]. simpl.
    destruct (walked_marker em _ fuel hf D HD d w Hwalk Hmw) as (Hrmt & Hp1 & Hr1).
    destruct Hrm as [?|[_ Hc]]; [congruence|].
    destruct p as [|k' p'].
    - simpl in Hf. simplify_eq. by destruct (Hc Hp1).
    - simpl in Hex. apply andb_true_iff in Hex as [Hnp1 _]. by rewrite Hp1 in Hnp1. }
  rewrite Hwm in Ha.
  change (KIdx i :: KName k :: p) with ([KIdx i] ++ KName k :: p).
  rewrite (follow_app _ _ _ _ _ Hfol).
  by rewrite (follow_obj hf _ pf k w p Hpf Ha).
Qed.
End ItemPaths.

(** X13. A link that resolves, at the end of an exposed path through a field of
    an item that takes part, is replaced by the value of the index it resolves
    to. *)
Theorem exposed_link_resolved fuel rps its o em i ps k p link v :
  wf (JObj rps) = true → depth (JObj rps) < fuel →
  assoc "items" rps = Some (JArr its) → its !! i = Some (JObj ps) →
  truthy json_reader (prop json_reader (JObj ps) "sys") = true →
  index_of fuel (JObj rps) = Ok em →
  field_walked o k → exposed (JObj ps) (KName k :: p) = true →
  jfollow (JObj ps) (KName k :: p) = Some link → jpred link = true →
  getResolvedLink json_reader fuel em link = Ok v → is_marker v = false →
  removeUnresolved o = false ∨ forallb is_name p = true →
  match resolveResponse fuel (JObj rps) o with
  | Ok (r, hf) => follow hf r (KIdx i :: KName k :: p) = Some v
  | Throw _ => True
  | OutOfFuel => False
  end.
Proof.
  intros Hwf Hd Hitems Hi Hsys Hem Hw Hex Hf Hp Hr Hm Hrm.
  pose proof (resolveResponse_spec fuel (JObj rps) o Hwf Hd (items_truthy _ _ Hitems))
    as Hrun.
  destruct (resolveResponse fuel (JObj rps) o) as [[r hf]| |]; [|done..].
  destruct (item_path_walked fuel o rps its r hf Hwf Hitems Hrun i ps k p link em
              Hi Hsys Hem Hw Hex Hf) as (D & w' & HD & Hfol & Hwalk).
  { destruct Hrm as [?|?]; [by left|right]. split; [done|]. intros _ Heq.
    rewrite Hr in Heq. by simplify_eq. }
  rewrite Hfol. f_equal.
  inversion Hwalk as [? ? _ Hr' _|? lo ? _ Hr' _ _ _|q|? ws l Hp' _ _ _ _ _]; subst.
  - congruence.
  - rewrite Hr in Hr'. by simplify_eq.
  - by rewrite jpred_prim in Hp.
  - congruence.
Qed.

Lemma exposed_link_resolved_witness :
  let ps := [("sys", jsys "Entry" "a"); ("fields", JObj [("b", jlink "Asset" "b")])] in
  let rps := [("items", JArr [JObj ps]);
              ("includes", JObj [("Asset", JArr [JObj [("sys", jsys "Asset" "b")]])])] in
  match resolveResponse 8 (JObj rps) pruning with
  | Ok (r, hf) => follow hf r [KIdx 0; KName "fields"; KName "b"] = Some (VRef 8)
  | Throw _ => True
  | OutOfFuel => False
  end.
Proof.
  intros ps rps.
  apply (exposed_link_resolved 8 rps [JObj ps] pruning
           (new_Map (pairs_of [(VRef 5, ["Entry!a"]); (VRef 8, ["Asset!b"])]))
           0 ps "fields" [KName "b"] (jlink "Asset" "b") (VRef 8)).
  - vm_compute. reflexivity.
  - vm_compute. lia.
  - reflexivity.
  - reflexivity.
  - reflexivity.
  - vm_compute. reflexivity.
  - vm_compute. exact I.
  - reflexivity.
  - reflexivity.
  - reflexivity.
  - vm_compute. reflexivity.
  - reflexivity.
  - right. reflexivity.
Defined.

(** X14. With pruning off, a link that does not resolve, at the end of an
    exposed path through a field of an item that takes part, is left where it
    is: the path leads to a clone of the link, untouched. *)
Theorem unresolved_link_kept fuel rps its o em i ps k p link :
  wf (JObj rps) = true → depth (JObj rps) < fuel →
  assoc "items" rps = Some (JArr its) → its !! i = Some (JObj ps) →
  truthy json_reader (prop json_reader (JObj ps) "sys") = true →
  index_of fuel (JObj rps) = Ok em →
  field_walked o k → exposed (JObj ps) (KName k :: p) = true →
  jfollow (JObj ps) (KName k :: p) = Some link → jpred link = true →
  getResolvedLink json_reader fuel em link = Ok (VRef UNRESOLVED_LINK) →
  removeUnresolved o = false →
  match resolveResponse fuel (JObj rps) o with
  | Ok (r, hf) =>
      ∃ lo, follow hf r (KIdx i :: KName k :: p) = Some (val_at lo link) ∧
            rep hf lo link (val_at lo link)
  | Throw _ => True
  | OutOfFuel => False
  end.
Proof.
  intros Hwf Hd Hitems Hi Hsys Hem Hw Hex Hf Hp Hr Hrm.
  pose proof (resolveResponse_spec fuel (JObj rps) o Hwf Hd (items_truthy _ _ Hitems))
    as Hrun.
  destruct (resolveResponse fuel (JObj rps) o) as [[r hf]| |]; [|done..].
  destruct (item_path_walked fuel o rps its r hf Hwf Hitems Hrun i ps k p link em
              Hi Hsys Hem Hw Hex Hf (or_introl Hrm)) as (D & w' & HD & Hfol & Hwalk).
  rewrite Hrm in Hwalk.
  inversion Hwalk as [? ? _ Hr' Hor|? lo ? _ Hr' _ Hrep _|q|? ws l Hp' _ _ _ _ _]; subst.
  - rewrite Hr in Hr'. simplify_eq. by destruct Hor.
  - exists lo. by rewrite <- (rep_val_at _ _ _ _ Hrep).
  - by rewrite jpred_prim in Hp.
  - congruence.
Qed.

Lemma unresolved_link_kept_witness :
  let ps := [("sys", jsys "Entry" "a"); ("fields", JObj [("b", jlink "Entry" "gone")])] in
  let rps := [("items", JArr [JObj ps])] in
  match resolveResponse 8 (JObj rps) default_options with
  | Ok (r, hf) =>
      ∃ lo, follow hf r [KIdx 0; KName "fields"; KName "b"]
              = Some (val_at lo (jlink "Entry" "gone")) ∧
            rep hf lo (jlink "Entry" "gone") (val_at lo (jlink "Entry" "gone"))
  | Throw _ => True
  | OutOfFuel => False
  end.
Proof.
  intros ps rps.
  apply (unresolved_link_kept 8 rps [JObj ps] default_options
           (new_Map (pairs_of [(VRef 5, ["Entry!a"])]))
           0 ps "fields" [KName "b"] (jlink "Entry" "gone")).
  - vm_compute. reflexivity.
  - vm_compute. lia.
  - reflexivity.
  - reflexivity.
  - reflexivity.
  - vm_compute. reflexivity.
  - vm_compute. exact I.
  - reflexivity.
  - reflexivity.
  - reflexivity.
  - vm_compute. reflexivity.
  - reflexivity.
Defined.

(** X15. With pruning on, an array of links at the end of an exposed path of
    property names is replaced by a new array: what the links resolve to, in
    their order, without the marker. *)
Theorem link_array_pruned fuel rps its o em i ps k p es rs :
  wf (JObj rps) = true → depth (JObj rps) < fuel →
  assoc "items" rps = Some (JArr its) → its !! i = Some (JObj ps) →
  truthy json_reader (prop json_reader (JObj ps) "sys") = true →
  index_of fuel (JObj rps) = Ok em →
  field_walked o k → exposed (JObj ps) (KName k :: p) = true →
  jfollow (JObj ps) (KName k :: p) = Some (JArr es) →
  forallb jpred es = true →
  mapR (getResolvedLink json_reader fuel em) es = Ok rs →
  removeUnresolved o = true → forallb is_name p = true →
  match resolveResponse fuel (JObj rps) o with
  | Ok (r, hf) =>
      ∃ l, follow hf r (KIdx i :: KName k :: p) = Some (VRef l) ∧
           hf !! l = Some (OArr (filter (fun v => v ≠ VRef UNRESOLVED_LINK) rs))
  | Throw _ => True
  | OutOfFuel => False
  end.
Proof.
  intros Hwf Hd Hitems Hi Hsys Hem Hw Hex Hf Hlinks Hrs Hrm Hnames.
  pose proof (resolveResponse_spec fuel (JObj rps) o Hwf Hd (items_truthy _ _ Hitems))
    as Hrun.
  destruct (resolveResponse fuel (JObj rps) o) as [[r hf]| |]; [|done..].
  destruct (item_path_walked fuel o rps its r hf Hwf Hitems Hrun i ps k p (JArr es) em
              Hi Hsys Hem Hw Hex Hf) as (D & w' & HD & Hfol & Hwalk).
  { right. split; [done|]. by rewrite jpred_arr. }
  rewrite Hrm in Hwalk.
  inversion Hwalk as [? ? Hp' _ _|? lo ? Hp' _ _ _ _|q|? ws l _ _ Hlen Hch _ Hl]; subst;
    try by rewrite jpred_arr in Hp'.
  exists l. split; [done|]. rewrite Hl. simpl. do 2 f_equal.
  assert (ws = rs) as ->.
  { apply mapR_Ok in Hrs. simpl in Hlen.
    apply list_eq_same_length with (length es);
      [by apply Forall2_length in Hrs|done|].
    intros j w1 r1 Hj Hw1 Hr1.
    destruct (lookup_lt_is_Some_2 es j Hj) as [c Hc].
    destruct (Forall2_lookup_l _ _ _ _ _ Hrs Hc) as (r1' & Hr1' & Hres).
    assert (r1' = r1) as -> by congruence.
    rewrite forallb_forall in Hlinks.
    assert (Hpc : jpred c = true).
    { apply Hlinks, list_elem_of_In. by eapply list_elem_of_lookup_2. }
    pose proof (Hch j c w1 Hc Hw1) as Hwc.
    inversion Hwc as [? ? _ Hr' _|? lo ? _ _ Hrmf _ _|q|? ws' l' Hp'' _ _ _ _ _]; subst.
    - congruence.
    - done.
    - by rewrite jpred_prim in Hpc.
    - congruence. }
  apply list_filter_iff. intros v. unfold is_marker. split.
  + intros Hb. apply Is_true_true, negb_true_iff, bool_decide_eq_false in Hb. done.
  + intros Hne. apply Is_true_true, negb_true_iff, bool_decide_eq_false. done.
Qed.

Lemma link_array_pruned_witness :
  let tags := [jlink "Entry" "b"; jlink "Entry" "missing"; jlink "Entry" "c"] in
  let ps := [("sys", jsys "Entry" "a"); ("fields", JObj [("tags", JArr tags)])] in
  let rps := [("items", JArr [JObj ps; JObj [("sys", jsys "Entry" "b")];
                              JObj [("sys", jsys "Entry" "c")]])] in
  match resolveResponse 8 (JObj rps) pruning with
  | Ok (r, hf) =>
      ∃ l, follow hf r [KIdx 0; KName "fields"; KName "tags"] = Some (VRef l) ∧
           hf !! l = Some (OArr (filter (fun v => v ≠ VRef UNRESOLVED_LINK)
                                   [VRef 12; VRef UNRESOLVED_LINK; VRef 14]))
  | Throw _ => True
  | OutOfFuel => False
  end.
Proof.
  intros tags ps rps.
  apply (link_array_pruned 8 rps
           [JObj ps; JObj [("sys", jsys "Entry" "b")]; JObj [("sys", jsys "Entry" "c")]]
           pruning
           (new_Map (pairs_of [(VRef 10, ["Entry!a"]); (VRef 12, ["Entry!b"]);
                               (VRef 14, ["Entry!c"])]))
           0 ps "fields" [KName "tags"] tags [VRef 12; VRef UNRESOLVED_LINK; VRef 14]).
  - vm_compute. reflexivity.
  - vm_compute. lia.
  - reflexivity.
  - reflexivity.
  - reflexivity.
  - vm_compute. reflexivity.
  - vm_compute. exact I.
  - reflexivity.
  - reflexivity.
  - reflexivity.
  - vm_compute. reflexivity.
  - reflexivity.
  - reflexivity.
Defined.


